(** * Fogoto crash-game engine: the round state machine of
      [server/game-logic.js], embedded in Rocq.

    JavaScript numbers are idealised as real numbers: arithmetic is exact,
    [Math.exp] is the real exponential, and the two non-numeric answers a
    comparison can meet ([NaN], [undefined]) are kept as values of their own
    in [JS.value].  [Date.now()] and [Math.random()] are read from an
    environment handed to every handler; one handler run sees one clock
    reading, except where the tick is taken up clock reading by clock
    reading ([updateGame_readings]).  [console.log] is not modelled.

    Around the engine the file also embeds its callers and listeners: the
    player manager, the server's [place_bet] handler, admin route and
    settlement listener, the client's dead reckoning of the multiplier, and
    the bots of the admin page. *)

From Stdlib Require Import Reals Lra Lia List String Bool ZArith Zfloor.
From Stdlib Require Import Sorted Permutation.
Import ListNotations.
Open Scope R_scope.

(** ** JavaScript primitives used by the engine *)

Module JS.

(** The primitive values the optional [autoCashOut] argument can hold;
    strings and objects are left out. *)
Inductive value : Type :=
| Undefined
| Null
| Bool (b : bool)
| NaN
| Number (r : R).

(** ToBoolean. *)
Definition truthy (v : value) : bool :=
  match v with
  | Undefined | Null | NaN => false
  | Bool b => b
  | Number r => if Req_dec_T r 0 then false else true
  end.

(** ToNumber; [None] stands for NaN. *)
Definition ToNumber (v : value) : option R :=
  match v with
  | Undefined | NaN => None
  | Null => Some 0
  | Bool b => Some (if b then 1 else 0)
  | Number r => Some r
  end.

(** [a < b] and [a >= b] on numbers: false as soon as one side is NaN. *)
Definition lt (a b : option R) : bool :=
  match a, b with
  | Some x, Some y => if Rlt_dec x y then true else false
  | _, _ => false
  end.

Definition ge (a b : option R) : bool :=
  match a, b with
  | Some x, Some y => if Rle_dec y x then true else false
  | _, _ => false
  end.

(** A default parameter [= null] replaces [undefined] only. *)
Definition default_null (v : value) : value :=
  match v with
  | Undefined => Null
  | _ => v
  end.

(** Truthiness of a plain number ([0] is falsy). *)
Definition truthy_num (r : R) : bool :=
  if Req_dec_T r 0 then false else true.

(** [Number(x.toFixed(digits))]: round half away from zero at [digits]
    decimals; from 1e21 on [toFixed] prints the number itself. *)
Definition roundHalfUp (digits : nat) (x : R) : R :=
  IZR (Zfloor (x * 10 ^ digits + / 2)) / 10 ^ digits.

Definition toFixed (digits : nat) (x : R) : R :=
  if Rle_dec (10 ^ 21) (Rabs x) then x
  else if Rlt_dec x 0 then - roundHalfUp digits (- x)
  else roundHalfUp digits x.

End JS.

(** ** Data model *)

Inductive GAME_STATES : Type := WAITING | STARTING | FLYING | CRASHED.

Definition state_eqb (a b : GAME_STATES) : bool :=
  match a, b with
  | WAITING, WAITING | STARTING, STARTING
  | FLYING, FLYING | CRASHED, CRASHED => true
  | _, _ => false
  end.

(** The value stored in [activePlayers] for one player. *)
Record PlayerData : Type := mkPlayerData {
  bet : R;
  autoCashOut : JS.value;
  hasWon : bool;
  placedAt : R
}.

Record Config : Type := mkConfig {
  waitTime_min : R;
  waitTime_max : R;
  countdownTime : R;
  updateInterval : R;
  predictionInterval : R;
  maxGameTime : R;
  historySize : nat
}.

Record Growth : Type := mkGrowth {
  rate : R;
  minMultiplier : R;
  capMultiplier : R
}.

Record Stats : Type := mkStats {
  totalGames : nat;
  totalBets : R;
  totalPayouts : R;
  averageMultiplier : R;
  uptime : R
}.

(** The callbacks the engine hands to [setTimeout]. *)
Inductive Callback : Type :=
| cb_startCountdown
| cb_startGame
| cb_scheduleNextGame.

(** [activePlayers] is a JS [Map]: an association list in insertion order;
    [cashedOutPlayers] is a JS [Set].  [stateTimeout] is the pending one-shot
    timer (a timer that has fired is no longer pending) and
    [gameLoopInterval] tells whether the tick interval is armed. *)
Record GameEngine : Type := mkGameEngine {
  state : GAME_STATES;
  multiplier : R;
  startTime : option R;
  gameId : nat;
  history : list R;
  activePlayers : list (string * PlayerData);
  cashedOutPlayers : list string;
  gameLoopInterval : bool;
  stateTimeout : option Callback;
  config : Config;
  growth : Growth;
  stats : Stats;
  _lastPredictionBroadcast : R
}.

(** [Date.now()] and [Math.random()] as seen by one handler run.  A run that
    reads the clock more than once is handed the same reading each time; the
    one run that does, the tick, is taken up again with a reading per call
    in [updateGame_readings]. *)
Record Env : Type := mkEnv {
  now : R;
  random : R
}.

(** *** Event payloads *)

Record MultiplierPayload : Type := mkMultiplierPayload {
  p_state : GAME_STATES;
  p_multiplier : R;
  p_displayMultiplier : R;
  p_time : R;
  p_timestamp : R;
  p_growthRate : R
}.

Inductive StatePayload : Type :=
| waiting_payload (st : GAME_STATES) (nextGameIn : R)
| starting_payload (st : GAME_STATES) (countdown : R)
| snapshot_payload (p : MultiplierPayload)
| crashed_payload (st : GAME_STATES) (finalMultiplier : R).

Record ParticipantRecord : Type := mkParticipant {
  part_playerId : string;
  part_betAmount : R;
  part_autoCashOut : JS.value;
  part_hasWon : bool
}.

Record LoserRecord : Type := mkLoser {
  loser_playerId : string;
  loser_betAmount : R
}.

Record Settlement : Type := mkSettlement {
  participants : list ParticipantRecord;
  losers : list LoserRecord
}.

Inductive Event : Type :=
| game_state_changed (payload : StatePayload)
| multiplier_update (payload : MultiplierPayload)
| player_auto_cashed_out
    (playerId : string) (ev_multiplier winAmount betAmount : R)
| round_settled
    (finalMultiplier : R) (ev_losers : list LoserRecord)
    (ev_participants : list ParticipantRecord).

(** *** Command results *)

Inductive CashOutResult : Type :=
| cashOut_ok (co_multiplier co_winAmount co_betAmount : R)
| cashOut_error (error : string).

Inductive ForceCrashResult : Type :=
| forceCrash_ok (fc_multiplier : R)
| forceCrash_error (error : string).

(** ** Field updates *)

Definition set_state (v : GAME_STATES) (e : GameEngine) : GameEngine :=
  mkGameEngine v (multiplier e) (startTime e) (gameId e) (history e)
    (activePlayers e) (cashedOutPlayers e) (gameLoopInterval e)
    (stateTimeout e) (config e) (growth e) (stats e)
    (_lastPredictionBroadcast e).

Definition set_multiplier (v : R) (e : GameEngine) : GameEngine :=
  mkGameEngine (state e) v (startTime e) (gameId e) (history e)
    (activePlayers e) (cashedOutPlayers e) (gameLoopInterval e)
    (stateTimeout e) (config e) (growth e) (stats e)
    (_lastPredictionBroadcast e).

Definition set_startTime (v : option R) (e : GameEngine) : GameEngine :=
  mkGameEngine (state e) (multiplier e) v (gameId e) (history e)
    (activePlayers e) (cashedOutPlayers e) (gameLoopInterval e)
    (stateTimeout e) (config e) (growth e) (stats e)
    (_lastPredictionBroadcast e).

Definition set_gameId (v : nat) (e : GameEngine) : GameEngine :=
  mkGameEngine (state e) (multiplier e) (startTime e) v (history e)
    (activePlayers e) (cashedOutPlayers e) (gameLoopInterval e)
    (stateTimeout e) (config e) (growth e) (stats e)
    (_lastPredictionBroadcast e).

Definition set_history (v : list R) (e : GameEngine) : GameEngine :=
  mkGameEngine (state e) (multiplier e) (startTime e) (gameId e) v
    (activePlayers e) (cashedOutPlayers e) (gameLoopInterval e)
    (stateTimeout e) (config e) (growth e) (stats e)
    (_lastPredictionBroadcast e).

Definition set_activePlayers (v : list (string * PlayerData))
    (e : GameEngine) : GameEngine :=
  mkGameEngine (state e) (multiplier e) (startTime e) (gameId e) (history e)
    v (cashedOutPlayers e) (gameLoopInterval e)
    (stateTimeout e) (config e) (growth e) (stats e)
    (_lastPredictionBroadcast e).

Definition set_cashedOutPlayers (v : list string) (e : GameEngine)
    : GameEngine :=
  mkGameEngine (state e) (multiplier e) (startTime e) (gameId e) (history e)
    (activePlayers e) v (gameLoopInterval e)
    (stateTimeout e) (config e) (growth e) (stats e)
    (_lastPredictionBroadcast e).

Definition set_gameLoopInterval (v : bool) (e : GameEngine) : GameEngine :=
  mkGameEngine (state e) (multiplier e) (startTime e) (gameId e) (history e)
    (activePlayers e) (cashedOutPlayers e) v
    (stateTimeout e) (config e) (growth e) (stats e)
    (_lastPredictionBroadcast e).

Definition set_stateTimeout (v : option Callback) (e : GameEngine)
    : GameEngine :=
  mkGameEngine (state e) (multiplier e) (startTime e) (gameId e) (history e)
    (activePlayers e) (cashedOutPlayers e) (gameLoopInterval e)
    v (config e) (growth e) (stats e)
    (_lastPredictionBroadcast e).

Definition set_stats (v : Stats) (e : GameEngine) : GameEngine :=
  mkGameEngine (state e) (multiplier e) (startTime e) (gameId e) (history e)
    (activePlayers e) (cashedOutPlayers e) (gameLoopInterval e)
    (stateTimeout e) (config e) (growth e) v
    (_lastPredictionBroadcast e).

Definition set_lastPredictionBroadcast (v : R) (e : GameEngine)
    : GameEngine :=
  mkGameEngine (state e) (multiplier e) (startTime e) (gameId e) (history e)
    (activePlayers e) (cashedOutPlayers e) (gameLoopInterval e)
    (stateTimeout e) (config e) (growth e) (stats e) v.

Definition stats_add_game (s : Stats) : Stats :=
  mkStats (S (totalGames s)) (totalBets s) (totalPayouts s)
    (averageMultiplier s) (uptime s).

Definition stats_add_bet (amount : R) (s : Stats) : Stats :=
  mkStats (totalGames s) (totalBets s + amount) (totalPayouts s)
    (averageMultiplier s) (uptime s).

Definition stats_add_payout (winAmount : R) (s : Stats) : Stats :=
  mkStats (totalGames s) (totalBets s) (totalPayouts s + winAmount)
    (averageMultiplier s) (uptime s).

Definition stats_set_average (avg : R) (s : Stats) : Stats :=
  mkStats (totalGames s) (totalBets s) (totalPayouts s) avg (uptime s).

(** ** [Map] and [Set] operations *)

Fixpoint map_get (k : string) (m : list (string * PlayerData))
    : option PlayerData :=
  match m with
  | [] => None
  | (k', v) :: m' => if String.eqb k k' then Some v else map_get k m'
  end.

Definition map_has (k : string) (m : list (string * PlayerData)) : bool :=
  match map_get k m with Some _ => true | None => false end.

(** [Map.prototype.set]: an existing key keeps its place, a new key goes
    last. *)
Fixpoint map_set (k : string) (v : PlayerData)
    (m : list (string * PlayerData)) : list (string * PlayerData) :=
  match m with
  | [] => [(k, v)]
  | (k', v') :: m' =>
      if String.eqb k k' then (k, v) :: m' else (k', v') :: map_set k v m'
  end.

(** [Map.prototype.delete]: the key is gone afterwards. *)
Fixpoint map_delete (k : string) (m : list (string * PlayerData))
    : list (string * PlayerData) :=
  match m with
  | [] => []
  | (k', v') :: m' =>
      if String.eqb k k' then map_delete k m'
      else (k', v') :: map_delete k m'
  end.

Definition keys (m : list (string * PlayerData)) : list string :=
  List.map fst m.

Fixpoint set_has (k : string) (s : list string) : bool :=
  match s with
  | [] => false
  | k' :: s' => if String.eqb k k' then true else set_has k s'
  end.

Definition set_add (k : string) (s : list string) : list string :=
  if set_has k s then s else s ++ [k].

Fixpoint set_delete (k : string) (s : list string) : list string :=
  match s with
  | [] => []
  | k' :: s' =>
      if String.eqb k k' then set_delete k s' else k' :: set_delete k s'
  end.

(** ** The engine monad: state passing plus the list of emitted events *)

Definition M (A : Type) : Type := GameEngine -> A * GameEngine * list Event.

Definition ret {A : Type} (a : A) : M A := fun e => (a, e, []).

Definition bind {A B : Type} (m : M A) (k : A -> M B) : M B :=
  fun e =>
    let '(a, e1, l1) := m e in
    let '(b, e2, l2) := k a e1 in
    (b, e2, l1 ++ l2).

Definition get : M GameEngine := fun e => (e, e, []).

Definition modify (f : GameEngine -> GameEngine) : M unit :=
  fun e => (tt, f e, []).

Definition emit (ev : Event) : M unit := fun e => (tt, e, [ev]).

Declare Scope engine_scope.
Delimit Scope engine_scope with engine.
Notation "x <- m ;; k" := (bind m (fun x => k))
  (at level 61, m at next level, right associativity) : engine_scope.
Notation "m ;; k" := (bind m (fun _ => k))
  (at level 61, right associativity) : engine_scope.
Open Scope engine_scope.

Fixpoint forEach {A : Type} (l : list A) (body : A -> M unit) : M unit :=
  match l with
  | [] => ret tt
  | x :: l' => body x ;; forEach l' body
  end.

Definition when (b : bool) (m : M unit) : M unit :=
  if b then m else ret tt.

(** ** The engine ([class GameEngine]) *)

Definition new_GameEngine (env : Env) : GameEngine :=
  mkGameEngine WAITING 1 None 0%nat [] [] [] false None
    (mkConfig 3000 7000 3000 100 1000 90000 20)
    (mkGrowth 0.2 1 250)
    (mkStats 0 0 0 0 (now env))
    0.

(** [this.startTime ? ... : ...]: [null] and [0] are falsy. *)
Definition startTime_truthy (e : GameEngine) : bool :=
  match startTime e with
  | Some t => JS.truthy_num t
  | None => false
  end.

(** [this.startTime] inside a subtraction: [null] counts as [0]. *)
Definition startTime_num (e : GameEngine) : R :=
  match startTime e with
  | Some t => t
  | None => 0
  end.

Definition getRandomWaitTime (env : Env) : M R :=
  e <- get ;;
  let min := waitTime_min (config e) in
  let max := waitTime_max (config e) in
  ret (IZR (Zfloor (random env * (max - min + 1))) + min).

Definition clearTimers : M unit :=
  e <- get ;;
  when (gameLoopInterval e) (modify (set_gameLoopInterval false)) ;;
  e <- get ;;
  when (match stateTimeout e with Some _ => true | None => false end)
       (modify (set_stateTimeout None)).

Definition scheduleNextGame (env : Env) : M unit :=
  waitTime <- getRandomWaitTime env ;;
  modify (set_state WAITING) ;;
  e <- get ;;
  emit (game_state_changed (waiting_payload (state e) (waitTime / 1000))) ;;
  modify (set_stateTimeout (Some cb_startCountdown)).

Definition start (env : Env) : M unit := scheduleNextGame env.

Definition stop : M unit :=
  clearTimers ;;
  modify (set_state WAITING).

Definition startCountdown : M unit :=
  modify (set_state STARTING) ;;
  modify (set_cashedOutPlayers []) ;;
  e <- get ;;
  emit (game_state_changed
          (starting_payload (state e) (countdownTime (config e) / 1000))) ;;
  modify (set_stateTimeout (Some cb_startGame)).

Definition buildMultiplierPayload (env : Env)
    (explicitElapsed explicitTimestamp : option R) : M MultiplierPayload :=
  e <- get ;;
  let timestamp :=
    match explicitTimestamp with Some t => t | None => now env end in
  let elapsed :=
    match explicitElapsed with
    | Some el => el
    | None =>
        if startTime_truthy e
        then (timestamp - startTime_num e) / 1000
        else 0
    end in
  ret (mkMultiplierPayload (state e)
         (JS.toFixed 4 (multiplier e))
         (JS.toFixed 2 (multiplier e))
         elapsed timestamp (rate (growth e))).

Definition startGameLoop : M unit :=
  modify (set_gameLoopInterval true).

Definition startGame (env : Env) : M unit :=
  modify (fun e => set_gameId (S (gameId e)) e) ;;
  modify (set_state FLYING) ;;
  modify (set_multiplier 1) ;;
  modify (set_startTime (Some (now env))) ;;
  modify (set_cashedOutPlayers []) ;;
  modify (set_lastPredictionBroadcast 0) ;;
  payload <- buildMultiplierPayload env (Some 0) None ;;
  emit (game_state_changed (snapshot_payload payload)) ;;
  startGameLoop.

Definition calculateMultiplier (e : GameEngine) (timeInSeconds : R) : R :=
  let g := growth e in
  let m := exp (rate g * timeInSeconds) in
  Rmin (Rmax m (minMultiplier g)) (capMultiplier g).

(** The probability that [shouldCrash] compares [Math.random()] with. *)
Definition crashChance (elapsedSeconds mult : R) : R :=
  let c0 := 0.0008 in
  let c1 :=
    if Rlt_dec 30 elapsedSeconds
    then c0 + (elapsedSeconds - 30) * 0.0006 else c0 in
  let c2 :=
    if Rlt_dec 5 mult
    then c1 + (mult - 5) * 0.0015 else c1 in
  Rmin c2 0.08.

Definition shouldCrash (env : Env) (mult : R) : M bool :=
  e <- get ;;
  let elapsedSeconds :=
    if startTime_truthy e then (now env - startTime_num e) / 1000 else 0 in
  ret (if Rlt_dec (random env) (crashChance elapsedSeconds mult)
       then true else false).

Definition won (pd : PlayerData) : PlayerData :=
  mkPlayerData (bet pd) (autoCashOut pd) true (placedAt pd).

Definition performAutoCashOut (playerId : string) (playerData : PlayerData)
    : M unit :=
  e <- get ;;
  let winAmount := bet playerData * multiplier e in
  modify (fun e =>
    set_cashedOutPlayers (set_add playerId (cashedOutPlayers e)) e) ;;
  modify (fun e =>
    set_activePlayers
      (map_set playerId (won playerData) (activePlayers e)) e) ;;
  modify (fun e => set_stats (stats_add_payout winAmount (stats e)) e) ;;
  e <- get ;;
  emit (player_auto_cashed_out playerId (multiplier e) winAmount
          (bet playerData)).

Definition autoCashOut_due (e : GameEngine) (playerId : string)
    (playerData : PlayerData) : bool :=
  JS.truthy (autoCashOut playerData)
  && negb (set_has playerId (cashedOutPlayers e))
  && JS.ge (Some (multiplier e)) (JS.ToNumber (autoCashOut playerData)).

(** One turn of the loop of [checkAutoCashOuts]. *)
Definition checkAutoCashOuts_body (entry : string * PlayerData) : M unit :=
  let '(playerId, playerData) := entry in
  e <- get ;;
  when (autoCashOut_due e playerId playerData)
       (performAutoCashOut playerId playerData).

Definition checkAutoCashOuts : M unit :=
  e <- get ;;
  forEach (activePlayers e) checkAutoCashOuts_body.

Fixpoint finalizeBets_loop (cashed : list string)
    (entries : list (string * PlayerData)) : Settlement :=
  match entries with
  | [] => mkSettlement [] []
  | (playerId, playerData) :: rest =>
      let record :=
        mkParticipant playerId (bet playerData) (autoCashOut playerData)
          (set_has playerId cashed) in
      let s := finalizeBets_loop cashed rest in
      mkSettlement (record :: participants s)
        (if negb (part_hasWon record)
         then mkLoser playerId (bet playerData) :: losers s
         else losers s)
  end.

Definition finalizeBets : M Settlement :=
  e <- get ;;
  let settlement :=
    finalizeBets_loop (cashedOutPlayers e) (activePlayers e) in
  modify (set_activePlayers []) ;;
  modify (set_cashedOutPlayers []) ;;
  ret settlement.

Definition addToHistory (mult : R) : M unit :=
  modify (fun e => set_history (JS.toFixed 2 mult :: history e) e) ;;
  e <- get ;;
  when (Nat.ltb (historySize (config e)) (List.length (history e)))
       (modify (fun e => set_history (removelast (history e)) e)).

Definition updateAverageMultiplier : M unit :=
  e <- get ;;
  when (Nat.ltb 0 (List.length (history e)))
       (let sum := fold_left Rplus (history e) 0 in
        modify (fun e =>
          set_stats
            (stats_set_average (sum / INR (List.length (history e)))
               (stats e)) e)).

Definition crashGame (env : Env) (trigger : option string) : M unit :=
  clearTimers ;;
  modify (set_state CRASHED) ;;
  e <- get ;;
  when (startTime_truthy e)
       (let elapsed := (now env - startTime_num e) / 1000 in
        finalSnapshot <-
          buildMultiplierPayload env (Some elapsed) (Some (now env)) ;;
        emit (multiplier_update finalSnapshot)) ;;
  modify (fun e => set_stats (stats_add_game (stats e)) e) ;;
  updateAverageMultiplier ;;
  e <- get ;;
  addToHistory (multiplier e) ;;
  settlement <- finalizeBets ;;
  e <- get ;;
  emit (game_state_changed (crashed_payload (state e) (multiplier e))) ;;
  emit (round_settled (multiplier e) (losers settlement)
          (participants settlement)) ;;
  modify (set_stateTimeout (Some cb_scheduleNextGame)).

Definition forceCrash (env : Env) (reason : string) : M ForceCrashResult :=
  e <- get ;;
  if negb (state_eqb (state e) FLYING)
  then ret (forceCrash_error "Game is not currently flying")
  else
    crashGame env (Some reason) ;;
    e <- get ;;
    ret (forceCrash_ok (multiplier e)).

(** The tick.  [env] is the reading at its top; [shouldCrash] and
    [crashGame], which read the clock again, are handed the same reading
    here. *)
Definition updateGame (env : Env) : M unit :=
  e <- get ;;
  if negb (state_eqb (state e) FLYING) then ret tt
  else
    let elapsed := (now env - startTime_num e) / 1000 in
    let newMultiplier := calculateMultiplier e elapsed in
    modify (set_multiplier newMultiplier) ;;
    e <- get ;;
    when (negb (JS.truthy_num (_lastPredictionBroadcast e))
          || (if Rle_dec (predictionInterval (config e))
                         (now env - _lastPredictionBroadcast e)
              then true else false))
         (modify (set_lastPredictionBroadcast (now env)) ;;
          predictionPayload <-
            buildMultiplierPayload env (Some elapsed) (Some (now env)) ;;
          emit (multiplier_update predictionPayload)) ;;
    e <- get ;;
    crash <- shouldCrash env (multiplier e) ;;
    if crash then crashGame env None
    else
      e <- get ;;
      if Rle_dec (maxGameTime (config e) / 1000) elapsed
      then crashGame env None
      else
        checkAutoCashOuts ;;
        payload <-
          buildMultiplierPayload env (Some elapsed) (Some (now env)) ;;
        emit (game_state_changed (snapshot_payload payload)).

Definition canPlaceBet (e : GameEngine) : bool :=
  state_eqb (state e) WAITING || state_eqb (state e) STARTING.

Definition placeBet (env : Env) (playerId : string) (amount : R)
    (autoCashOut_arg : JS.value) : M bool :=
  let autoCashOut := JS.default_null autoCashOut_arg in
  e <- get ;;
  if negb (canPlaceBet e) then ret false
  else if JS.truthy autoCashOut
          && JS.lt (JS.ToNumber autoCashOut) (Some 1.01)
  then ret false
  else
    modify (fun e =>
      set_activePlayers
        (map_set playerId (mkPlayerData amount autoCashOut false (now env))
           (activePlayers e)) e) ;;
    modify (fun e => set_stats (stats_add_bet amount (stats e)) e) ;;
    ret true.

Definition cashOut (playerId : string) : M CashOutResult :=
  e <- get ;;
  if negb (state_eqb (state e) FLYING)
  then ret (cashOut_error "Cannot cash out at this time")
  else if negb (map_has playerId (activePlayers e))
  then ret (cashOut_error "No active bet found")
  else if set_has playerId (cashedOutPlayers e)
  then ret (cashOut_error "Already cashed out")
  else
    match map_get playerId (activePlayers e) with
    | None => ret (cashOut_error "No active bet found")
    | Some playerData =>
        let winAmount := bet playerData * multiplier e in
        modify (fun e =>
          set_cashedOutPlayers (set_add playerId (cashedOutPlayers e)) e) ;;
        modify (fun e =>
          set_activePlayers
            (map_set playerId (won playerData) (activePlayers e)) e) ;;
        modify (fun e => set_stats (stats_add_payout winAmount (stats e)) e) ;;
        e <- get ;;
        ret (cashOut_ok (multiplier e) winAmount (bet playerData))
    end.

Definition removePlayer (playerId : string) : M unit :=
  modify (fun e =>
    set_activePlayers (map_delete playerId (activePlayers e)) e) ;;
  modify (fun e =>
    set_cashedOutPlayers (set_delete playerId (cashedOutPlayers e)) e).

Definition getHistory (e : GameEngine) : list R := history e.

Definition getActivePlayers (e : GameEngine) : list string :=
  keys (activePlayers e).

(** ** Driving the engine: commands and timers *)

(** What reaches a started engine: the calls of the server and the firing of
    the timers the engine has armed.  [start] is not among them: the server
    calls it once, before anything else (see [started_engine]). *)
Inductive Input : Type :=
| call_placeBet (playerId : string) (amount : R) (autoCashOut_arg : JS.value)
| call_cashOut (playerId : string)
| call_removePlayer (playerId : string)
| call_forceCrash (reason : string)
| call_stop
| timeout_fires
| interval_fires.

Inductive Output : Type :=
| out_placeBet (accepted : bool)
| out_cashOut (r : CashOutResult)
| out_forceCrash (r : ForceCrashResult)
| out_void.

Definition run_callback (env : Env) (cb : Callback) : M unit :=
  match cb with
  | cb_startCountdown => startCountdown
  | cb_startGame => startGame env
  | cb_scheduleNextGame => scheduleNextGame env
  end.

(** The pending one-shot timer fires: it stops being pending and its
    callback runs. *)
Definition fire_timeout (env : Env) : M unit :=
  e <- get ;;
  match stateTimeout e with
  | None => ret tt
  | Some cb => modify (set_stateTimeout None) ;; run_callback env cb
  end.

(** The tick interval fires, if it is armed. *)
Definition fire_interval (env : Env) : M unit :=
  e <- get ;;
  when (gameLoopInterval e) (updateGame env).

Definition handle (env : Env) (i : Input) : M Output :=
  match i with
  | call_placeBet playerId amount a =>
      b <- placeBet env playerId amount a ;; ret (out_placeBet b)
  | call_cashOut playerId =>
      r <- cashOut playerId ;; ret (out_cashOut r)
  | call_removePlayer playerId =>
      removePlayer playerId ;; ret out_void
  | call_forceCrash reason =>
      r <- forceCrash env reason ;; ret (out_forceCrash r)
  | call_stop => stop ;; ret out_void
  | timeout_fires => fire_timeout env ;; ret out_void
  | interval_fires => fire_interval env ;; ret out_void
  end.

(** One entry of a run: what came in, what was returned, what was emitted. *)
Record Step : Type := mkStep {
  step_input : Input;
  step_output : Output;
  step_events : list Event
}.

Fixpoint run (e : GameEngine) (ins : list (Env * Input))
    : GameEngine * list Step :=
  match ins with
  | [] => (e, [])
  | (env, i) :: rest =>
      let '(o, e1, evs) := handle env i e in
      let '(e2, steps) := run e1 rest in
      (e2, mkStep i o evs :: steps)
  end.

(** The engine as the server sets it up: constructed, then started. *)
Definition started_engine (env : Env) : GameEngine :=
  snd (fst (start env (new_GameEngine env))).

(** Engines the running server can hold: a started engine after any
    sequence of commands and timer firings. *)
Definition reachable (e : GameEngine) : Prop :=
  exists env ins, e = fst (run (started_engine env) ins).

(** ** The specification's [clamp] *)

Definition clamp (x lo hi : R) : R :=
  if Rlt_dec x lo then lo else if Rlt_dec hi x then hi else x.

(** ** Vocabulary of the properties *)

(** A handler leaves the field [f] of the engine as it found it. *)
Definition keeps {X A : Type} (f : GameEngine -> X) (m : M A) : Prop :=
  forall e, f (snd (fst (m e))) = f e.

(** What [crashGame] emits, and the history it leaves. *)
Definition crash_events (env : Env) (e : GameEngine) : list Event :=
  (if startTime_truthy e
   then [multiplier_update
           (mkMultiplierPayload CRASHED (JS.toFixed 4 (multiplier e))
              (JS.toFixed 2 (multiplier e))
              ((now env - startTime_num e) / 1000) (now env)
              (rate (growth e)))]
   else [])
  ++ [game_state_changed (crashed_payload CRASHED (multiplier e));
      round_settled (multiplier e)
        (losers (finalizeBets_loop (cashedOutPlayers e) (activePlayers e)))
        (participants
           (finalizeBets_loop (cashedOutPlayers e) (activePlayers e)))].

Definition pushed_history (cap : nat) (m : R) (h : list R) : list R :=
  if Nat.ltb cap (List.length (JS.toFixed 2 m :: h))
  then removelast (JS.toFixed 2 m :: h)
  else JS.toFixed 2 m :: h.


(** The first half of a tick of [updateGame]: the engine once the multiplier
    is refreshed and the throttled snapshot is sent, the snapshot itself, and
    whether the tick ends the round. *)
Definition tick_elapsed (env : Env) (e : GameEngine) : R :=
  (now env - startTime_num e) / 1000.

Definition tick_broadcasts (env : Env) (e : GameEngine) : bool :=
  negb (JS.truthy_num (_lastPredictionBroadcast e))
  || (if Rle_dec (predictionInterval (config e))
                 (now env - _lastPredictionBroadcast e)
      then true else false).

Definition tick_engine (env : Env) (e : GameEngine) : GameEngine :=
  let e1 := set_multiplier (calculateMultiplier e (tick_elapsed env e)) e in
  if tick_broadcasts env e
  then set_lastPredictionBroadcast (now env) e1
  else e1.

Definition snapshot_of (env : Env) (elapsed : R) (e : GameEngine)
    : MultiplierPayload :=
  mkMultiplierPayload (state e) (JS.toFixed 4 (multiplier e))
    (JS.toFixed 2 (multiplier e)) elapsed (now env) (rate (growth e)).

Definition tick_broadcast (env : Env) (e : GameEngine) : list Event :=
  if tick_broadcasts env e
  then [multiplier_update
          (snapshot_of env (tick_elapsed env e) (tick_engine env e))]
  else [].

Definition tick_crashes (env : Env) (e : GameEngine) : bool :=
  (if Rlt_dec (random env)
        (crashChance
           (if startTime_truthy e then tick_elapsed env e else 0)
           (calculateMultiplier e (tick_elapsed env e)))
   then true else false)
  || (if Rle_dec (maxGameTime (config e) / 1000) (tick_elapsed env e)
      then true else false).

(** The configuration the constructor fixes. *)
Definition settings (e : GameEngine) : Config * Growth :=
  (config e, growth e).

(** Every event a handler emits satisfies [P]. *)
Definition emits_only {A : Type} (P : Event -> Prop) (m : M A) : Prop :=
  forall e, Forall P (snd (m e)).

Definition not_settlement (ev : Event) : Prop :=
  match ev with
  | round_settled _ _ _ => False
  | _ => True
  end.

(** The final multipliers announced by [round_settled], oldest first. *)
Definition final_multipliers (evs : list Event) : list R :=
  flat_map (fun ev =>
    match ev with
    | round_settled fm _ _ => [fm]
    | _ => []
    end) evs.

Definition run_events (steps : list Step) : list Event :=
  flat_map step_events steps.

(** A whole round driven from outside, starting at clock reading [t0] with
    the wait timer pending: countdown, take-off at [t0 + 1000], one tick ten
    milliseconds into the flight that does not crash, an admin crash, and the
    display delay that schedules the next round. *)
Definition flight_round (t0 : R) : list (Env * Input) :=
  [ (mkEnv t0 0, timeout_fires);
    (mkEnv (t0 + 1000) 0, timeout_fires);
    (mkEnv (t0 + 1010) 0.99, interval_fires);
    (mkEnv (t0 + 1020) 0, call_forceCrash "admin_override");
    (mkEnv (t0 + 3020) 0, timeout_fires) ].

Fixpoint flight_rounds (n : nat) (t0 : R) : list (Env * Input) :=
  match n with
  | O => []
  | S k => flight_round t0 ++ flight_rounds k (t0 + 5000)
  end.

(** The engine is between rounds with the wait timer pending, nobody has a
    wager, and the configuration is the constructor's. *)
Definition awaiting_round (e : GameEngine) : Prop :=
  stateTimeout e = Some cb_startCountdown /\
  activePlayers e = [] /\
  settings e = (mkConfig 3000 7000 3000 100 1000 90000 20,
                mkGrowth 0.2 1 250).

(** The threshold test of [placeBet]: [autoCashOut && autoCashOut < 1.01]. *)
Definition threshold_rejected (a : JS.value) : bool :=
  JS.truthy a && JS.lt (JS.ToNumber a) (Some 1.01).

(** The acceptance rule for [placeBet] in the specification's words: the
    state is WAITING or STARTING, the amount is a positive number, and the
    threshold, when present, is at least 1.01. *)
Definition spec_placeBet_accepts (e : GameEngine) (amount : R)
    (a : JS.value) : Prop :=
  (state e = WAITING \/ state e = STARTING) /\
  0 < amount /\
  match a with
  | JS.Undefined | JS.Null => True
  | JS.Number x => 1.01 <= x
  | JS.Bool _ | JS.NaN => False
  end.

(** Why a command is turned down: the early return taken. *)
Inductive Rejection : Type :=
| wrong_state
| wager_not_found
| already_settled
| threshold_below_minimum
| not_flying.

Definition placeBet_rejection (e : GameEngine) (a : JS.value)
    : option Rejection :=
  if negb (canPlaceBet e) then Some wrong_state
  else if threshold_rejected (JS.default_null a)
  then Some threshold_below_minimum
  else None.

Definition cashOut_rejection (playerId : string) (e : GameEngine)
    : option Rejection :=
  if negb (state_eqb (state e) FLYING) then Some wrong_state
  else if negb (map_has playerId (activePlayers e)) then Some wager_not_found
  else if set_has playerId (cashedOutPlayers e) then Some already_settled
  else None.

Definition forceCrash_rejection (e : GameEngine) : option Rejection :=
  if negb (state_eqb (state e) FLYING) then Some not_flying else None.

(** Reading the rejection back from the [error] string of a result. *)
Definition reason_of_error (s : string) : option Rejection :=
  if String.eqb s "Cannot cash out at this time" then Some wrong_state
  else if String.eqb s "No active bet found" then Some wager_not_found
  else if String.eqb s "Already cashed out" then Some already_settled
  else if String.eqb s "Game is not currently flying" then Some not_flying
  else None.

(** The settlement lists as a partition of the wagers. *)
Definition participant_of (cashed : list string)
    (entry : string * PlayerData) : ParticipantRecord :=
  mkParticipant (fst entry) (bet (snd entry)) (autoCashOut (snd entry))
    (set_has (fst entry) cashed).

Definition loser_of (entry : string * PlayerData) : LoserRecord :=
  mkLoser (fst entry) (bet (snd entry)).

Definition unsettled (cashed : list string) (entry : string * PlayerData)
    : bool :=
  negb (set_has (fst entry) cashed).

(** A flying engine: started, countdown over, take-off at clock 6000. *)
Definition flying_engine : GameEngine :=
  fst (run (started_engine (mkEnv 0 0))
         [ (mkEnv 3000 0, timeout_fires); (mkEnv 6000 0, timeout_fires) ]).

(** ** Outcomes of a wager *)

(** The engine once [performAutoCashOut] has settled the wager. *)
Definition auto_settled (playerId : string) (playerData : PlayerData)
    (e : GameEngine) : GameEngine :=
  set_stats
    (stats_add_payout (bet playerData * multiplier e) (stats e))
    (set_activePlayers
       (map_set playerId (won playerData) (activePlayers e))
       (set_cashedOutPlayers (set_add playerId (cashedOutPlayers e)) e)).

Definition is_auto_for (p : string) (ev : Event) : bool :=
  match ev with
  | player_auto_cashed_out q _ _ _ => String.eqb p q
  | _ => false
  end.

(** How many [player_auto_cashed_out] events name the player. *)
Definition auto_cashOuts (p : string) (evs : list Event) : nat :=
  List.length (filter (is_auto_for p) evs).













(** The player's wagers all have a falsy threshold. *)
Definition no_threshold (p : string) (e : GameEngine) : Prop :=
  forall pd, In (p, pd) (activePlayers e) ->
    JS.truthy (autoCashOut pd) = false.

Definition is_placeBet_for (p : string) (i : Input) : bool :=
  match i with
  | call_placeBet q _ _ => String.eqb p q
  | _ => false
  end.



(** Only a forced crash and a tick can end a round. *)
Definition may_crash (i : Input) : bool :=
  match i with
  | call_forceCrash _ | interval_fires => true
  | _ => false
  end.

(** ** Invariants of a running engine *)

(** The timers fit the state: the tick interval is armed exactly in flight,
    and the pending timeout is the one that leaves the current state (in
    WAITING there may be none, once the engine is stopped). *)
Definition timers_agree (e : GameEngine) : Prop :=
  (gameLoopInterval e = true <-> state e = FLYING) /\
  match state e with
  | WAITING =>
      stateTimeout e = Some cb_startCountdown \/ stateTimeout e = None
  | STARTING => stateTimeout e = Some cb_startGame
  | FLYING => stateTimeout e = None
  | CRASHED => stateTimeout e = Some cb_scheduleNextGame
  end.

(** What one input may do to the state. *)
Definition transition_allowed (i : Input) (s s' : GAME_STATES) : Prop :=
  match i with
  | call_placeBet _ _ _ | call_cashOut _ | call_removePlayer _ => s' = s
  | call_forceCrash _ | interval_fires =>
      s' = s \/ (s = FLYING /\ s' = CRASHED)
  | call_stop => s' = WAITING
  | timeout_fires =>
      s' = s \/ (s = WAITING /\ s' = STARTING)
      \/ (s = STARTING /\ s' = FLYING) \/ (s = CRASHED /\ s' = WAITING)
  end.

(** The numbers of the engine stay in range: the constructor's settings, a
    multiplier between 1 and the cap, and a history of at most [historySize]
    entries in the same range. *)
Definition numbers_agree (e : GameEngine) : Prop :=
  settings e = (mkConfig 3000 7000 3000 100 1000 90000 20,
                mkGrowth 0.2 1 250) /\
  1 <= multiplier e <= 250 /\
  Forall (fun h => 1 <= h <= 250) (history e) /\
  (List.length (history e) <= 20)%nat.

Definition is_auto_event (ev : Event) : bool :=
  match ev with
  | player_auto_cashed_out _ _ _ _ => true
  | _ => false
  end.

(** A flight with one wager: p1 stakes 100 without threshold during the
    wait, then countdown and take-off at clock 6000. *)
Definition betting_flight : GameEngine :=
  fst (run (started_engine (mkEnv 0 0))
         [ (mkEnv 100 0, call_placeBet "p1" 100 JS.Null);
           (mkEnv 3000 0, timeout_fires);
           (mkEnv 6000 0, timeout_fires) ]).

(** The wagers and the settled markers fit together: one wager per player,
    markers only for players holding a wager and only in flight or once the
    engine is stopped, a wager flagged [hasWon] always marked, and no wager
    left while the crash is displayed. *)
Definition wagers_agree (e : GameEngine) : Prop :=
  NoDup (keys (activePlayers e)) /\
  (forall p, In p (cashedOutPlayers e) ->
     In p (keys (activePlayers e)) /\
     (state e = FLYING \/ stateTimeout e = None)) /\
  (forall p pd, In (p, pd) (activePlayers e) -> hasWon pd = true ->
     In p (cashedOutPlayers e)) /\
  (state e = CRASHED -> activePlayers e = []).

(** A flight with a threshold: p2 stakes 50 with auto-cash-out at 1.5 during
    the wait, then countdown and take-off at clock 6000. *)
Definition threshold_flight : GameEngine :=
  fst (run (started_engine (mkEnv 0 0))
         [ (mkEnv 100 0, call_placeBet "p2" 50 (JS.Number 1.5));
           (mkEnv 3000 0, timeout_fires);
           (mkEnv 6000 0, timeout_fires) ]).

(** The engine after [stop]: WAITING with neither timer pending. *)
Definition stopped (e : GameEngine) : Prop :=
  state e = WAITING /\ stateTimeout e = None /\ gameLoopInterval e = false.

(** What no input changes on a stopped engine. *)
Definition frozen (e : GameEngine)
    : GAME_STATES * R * nat * list R * nat * R :=
  (state e, multiplier e, gameId e, history e, totalGames (stats e),
   totalPayouts (stats e)).

Definition is_cashOut_ok (o : Output) : bool :=
  match o with
  | out_cashOut (cashOut_ok _ _ _) => true
  | _ => false
  end.

(** What the announcement of a state change promises about the delay to the
    next one: a wait of a whole number of milliseconds between 3000 and
    7000, given in seconds, and a countdown of 3 seconds. *)
Definition delay_announced (ev : Event) : Prop :=
  match ev with
  | game_state_changed (waiting_payload st n) =>
      st = WAITING /\
      exists k : Z, n = IZR k / 1000 /\ (3000 <= k <= 7000)%Z
  | game_state_changed (starting_payload st c) => st = STARTING /\ c = 3
  | _ => True
  end.

(** ** The books of the engine *)

Definition auto_win (ev : Event) : R :=
  match ev with
  | player_auto_cashed_out _ _ w _ => w
  | _ => 0
  end.

Definition sum_of {A : Type} (f : A -> R) (l : list A) : R :=
  fold_right Rplus 0 (map f l).

(** What a step pays out: the win of a [cashOut] that succeeded and the wins
    of the automatic cash-outs the step announces. *)
Definition paid_out (st : Step) : R :=
  match step_output st with
  | out_cashOut (cashOut_ok _ w _) => w
  | _ => 0
  end
  + sum_of auto_win (step_events st).

(** What a step takes in: the amount of a [placeBet] that was accepted. *)
Definition staked (st : Step) : R :=
  match step_input st, step_output st with
  | call_placeBet _ a _, out_placeBet true => a
  | _, _ => 0
  end.

(** How many rounds the run has settled. *)
Definition rounds_settled (steps : list Step) : nat :=
  List.length (final_multipliers (run_events steps)).

(** The counters fit: no more rounds finished than started, and one less
    while a round is in flight. *)
Definition games_agree (e : GameEngine) : Prop :=
  (totalGames (stats e) <= gameId e)%nat /\
  (state e = FLYING -> (totalGames (stats e) < gameId e)%nat).

(** The mean the way [updateAverageMultiplier] computes it. *)
Definition mean (l : list R) : R :=
  fold_left Rplus l 0 / INR (List.length l).

(** The average on display is the initial 0 or a mean of history entries. *)
Definition average_agree (e : GameEngine) : Prop :=
  averageMultiplier (stats e) = 0 \/ 1 <= averageMultiplier (stats e) <= 250.

(** ** Prediction snapshots *)

Definition is_update (ev : Event) : bool :=
  match ev with
  | multiplier_update _ => true
  | _ => false
  end.

(** How many [multiplier_update] events are among the events. *)
Definition updates (evs : list Event) : nat :=
  List.length (filter is_update evs).

Definition no_update (ev : Event) : Prop :=
  match ev with
  | multiplier_update _ => False
  | _ => True
  end.

(** A snapshot taken at clock reading [now_] describes the flight that took
    off at [start] and whose multiplier is [m]: its time is the flight time
    in seconds, its growth rate the engine's, [m] follows from the two by
    the growth formula, and the two multipliers it carries are [m] rounded
    to four and to two decimals. *)
Definition snapshot_agrees (start now_ m : R) (p : MultiplierPayload)
    : Prop :=
  p_timestamp p = now_ /\
  p_time p = (now_ - start) / 1000 /\
  p_growthRate p = 0.2 /\
  m = clamp (exp (p_growthRate p * p_time p)) 1 250 /\
  p_multiplier p = JS.toFixed 4 m /\
  p_displayMultiplier p = JS.toFixed 2 m /\
  Rabs (p_multiplier p - m) <= 0.00005 /\
  Rabs (p_displayMultiplier p - m) <= 0.005.

Definition snapshots_agree (start now_ m : R) (ev : Event) : Prop :=
  match ev with
  | multiplier_update p => snapshot_agrees start now_ m p
  | game_state_changed (snapshot_payload p) => snapshot_agrees start now_ m p
  | _ => True
  end.

Definition no_snapshot (ev : Event) : Prop :=
  match ev with
  | multiplier_update _ => False
  | game_state_changed (snapshot_payload _) => False
  | _ => True
  end.

(** ** The client's dead reckoning ([Game] of the client's [game.js])

    Between two snapshots the client extrapolates the multiplier from the
    last snapshot.  The numbers kept in the snapshot are real numbers here,
    so the [Number.isFinite] tests on them hold; the calls into the user
    interface are not modelled, and [Date.now()] is an argument. *)

Module Client.

Definition DEFAULT_GROWTH_RATE : R := 0.2.

Definition MULTIPLIER_CAP : R := 250.

(** The [data] object of a [multiplier_update] message, field by field. *)
Record SnapshotData : Type := mkSnapshotData {
  data_multiplier : JS.value;
  data_displayMultiplier : JS.value;
  data_time : JS.value;
  data_timestamp : JS.value;
  data_growthRate : JS.value
}.

Record PredictionSnapshot : Type := mkPredictionSnapshot {
  multiplier : R;
  time : R;
  timestamp : R;
  growthRate : R;
  displayMultiplier : R
}.

(** The fields of [Game] the prediction reads and writes. *)
Record Game : Type := mkGame {
  gameState : GAME_STATES;
  predictionSnapshot : option PredictionSnapshot;
  lastPredictedDisplay : option R;
  multiplierCap : R;
  defaultGrowthRate : R
}.

Record Prediction : Type := mkPrediction {
  predicted_multiplier : R;
  predicted_time : R
}.

(** [typeof v === 'number' && Number.isFinite(v)]. *)
Definition finite_number (v : JS.value) : option R :=
  match v with
  | JS.Number r => Some r
  | _ => None
  end.

Definition handlePredictionSnapshot (now_ : R) (data : option SnapshotData)
    (g : Game) : Game :=
  match data with
  | None => g
  | Some d =>
      if negb (state_eqb (gameState g) FLYING) then g
      else
        match finite_number (data_multiplier d) with
        | None => g
        | Some rawMultiplier =>
            let fallback :=
              match predictionSnapshot g with
              | Some s =>
                  if JS.truthy_num (growthRate s) then growthRate s
                  else defaultGrowthRate g
              | None => defaultGrowthRate g
              end in
            let growthRate_ :=
              match data_growthRate d with
              | JS.Number r => if Rlt_dec 0 r then r else fallback
              | _ => fallback
              end in
            if negb (JS.truthy_num growthRate_)
               || (if Rle_dec growthRate_ 0 then true else false)
            then g
            else
              let safeMultiplier := Rmax 1 rawMultiplier in
              let timeValue :=
                match finite_number (data_time d) with
                | Some t => t
                | None => ln safeMultiplier / growthRate_
                end in
              let timestamp_ :=
                match finite_number (data_timestamp d) with
                | Some t => t
                | None => now_
                end in
              let displayMultiplier_ :=
                match finite_number (data_displayMultiplier d) with
                | Some x => x
                | None => JS.toFixed 2 safeMultiplier
                end in
              mkGame (gameState g)
                (Some (mkPredictionSnapshot safeMultiplier
                         (Rmax 0 timeValue) timestamp_ growthRate_
                         displayMultiplier_))
                (Some displayMultiplier_)
                (multiplierCap g) (defaultGrowthRate g)
        end
  end.

Definition getPredictedMultiplier (now_ : R) (g : Game)
    : option Prediction :=
  if negb (state_eqb (gameState g) FLYING) then None
  else
    match predictionSnapshot g with
    | None => None
    | Some s =>
        if Rle_dec (growthRate s) 0 then None
        else
          let baseTime := time s in
          let elapsedSinceSnapshot :=
            Rmax 0 ((now_ - timestamp s) / 1000) in
          let predictedTime := baseTime + elapsedSinceSnapshot in
          let predictedMultiplier := exp (growthRate s * predictedTime) in
          Some (mkPrediction
                  (Rmin (multiplierCap g) (Rmax 1 predictedMultiplier))
                  predictedTime)
    end.

(** The snapshot the client holds can be extrapolated from. *)
Definition sane (g : Game) : Prop :=
  forall s, predictionSnapshot g = Some s ->
    0 < growthRate s /\ 0 <= time s /\ 1 <= multiplier s.

End Client.

(** A snapshot of the engine as the client receives it: every number of the
    payload arrives as a number. *)
Definition wire (p : MultiplierPayload) : Client.SnapshotData :=
  Client.mkSnapshotData (JS.Number (p_multiplier p))
    (JS.Number (p_displayMultiplier p)) (JS.Number (p_time p))
    (JS.Number (p_timestamp p)) (JS.Number (p_growthRate p)).

(** ** Maps keyed by a player id, whatever they hold

    A JS [Map] in insertion order, as an association list: [set] on a key
    that is present keeps its place, on a new key appends. *)

Section IdMap.

Context {V : Type}.

Fixpoint imap_get (k : string) (m : list (string * V)) : option V :=
  match m with
  | [] => None
  | (k', v) :: m' => if String.eqb k k' then Some v else imap_get k m'
  end.

Fixpoint imap_set (k : string) (v : V) (m : list (string * V))
    : list (string * V) :=
  match m with
  | [] => [(k, v)]
  | (k', v') :: m' =>
      if String.eqb k k' then (k, v) :: m' else (k', v') :: imap_set k v m'
  end.

Fixpoint imap_delete (k : string) (m : list (string * V))
    : list (string * V) :=
  match m with
  | [] => []
  | (k', v') :: m' =>
      if String.eqb k k' then imap_delete k m'
      else (k', v') :: imap_delete k m'
  end.

Definition imap_keys (m : list (string * V)) : list string := map fst m.

Definition imap_values (m : list (string * V)) : list V := map snd m.

End IdMap.

(** ** The player manager ([class PlayerManager])

    Socket references and logging are left out; [Date.now()] is an
    argument. *)

Module PlayerManager.

Record Player : Type := mkPlayer {
  id : string;
  name : option string;
  balance : R;
  currentBet : R;
  isPlaying : bool;
  autoCashOut : JS.value;
  joinedAt : R;
  lastSeenAt : R;
  gamesPlayed : nat;
  totalBets : R;
  totalWinnings : R;
  biggestWin : R;
  longestStreak : nat;
  currentStreak : nat;
  sessionBets : R;
  sessionWinnings : R;
  sessionGames : nat
}.

Record ManagerStats : Type := mkManagerStats {
  totalPlayersJoined : nat;
  peakConcurrentPlayers : nat;
  totalBetsPlaced : nat;
  stats_totalWinnings : R
}.

Record Manager : Type := mkManager {
  players : list (string * Player);
  stats : ManagerStats
}.

Definition new_PlayerManager : Manager :=
  mkManager [] (mkManagerStats 0 0 0 0).

Definition set_players (v : list (string * Player)) (pm : Manager)
    : Manager :=
  mkManager v (stats pm).

Definition set_stats (v : ManagerStats) (pm : Manager) : Manager :=
  mkManager (players pm) v.

(** A player object is shared with the map: writing a field of it is
    writing the map's entry. *)
Definition update_player (playerId : string) (f : Player -> Player)
    (pm : Manager) : Manager :=
  match imap_get playerId (players pm) with
  | Some player => set_players (imap_set playerId (f player) (players pm)) pm
  | None => pm
  end.

Definition getPlayer (playerId : string) (pm : Manager) : option Player :=
  imap_get playerId (players pm).

Definition getPlayerCount (pm : Manager) : nat := List.length (players pm).

Definition updatePeakPlayers (pm : Manager) : Manager :=
  let currentCount := getPlayerCount pm in
  if Nat.ltb (peakConcurrentPlayers (stats pm)) currentCount
  then set_stats
         (mkManagerStats (totalPlayersJoined (stats pm)) currentCount
            (totalBetsPlaced (stats pm)) (stats_totalWinnings (stats pm)))
         pm
  else pm.

Definition new_player (now_ : R) (playerId : string) : Player :=
  mkPlayer playerId None 1000 0 false JS.Null now_ now_ 0 0 0 0 0 0 0 0 0.

Definition addPlayer (now_ : R) (playerId : string) (pm : Manager)
    : Player * Manager :=
  let player := new_player now_ playerId in
  let pm1 := set_players (imap_set playerId player (players pm)) pm in
  let pm2 :=
    set_stats
      (mkManagerStats (S (totalPlayersJoined (stats pm1)))
         (peakConcurrentPlayers (stats pm1)) (totalBetsPlaced (stats pm1))
         (stats_totalWinnings (stats pm1)))
      pm1 in
  (player, updatePeakPlayers pm2).

Definition removePlayer (playerId : string) (pm : Manager) : Manager :=
  match imap_get playerId (players pm) with
  | Some _ => set_players (imap_delete playerId (players pm)) pm
  | None => pm
  end.

Definition updatePlayerActivity (now_ : R) (playerId : string)
    (pm : Manager) : Manager :=
  update_player playerId
    (fun p =>
       mkPlayer (id p) (name p) (balance p) (currentBet p) (isPlaying p)
         (autoCashOut p) (joinedAt p) now_ (gamesPlayed p) (totalBets p)
         (totalWinnings p) (biggestWin p) (longestStreak p)
         (currentStreak p) (sessionBets p) (sessionWinnings p)
         (sessionGames p))
    pm.

(** What [updatePlayerBalance] writes into the player. *)
Definition credited (amount : R) (p : Player) : Player :=
  if Rlt_dec 0 amount
  then
    let streak := S (currentStreak p) in
    mkPlayer (id p) (name p) (balance p + amount) (currentBet p)
      (isPlaying p) (autoCashOut p) (joinedAt p) (lastSeenAt p)
      (gamesPlayed p) (totalBets p) (totalWinnings p + amount)
      (if Rlt_dec (biggestWin p) amount then amount else biggestWin p)
      (if Nat.ltb (longestStreak p) streak then streak else longestStreak p)
      streak (sessionBets p) (sessionWinnings p + amount) (sessionGames p)
  else
    mkPlayer (id p) (name p) (balance p + amount) (currentBet p)
      (isPlaying p) (autoCashOut p) (joinedAt p) (lastSeenAt p)
      (gamesPlayed p) (totalBets p) (totalWinnings p) (biggestWin p)
      (longestStreak p) 0 (sessionBets p) (sessionWinnings p)
      (sessionGames p).

Definition updatePlayerBalance (playerId : string) (amount : R)
    (pm : Manager) : Manager :=
  match imap_get playerId (players pm) with
  | Some player =>
      let pm1 :=
        set_players (imap_set playerId (credited amount player) (players pm))
          pm in
      set_stats
        (mkManagerStats (totalPlayersJoined (stats pm1))
           (peakConcurrentPlayers (stats pm1)) (totalBetsPlaced (stats pm1))
           (stats_totalWinnings (stats pm1) + Rmax 0 amount))
        pm1
  | None => pm
  end.

(** What [placeBet] writes into the player. *)
Definition staking (amount : R) (p : Player) : Player :=
  mkPlayer (id p) (name p) (balance p - amount) amount true
    (autoCashOut p) (joinedAt p) (lastSeenAt p) (gamesPlayed p)
    (totalBets p + amount) (totalWinnings p) (biggestWin p)
    (longestStreak p) (currentStreak p) (sessionBets p + amount)
    (sessionWinnings p) (sessionGames p).

Definition placeBet (playerId : string) (amount : R) (pm : Manager)
    : bool * Manager :=
  match imap_get playerId (players pm) with
  | Some player =>
      if Rle_dec amount (balance player)
      then
        let pm1 :=
          set_players (imap_set playerId (staking amount player) (players pm))
            pm in
        (true,
         set_stats
           (mkManagerStats (totalPlayersJoined (stats pm1))
              (peakConcurrentPlayers (stats pm1))
              (S (totalBetsPlaced (stats pm1)))
              (stats_totalWinnings (stats pm1)))
           pm1)
      else (false, pm)
  | None => (false, pm)
  end.

Inductive CashOutResult : Type :=
| cashOut_success (winAmount newBalance : R)
| cashOut_failure.

(** What [cashOut] writes into the player once the win is credited; the
    balance it returns is read from the player object that
    [updatePlayerBalance] has just written to. *)
Definition round_over (p : Player) : Player :=
  mkPlayer (id p) (name p) (balance p) 0 false (autoCashOut p)
    (joinedAt p) (lastSeenAt p) (S (gamesPlayed p)) (totalBets p)
    (totalWinnings p) (biggestWin p) (longestStreak p) (currentStreak p)
    (sessionBets p) (sessionWinnings p) (S (sessionGames p)).

Definition cashOut (playerId : string) (multiplier : R) (pm : Manager)
    : CashOutResult * Manager :=
  match imap_get playerId (players pm) with
  | Some player =>
      if isPlaying player
      then
        let winAmount := currentBet player * multiplier in
        let pm1 := updatePlayerBalance playerId winAmount pm in
        let pm2 := update_player playerId round_over pm1 in
        (cashOut_success winAmount (balance (credited winAmount player)),
         pm2)
      else (cashOut_failure, pm)
  | None => (cashOut_failure, pm)
  end.

(** What [resetPlayerGame] writes into the player. *)
Definition game_reset (p : Player) : Player :=
  mkPlayer (id p) (name p) (balance p) 0 false JS.Null
    (joinedAt p) (lastSeenAt p) (S (gamesPlayed p)) (totalBets p)
    (totalWinnings p) (biggestWin p) (longestStreak p)
    (if isPlaying p then 0%nat else currentStreak p)
    (sessionBets p) (sessionWinnings p) (S (sessionGames p)).

Definition resetPlayerGame (playerId : string) (pm : Manager) : Manager :=
  update_player playerId game_reset pm.

(** [Array.prototype.sort] with the comparator
    [(a, b) => b.totalWinnings - a.totalWinnings]: the sort is stable, so
    its result is the one insertion gives, an element going before those of
    equal winnings that followed it. *)
Fixpoint insert_by_winnings (x : Player) (l : list Player) : list Player :=
  match l with
  | [] => [x]
  | y :: l' =>
      if Rle_dec (totalWinnings y) (totalWinnings x)
      then x :: y :: l'
      else y :: insert_by_winnings x l'
  end.

Definition sort_by_winnings (l : list Player) : list Player :=
  fold_right insert_by_winnings [] l.

Record TopEntry : Type := mkTopEntry {
  top_name : string;
  top_totalWinnings : R;
  top_gamesPlayed : nat;
  top_biggestWin : R;
  top_longestStreak : nat
}.

(** [player.name || `Player${player.id.substr(0, 4)}`].  An id is a socket
    id, made of ASCII characters, for which the bytes [substring] counts
    are the UTF-16 units [substr] counts. *)
Definition display_name (p : Player) : string :=
  match name p with
  | Some n => if String.eqb n "" then "Player" ++ substring 0 4 (id p) else n
  | None => "Player" ++ substring 0 4 (id p)
  end.

Definition top_entry (p : Player) : TopEntry :=
  mkTopEntry (display_name p) (totalWinnings p) (gamesPlayed p)
    (biggestWin p) (longestStreak p).

Definition getTopPlayers (limit : nat) (pm : Manager) : list TopEntry :=
  map top_entry
    (firstn limit (sort_by_winnings (imap_values (players pm)))).

Fixpoint findIndex (f : Player -> bool) (l : list Player) : option nat :=
  match l with
  | [] => None
  | x :: l' =>
      if f x then Some 0%nat
      else match findIndex f l' with
           | Some i => Some (S i)
           | None => None
           end
  end.

Definition getPlayerRank (playerId : string) (pm : Manager) : option nat :=
  match findIndex (fun p => String.eqb (id p) playerId)
          (sort_by_winnings (imap_values (players pm))) with
  | Some playerIndex => Some (playerIndex + 1)%nat
  | None => None
  end.

Definition cleanupInactivePlayers (now_ inactiveThreshold : R)
    (pm : Manager) : nat * Manager :=
  let cutoffTime := now_ - inactiveThreshold in
  let inactivePlayers :=
    imap_keys
      (filter (fun kv => if Rlt_dec (lastSeenAt (snd kv)) cutoffTime
                         then true else false)
         (players pm)) in
  (List.length inactivePlayers,
   fold_left (fun m playerId => removePlayer playerId m) inactivePlayers pm).

Definition setPlayerBalance (playerId : string) (newBalance : R)
    (pm : Manager) : bool * Manager :=
  match imap_get playerId (players pm) with
  | Some _ =>
      (true,
       update_player playerId
         (fun p =>
            mkPlayer (id p) (name p) newBalance (currentBet p) (isPlaying p)
              (autoCashOut p) (joinedAt p) (lastSeenAt p) (gamesPlayed p)
              (totalBets p) (totalWinnings p) (biggestWin p)
              (longestStreak p) (currentStreak p) (sessionBets p)
              (sessionWinnings p) (sessionGames p))
         pm)
  | None => (false, pm)
  end.

Definition resetPlayerStats (playerId : string) (pm : Manager)
    : bool * Manager :=
  match imap_get playerId (players pm) with
  | Some _ =>
      (true,
       update_player playerId
         (fun p =>
            mkPlayer (id p) (name p) (balance p) (currentBet p) (isPlaying p)
              (autoCashOut p) (joinedAt p) (lastSeenAt p) 0 0 0 0 0 0 0 0 0)
         pm)
  | None => (false, pm)
  end.

(** The calls that reach the manager. *)
Inductive Call : Type :=
| call_addPlayer (now_ : R) (playerId : string)
| call_removePlayer (playerId : string)
| call_updatePlayerActivity (now_ : R) (playerId : string)
| call_updatePlayerBalance (playerId : string) (amount : R)
| call_placeBet (playerId : string) (amount : R)
| call_cashOut (playerId : string) (multiplier : R)
| call_resetPlayerGame (playerId : string)
| call_cleanupInactivePlayers (now_ inactiveThreshold : R)
| call_setPlayerBalance (playerId : string) (newBalance : R)
| call_resetPlayerStats (playerId : string).

Definition apply_call (c : Call) (pm : Manager) : Manager :=
  match c with
  | call_addPlayer now_ playerId => snd (addPlayer now_ playerId pm)
  | call_removePlayer playerId => removePlayer playerId pm
  | call_updatePlayerActivity now_ playerId =>
      updatePlayerActivity now_ playerId pm
  | call_updatePlayerBalance playerId amount =>
      updatePlayerBalance playerId amount pm
  | call_placeBet playerId amount => snd (placeBet playerId amount pm)
  | call_cashOut playerId multiplier => snd (cashOut playerId multiplier pm)
  | call_resetPlayerGame playerId => resetPlayerGame playerId pm
  | call_cleanupInactivePlayers now_ inactiveThreshold =>
      snd (cleanupInactivePlayers now_ inactiveThreshold pm)
  | call_setPlayerBalance playerId newBalance =>
      snd (setPlayerBalance playerId newBalance pm)
  | call_resetPlayerStats playerId => snd (resetPlayerStats playerId pm)
  end.

Definition apply_calls (cs : list Call) (pm : Manager) : Manager :=
  fold_left (fun m c => apply_call c m) cs pm.

(** What every player of the manager satisfies, whatever calls were made:
    the streaks fit, the biggest win is one of the wins, and the session
    figures are the totals. *)
Definition player_ok (p : Player) : Prop :=
  (currentStreak p <= longestStreak p)%nat /\
  0 <= biggestWin p <= totalWinnings p /\
  sessionWinnings p = totalWinnings p /\
  sessionBets p = totalBets p /\
  sessionGames p = gamesPlayed p.

Definition manager_ok (pm : Manager) : Prop :=
  NoDup (imap_keys (players pm)) /\
  (forall k p, In (k, p) (players pm) -> id p = k /\ player_ok p) /\
  (List.length (players pm) <= peakConcurrentPlayers (stats pm)
   <= totalPlayersJoined (stats pm))%nat /\
  0 <= stats_totalWinnings (stats pm).

End PlayerManager.

(** The test of [cleanupInactivePlayers]: last seen before the cutoff. *)
Definition inactive (now_ inactiveThreshold : R)
    (kv : string * PlayerManager.Player) : bool :=
  if Rlt_dec (PlayerManager.lastSeenAt (snd kv)) (now_ - inactiveThreshold)
  then true else false.

(** Listed from the larger total winnings to the smaller. *)
Definition by_winnings (a b : PlayerManager.Player) : Prop :=
  PlayerManager.totalWinnings b <= PlayerManager.totalWinnings a.

Definition more_winnings (p q : PlayerManager.Player) : bool :=
  if Rlt_dec (PlayerManager.totalWinnings p) (PlayerManager.totalWinnings q)
  then true else false.

(** ** What the engine tells about itself ([getCurrentState]) *)

Inductive CurrentState : Type :=
| state_base (st : GAME_STATES) (id : nat)
| state_flying (st : GAME_STATES) (id : nat) (mult time : R)
| state_crashed (st : GAME_STATES) (id : nat) (finalMultiplier : R).

Definition getCurrentState (env : Env) (e : GameEngine) : CurrentState :=
  match state e with
  | WAITING => state_base (state e) (gameId e)
  | STARTING => state_base (state e) (gameId e)
  | FLYING =>
      let elapsed :=
        if startTime_truthy e
        then (now env - startTime_num e) / 1000 else 0 in
      state_flying (state e) (gameId e) (multiplier e) elapsed
  | CRASHED => state_crashed (state e) (gameId e) (multiplier e)
  end.

(** ** The server around the engine ([class CrashRocketServer])

    The handlers of the socket messages and of the admin route, as
    functions of the engine and the player manager; what they send is
    returned as a list of messages.  HTTP and socket plumbing and logging
    are left out; the leaderboard, whose code in the player manager is
    missing, is a parameter of the admin route. *)

Module Server.

Record PlaceBetData : Type := mkPlaceBetData {
  amount : JS.value;
  autoCashOut : JS.value
}.

Inductive Message : Type :=
| socket_error (message : string)
| socket_bet_placed (betAmount : R) (balance : option R)
    (autoCashOut : JS.value)
| socket_bet_refused (error : string)
| io_player_bet (playerId : string) (playerName : string) (betAmount : R).

Record World : Type := mkWorld {
  gameEngine : GameEngine;
  playerManager : PlayerManager.Manager
}.

(** [typeof amount === 'number' && amount >= 1 && amount <= 1000000000 &&
    Number.isFinite(amount)]: a comparison with NaN is false. *)
Definition isValidBet (amount : JS.value) : bool :=
  match amount with
  | JS.Number a =>
      (if Rle_dec 1 a then true else false)
      && (if Rle_dec a 1000000000 then true else false)
  | _ => false
  end.

(** [amount] once [isValidBet] has let it through. *)
Definition number_of (amount : JS.value) : R :=
  match amount with
  | JS.Number a => a
  | _ => 0
  end.

(** What the handler writes into the player when the balance covers the
    stake. *)
Definition debited (a : R) (autoCashOut : JS.value)
    (p : PlayerManager.Player) : PlayerManager.Player :=
  PlayerManager.mkPlayer (PlayerManager.id p) (PlayerManager.name p)
    (PlayerManager.balance p - a) a true autoCashOut
    (PlayerManager.joinedAt p) (PlayerManager.lastSeenAt p)
    (PlayerManager.gamesPlayed p) (PlayerManager.totalBets p + a)
    (PlayerManager.totalWinnings p) (PlayerManager.biggestWin p)
    (PlayerManager.longestStreak p) (PlayerManager.currentStreak p)
    (PlayerManager.sessionBets p) (PlayerManager.sessionWinnings p)
    (PlayerManager.sessionGames p).

(** [player?.name || 'Anonymous']. *)
Definition name_or_anonymous (p : option PlayerManager.Player) : string :=
  match p with
  | Some q =>
      match PlayerManager.name q with
      | Some n => if String.eqb n "" then "Anonymous" else n
      | None => "Anonymous"
      end
  | None => "Anonymous"
  end.

(** The handler of [place_bet] on the socket [socketId]; [data] is [None]
    when the message carries nothing to destructure, which throws and ends
    in the [catch] branch. *)
Definition on_place_bet (env : Env) (socketId : string)
    (data : option PlaceBetData) (w : World) : World * list Message :=
  match data with
  | None => (w, [socket_bet_refused "Failed to place bet"])
  | Some d =>
      if negb (isValidBet (amount d))
      then (w, [socket_error "Invalid bet amount"])
      else if negb (canPlaceBet (gameEngine w))
      then (w, [socket_error "Cannot place bet at this time"])
      else
        let a := number_of (amount d) in
        let '(success, e1, _) :=
          placeBet env socketId a (autoCashOut d) (gameEngine w) in
        if success
        then
          let player := PlayerManager.getPlayer socketId (playerManager w) in
          let '(pm1, player1) :=
            match player with
            | Some p =>
                if Rle_dec a (PlayerManager.balance p)
                then (PlayerManager.update_player socketId
                        (debited a (autoCashOut d)) (playerManager w),
                      Some (debited a (autoCashOut d) p))
                else (playerManager w, Some p)
            | None => (playerManager w, None)
            end in
          (mkWorld e1 pm1,
           [socket_bet_placed a
              (match player1 with
               | Some p1 => Some (PlayerManager.balance p1)
               | None => None
               end)
              (match player1 with
               | Some p1 => JS.default_null (PlayerManager.autoCashOut p1)
               | None => JS.Null
               end);
            io_player_bet socketId (name_or_anonymous player1) a])
        else (mkWorld e1 (playerManager w),
              [socket_bet_refused "Failed to place bet"])
  end.

(** The listener of [round_settled]: every loser's game is reset. *)
Definition on_round_settled (ls : list LoserRecord)
    (pm : PlayerManager.Manager) : PlayerManager.Manager :=
  fold_left
    (fun m l => PlayerManager.resetPlayerGame (loser_playerId l) m) ls pm.

(** *** The admin route [POST /admin/force-crash] *)

Record Request : Type := mkRequest {
  body_token : option string;
  query_token : option string;
  header_token : option string;
  body_reason : option string
}.

Inductive Response : Type :=
| unauthorized
| bad_request (error : string)
| server_error (error : string)
| ok (mult : R) (st : CurrentState).

(** A string, or its absence, taken as a condition: [undefined] and the
    empty string are falsy. *)
Definition given (s : option string) : bool :=
  match s with
  | Some x => negb (String.eqb x "")
  | None => false
  end.

(** [a || b]. *)
Definition or_else (a b : option string) : option string :=
  if given a then a else b.

Definition same_string (a b : option string) : bool :=
  match a, b with
  | Some x, Some y => String.eqb x y
  | None, None => true
  | _, _ => false
  end.

(** *** The engine's crash as the server hears it

    [emit] runs the server's listeners before it returns.  The listeners of
    [multiplier_update] and [game_state_changed] hand the payload to the
    sockets and change nothing.  The listener of [round_settled] resets the
    losers and then calls [broadcastLeaderboard], which asks the player
    manager for [getLeaderboardSnapshot] and [getSortedPlayers].  The
    [PlayerManager] class at hand defines neither, so the broadcast is a
    parameter: from the player manager it is called on, it gives the manager
    it leaves behind, or [None] when it throws.  A listener that throws ends
    [crashGame] at its [emit]: the timeout that schedules the next round is
    never set, and the exception goes up through [forceCrash]. *)

Definition Leaderboard : Type :=
  PlayerManager.Manager -> option PlayerManager.Manager.

(** With the class at hand, [this.playerManager.getLeaderboardSnapshot] is
    [undefined], and calling it throws. *)
Definition leaderboard_at_hand : Leaderboard := fun _ => None.

(** [crashGame] up to and including its last [emit]; what remains of it is
    the [setTimeout] that schedules the next round. *)
Definition crashGame_until_settled (env : Env) (trigger : option string)
    : M Settlement :=
  clearTimers ;;
  modify (set_state CRASHED) ;;
  e <- get ;;
  when (startTime_truthy e)
       (let elapsed := (now env - startTime_num e) / 1000 in
        finalSnapshot <-
          buildMultiplierPayload env (Some elapsed) (Some (now env)) ;;
        emit (multiplier_update finalSnapshot)) ;;
  modify (fun e => set_stats (stats_add_game (stats e)) e) ;;
  updateAverageMultiplier ;;
  e <- get ;;
  addToHistory (multiplier e) ;;
  settlement <- finalizeBets ;;
  e <- get ;;
  emit (game_state_changed (crashed_payload (state e) (multiplier e))) ;;
  emit (round_settled (multiplier e) (losers settlement)
          (participants settlement)) ;;
  ret settlement.

(** A call that may end in an exception: [None] is the exception. *)
Definition Heard (A : Type) : Type := World -> option A * World * list Event.

Definition crashGame_heard (env : Env) (trigger : option string)
    (broadcastLeaderboard : Leaderboard) : Heard unit :=
  fun w =>
    let '(settlement, e1, evs) :=
      crashGame_until_settled env trigger (gameEngine w) in
    let pm1 := on_round_settled (losers settlement) (playerManager w) in
    match broadcastLeaderboard pm1 with
    | Some pm2 =>
        (Some tt,
         mkWorld (set_stateTimeout (Some cb_scheduleNextGame) e1) pm2, evs)
    | None => (None, mkWorld e1 pm1, evs)
    end.

Definition forceCrash_heard (env : Env) (reason : string)
    (broadcastLeaderboard : Leaderboard) : Heard ForceCrashResult :=
  fun w =>
    if negb (state_eqb (state (gameEngine w)) FLYING)
    then (Some (forceCrash_error "Game is not currently flying"), w, [])
    else
      match crashGame_heard env (Some reason) broadcastLeaderboard w with
      | (Some _, w1, evs) =>
          (Some (forceCrash_ok (multiplier (gameEngine w1))), w1, evs)
      | (None, w1, evs) => (None, w1, evs)
      end.

(** The route: the token gate, then [forceCrash] inside [try]; an exception
    ends in the [catch] branch, which answers 500. *)
Definition admin_force_crash (env : Env) (adminSecret : option string)
    (broadcastLeaderboard : Leaderboard) (req : Request) (w : World)
    : Response * World * list Event :=
  let token :=
    or_else (or_else (body_token req) (query_token req)) (header_token req) in
  if given adminSecret
     && (negb (given token) || negb (same_string token adminSecret))
  then (unauthorized, w, [])
  else
    let reason :=
      match or_else (body_reason req) (Some "admin_api"%string) with
      | Some r => r
      | None => "admin_api"%string
      end in
    match forceCrash_heard env reason broadcastLeaderboard w with
    | (Some (forceCrash_error err), w1, evs) => (bad_request err, w1, evs)
    | (Some (forceCrash_ok m), w1, evs) =>
        (ok m (getCurrentState env (gameEngine w1)), w1, evs)
    | (None, w1, evs) => (server_error "Failed to force crash", w1, evs)
    end.

End Server.

(** The handler confirmed the bet to the player. *)
Definition is_confirmation (m : Server.Message) : bool :=
  match m with
  | Server.socket_bet_placed _ _ _ => true
  | _ => false
  end.

Definition confirmed (msgs : list Server.Message) : bool :=
  existsb is_confirmation msgs.

(** The token the admin route looks at: the first one given among body,
    query and header. *)
Definition request_token (req : Server.Request) : option string :=
  Server.or_else
    (Server.or_else (Server.body_token req) (Server.query_token req))
    (Server.header_token req).

Definition is_unauthorized (r : Server.Response) : bool :=
  match r with
  | Server.unauthorized => true
  | _ => false
  end.

(** ** The bots of the admin page ([BotController] and [BotClient] of the
    client's [admin.js])

    A number that may be NaN is an [option R], [None] standing for NaN;
    each call of [Math.random()] is an argument. *)

Module Bots.

Record Range : Type := mkRange {
  range_min : option R;
  range_max : option R
}.

(** The [config] of the controller: [config.bet], [config.auto] and
    [config.betDelay]. *)
Record BotConfig : Type := mkBotConfig {
  maxBots : R;
  cfg_bet : Range;
  cfg_auto : Range;
  cfg_betDelay : Range
}.

Definition BOT_CONFIG_DEFAULTS : BotConfig :=
  mkBotConfig 200 (mkRange (Some 10) (Some 50))
    (mkRange (Some 1.8) (Some 3.5)) (mkRange (Some 200) (Some 1000)).

Record Settings : Type := mkSettings {
  betMin : JS.value;
  betMax : JS.value;
  autoMin : JS.value;
  autoMax : JS.value
}.

(** [v != null]. *)
Definition not_nullish (v : JS.value) : bool :=
  match v with
  | JS.Undefined | JS.Null => false
  | _ => true
  end.

(** Arithmetic that NaN goes through. *)
Definition lift2 (f : R -> R -> R) (a b : option R) : option R :=
  match a, b with
  | Some x, Some y => Some (f x y)
  | _, _ => None
  end.

(** [Math.max(a, b)]. *)
Definition js_max (a b : option R) : option R := lift2 Rmax a b.

Definition applySettings (settings : Settings) (c : BotConfig) : BotConfig :=
  let c1 :=
    if not_nullish (betMin settings) && not_nullish (betMax settings)
    then
      let min := js_max (Some 1) (JS.ToNumber (betMin settings)) in
      let max := js_max min (JS.ToNumber (betMax settings)) in
      mkBotConfig (maxBots c) (mkRange min max) (cfg_auto c) (cfg_betDelay c)
    else c in
  if not_nullish (autoMin settings) && not_nullish (autoMax settings)
  then
    let min := js_max (Some 1.01) (JS.ToNumber (autoMin settings)) in
    let max :=
      js_max (lift2 Rplus min (Some 0.01))
        (JS.ToNumber (autoMax settings)) in
    mkBotConfig (maxBots c1) (cfg_bet c1) (mkRange min max) (cfg_betDelay c1)
  else c1.

(** [Math.random() * (max - min) + min]. *)
Definition draw (random : R) (r : Range) : option R :=
  lift2 Rplus
    (lift2 Rmult (Some random) (lift2 Rminus (range_max r) (range_min r)))
    (range_min r).

(** [Number(value.toFixed(2))]; NaN stays NaN. *)
Definition fixed2 (value : option R) : option R :=
  match value with
  | Some v => Some (JS.toFixed 2 v)
  | None => None
  end.

Definition randomBetAmount (random : R) (c : BotConfig) : option R :=
  fixed2 (draw random (cfg_bet c)).

Definition randomAutoCashOut (random : R) (c : BotConfig) : option R :=
  fixed2 (draw random (cfg_auto c)).

(** What [placeBet] reads and writes of a [BotClient]: whether its socket is
    connected, and [isBetPlaced]. *)
Record BotClient : Type := mkBotClient {
  connected : bool;
  isBetPlaced : bool
}.

(** A number as it arrives in a message: NaN is sent as [null]. *)
Definition sent (v : option R) : JS.value :=
  match v with
  | Some r => JS.Number r
  | None => JS.Null
  end.

(** [BotClient.placeBet]: the [place_bet] message sent, if any, and the bot
    afterwards; the two amounts are drawn one after the other. *)
Definition placeBet (random1 random2 : R) (c : BotConfig) (b : BotClient)
    : option Server.PlaceBetData * BotClient :=
  if negb (connected b) || isBetPlaced b then (None, b)
  else
    let amount := randomBetAmount random1 c in
    let autoCashOut := randomAutoCashOut random2 c in
    (Some (Server.mkPlaceBetData (sent amount) (sent autoCashOut)),
     mkBotClient (connected b) true).

(** The configuration draws from the floors of [applySettings] up: stakes
    from 1, thresholds from 1.01.  It sets no ceiling. *)
Definition sane (c : BotConfig) : Prop :=
  exists bmin bmax amin amax,
    cfg_bet c = mkRange (Some bmin) (Some bmax) /\
    1 <= bmin <= bmax /\
    cfg_auto c = mkRange (Some amin) (Some amax) /\
    1.01 <= amin <= amax.

(** The settings that are applied are numbers: none converts to NaN.  The
    form of the admin page hands over [Number(input || default)] for each
    of the four, whatever its size. *)
Definition numeric (settings : Settings) : Prop :=
  (not_nullish (betMin settings) && not_nullish (betMax settings) = true ->
   exists x y,
     JS.ToNumber (betMin settings) = Some x /\
     JS.ToNumber (betMax settings) = Some y) /\
  (not_nullish (autoMin settings) && not_nullish (autoMax settings) = true ->
   exists x y,
     JS.ToNumber (autoMin settings) = Some x /\
     JS.ToNumber (autoMax settings) = Some y).

(** [config.bet.max], the largest stake the bots draw. *)
Definition max_stake (c : BotConfig) : option R := range_max (cfg_bet c).

End Bots.

(** The terms of a wager: what was staked, the threshold, and when; a
    wager that has won stays won. *)
Definition same_terms (pd pd' : PlayerData) : Prop :=
  bet pd' = bet pd /\
  autoCashOut pd' = autoCashOut pd /\
  placedAt pd' = placedAt pd /\
  (hasWon pd = true -> hasWon pd' = true).

(** While the crash is displayed the newest history entry is the round's
    final multiplier, rounded to cents. *)
Definition crashed_agree (e : GameEngine) : Prop :=
  state e = CRASHED ->
  hd_error (history e) = Some (JS.toFixed 2 (multiplier e)).

(** A countdown with one wager: p1 stakes 100 without threshold during the
    wait, then the countdown begins at clock 3000. *)
Definition betting_countdown : GameEngine :=
  fst (run (started_engine (mkEnv 0 0))
         [ (mkEnv 100 0, call_placeBet "p1" 100 JS.Null);
           (mkEnv 3000 0, timeout_fires) ]).

(** ** A tick, clock reading by clock reading

    One run of [updateGame] reads the clock up to three times: at its top
    (the reading the multiplier, the throttle and the broadcast use), inside
    [shouldCrash], and inside [crashGame] for the final snapshot.
    [updateGame_readings] is [updateGame] with a reading of its own for each:
    [env] at the top, [env_chance] (with the random draw) inside
    [shouldCrash], [env_crash] inside [crashGame]. *)
Definition updateGame_readings (env env_chance env_crash : Env) : M unit :=
  e <- get ;;
  if negb (state_eqb (state e) FLYING) then ret tt
  else
    let elapsed := (now env - startTime_num e) / 1000 in
    let newMultiplier := calculateMultiplier e elapsed in
    modify (set_multiplier newMultiplier) ;;
    e <- get ;;
    when (negb (JS.truthy_num (_lastPredictionBroadcast e))
          || (if Rle_dec (predictionInterval (config e))
                         (now env - _lastPredictionBroadcast e)
              then true else false))
         (modify (set_lastPredictionBroadcast (now env)) ;;
          predictionPayload <-
            buildMultiplierPayload env (Some elapsed) (Some (now env)) ;;
          emit (multiplier_update predictionPayload)) ;;
    e <- get ;;
    crash <- shouldCrash env_chance (multiplier e) ;;
    if crash then crashGame env_crash None
    else
      e <- get ;;
      if Rle_dec (maxGameTime (config e) / 1000) elapsed
      then crashGame env_crash None
      else
        checkAutoCashOuts ;;
        payload <-
          buildMultiplierPayload env (Some elapsed) (Some (now env)) ;;
        emit (game_state_changed (snapshot_payload payload)).

(** Whether the tick ends the round, with the readings kept apart. *)
Definition tick_crashes_readings (env env_chance : Env) (e : GameEngine)
    : bool :=
  (if Rlt_dec (random env_chance)
        (crashChance
           (if startTime_truthy e
            then (now env_chance - startTime_num e) / 1000 else 0)
           (calculateMultiplier e (tick_elapsed env e)))
   then true else false)
  || (if Rle_dec (maxGameTime (config e) / 1000) (tick_elapsed env e)
      then true else false).

(** What the snapshots of a tick say, for a flight that took off at [start]
    and whose multiplier after the tick is [m]: the growth rate, [m] rounded
    to four and to two decimals, and a time that is the flight time at the
    snapshot's own timestamp.  A snapshot sent in flight is stamped with the
    reading at the top of the tick, the one [m] was computed from; the final
    snapshot of a crash is stamped with the later reading of [crashGame], so
    that [m] is at most what the growth formula gives for its time. *)
Definition reading_agrees (start now_tick now_crash m : R) (ev : Event)
    : Prop :=
  match ev with
  | multiplier_update p | game_state_changed (snapshot_payload p) =>
      p_growthRate p = 0.2 /\
      p_multiplier p = JS.toFixed 4 m /\
      p_displayMultiplier p = JS.toFixed 2 m /\
      Rabs (p_multiplier p - m) <= 0.00005 /\
      Rabs (p_displayMultiplier p - m) <= 0.005 /\
      p_time p = (p_timestamp p - start) / 1000 /\
      match p_state p with
      | CRASHED =>
          p_timestamp p = now_crash /\
          m <= clamp (exp (p_growthRate p * p_time p)) 1 250
      | _ =>
          p_timestamp p = now_tick /\
          m = clamp (exp (p_growthRate p * p_time p)) 1 250
      end
  | _ => True
  end.
(** ** Frame lemmas: what a handler leaves alone *)

Lemma keeps_ret {X A : Type} (f : GameEngine -> X) (a : A) :
  keeps f (ret a).
Proof. intro e. reflexivity. Qed.

Lemma keeps_get {X : Type} (f : GameEngine -> X) : keeps f get.
Proof. intro e. reflexivity. Qed.

Lemma keeps_emit {X : Type} (f : GameEngine -> X) (ev : Event) :
  keeps f (emit ev).
Proof. intro e. reflexivity. Qed.

Lemma keeps_modify {X : Type} (f : GameEngine -> X)
    (g : GameEngine -> GameEngine) :
  (forall e, f (g e) = f e) -> keeps f (modify g).
Proof. intros H e. apply H. Qed.

Lemma keeps_bind {X A B : Type} (f : GameEngine -> X)
    (m : M A) (k : A -> M B) :
  keeps f m -> (forall a, keeps f (k a)) -> keeps f (bind m k).
Proof.
  intros Hm Hk e. unfold bind.
  specialize (Hm e).
  destruct (m e) as [[a e1] l1]. simpl in Hm.
  specialize (Hk a e1).
  destruct (k a e1) as [[b e2] l2]. simpl in *.
  congruence.
Qed.

Lemma keeps_when {X : Type} (f : GameEngine -> X) (b : bool) (m : M unit) :
  keeps f m -> keeps f (when b m).
Proof. intros H. destruct b; [exact H | apply keeps_ret]. Qed.

Lemma keeps_if {X A : Type} (f : GameEngine -> X) (b : bool) (m1 m2 : M A) :
  keeps f m1 -> keeps f m2 -> keeps f (if b then m1 else m2).
Proof. destruct b; auto. Qed.

Lemma keeps_sumbool {X A : Type} {P Q : Prop} (f : GameEngine -> X)
    (d : {P} + {Q}) (m1 m2 : M A) :
  keeps f m1 -> keeps f m2 -> keeps f (if d then m1 else m2).
Proof. destruct d; auto. Qed.

Lemma keeps_forEach {X A : Type} (f : GameEngine -> X) (l : list A)
    (body : A -> M unit) :
  (forall a, keeps f (body a)) -> keeps f (forEach l body).
Proof.
  intros H. induction l as [|x l IH]; simpl.
  - apply keeps_ret.
  - apply keeps_bind; auto.
Qed.

Ltac frame_step :=
  first
    [ apply keeps_ret | apply keeps_get | apply keeps_emit
    | apply keeps_when | apply keeps_if | apply keeps_sumbool
    | apply keeps_forEach; intros
    | apply keeps_bind; [| intros]
    | apply keeps_modify; intros; reflexivity
    | match goal with
      | |- keeps _ (let '(_, _) := ?p in _) => destruct p
      | |- keeps _ (match ?x with _ => _ end) => destruct x
      end ].

Ltac frame := repeat frame_step.

Lemma clearTimers_keeps_settings : keeps settings clearTimers.
Proof. unfold clearTimers. frame. Qed.

Lemma crashGame_keeps_settings env trigger :
  keeps settings (crashGame env trigger).
Proof.
  unfold crashGame, clearTimers, buildMultiplierPayload,
    updateAverageMultiplier, addToHistory, finalizeBets.
  frame.
Qed.

Lemma updateGame_keeps_settings env : keeps settings (updateGame env).
Proof.
  unfold updateGame, shouldCrash, checkAutoCashOuts, checkAutoCashOuts_body,
    performAutoCashOut, buildMultiplierPayload.
  repeat first [apply crashGame_keeps_settings | frame_step].
Qed.

Lemma handle_keeps_settings env i : keeps settings (handle env i).
Proof.
  destruct i; unfold handle, placeBet, cashOut, removePlayer, forceCrash,
    stop, clearTimers, fire_timeout, fire_interval, run_callback,
    startCountdown, startGame, scheduleNextGame, getRandomWaitTime,
    startGameLoop, buildMultiplierPayload;
  repeat first
    [ apply crashGame_keeps_settings | apply updateGame_keeps_settings
    | frame_step ].
Qed.

Lemma run_keeps_settings ins :
  forall e, settings (fst (run e ins)) = settings e.
Proof.
  induction ins as [|[env i] rest IH]; intro e; simpl.
  - reflexivity.
  - pose proof (handle_keeps_settings env i e) as H.
    destruct (handle env i e) as [[o e1] evs]. simpl in H.
    specialize (IH e1). destruct (run e1 rest) as [e2 steps].
    simpl in *. congruence.
Qed.

(** ** Growth function *)

Lemma Rmin_Rmax_clamp (x lo hi : R) :
  lo <= hi -> Rmin (Rmax x lo) hi = clamp x lo hi.
Proof.
  intros Hle. unfold Rmin, Rmax, clamp.
  destruct (Rle_dec x lo), (Rlt_dec x lo), (Rlt_dec hi x);
    try destruct (Rle_dec lo hi); try destruct (Rle_dec x hi); lra.
Qed.

Lemma clamp_bounds (x lo hi : R) : lo <= hi -> lo <= clamp x lo hi <= hi.
Proof.
  intros Hle. unfold clamp.
  destruct (Rlt_dec x lo); [lra|]. destruct (Rlt_dec hi x); lra.
Qed.

Lemma clamp_monotone (x y lo hi : R) :
  lo <= hi -> x <= y -> clamp x lo hi <= clamp y lo hi.
Proof.
  intros Hle Hxy. unfold clamp.
  destruct (Rlt_dec x lo), (Rlt_dec y lo); try lra;
    destruct (Rlt_dec hi x), (Rlt_dec hi y); lra.
Qed.

Lemma exp_monotone (x y : R) : x <= y -> exp x <= exp y.
Proof.
  intros [Hlt | Heq].
  - left. apply exp_increasing. exact Hlt.
  - right. congruence.
Qed.

Lemma started_engine_growth env :
  growth (started_engine env) = mkGrowth 0.2 1 250.
Proof.
  reflexivity.
Qed.

Lemma reachable_growth e : reachable e -> growth e = mkGrowth 0.2 1 250.
Proof.
  intros [env [ins ->]].
  pose proof (run_keeps_settings ins (started_engine env)) as H.
  unfold settings in H. injection H as _ Hg.
  rewrite Hg. apply (started_engine_growth env).
Qed.

(** C4. On every engine reached from a started engine, the multiplier
    computed from the elapsed flight time is [clamp (exp (rate * t)) 1 cap]
    with the configured rate 0.2 and cap 250; at every elapsed time [t >= 0]
    it lies between 1 and the cap, and it never decreases when the elapsed
    time grows. *)
Theorem calculateMultiplier_clamp_bounded_monotone (e : GameEngine) :
  reachable e ->
  rate (growth e) = 0.2 /\ capMultiplier (growth e) = 250 /\
  (forall t,
     calculateMultiplier e t
     = clamp (exp (rate (growth e) * t)) 1 (capMultiplier (growth e))) /\
  (forall t, 0 <= t ->
     1 <= calculateMultiplier e t <= capMultiplier (growth e)) /\
  (forall t1 t2, t1 <= t2 ->
     calculateMultiplier e t1 <= calculateMultiplier e t2).
Proof.
  intro Hr. pose proof (reachable_growth e Hr) as Hg.
  assert (Heq : forall t,
    calculateMultiplier e t = clamp (exp (0.2 * t)) 1 250).
  { intro t. unfold calculateMultiplier. rewrite Hg. simpl.
    apply Rmin_Rmax_clamp. lra. }
  rewrite Hg. simpl. repeat split.
  - exact Heq.
  - rewrite Heq. apply clamp_bounds. lra.
  - rewrite Heq. apply clamp_bounds. lra.
  - intros t1 t2 Ht. rewrite !Heq. apply clamp_monotone; [lra|].
    apply exp_monotone. lra.
Qed.

Lemma calculateMultiplier_clamp_bounded_monotone_witness :
  reachable (started_engine (mkEnv 0 0)) /\
  1 <= 2 /\
  calculateMultiplier (started_engine (mkEnv 0 0)) 1
  <= calculateMultiplier (started_engine (mkEnv 0 0)) 2.
Proof.
  assert (Hr : reachable (started_engine (mkEnv 0 0))).
  { exists (mkEnv 0 0), []. reflexivity. }
  split; [exact Hr|]. split; [lra|].
  apply (calculateMultiplier_clamp_bounded_monotone _ Hr). lra.
Defined.

(** ** Crash decision *)

Lemma Rmin_monotone_l (x y c : R) : x <= y -> Rmin x c <= Rmin y c.
Proof.
  intro H. unfold Rmin. destruct (Rle_dec x c), (Rle_dec y c); lra.
Qed.

Lemma shouldCrash_spec env mult e :
  shouldCrash env mult e =
  (if Rlt_dec (random env)
        (crashChance
           (if startTime_truthy e
            then (now env - startTime_num e) / 1000 else 0) mult)
   then true else false, e, []).
Proof. reflexivity. Qed.

(** C5. The per-tick crash probability that [shouldCrash] compares the random
    draw with lies in [0, 1], never exceeds the 8% cap, and is non-decreasing
    in the elapsed time and in the multiplier. *)
Theorem crashChance_bounded_monotone :
  (forall env mult e,
     fst (fst (shouldCrash env mult e)) = true <->
     random env <
       crashChance
         (if startTime_truthy e
          then (now env - startTime_num e) / 1000 else 0) mult) /\
  (forall elapsed mult, 0 <= elapsed -> 1 <= mult ->
     0 <= crashChance elapsed mult <= 1 /\
     crashChance elapsed mult <= 0.08) /\
  (forall elapsed1 elapsed2 mult, 0 <= elapsed1 -> 1 <= mult ->
     elapsed1 <= elapsed2 ->
     crashChance elapsed1 mult <= crashChance elapsed2 mult) /\
  (forall elapsed mult1 mult2, 0 <= elapsed -> 1 <= mult1 ->
     mult1 <= mult2 ->
     crashChance elapsed mult1 <= crashChance elapsed mult2).
Proof.
  split; [|split; [|split]].
  - intros env mult e. rewrite shouldCrash_spec. simpl.
    destruct (Rlt_dec _ _); split; intro H; auto; discriminate.
  - intros elapsed mult _ _. unfold crashChance, Rmin.
    destruct (Rlt_dec 30 elapsed), (Rlt_dec 5 mult);
      destruct (Rle_dec _ 0.08); split; try split; nra.
  - intros e1 e2 m _ _ Hle. unfold crashChance.
    apply Rmin_monotone_l.
    destruct (Rlt_dec 30 e1), (Rlt_dec 30 e2), (Rlt_dec 5 m); nra.
  - intros el m1 m2 _ _ Hle. unfold crashChance.
    apply Rmin_monotone_l.
    destruct (Rlt_dec 30 el), (Rlt_dec 5 m1), (Rlt_dec 5 m2); nra.
Qed.

Lemma crashChance_bounded_monotone_witness :
  (0 <= 40 /\ 1 <= 6 /\ 0 <= crashChance 40 6 <= 1) /\
  (40 <= 50 /\ crashChance 40 6 <= crashChance 50 6) /\
  (6 <= 7 /\ crashChance 40 6 <= crashChance 40 7).
Proof.
  destruct crashChance_bounded_monotone as [_ [Hb [He Hm]]].
  repeat split; try lra.
  - apply (Hb 40 6); lra.
  - apply (Hb 40 6); lra.
  - apply (He 40 50 6); lra.
  - apply (Hm 40 6 7); lra.
Defined.

Lemma clearTimers_spec e :
  clearTimers e
  = (tt, set_stateTimeout None (set_gameLoopInterval false e), []).
Proof.
  destruct e as [st m stt gid h ap cp gl sto cf gr sts lpb].
  unfold clearTimers, bind, get, when, modify, ret; simpl.
  destruct gl, sto; reflexivity.
Qed.

Lemma crashGame_spec env trigger e :
  let r := crashGame env trigger e in
  snd r = crash_events env e /\
  state (snd (fst r)) = CRASHED /\
  multiplier (snd (fst r)) = multiplier e /\
  activePlayers (snd (fst r)) = [] /\
  cashedOutPlayers (snd (fst r)) = [] /\
  stateTimeout (snd (fst r)) = Some cb_scheduleNextGame /\
  gameLoopInterval (snd (fst r)) = false /\
  config (snd (fst r)) = config e /\
  history (snd (fst r))
  = pushed_history (historySize (config e)) (multiplier e) (history e).
Proof.
  unfold crashGame.
  destruct e as [st m stt gid h ap cp gl sto cf gr sts lpb].
  unfold crash_events, pushed_history, startTime_truthy, startTime_num.
  cbv [bind get when modify ret emit clearTimers
    buildMultiplierPayload updateAverageMultiplier addToHistory
    finalizeBets startTime_truthy startTime_num]; simpl.
  destruct gl, sto; simpl;
    (destruct stt as [t|]; simpl; [destruct (JS.truthy_num t); simpl|]);
    destruct h; simpl; destruct (Nat.ltb _ _); simpl;
    repeat split; reflexivity.
Qed.

Lemma updateGame_idle env e :
  state e <> FLYING -> updateGame env e = (tt, e, []).
Proof.
  intro H. unfold updateGame, bind, get.
  destruct (state e); try congruence; reflexivity.
Qed.

Lemma updateGame_spec env e :
  state e = FLYING ->
  updateGame env e =
  if tick_crashes env e
  then (tt, snd (fst (crashGame env None (tick_engine env e))),
        tick_broadcast env e ++ snd (crashGame env None (tick_engine env e)))
  else (tt, snd (fst (checkAutoCashOuts (tick_engine env e))),
        tick_broadcast env e
        ++ snd (checkAutoCashOuts (tick_engine env e))
        ++ [game_state_changed
              (snapshot_payload
                 (snapshot_of env (tick_elapsed env e)
                    (snd (fst (checkAutoCashOuts (tick_engine env e))))))]).
Proof.
  intro Hst.
  destruct e as [st m stt gid h ap cp gl sto cf gr sts lpb].
  simpl in Hst. subst st.
  unfold updateGame, tick_crashes, tick_broadcast, tick_engine,
    tick_broadcasts, snapshot_of, tick_elapsed.
  cbv [bind get modify ret when emit shouldCrash buildMultiplierPayload
       startTime_truthy startTime_num calculateMultiplier].
  simpl.
  destruct (negb (JS.truthy_num lpb) || _); simpl;
    destruct (Rlt_dec (random env) _); simpl;
    try destruct (Rle_dec (maxGameTime cf / 1000) _); simpl;
    match goal with
    | |- context [crashGame ?a ?b ?c] =>
        destruct (crashGame a b c) as [[u e1] l1]
    | |- context [checkAutoCashOuts ?c] =>
        destruct (checkAutoCashOuts c) as [[u e1] l1]
    end; destruct u; simpl; rewrite ?app_nil_r, <- ?app_assoc; reflexivity.
Qed.

(** ** What handlers emit *)

Lemma emits_only_ret {A : Type} (P : Event -> Prop) (a : A) :
  emits_only P (ret a).
Proof. intro e. constructor. Qed.

Lemma emits_only_get (P : Event -> Prop) : emits_only P get.
Proof. intro e. constructor. Qed.

Lemma emits_only_modify (P : Event -> Prop) (g : GameEngine -> GameEngine) :
  emits_only P (modify g).
Proof. intro e. constructor. Qed.

Lemma emits_only_emit (P : Event -> Prop) (ev : Event) :
  P ev -> emits_only P (emit ev).
Proof. intros H e. simpl. constructor; [exact H | constructor]. Qed.

Lemma emits_only_bind {A B : Type} (P : Event -> Prop)
    (m : M A) (k : A -> M B) :
  emits_only P m -> (forall a, emits_only P (k a)) -> emits_only P (bind m k).
Proof.
  intros Hm Hk e. unfold bind.
  specialize (Hm e).
  destruct (m e) as [[a e1] l1]. simpl in Hm.
  specialize (Hk a e1).
  destruct (k a e1) as [[b e2] l2]. simpl in *.
  apply Forall_app. split; assumption.
Qed.

Lemma emits_only_when (P : Event -> Prop) (b : bool) (m : M unit) :
  emits_only P m -> emits_only P (when b m).
Proof. intros H. destruct b; [exact H | apply emits_only_ret]. Qed.

Lemma emits_only_if {A : Type} (P : Event -> Prop) (b : bool)
    (m1 m2 : M A) :
  emits_only P m1 -> emits_only P m2 -> emits_only P (if b then m1 else m2).
Proof. destruct b; auto. Qed.

Lemma emits_only_forEach {A : Type} (P : Event -> Prop) (l : list A)
    (body : A -> M unit) :
  (forall a, emits_only P (body a)) -> emits_only P (forEach l body).
Proof.
  intros H. induction l as [|x l IH]; simpl.
  - apply emits_only_ret.
  - apply emits_only_bind; auto.
Qed.

Ltac quiet_step :=
  first
    [ apply emits_only_ret | apply emits_only_get | apply emits_only_modify
    | apply emits_only_emit; exact I
    | apply emits_only_when | apply emits_only_if
    | apply emits_only_forEach; intros
    | apply emits_only_bind; [| intros]
    | match goal with
      | |- emits_only _ (let '(_, _) := ?p in _) => destruct p
      | |- emits_only _ (match ?x with _ => _ end) => destruct x
      end ].

Ltac quiet := repeat quiet_step.

Lemma final_multipliers_app l1 l2 :
  final_multipliers (l1 ++ l2) = final_multipliers l1 ++ final_multipliers l2.
Proof. unfold final_multipliers. apply flat_map_app. Qed.

Lemma final_multipliers_quiet evs :
  Forall not_settlement evs -> final_multipliers evs = [].
Proof.
  induction 1 as [|ev evs Hev _ IH]; simpl; [reflexivity|].
  rewrite IH. destruct ev; simpl in *; try reflexivity. contradiction.
Qed.

(** ** Handlers, one by one *)

Lemma placeBet_spec env playerId amount a e :
  placeBet env playerId amount a e =
  if negb (canPlaceBet e) then (false, e, [])
  else if JS.truthy (JS.default_null a)
          && JS.lt (JS.ToNumber (JS.default_null a)) (Some 1.01)
  then (false, e, [])
  else (true,
        set_stats (stats_add_bet amount (stats e))
          (set_activePlayers
             (map_set playerId
                (mkPlayerData amount (JS.default_null a) false (now env))
                (activePlayers e)) e),
        []).
Proof.
  unfold placeBet. cbv [bind get modify ret].
  destruct (negb (canPlaceBet e)); [reflexivity|].
  destruct (JS.truthy _ && _); reflexivity.
Qed.

Lemma cashOut_spec playerId e :
  cashOut playerId e =
  if negb (state_eqb (state e) FLYING)
  then (cashOut_error "Cannot cash out at this time", e, [])
  else
    match map_get playerId (activePlayers e) with
    | None => (cashOut_error "No active bet found", e, [])
    | Some playerData =>
        if set_has playerId (cashedOutPlayers e)
        then (cashOut_error "Already cashed out", e, [])
        else (cashOut_ok (multiplier e) (bet playerData * multiplier e)
                (bet playerData),
              set_stats
                (stats_add_payout (bet playerData * multiplier e) (stats e))
                (set_activePlayers
                   (map_set playerId (won playerData) (activePlayers e))
                   (set_cashedOutPlayers
                      (set_add playerId (cashedOutPlayers e)) e)),
              [])
    end.
Proof.
  unfold cashOut, map_has. cbv [bind get modify ret].
  destruct (negb (state_eqb (state e) FLYING)); [reflexivity|].
  destruct (map_get playerId (activePlayers e)); simpl; [|reflexivity].
  destruct (set_has playerId (cashedOutPlayers e)); reflexivity.
Qed.

Lemma removePlayer_spec playerId e :
  removePlayer playerId e =
  (tt,
   set_cashedOutPlayers (set_delete playerId (cashedOutPlayers e))
     (set_activePlayers (map_delete playerId (activePlayers e)) e),
   []).
Proof. reflexivity. Qed.

Lemma stop_spec e :
  stop e =
  (tt, set_state WAITING (set_stateTimeout None (set_gameLoopInterval false e)),
   []).
Proof.
  unfold stop. unfold bind at 1. rewrite clearTimers_spec. reflexivity.
Qed.

Lemma forceCrash_spec env reason e :
  forceCrash env reason e =
  if negb (state_eqb (state e) FLYING)
  then (forceCrash_error "Game is not currently flying", e, [])
  else (forceCrash_ok (multiplier (snd (fst (crashGame env (Some reason) e)))),
        snd (fst (crashGame env (Some reason) e)),
        snd (crashGame env (Some reason) e)).
Proof.
  unfold forceCrash. cbv [bind get ret].
  destruct (negb (state_eqb (state e) FLYING)); [reflexivity|].
  destruct (crashGame env (Some reason) e) as [[u e1] l1]. simpl.
  rewrite app_nil_r. reflexivity.
Qed.

Lemma startCountdown_spec e :
  startCountdown e =
  (tt,
   set_stateTimeout (Some cb_startGame)
     (set_cashedOutPlayers [] (set_state STARTING e)),
   [game_state_changed
      (starting_payload STARTING (countdownTime (config e) / 1000))]).
Proof. reflexivity. Qed.

Lemma scheduleNextGame_spec env e :
  scheduleNextGame env e =
  (tt,
   set_stateTimeout (Some cb_startCountdown) (set_state WAITING e),
   [game_state_changed
      (waiting_payload WAITING
         ((IZR (Zfloor (random env
                        * (waitTime_max (config e) - waitTime_min (config e)
                           + 1)))
           + waitTime_min (config e)) / 1000))]).
Proof. reflexivity. Qed.

Lemma startGame_spec env e :
  startGame env e =
  (tt,
   set_gameLoopInterval true
     (set_lastPredictionBroadcast 0
        (set_cashedOutPlayers []
           (set_startTime (Some (now env))
              (set_multiplier 1
                 (set_state FLYING (set_gameId (S (gameId e)) e)))))),
   [game_state_changed
      (snapshot_payload
         (mkMultiplierPayload FLYING (JS.toFixed 4 1) (JS.toFixed 2 1) 0
            (now env) (rate (growth e))))]).
Proof. reflexivity. Qed.

Lemma handle_config env i e : config (snd (fst (handle env i e))) = config e.
Proof.
  pose proof (handle_keeps_settings env i e) as H.
  unfold settings in H. congruence.
Qed.

(** *** The auto-cash-out loop *)

Lemma performAutoCashOut_spec playerId playerData e :
  performAutoCashOut playerId playerData e =
  (tt,
   set_stats
     (stats_add_payout (bet playerData * multiplier e) (stats e))
     (set_activePlayers
        (map_set playerId (won playerData) (activePlayers e))
        (set_cashedOutPlayers (set_add playerId (cashedOutPlayers e)) e)),
   [player_auto_cashed_out playerId (multiplier e)
      (bet playerData * multiplier e) (bet playerData)]).
Proof. reflexivity. Qed.

Lemma checkAutoCashOuts_body_spec playerId playerData e :
  checkAutoCashOuts_body (playerId, playerData) e =
  if autoCashOut_due e playerId playerData
  then performAutoCashOut playerId playerData e
  else (tt, e, []).
Proof.
  unfold checkAutoCashOuts_body. cbv [bind get when].
  destruct (autoCashOut_due e playerId playerData); [|reflexivity].
  rewrite performAutoCashOut_spec. reflexivity.
Qed.

Lemma checkAutoCashOuts_keeps {X : Type} (f : GameEngine -> X) :
  (forall v e, f (set_cashedOutPlayers v e) = f e) ->
  (forall v e, f (set_activePlayers v e) = f e) ->
  (forall v e, f (set_stats v e) = f e) ->
  keeps f checkAutoCashOuts.
Proof.
  intros Hc Ha Hs.
  unfold checkAutoCashOuts. apply keeps_bind; [apply keeps_get|].
  intros e0. apply keeps_forEach. intros [playerId playerData] e.
  rewrite checkAutoCashOuts_body_spec.
  destruct (autoCashOut_due e playerId playerData); [|reflexivity].
  rewrite performAutoCashOut_spec. simpl.
  rewrite Hs, Ha, Hc. reflexivity.
Qed.

Lemma checkAutoCashOuts_quiet : emits_only not_settlement checkAutoCashOuts.
Proof.
  unfold checkAutoCashOuts, checkAutoCashOuts_body, performAutoCashOut.
  quiet.
Qed.

(** ** History *)

Lemma bind_ret_r {A B : Type} (m : M A) (f : A -> B) e :
  bind m (fun a => ret (f a)) e
  = (f (fst (fst (m e))), snd (fst (m e)), snd (m e)).
Proof.
  unfold bind. destruct (m e) as [[a e1] l]. simpl.
  rewrite app_nil_r. reflexivity.
Qed.

Lemma bind_ret_const {A B : Type} (m : M A) (b : B) e :
  bind m (fun _ => ret b) e = (b, snd (fst (m e)), snd (m e)).
Proof. apply (bind_ret_r m (fun _ => b)). Qed.

Ltac handle_cases i :=
  destruct i; unfold handle;
  first [rewrite bind_ret_r | rewrite bind_ret_const]; simpl fst; simpl snd.

Lemma final_multipliers_crash env e :
  final_multipliers (crash_events env e) = [multiplier e].
Proof.
  unfold crash_events. rewrite final_multipliers_app.
  destruct (startTime_truthy e); reflexivity.
Qed.

Lemma final_multipliers_broadcast env e :
  final_multipliers (tick_broadcast env e) = [].
Proof.
  unfold tick_broadcast. destruct (tick_broadcasts env e); reflexivity.
Qed.

Lemma tick_engine_history env e : history (tick_engine env e) = history e.
Proof. unfold tick_engine. destruct (tick_broadcasts env e); reflexivity. Qed.

Lemma tick_engine_config env e : config (tick_engine env e) = config e.
Proof. unfold tick_engine. destruct (tick_broadcasts env e); reflexivity. Qed.

Lemma updateGame_history env e :
  let r := updateGame env e in
  (final_multipliers (snd r) = [] /\ history (snd (fst r)) = history e) \/
  (exists m,
     final_multipliers (snd r) = [m] /\
     history (snd (fst r))
     = pushed_history (historySize (config e)) m (history e)).
Proof.
  destruct (state_eqb (state e) FLYING) eqn:Hst.
  - assert (Hf : state e = FLYING) by (destruct (state e); easy).
    simpl. rewrite (updateGame_spec env e Hf).
    destruct (tick_crashes env e); simpl.
    + right. exists (multiplier (tick_engine env e)).
      destruct (crashGame_spec env None (tick_engine env e))
        as (Hev & _ & _ & _ & _ & _ & _ & _ & Hh).
      rewrite Hev, Hh, final_multipliers_app, final_multipliers_broadcast,
        final_multipliers_crash, tick_engine_history, tick_engine_config.
      split; reflexivity.
    + left. rewrite !final_multipliers_app, final_multipliers_broadcast.
      rewrite (final_multipliers_quiet _ (checkAutoCashOuts_quiet _)).
      split; [reflexivity|].
      rewrite (checkAutoCashOuts_keeps history); try reflexivity.
      apply tick_engine_history.
  - left. rewrite updateGame_idle by (intro H; rewrite H in Hst; discriminate).
    split; reflexivity.
Qed.

Lemma handle_history env i e :
  let r := handle env i e in
  (final_multipliers (snd r) = [] /\ history (snd (fst r)) = history e) \/
  (exists m,
     final_multipliers (snd r) = [m] /\
     history (snd (fst r))
     = pushed_history (historySize (config e)) m (history e)).
Proof.
  handle_cases i.
  - left. rewrite placeBet_spec.
    destruct (negb (canPlaceBet e)); [split; reflexivity|].
    destruct (JS.truthy _ && _); split; reflexivity.
  - left. rewrite cashOut_spec.
    destruct (negb _); [split; reflexivity|].
    destruct (map_get _ _); [|split; reflexivity].
    destruct (set_has _ _); split; reflexivity.
  - left. split; reflexivity.
  - rewrite forceCrash_spec.
    destruct (negb _); simpl; [left; split; reflexivity|].
    right. exists (multiplier e).
    destruct (crashGame_spec env (Some reason) e)
      as (Hev & _ & _ & _ & _ & _ & _ & _ & Hh).
    rewrite Hev, Hh, final_multipliers_crash. split; reflexivity.
  - left. rewrite stop_spec. split; reflexivity.
  - left. unfold fire_timeout. cbv [bind get].
    destruct (stateTimeout e) as [[| |]|]; split; reflexivity.
  - unfold fire_interval. cbv [bind get when].
    destruct (gameLoopInterval e).
    + destruct (updateGame_history env e) as [[H1 H2]|[m [H1 H2]]].
      * left. destruct (updateGame env e) as [[u e1] l1]. simpl in *.
        rewrite ?app_nil_r. split; assumption.
      * right. exists m. destruct (updateGame env e) as [[u e1] l1].
        simpl in *. rewrite ?app_nil_r. split; assumption.
    + left. split; reflexivity.
Qed.

Lemma removelast_firstn_length {A : Type} (l : list A) :
  removelast l = firstn (List.length l - 1) l.
Proof.
  induction l as [|x l IH]; [reflexivity|].
  destruct l as [|y l]; [reflexivity|].
  change (removelast (x :: y :: l)) with (x :: removelast (y :: l)).
  rewrite IH. simpl. rewrite Nat.sub_0_r. reflexivity.
Qed.

Lemma pushed_history_firstn cap m h :
  (List.length h <= cap)%nat ->
  pushed_history cap m h = firstn cap (JS.toFixed 2 m :: h).
Proof.
  intro Hle. unfold pushed_history.
  destruct (Nat.ltb cap (List.length (JS.toFixed 2 m :: h))) eqn:Hlt.
  - apply Nat.ltb_lt in Hlt. simpl in Hlt.
    rewrite removelast_firstn_length.
    replace (List.length (JS.toFixed 2 m :: h) - 1)%nat with cap
      by (simpl; lia).
    reflexivity.
  - apply Nat.ltb_ge in Hlt. symmetry. apply firstn_all2. exact Hlt.
Qed.

Lemma firstn_app_firstn {A : Type} (n : nat) (a b : list A) :
  firstn n (a ++ firstn n b) = firstn n (a ++ b).
Proof.
  rewrite !firstn_app. f_equal.
  rewrite firstn_firstn. f_equal. lia.
Qed.

Lemma run_cons env i rest e :
  run e ((env, i) :: rest) =
  (fst (run (snd (fst (handle env i e))) rest),
   mkStep i (fst (fst (handle env i e))) (snd (handle env i e))
   :: snd (run (snd (fst (handle env i e))) rest)).
Proof.
  simpl. destruct (handle env i e) as [[o e1] evs]. simpl.
  destruct (run e1 rest) as [e2 steps]. reflexivity.
Qed.

Lemma run_history ins :
  forall e,
    (List.length (history e) <= historySize (config e))%nat ->
    history (fst (run e ins))
    = firstn (historySize (config e))
        (rev (map (JS.toFixed 2)
                (final_multipliers (run_events (snd (run e ins)))))
         ++ history e).
Proof.
  induction ins as [|[env i] rest IH]; intros e Hlen.
  - simpl. symmetry. apply firstn_all2. exact Hlen.
  - rewrite run_cons. simpl fst. simpl snd.
    unfold run_events. simpl flat_map. fold (run_events).
    fold (run_events (snd (run (snd (fst (handle env i e))) rest))).
    rewrite final_multipliers_app.
    pose proof (handle_config env i e) as Hcfg.
    destruct (handle_history env i e) as [[Hf Hh]|[m [Hf Hh]]].
    + rewrite IH by (rewrite Hh, Hcfg; exact Hlen).
      rewrite Hf, Hh, Hcfg. reflexivity.
    + rewrite pushed_history_firstn in Hh by exact Hlen.
      rewrite IH by (rewrite Hh, Hcfg; apply firstn_le_length).
      rewrite Hf, Hh, Hcfg. simpl app. simpl map. simpl rev.
      rewrite firstn_app_firstn, <- app_assoc. reflexivity.
Qed.

Lemma crashGame_evicts env trigger e :
  List.length (history e) = historySize (config e) ->
  history (snd (fst (crashGame env trigger e)))
  = removelast (JS.toFixed 2 (multiplier e) :: history e).
Proof.
  intro Hlen.
  destruct (crashGame_spec env trigger e)
    as (_ & _ & _ & _ & _ & _ & _ & _ & Hh).
  rewrite Hh. unfold pushed_history.
  replace (Nat.ltb _ _) with true; [reflexivity|].
  symmetry. apply Nat.ltb_lt. simpl. lia.
Qed.

(** ** A concrete round, step by step *)

Lemma crashChance_cap elapsed mult : crashChance elapsed mult <= 0.08.
Proof. unfold crashChance. apply Rmin_r. Qed.

Lemma exp_upper x : 0 <= x < 1 -> exp x <= / (1 - x).
Proof.
  intros [H0 H1].
  pose proof (exp_ineq1_le (- x)) as H.
  pose proof (exp_pos x) as Hp.
  assert (He : exp x * exp (- x) = 1).
  { rewrite <- exp_plus. replace (x + - x) with 0 by lra. apply exp_0. }
  apply (Rmult_le_reg_r (1 - x)); [lra|].
  rewrite Rinv_l by lra. nra.
Qed.

Lemma exp_500_bounds : 1.002 < exp (1 / 500) < 1.003.
Proof.
  split.
  - pose proof (exp_ineq1 (1 / 500)) as H. lra.
  - pose proof (exp_upper (1 / 500)) as H.
    assert (/ (1 - 1 / 500) < 1.003).
    { replace (1 - 1 / 500) with (499 / 500) by lra.
      replace (/ (499 / 500)) with (500 / 499) by (field; lra). lra. }
    lra.
Qed.

Lemma toFixed_2_near_one x : 0.995 <= x < 1.005 -> JS.toFixed 2 x = 1.
Proof.
  intros [Hlo Hhi]. unfold JS.toFixed.
  assert (Habs : Rabs x = x) by (apply Rabs_right; lra).
  destruct (Rle_dec (10 ^ 21) (Rabs x)) as [H|_]; [rewrite Habs in H; lra|].
  destruct (Rlt_dec x 0) as [H|_]; [lra|].
  unfold JS.roundHalfUp.
  rewrite (Zfloor_eq 100); [lra|].
  split; lra.
Qed.

Lemma checkAutoCashOuts_nobody e :
  activePlayers e = [] -> checkAutoCashOuts e = (tt, e, []).
Proof.
  intro H. unfold checkAutoCashOuts. cbv [bind get]. rewrite H. reflexivity.
Qed.

Lemma run_app a : forall e b,
  run e (a ++ b) =
  (fst (run (fst (run e a)) b), snd (run e a) ++ snd (run (fst (run e a)) b)).
Proof.
  induction a as [|[env i] a IH]; intros e b.
  - simpl. destruct (run e b); reflexivity.
  - rewrite <- app_comm_cons, !run_cons, IH. reflexivity.
Qed.

Lemma run_events_app s1 s2 :
  run_events (s1 ++ s2) = run_events s1 ++ run_events s2.
Proof. unfold run_events. apply flat_map_app. Qed.

Lemma handle_timeout env e cb :
  stateTimeout e = Some cb ->
  handle env timeout_fires e =
  (out_void,
   snd (fst (run_callback env cb (set_stateTimeout None e))),
   snd (run_callback env cb (set_stateTimeout None e))).
Proof.
  intro H. unfold handle. rewrite bind_ret_const.
  unfold fire_timeout. cbv [bind get modify]. rewrite H.
  destruct (run_callback env cb (set_stateTimeout None e)) as [[u e1] l1].
  reflexivity.
Qed.

Lemma handle_interval env e :
  gameLoopInterval e = true ->
  handle env interval_fires e =
  (out_void, snd (fst (updateGame env e)), snd (updateGame env e)).
Proof.
  intro H. unfold handle. rewrite bind_ret_const.
  unfold fire_interval. cbv [bind get when]. rewrite H.
  destruct (updateGame env e) as [[u e1] l1]. reflexivity.
Qed.

Lemma handle_forceCrash_flying env reason e :
  state e = FLYING ->
  handle env (call_forceCrash reason) e =
  (out_forceCrash (forceCrash_ok (multiplier e)),
   snd (fst (crashGame env (Some reason) e)),
   crash_events env e).
Proof.
  intro H. unfold handle. rewrite bind_ret_r, forceCrash_spec, H. simpl.
  destruct (crashGame_spec env (Some reason) e) as (Hev & _ & Hm & _).
  rewrite Hev, Hm. reflexivity.
Qed.

Ltac tick_field :=
  intros; unfold tick_engine;
  match goal with |- context [tick_broadcasts ?env ?e] =>
    destruct (tick_broadcasts env e); reflexivity
  end.

Lemma tick_engine_state env e : state (tick_engine env e) = state e.
Proof. tick_field. Qed.

Lemma tick_engine_activePlayers env e :
  activePlayers (tick_engine env e) = activePlayers e.
Proof. tick_field. Qed.

Lemma tick_engine_cashedOutPlayers env e :
  cashedOutPlayers (tick_engine env e) = cashedOutPlayers e.
Proof. tick_field. Qed.

Lemma tick_engine_stateTimeout env e :
  stateTimeout (tick_engine env e) = stateTimeout e.
Proof. tick_field. Qed.

Lemma tick_engine_growth env e : growth (tick_engine env e) = growth e.
Proof. tick_field. Qed.

Lemma tick_engine_multiplier env e :
  multiplier (tick_engine env e) = calculateMultiplier e (tick_elapsed env e).
Proof. tick_field. Qed.

Lemma final_multipliers_run_cons env i rest e :
  final_multipliers (run_events (snd (run e ((env, i) :: rest))))
  = final_multipliers (snd (handle env i e))
    ++ final_multipliers
         (run_events (snd (run (snd (fst (handle env i e))) rest))).
Proof.
  rewrite run_cons. cbn [snd]. unfold run_events. cbn [flat_map step_events].
  apply final_multipliers_app.
Qed.

Lemma fst_run_cons env i rest e :
  fst (run e ((env, i) :: rest)) = fst (run (snd (fst (handle env i e))) rest).
Proof. rewrite run_cons. reflexivity. Qed.

(** The tick ten milliseconds into a flight with the constructor's settings
    and no wager: no crash, and the multiplier becomes [exp (1/500)]. *)
Lemma early_tick t e :
  state e = FLYING ->
  gameLoopInterval e = true ->
  startTime e = Some t ->
  activePlayers e = [] ->
  settings e = (mkConfig 3000 7000 3000 100 1000 90000 20,
                mkGrowth 0.2 1 250) ->
  let r := handle (mkEnv (t + 10) 0.99) interval_fires e in
  final_multipliers (snd r) = [] /\
  state (snd (fst r)) = FLYING /\
  multiplier (snd (fst r)) = exp (1 / 500) /\
  stateTimeout (snd (fst r)) = stateTimeout e /\
  activePlayers (snd (fst r)) = [] /\
  settings (snd (fst r)) = settings e.
Proof.
  intros Hst Hgl Hstart Hap Hset r. subst r.
  pose proof Hset as Hset'. unfold settings in Hset'.
  injection Hset' as Hcfg Hgr.
  set (env := mkEnv (t + 10) 0.99).
  assert (Hel : tick_elapsed env e = 1 / 100).
  { unfold tick_elapsed, startTime_num. rewrite Hstart. simpl. lra. }
  assert (Hm : calculateMultiplier e (tick_elapsed env e) = exp (1 / 500)).
  { unfold calculateMultiplier. rewrite Hel, Hgr. simpl.
    replace (0.2 * (1 / 100)) with (1 / 500) by lra.
    pose proof exp_500_bounds as [Hlo Hhi].
    rewrite Rmax_left by lra. rewrite Rmin_left by lra. reflexivity. }
  assert (Hnc : tick_crashes env e = false).
  { unfold tick_crashes. rewrite Hel, Hcfg. simpl.
    match goal with |- context [crashChance ?a ?b] =>
      pose proof (crashChance_cap a b) as Hcap end.
    destruct (Rlt_dec _ _) as [H|_]; [lra|].
    destruct (Rle_dec _ _) as [H|_]; [lra|]. reflexivity. }
  rewrite (handle_interval _ e Hgl), (updateGame_spec _ e Hst), Hnc.
  rewrite checkAutoCashOuts_nobody
    by (rewrite tick_engine_activePlayers; exact Hap).
  cbn [fst snd].
  rewrite final_multipliers_app, final_multipliers_broadcast.
  rewrite tick_engine_state, tick_engine_multiplier, tick_engine_stateTimeout,
    tick_engine_activePlayers.
  unfold settings. rewrite tick_engine_config, tick_engine_growth.
  repeat split; assumption.
Qed.

Lemma flight_round_spec t0 e :
  awaiting_round e ->
  awaiting_round (fst (run e (flight_round t0))) /\
  final_multipliers (run_events (snd (run e (flight_round t0))))
  = [exp (1 / 500)].
Proof.
  intros (Hto & Hap & Hset).
  unfold flight_round.
  rewrite !final_multipliers_run_cons, !fst_run_cons.
  (* countdown *)
  rewrite (handle_timeout _ e cb_startCountdown Hto).
  cbn [run_callback]. rewrite startCountdown_spec. cbn [fst snd].
  set (e1 := set_stateTimeout (Some cb_startGame) _).
  (* take-off *)
  rewrite (handle_timeout _ e1 cb_startGame eq_refl).
  cbn [run_callback]. rewrite startGame_spec. cbn [fst snd now].
  set (e2 := set_gameLoopInterval true _).
  (* one tick *)
  replace (t0 + 1010) with (t0 + 1000 + 10) by lra.
  destruct (early_tick (t0 + 1000) e2)
    as (Hf3 & Hst3 & Hm3 & Hto3 & Hap3 & Hset3);
    try reflexivity; try assumption.
  set (e3 := snd (fst (handle _ interval_fires e2))) in *.
  rewrite Hf3.
  (* admin crash *)
  rewrite (handle_forceCrash_flying _ _ e3 Hst3). cbn [fst snd].
  destruct (crashGame_spec (mkEnv (t0 + 1020) 0)
              (Some "admin_override"%string) e3)
    as (_ & _ & _ & Hap4 & _ & Hto4 & _ & _).
  pose proof (crashGame_keeps_settings (mkEnv (t0 + 1020) 0)
                (Some "admin_override"%string) e3) as Hset4.
  set (e4 := snd (fst (crashGame _ _ e3))) in *.
  (* display delay *)
  rewrite (handle_timeout _ e4 cb_scheduleNextGame Hto4).
  cbn [run_callback]. rewrite scheduleNextGame_spec. cbn [fst snd run].
  rewrite final_multipliers_crash, Hm3.
  split; [|reflexivity].
  repeat split.
  - exact Hap4.
  - change (settings e4 = (mkConfig 3000 7000 3000 100 1000 90000 20,
                           mkGrowth 0.2 1 250)).
    rewrite Hset4, Hset3. exact Hset.
Qed.

Lemma flight_rounds_spec n : forall t0 e,
  awaiting_round e ->
  awaiting_round (fst (run e (flight_rounds n t0))) /\
  final_multipliers (run_events (snd (run e (flight_rounds n t0))))
  = repeat (exp (1 / 500)) n.
Proof.
  induction n as [|n IH]; intros t0 e He.
  - split; [exact He | reflexivity].
  - cbn [flight_rounds]. rewrite run_app. cbn [fst snd].
    destruct (flight_round_spec t0 e He) as [He1 Hf1].
    destruct (IH (t0 + 5000) _ He1) as [He2 Hf2].
    split; [exact He2|].
    rewrite run_events_app, final_multipliers_app, Hf1, Hf2. reflexivity.
Qed.

Lemma started_engine_awaiting env : awaiting_round (started_engine env).
Proof. repeat split. Qed.

(** C7 (amended). Starting from an empty history, after any run the history
    holds the final multipliers of the completed rounds, each rounded to two
    decimals as [addToHistory] stores them, newest first and cut to the
    configured capacity (20 in the constructor); once more rounds than the
    capacity have completed its length is exactly the capacity, and a round
    that completes on a full history drops the oldest entry. *)
Theorem history_newest_first_rounded (e0 : GameEngine)
    (ins : list (Env * Input)) :
  history e0 = [] ->
  let r := run e0 ins in
  let finals := final_multipliers (run_events (snd r)) in
  let capacity := historySize (config e0) in
  history (fst r) = firstn capacity (rev (map (JS.toFixed 2) finals)) /\
  ((capacity < List.length finals)%nat ->
   List.length (history (fst r)) = capacity) /\
  (forall env trigger e,
     List.length (history e) = historySize (config e) ->
     history (snd (fst (crashGame env trigger e)))
     = removelast (JS.toFixed 2 (multiplier e) :: history e)) /\
  (forall env, historySize (config (new_GameEngine env)) = 20%nat).
Proof.
  intros Hempty r finals capacity.
  assert (Hh : history (fst r)
               = firstn capacity (rev (map (JS.toFixed 2) finals))).
  { subst r finals capacity.
    rewrite run_history by (rewrite Hempty; simpl; lia).
    rewrite Hempty, app_nil_r. reflexivity. }
  split; [exact Hh|]. split; [|split].
  - intro Hlt. rewrite Hh. apply firstn_length_le.
    rewrite length_rev, length_map. lia.
  - intros env trigger e. apply crashGame_evicts.
  - reflexivity.
Qed.

Lemma history_newest_first_rounded_witness :
  let e0 := started_engine (mkEnv 0 0) in
  let r := run e0 (flight_rounds 21 0) in
  history e0 = [] /\
  (historySize (config e0)
   < List.length (final_multipliers (run_events (snd r))))%nat /\
  List.length (history (fst r)) = historySize (config e0).
Proof.
  intros e0 r.
  assert (Hlt : (historySize (config e0)
                 < List.length (final_multipliers (run_events (snd r))))%nat).
  { subst r.
    destruct (flight_rounds_spec 21 0 e0 (started_engine_awaiting _))
      as [_ Hf].
    rewrite Hf, repeat_length. change (historySize (config e0)) with 20%nat.
    lia. }
  split; [reflexivity|]. split; [exact Hlt|].
  apply (history_newest_first_rounded e0 (flight_rounds 21 0) eq_refl).
  exact Hlt.
Defined.

(** C7, as stated, fails: after twenty-one rounds whose final multiplier is
    [exp (1/500)] (about 1.002) the history holds twenty entries equal to
    [1], not the final multipliers themselves. *)
Lemma history_unrounded_counterexample :
  let e0 := started_engine (mkEnv 0 0) in
  let r := run e0 (flight_rounds 21 0) in
  let finals := final_multipliers (run_events (snd r)) in
  (historySize (config e0) < List.length finals)%nat /\
  history (fst r) <> firstn (historySize (config e0)) (rev finals).
Proof.
  intros e0 r finals.
  destruct (flight_rounds_spec 21 0 e0 (started_engine_awaiting _))
    as [_ Hf].
  fold r in Hf. fold finals in Hf.
  split.
  - rewrite Hf, repeat_length. change (historySize (config e0)) with 20%nat.
    lia.
  - subst r. rewrite run_history by (simpl; lia).
    fold finals. rewrite Hf.
    change (historySize (config e0)) with 20%nat.
    change (history e0) with (@nil R).
    generalize exp_500_bounds. generalize (toFixed_2_near_one (exp (1 / 500))).
    generalize (exp (1 / 500)). intros M Hfix [Hlo Hhi].
    cbn [repeat map rev app firstn]. intro Heq.
    injection Heq as Heq _. rewrite Hfix in Heq by lra. lra.
Qed.

(** ** [Map] and [Set] facts *)

Lemma set_has_In k s : set_has k s = true <-> In k s.
Proof.
  induction s as [|k' s IH]; simpl.
  - split; [discriminate | contradiction].
  - destruct (String.eqb_spec k k') as [->|Hne].
    + split; auto.
    + rewrite IH. split; [auto | intros [H|H]; [congruence | exact H]].
Qed.

Lemma set_has_false k s : set_has k s = false <-> ~ In k s.
Proof.
  rewrite <- set_has_In. destruct (set_has k s); split; congruence.
Qed.

Lemma set_add_In k q s : In k (set_add q s) <-> k = q \/ In k s.
Proof.
  unfold set_add. destruct (set_has q s) eqn:H.
  - apply set_has_In in H. split; [auto | intros [->|H']; assumption].
  - rewrite in_app_iff. simpl. split.
    + intros [H'|[H'|[]]]; auto.
    + intros [H'|H']; auto.
Qed.

Lemma set_has_add k s : set_has k (set_add k s) = true.
Proof. apply set_has_In, set_add_In. left. reflexivity. Qed.

Lemma set_delete_In k q s : In k (set_delete q s) <-> k <> q /\ In k s.
Proof.
  induction s as [|k' s IH]; simpl.
  - tauto.
  - destruct (String.eqb_spec q k') as [->|Hne]; simpl; rewrite IH.
    + split; [tauto | intros [H [H'|H']]; [congruence | tauto]].
    + split.
      * intros [->|[H H']]; [split; [congruence | auto] | tauto].
      * tauto.
Qed.

Lemma map_get_In k m v : map_get k m = Some v -> In (k, v) m.
Proof.
  induction m as [|[k' v'] m IH]; simpl; [discriminate|].
  destruct (String.eqb_spec k k') as [->|Hne].
  - intro H. injection H as ->. left. reflexivity.
  - intro H. right. apply IH. exact H.
Qed.

Lemma map_get_keys k m : map_get k m <> None <-> In k (keys m).
Proof.
  induction m as [|[k' v'] m IH]; simpl.
  - tauto.
  - destruct (String.eqb_spec k k') as [->|Hne].
    + split; [auto | discriminate].
    + rewrite IH. split; [auto | intros [H|H]; [congruence | exact H]].
Qed.


Lemma map_get_set_same k v m : map_get k (map_set k v m) = Some v.
Proof.
  induction m as [|[k' v'] m IH]; simpl.
  - rewrite String.eqb_refl. reflexivity.
  - destruct (String.eqb_spec k k') as [->|Hne]; simpl.
    + rewrite String.eqb_refl. reflexivity.
    + destruct (String.eqb_spec k k'); [congruence | exact IH].
Qed.

Lemma map_get_set_other k q v m :
  q <> k -> map_get q (map_set k v m) = map_get q m.
Proof.
  intro Hne. induction m as [|[k' v'] m IH]; simpl.
  - destruct (String.eqb_spec q k); [congruence | reflexivity].
  - destruct (String.eqb_spec k k') as [->|Hne']; simpl.
    + destruct (String.eqb_spec q k'); [congruence | reflexivity].
    + rewrite IH. reflexivity.
Qed.

Lemma keys_map_set_present k v m :
  In k (keys m) -> keys (map_set k v m) = keys m.
Proof.
  induction m as [|[k' v'] m IH]; simpl; [contradiction|].
  destruct (String.eqb_spec k k') as [->|Hne]; simpl.
  - reflexivity.
  - intros [H|H]; [congruence|]. f_equal. apply IH. exact H.
Qed.

Lemma keys_map_set_absent k v m :
  ~ In k (keys m) -> keys (map_set k v m) = keys m ++ [k].
Proof.
  induction m as [|[k' v'] m IH]; simpl; [reflexivity|].
  destruct (String.eqb_spec k k') as [->|Hne]; simpl.
  - intro H. exfalso. apply H. left. reflexivity.
  - intro H. f_equal. apply IH. intro H'. apply H. right. exact H'.
Qed.

Lemma keys_map_set_In k q v m :
  In q (keys (map_set k v m)) <-> q = k \/ In q (keys m).
Proof.
  destruct (in_dec string_dec k (keys m)) as [Hin|Hnin].
  - rewrite keys_map_set_present by exact Hin.
    split; [auto | intros [->|H]; assumption].
  - rewrite keys_map_set_absent by exact Hnin.
    rewrite in_app_iff. simpl. split.
    + intros [H|[H|[]]]; auto.
    + intros [H|H]; auto.
Qed.

Lemma NoDup_keys_map_set k v m :
  NoDup (keys m) -> NoDup (keys (map_set k v m)).
Proof.
  intro Hnd. destruct (in_dec string_dec k (keys m)) as [Hin|Hnin].
  - rewrite keys_map_set_present by exact Hin. exact Hnd.
  - rewrite keys_map_set_absent by exact Hnin.
    apply NoDup_app; [exact Hnd | repeat constructor; simpl; tauto |].
    intros x Hx [<-|[]]. contradiction.
Qed.

Lemma map_set_In k q v pd m :
  In (q, pd) (map_set k v m) -> In (q, pd) m \/ (q = k /\ pd = v).
Proof.
  induction m as [|[k' v'] m IH]; simpl.
  - intros [H|[]]. injection H as <- <-. right. split; reflexivity.
  - destruct (String.eqb_spec k k') as [->|Hne]; simpl.
    + intros [H|H]; [injection H as <- <-; right; split; reflexivity|].
      left. right. exact H.
    + intros [H|H]; [left; left; exact H|].
      destruct (IH H) as [H'|H']; [left; right; exact H' | right; exact H'].
Qed.

Lemma keys_map_delete_In k q m :
  In q (keys (map_delete k m)) <-> q <> k /\ In q (keys m).
Proof.
  induction m as [|[k' v'] m IH]; simpl.
  - tauto.
  - destruct (String.eqb_spec k k') as [->|Hne]; simpl; rewrite IH.
    + split; [tauto | intros [H [H'|H']]; [congruence | tauto]].
    + split.
      * intros [->|[H H']]; [split; [congruence | auto] | tauto].
      * tauto.
Qed.

Lemma map_delete_In k q pd m :
  In (q, pd) (map_delete k m) -> In (q, pd) m.
Proof.
  induction m as [|[k' v'] m IH]; simpl; [tauto|].
  destruct (String.eqb_spec k k') as [->|Hne]; simpl.
  - intro H. right. apply IH. exact H.
  - intros [H|H]; [left; exact H | right; apply IH; exact H].
Qed.

Lemma NoDup_keys_map_delete k m :
  NoDup (keys m) -> NoDup (keys (map_delete k m)).
Proof.
  induction m as [|[k' v'] m IH]; simpl; intro Hnd; [constructor|].
  inversion Hnd as [|x l Hnin Hnd']; subst.
  destruct (String.eqb_spec k k') as [->|Hne]; simpl.
  - apply IH. exact Hnd'.
  - constructor; [|apply IH; exact Hnd'].
    intro H. apply keys_map_delete_In in H. tauto.
Qed.

(** ** Commands *)

Lemma canPlaceBet_spec e :
  canPlaceBet e = true <-> state e = WAITING \/ state e = STARTING.
Proof.
  unfold canPlaceBet. destruct (state e); simpl; split; auto;
    try discriminate; intros [H|H]; discriminate.
Qed.

Lemma truthy_zero : JS.truthy (JS.Number 0) = false.
Proof.
  simpl. destruct (Req_dec_T 0 0) as [_|H]; [reflexivity | contradiction].
Qed.

Lemma truthy_default_null a : JS.truthy (JS.default_null a) = JS.truthy a.
Proof. destruct a; reflexivity. Qed.

Lemma threshold_rejected_default_null a :
  threshold_rejected (JS.default_null a) = threshold_rejected a.
Proof. destruct a; reflexivity. Qed.

Lemma threshold_rejected_falsy a :
  JS.truthy a = false -> threshold_rejected a = false.
Proof. intro H. unfold threshold_rejected. rewrite H. reflexivity. Qed.

Lemma threshold_rejected_number x :
  threshold_rejected (JS.Number x) = true <-> x <> 0 /\ x < 1.01.
Proof.
  unfold threshold_rejected. simpl.
  destruct (Req_dec_T x 0) as [->|Hne]; simpl.
  - split; [discriminate | intros [H _]; congruence].
  - destruct (Rlt_dec x 1.01); split; auto; try discriminate.
    intros [_ H]. contradiction.
Qed.

Lemma placeBet_accepted_iff env playerId amount a e :
  fst (fst (placeBet env playerId amount a e)) = true <->
  canPlaceBet e = true /\ threshold_rejected a = false.
Proof.
  rewrite placeBet_spec. fold (threshold_rejected (JS.default_null a)).
  rewrite threshold_rejected_default_null.
  destruct (canPlaceBet e); simpl.
  - destruct (threshold_rejected a); simpl; split; auto; intros [_ H];
      discriminate.
  - split; [discriminate | intros [H _]; discriminate].
Qed.

(** C2 (amended). [placeBet] is accepted exactly when the state is WAITING or
    STARTING and the threshold is not both truthy and below 1.01; the amount
    is not examined.  A numeric threshold passes when it is 0 or at least
    1.01.  A rejected call returns [false], leaves the engine as it was and
    emits nothing. *)
Theorem placeBet_accepted_iff_state_and_threshold
    (env : Env) (playerId : string) (amount : R) (a : JS.value)
    (e : GameEngine) :
  (fst (fst (placeBet env playerId amount a e)) = true <->
   (state e = WAITING \/ state e = STARTING) /\
   threshold_rejected a = false) /\
  (forall x, threshold_rejected (JS.Number x) = false <-> x = 0 \/ 1.01 <= x) /\
  (JS.truthy a = false -> threshold_rejected a = false) /\
  (fst (fst (placeBet env playerId amount a e)) = false ->
   placeBet env playerId amount a e = (false, e, [])).
Proof.
  split; [|split; [|split]].
  - rewrite placeBet_accepted_iff, canPlaceBet_spec. reflexivity.
  - intro x. pose proof (threshold_rejected_number x) as H.
    destruct (threshold_rejected (JS.Number x)).
    + destruct H as [H _]. specialize (H eq_refl).
      split; [discriminate | intros [H'|H']; lra].
    + split; [intros _ | reflexivity].
      destruct (Req_dec_T x 0) as [->|Hne]; [left; reflexivity|].
      right. destruct (Rlt_dec x 1.01) as [Hlt|Hge]; [|lra].
      destruct H as [_ H]. discriminate H. split; assumption.
  - apply threshold_rejected_falsy.
  - rewrite placeBet_spec. destruct (negb (canPlaceBet e)); [reflexivity|].
    destruct (JS.truthy _ && _); [reflexivity | discriminate].
Qed.

Lemma placeBet_accepted_iff_state_and_threshold_witness :
  let env := mkEnv 0 0 in
  let e := new_GameEngine env in
  JS.truthy JS.Null = false /\
  threshold_rejected JS.Null = false /\
  fst (fst (placeBet env "p1" 100 JS.Null e)) = true.
Proof.
  intros env e.
  destruct (placeBet_accepted_iff_state_and_threshold env "p1" 100 JS.Null e)
    as (Hiff & _ & Hfalsy & _).
  split; [reflexivity|]. split; [apply Hfalsy; reflexivity|].
  apply Hiff. split; [left; reflexivity | apply Hfalsy; reflexivity].
Defined.

(** C2, as stated, fails twice on a waiting engine: a bet of -5 is accepted,
    and so is a bet whose threshold is present and equal to 0; the
    specification's rule turns both down. *)
Lemma placeBet_gate_counterexample :
  let env := mkEnv 0 0 in
  let e := new_GameEngine env in
  ~ (fst (fst (placeBet env "p1" (-5) JS.Undefined e)) = true <->
     spec_placeBet_accepts e (-5) JS.Undefined) /\
  ~ (fst (fst (placeBet env "p1" 10 (JS.Number 0) e)) = true <->
     spec_placeBet_accepts e 10 (JS.Number 0)).
Proof.
  intros env e. split; intros [H _].
  - assert (Hacc : fst (fst (placeBet env "p1" (-5) JS.Undefined e)) = true)
      by reflexivity.
    destruct (H Hacc) as (_ & Hpos & _). lra.
  - assert (Hacc : fst (fst (placeBet env "p1" 10 (JS.Number 0) e)) = true).
    { apply placeBet_accepted_iff. split; [reflexivity|].
      apply threshold_rejected_falsy, truthy_zero. }
    destruct (H Hacc) as (_ & _ & Hthr). lra.
Qed.

Lemma state_eqb_spec a b : state_eqb a b = true <-> a = b.
Proof. destruct a, b; simpl; split; congruence. Qed.

Lemma cashOut_ok_iff playerId e :
  (exists m w b, fst (fst (cashOut playerId e)) = cashOut_ok m w b) <->
  state e = FLYING /\
  In playerId (keys (activePlayers e)) /\
  ~ In playerId (cashedOutPlayers e).
Proof.
  rewrite cashOut_spec, <- map_get_keys, <- set_has_false.
  destruct (state_eqb (state e) FLYING) eqn:Hst; simpl.
  - apply state_eqb_spec in Hst.
    destruct (map_get playerId (activePlayers e)) as [pd|]; simpl.
    + destruct (set_has playerId (cashedOutPlayers e)); simpl.
      * split; [intros (m & w & b & H); discriminate|].
        intros (_ & _ & H). discriminate.
      * split; [intros _ | intros _; eauto].
        repeat split; [exact Hst | discriminate].
    + split; [intros (m & w & b & H); discriminate|].
      intros (_ & H & _). congruence.
  - split; [intros (m & w & b & H); discriminate|].
    intros (H & _). apply state_eqb_spec in H. congruence.
Qed.

(** C3. [cashOut] succeeds exactly when the state is FLYING and the player
    has a wager that is not yet settled; each of the three refusals has its
    own reason; a success marks the wager settled and returns the multiplier
    in force and [bet * multiplier] as the payout; a second call right
    after a success is refused with "Already cashed out". *)
Theorem cashOut_gating (playerId : string) (e : GameEngine) :
  ((exists m w b, fst (fst (cashOut playerId e)) = cashOut_ok m w b) <->
   state e = FLYING /\
   In playerId (keys (activePlayers e)) /\
   ~ In playerId (cashedOutPlayers e)) /\
  (state e <> FLYING ->
   cashOut playerId e
   = (cashOut_error "Cannot cash out at this time", e, [])) /\
  (state e = FLYING -> ~ In playerId (keys (activePlayers e)) ->
   cashOut playerId e = (cashOut_error "No active bet found", e, [])) /\
  (state e = FLYING -> In playerId (keys (activePlayers e)) ->
   In playerId (cashedOutPlayers e) ->
   cashOut playerId e = (cashOut_error "Already cashed out", e, [])) /\
  ("Cannot cash out at this time" <> "No active bet found" /\
   "Cannot cash out at this time" <> "Already cashed out" /\
   "No active bet found" <> "Already cashed out")%string /\
  (forall m w b,
     fst (fst (cashOut playerId e)) = cashOut_ok m w b ->
     let e' := snd (fst (cashOut playerId e)) in
     exists playerData,
       map_get playerId (activePlayers e) = Some playerData /\
       m = multiplier e /\
       b = bet playerData /\
       w = bet playerData * multiplier e /\
       In playerId (cashedOutPlayers e') /\
       map_get playerId (activePlayers e') = Some (won playerData) /\
       snd (cashOut playerId e) = [] /\
       cashOut playerId e' = (cashOut_error "Already cashed out", e', [])).
Proof.
  split; [apply cashOut_ok_iff|].
  split; [|split; [|split; [|split]]].
  - intro Hst. rewrite cashOut_spec.
    destruct (state_eqb (state e) FLYING) eqn:H; [|reflexivity].
    apply state_eqb_spec in H. contradiction.
  - intros Hst Hnin. rewrite cashOut_spec, Hst. simpl.
    destruct (map_get playerId (activePlayers e)) eqn:Hg; [|reflexivity].
    exfalso. apply Hnin. apply map_get_keys. congruence.
  - intros Hst Hin Hc. rewrite cashOut_spec, Hst. simpl.
    apply map_get_keys in Hin.
    destruct (map_get playerId (activePlayers e)); [|congruence].
    apply set_has_In in Hc. rewrite Hc. reflexivity.
  - repeat split; discriminate.
  - intros m w b. rewrite cashOut_spec.
    destruct (state_eqb (state e) FLYING) eqn:Hst; simpl; [|discriminate].
    destruct (map_get playerId (activePlayers e)) as [pd|] eqn:Hg; simpl;
      [|discriminate].
    destruct (set_has playerId (cashedOutPlayers e)) eqn:Hc; simpl;
      [discriminate|].
    intro H. injection H as <- <- <-.
    exists pd. repeat split.
    + apply set_add_In. left. reflexivity.
    + apply map_get_set_same.
    + rewrite cashOut_spec. simpl. rewrite Hst. simpl.
      rewrite map_get_set_same, set_has_add. reflexivity.
Qed.

Lemma flying_engine_state : state flying_engine = FLYING.
Proof. reflexivity. Qed.

Lemma cashOut_gating_witness :
  let e := set_activePlayers [("p1"%string, mkPlayerData 100 JS.Null false 0)]
             flying_engine in
  state e = FLYING /\
  In "p1"%string (keys (activePlayers e)) /\
  ~ In "p1"%string (cashedOutPlayers e) /\
  exists m w b, fst (fst (cashOut "p1" e)) = cashOut_ok m w b.
Proof.
  intro e.
  assert (H : state e = FLYING /\
              In "p1"%string (keys (activePlayers e)) /\
              ~ In "p1"%string (cashedOutPlayers e)).
  { split; [reflexivity|]. split; [left; reflexivity|]. intros []. }
  destruct H as (H1 & H2 & H3). repeat split; try assumption.
  apply (cashOut_gating "p1" e). repeat split; assumption.
Defined.

(** C9. When [placeBet] is accepted for a player who already holds a wager,
    the stored wager becomes the new one (new amount, new threshold, not
    won), no second entry appears and the other wagers stay, while
    [totalBets] grows by the new amount; over two accepted calls it has
    grown by both amounts. *)
Theorem placeBet_replaces_and_accumulates
    (env : Env) (playerId : string) (amount : R) (a : JS.value)
    (e : GameEngine) :
  fst (fst (placeBet env playerId amount a e)) = true ->
  let e' := snd (fst (placeBet env playerId amount a e)) in
  map_get playerId (activePlayers e')
  = Some (mkPlayerData amount (JS.default_null a) false (now env)) /\
  (In playerId (keys (activePlayers e)) ->
   keys (activePlayers e') = keys (activePlayers e)) /\
  (forall q, q <> playerId ->
     map_get q (activePlayers e') = map_get q (activePlayers e)) /\
  totalBets (stats e') = totalBets (stats e) + amount /\
  (forall env2 amount2 a2,
     fst (fst (placeBet env2 playerId amount2 a2 e')) = true ->
     let e'' := snd (fst (placeBet env2 playerId amount2 a2 e')) in
     map_get playerId (activePlayers e'')
     = Some (mkPlayerData amount2 (JS.default_null a2) false (now env2)) /\
     keys (activePlayers e'') = keys (activePlayers e') /\
     totalBets (stats e'') = totalBets (stats e) + amount + amount2).
Proof.
  assert (Hone : forall env0 amount0 a0 e0,
    fst (fst (placeBet env0 playerId amount0 a0 e0)) = true ->
    snd (fst (placeBet env0 playerId amount0 a0 e0))
    = set_stats (stats_add_bet amount0 (stats e0))
        (set_activePlayers
           (map_set playerId
              (mkPlayerData amount0 (JS.default_null a0) false (now env0))
              (activePlayers e0)) e0)).
  { intros env0 amount0 a0 e0. rewrite placeBet_spec.
    destruct (negb (canPlaceBet e0)); [discriminate|].
    destruct (JS.truthy _ && _); [discriminate | reflexivity]. }
  intros Hacc e'. subst e'. rewrite (Hone _ _ _ _ Hacc). simpl.
  split; [apply map_get_set_same|].
  split; [apply keys_map_set_present|].
  split; [intros q Hq; apply map_get_set_other; exact Hq|].
  split; [reflexivity|].
  intros env2 amount2 a2 Hacc2.
  rewrite (Hone _ _ _ _ Hacc2). simpl.
  split; [apply map_get_set_same|].
  split; [|reflexivity].
  apply keys_map_set_present. apply keys_map_set_In. left. reflexivity.
Qed.

Lemma placeBet_replaces_and_accumulates_witness :
  let env := mkEnv 0 0 in
  let e := new_GameEngine env in
  let e' := snd (fst (placeBet env "p1" 100 (JS.Number 2) e)) in
  let e'' := snd (fst (placeBet env "p1" 50 JS.Null e')) in
  fst (fst (placeBet env "p1" 100 (JS.Number 2) e)) = true /\
  fst (fst (placeBet env "p1" 50 JS.Null e')) = true /\
  map_get "p1" (activePlayers e'')
  = Some (mkPlayerData 50 JS.Null false 0) /\
  keys (activePlayers e'') = keys (activePlayers e') /\
  totalBets (stats e'') = totalBets (stats e) + 100 + 50.
Proof.
  intros env e e' e''.
  assert (H1 : fst (fst (placeBet env "p1" 100 (JS.Number 2) e)) = true).
  { apply placeBet_accepted_iff. split; [reflexivity|].
    pose proof (threshold_rejected_number 2) as H.
    destruct (threshold_rejected (JS.Number 2)); [|reflexivity].
    destruct H as [H _]. specialize (H eq_refl). lra. }
  assert (H2 : fst (fst (placeBet env "p1" 50 JS.Null e')) = true).
  { apply placeBet_accepted_iff. split; [|reflexivity].
    subst e'. rewrite placeBet_spec.
    destruct (negb (canPlaceBet e)); [reflexivity|].
    destruct (JS.truthy _ && _); reflexivity. }
  split; [exact H1|]. split; [exact H2|].
  destruct (placeBet_replaces_and_accumulates env "p1" 100 (JS.Number 2) e H1)
    as (_ & _ & _ & _ & Htwice).
  exact (Htwice env 50 JS.Null H2).
Defined.

(** ** Rejections *)

Lemma cashOut_reason playerId e :
  match fst (fst (cashOut playerId e)) with
  | cashOut_error s =>
      reason_of_error s = cashOut_rejection playerId e /\
      cashOut_rejection playerId e <> None /\
      cashOut playerId e = (cashOut_error s, e, [])
  | cashOut_ok _ _ _ => cashOut_rejection playerId e = None
  end.
Proof.
  rewrite cashOut_spec. unfold cashOut_rejection, map_has.
  destruct (negb (state_eqb (state e) FLYING)); simpl;
    [repeat split; discriminate|].
  destruct (map_get playerId (activePlayers e)); simpl;
    [|repeat split; discriminate].
  destruct (set_has playerId (cashedOutPlayers e)); simpl;
    [repeat split; discriminate | reflexivity].
Qed.

Lemma forceCrash_reason env reason e :
  match fst (fst (forceCrash env reason e)) with
  | forceCrash_error s =>
      reason_of_error s = forceCrash_rejection e /\
      forceCrash_rejection e <> None /\
      forceCrash env reason e = (forceCrash_error s, e, [])
  | forceCrash_ok _ => forceCrash_rejection e = None
  end.
Proof.
  rewrite forceCrash_spec. unfold forceCrash_rejection.
  destruct (negb (state_eqb (state e) FLYING)); simpl;
    [repeat split; discriminate | reflexivity].
Qed.

Lemma placeBet_reason env playerId amount a e :
  (fst (fst (placeBet env playerId amount a e)) = false <->
   placeBet_rejection e a <> None) /\
  (fst (fst (placeBet env playerId amount a e)) = false ->
   placeBet env playerId amount a e = (false, e, [])).
Proof.
  rewrite placeBet_spec. unfold placeBet_rejection, threshold_rejected.
  destruct (negb (canPlaceBet e)); simpl;
    [split; [split; [discriminate | reflexivity] | reflexivity]|].
  destruct (JS.truthy _ && _); simpl.
  - split; [split; [discriminate | reflexivity] | reflexivity].
  - split; [split; [discriminate | congruence] | discriminate].
Qed.

(** C8 (amended). No command throws: each returns a value.  A refused
    [cashOut] or [forceCrash] returns an [error] string from which the reason
    of the refusal is read back unambiguously, and leaves the engine
    untouched; a refused [placeBet] returns the bare boolean [false],
    whatever the reason, and leaves the engine untouched. *)
Theorem rejections_are_values :
  (forall playerId e,
     match fst (fst (cashOut playerId e)) with
     | cashOut_error s =>
         reason_of_error s = cashOut_rejection playerId e /\
         cashOut_rejection playerId e <> None /\
         cashOut playerId e = (cashOut_error s, e, [])
     | cashOut_ok _ _ _ => cashOut_rejection playerId e = None
     end) /\
  (forall env reason e,
     match fst (fst (forceCrash env reason e)) with
     | forceCrash_error s =>
         reason_of_error s = forceCrash_rejection e /\
         forceCrash_rejection e <> None /\
         forceCrash env reason e = (forceCrash_error s, e, [])
     | forceCrash_ok _ => forceCrash_rejection e = None
     end) /\
  (forall env playerId amount a e,
     (fst (fst (placeBet env playerId amount a e)) = false <->
      placeBet_rejection e a <> None) /\
     (fst (fst (placeBet env playerId amount a e)) = false ->
      placeBet env playerId amount a e = (false, e, []))).
Proof.
  split; [exact cashOut_reason|].
  split; [exact forceCrash_reason | exact placeBet_reason].
Qed.

Lemma rejections_are_values_witness :
  let env := mkEnv 0 0 in
  fst (fst (placeBet env "p1" 10 JS.Null flying_engine)) = false /\
  placeBet env "p1" 10 JS.Null flying_engine = (false, flying_engine, []).
Proof.
  intro env.
  assert (H : fst (fst (placeBet env "p1" 10 JS.Null flying_engine)) = false)
    by reflexivity.
  split; [exact H|].
  destruct rejections_are_values as (_ & _ & Hp).
  apply (Hp env "p1"%string 10 JS.Null flying_engine). exact H.
Defined.

(** C8, as stated, fails for [placeBet]: a bet refused for the state and a
    bet refused for its threshold return the same value, so no reading of the
    returned value tells the two reasons apart. *)
Lemma placeBet_reason_unreadable_counterexample :
  ~ exists decode : bool -> Rejection,
      forall env playerId amount a e reason,
        placeBet_rejection e a = Some reason ->
        decode (fst (fst (placeBet env playerId amount a e))) = reason.
Proof.
  intros [decode H].
  set (env := mkEnv 0 0).
  assert (H1 : placeBet_rejection flying_engine JS.Null = Some wrong_state)
    by reflexivity.
  assert (H2 : placeBet_rejection (new_GameEngine env) (JS.Number 1)
               = Some threshold_below_minimum).
  { unfold placeBet_rejection. simpl.
    destruct (threshold_rejected_number 1) as [_ Hr].
    rewrite Hr by lra. reflexivity. }
  pose proof (H env "p1"%string 10 JS.Null flying_engine _ H1) as D1.
  pose proof (H env "p1"%string 10 (JS.Number 1) (new_GameEngine env) _ H2)
    as D2.
  assert (R1 : fst (fst (placeBet env "p1" 10 JS.Null flying_engine)) = false)
    by reflexivity.
  assert (R2 : fst (fst (placeBet env "p1" 10 (JS.Number 1)
                           (new_GameEngine env))) = false).
  { apply (placeBet_reason env "p1"%string 10 (JS.Number 1)).
    rewrite H2. discriminate. }
  rewrite R1 in D1. rewrite R2 in D2. congruence.
Qed.

(** ** Forced crash *)

Lemma finalizeBets_loop_spec cashed entries :
  participants (finalizeBets_loop cashed entries)
  = map (participant_of cashed) entries /\
  losers (finalizeBets_loop cashed entries)
  = map loser_of (filter (unsettled cashed) entries).
Proof.
  induction entries as [|[playerId playerData] rest [IHp IHl]]; simpl.
  - split; reflexivity.
  - unfold participant_of at 1, unsettled at 1. simpl.
    rewrite IHp, IHl. destruct (set_has playerId cashed); simpl;
      split; reflexivity.
Qed.

Lemma forceCrash_events env reason e :
  state e = FLYING -> snd (forceCrash env reason e) = crash_events env e.
Proof.
  intro Hst. rewrite forceCrash_spec, Hst. simpl.
  apply (crashGame_spec env (Some reason) e).
Qed.

Lemma crash_events_settlement env e fm ls ps :
  In (round_settled fm ls ps) (crash_events env e) ->
  round_settled fm ls ps
  = round_settled (multiplier e)
      (losers (finalizeBets_loop (cashedOutPlayers e) (activePlayers e)))
      (participants
         (finalizeBets_loop (cashedOutPlayers e) (activePlayers e))).
Proof.
  unfold crash_events. rewrite in_app_iff. intros [H|H].
  - destruct (startTime_truthy e); simpl in H;
      [destruct H as [H|[]]; discriminate | contradiction].
  - simpl in H. destruct H as [H|[H|[]]]; [discriminate | congruence].
Qed.

Lemma crash_events_shape env e :
  exists pre,
    crash_events env e
    = pre ++ [game_state_changed (crashed_payload CRASHED (multiplier e));
              round_settled (multiplier e)
                (map loser_of
                   (filter (unsettled (cashedOutPlayers e)) (activePlayers e)))
                (map (participant_of (cashedOutPlayers e)) (activePlayers e))]
    /\ Forall not_settlement pre.
Proof.
  unfold crash_events.
  destruct (finalizeBets_loop_spec (cashedOutPlayers e) (activePlayers e))
    as [-> ->].
  eexists. split; [reflexivity|].
  destruct (startTime_truthy e); repeat constructor.
Qed.

(** C6 (amended). [forceCrash] is refused when the state is not FLYING.  When
    it is FLYING the call moves the engine to CRASHED at once, keeps the
    multiplier of that moment as the final multiplier and returns it, and
    emits [round_settled] with that multiplier, every wager among the
    participants with its settled flag, and exactly the unsettled wagers as
    losers; the events are the same whatever the reason, which is only
    logged; a second [forceCrash] is then refused. *)
Theorem forceCrash_gating (env : Env) (reason : string) (e : GameEngine) :
  (state e <> FLYING ->
   forceCrash env reason e
   = (forceCrash_error "Game is not currently flying", e, [])) /\
  (state e = FLYING ->
   let r := forceCrash env reason e in
   let e' := snd (fst r) in
   fst (fst r) = forceCrash_ok (multiplier e) /\
   state e' = CRASHED /\
   multiplier e' = multiplier e /\
   activePlayers e' = [] /\
   cashedOutPlayers e' = [] /\
   (exists pre,
      snd r
      = pre ++ [game_state_changed (crashed_payload CRASHED (multiplier e));
                round_settled (multiplier e)
                  (map loser_of
                     (filter (unsettled (cashedOutPlayers e))
                        (activePlayers e)))
                  (map (participant_of (cashedOutPlayers e))
                     (activePlayers e))]
      /\ Forall not_settlement pre) /\
   (forall reason2, snd (forceCrash env reason2 e) = snd r) /\
   (forall env2 reason2,
      forceCrash env2 reason2 e'
      = (forceCrash_error "Game is not currently flying", e', []))).
Proof.
  split.
  - intro Hst. rewrite forceCrash_spec.
    destruct (state_eqb (state e) FLYING) eqn:H; [|reflexivity].
    apply state_eqb_spec in H. contradiction.
  - intros Hst r e'.
    destruct (crashGame_spec env (Some reason) e)
      as (Hev & Hs & Hm & Hap & Hcp & _).
    assert (He' : e' = snd (fst (crashGame env (Some reason) e))).
    { subst e' r. rewrite forceCrash_spec, Hst. reflexivity. }
    split; [subst r; rewrite forceCrash_spec, Hst; simpl; congruence|].
    rewrite He'.
    split; [exact Hs|]. split; [exact Hm|]. split; [exact Hap|].
    split; [exact Hcp|]. split; [|split].
    + subst r. rewrite (forceCrash_events _ _ _ Hst). apply crash_events_shape.
    + intro reason2. subst r. rewrite !forceCrash_events by exact Hst.
      reflexivity.
    + intros env2 reason2. rewrite forceCrash_spec, Hs. reflexivity.
Qed.

Lemma forceCrash_gating_witness :
  let env := mkEnv 7000 0 in
  state flying_engine = FLYING /\
  state (snd (fst (forceCrash env "admin_override" flying_engine))) = CRASHED.
Proof.
  intro env. split; [reflexivity|].
  apply (forceCrash_gating env "admin_override" flying_engine). reflexivity.
Defined.

(** C6, as stated, fails: [round_settled] carries no reason.  Two forced
    crashes of the same flight with different reasons emit the same events,
    so nothing read off the event gives the reason back. *)
Lemma round_settled_untagged_counterexample :
  ~ exists tag : Event -> string,
      forall env reason e,
        state e = FLYING ->
        exists fm ls ps,
          In (round_settled fm ls ps) (snd (forceCrash env reason e)) /\
          tag (round_settled fm ls ps) = reason.
Proof.
  intros [tag H].
  set (env := mkEnv 7000 0).
  destruct (H env "admin_override"%string flying_engine flying_engine_state)
    as (fm1 & ls1 & ps1 & Hin1 & Ht1).
  destruct (H env "maintenance"%string flying_engine flying_engine_state)
    as (fm2 & ls2 & ps2 & Hin2 & Ht2).
  rewrite forceCrash_events in Hin1, Hin2 by exact flying_engine_state.
  apply crash_events_settlement in Hin1, Hin2.
  rewrite Hin1 in Ht1. rewrite Hin2 in Ht2.
  rewrite Ht1 in Ht2. discriminate.
Qed.

(** ** The auto-cash-out loop, wager by wager *)

Lemma loop_step q pd l e :
  forEach ((q, pd) :: l) checkAutoCashOuts_body e =
  if autoCashOut_due e q pd
  then (tt,
        snd (fst (forEach l checkAutoCashOuts_body (auto_settled q pd e))),
        player_auto_cashed_out q (multiplier e) (bet pd * multiplier e)
          (bet pd)
        :: snd (forEach l checkAutoCashOuts_body (auto_settled q pd e)))
  else forEach l checkAutoCashOuts_body e.
Proof.
  cbn [forEach]. unfold bind at 1. rewrite checkAutoCashOuts_body_spec.
  destruct (autoCashOut_due e q pd).
  - rewrite performAutoCashOut_spec. fold (auto_settled q pd e).
    destruct (forEach l checkAutoCashOuts_body (auto_settled q pd e))
      as [[[] e1] l1]. reflexivity.
  - destruct (forEach l checkAutoCashOuts_body e) as [[[] e1] l1].
    reflexivity.
Qed.

Lemma autoCashOut_due_spec e q pd :
  autoCashOut_due e q pd = true ->
  JS.truthy (autoCashOut pd) = true /\ ~ In q (cashedOutPlayers e).
Proof.
  unfold autoCashOut_due. intro H.
  apply andb_prop in H. destruct H as [H _].
  apply andb_prop in H. destruct H as [H1 H2].
  split; [exact H1|]. apply set_has_false.
  destruct (set_has q (cashedOutPlayers e)); [discriminate | reflexivity].
Qed.

Lemma auto_cashOuts_cons p ev evs :
  auto_cashOuts p (ev :: evs)
  = ((if is_auto_for p ev then 1 else 0) + auto_cashOuts p evs)%nat.
Proof.
  unfold auto_cashOuts. simpl. destruct (is_auto_for p ev); reflexivity.
Qed.

Lemma auto_cashOuts_app p l1 l2 :
  auto_cashOuts p (l1 ++ l2)
  = (auto_cashOuts p l1 + auto_cashOuts p l2)%nat.
Proof. unfold auto_cashOuts. rewrite filter_app, length_app. reflexivity. Qed.

Lemma loop_counts l : forall e,
  let r := forEach l checkAutoCashOuts_body e in
  (forall p, (auto_cashOuts p (snd r) <= 1)%nat) /\
  (forall p, In p (cashedOutPlayers e) -> auto_cashOuts p (snd r) = 0%nat) /\
  (forall p, In p (cashedOutPlayers (snd (fst r))) <->
             In p (cashedOutPlayers e) \/ auto_cashOuts p (snd r) = 1%nat).
Proof.
  induction l as [|[q pd] l IH]; intros e r.
  - subst r. simpl. repeat split; auto.
    + intros [H|H]; [exact H | discriminate].
  - subst r. rewrite loop_step.
    destruct (autoCashOut_due e q pd) eqn:Hdue.
    + apply autoCashOut_due_spec in Hdue. destruct Hdue as [_ Hnin].
      destruct (IH (auto_settled q pd e)) as (IH1 & IH2 & IH3).
      cbn [fst snd].
      assert (Hq : auto_cashOuts q
                     (snd (forEach l checkAutoCashOuts_body
                             (auto_settled q pd e))) = 0%nat).
      { apply IH2. simpl. apply set_add_In. left. reflexivity. }
      split; [|split].
      * intro p. rewrite auto_cashOuts_cons. simpl.
        destruct (String.eqb_spec p q) as [->|Hne].
        -- rewrite Hq. lia.
        -- apply IH1.
      * intros p Hin. rewrite auto_cashOuts_cons. simpl.
        destruct (String.eqb_spec p q) as [->|Hne]; [contradiction|].
        apply IH2. simpl. apply set_add_In. right. exact Hin.
      * intro p. rewrite IH3, auto_cashOuts_cons. simpl.
        rewrite set_add_In.
        destruct (String.eqb_spec p q) as [->|Hne].
        -- rewrite Hq. split; [intros _; right; reflexivity|].
           intros _. left. left. reflexivity.
        -- simpl. split.
           ++ intros [[H|H]|H];
                [contradiction | left; exact H | right; exact H].
           ++ intros [H|H]; [left; right; exact H | right; exact H].
    + apply IH.
Qed.

Lemma loop_keys l : forall e,
  (forall q pd, In (q, pd) l -> In q (keys (activePlayers e))) ->
  keys (activePlayers (snd (fst (forEach l checkAutoCashOuts_body e))))
  = keys (activePlayers e).
Proof.
  induction l as [|[q pd] l IH]; intros e Hl.
  - reflexivity.
  - rewrite loop_step.
    assert (Hq : In q (keys (activePlayers e)))
      by (apply (Hl q pd); left; reflexivity).
    destruct (autoCashOut_due e q pd).
    + cbn [fst snd]. rewrite IH.
      * simpl. apply keys_map_set_present. exact Hq.
      * intros q' pd' Hin. simpl. rewrite keys_map_set_present by exact Hq.
        apply (Hl q' pd'). right. exact Hin.
    + apply IH. intros q' pd' Hin. apply (Hl q' pd'). right. exact Hin.
Qed.

Lemma loop_source l : forall e p,
  auto_cashOuts p (snd (forEach l checkAutoCashOuts_body e)) <> 0%nat ->
  exists pd, In (p, pd) l /\ JS.truthy (autoCashOut pd) = true.
Proof.
  induction l as [|[q pd] l IH]; intros e p.
  - simpl. intro H. contradiction.
  - rewrite loop_step. destruct (autoCashOut_due e q pd) eqn:Hdue.
    + cbn [snd]. rewrite auto_cashOuts_cons. simpl.
      destruct (String.eqb_spec p q) as [->|Hne].
      * intros _. exists pd. split; [left; reflexivity|].
        apply (autoCashOut_due_spec _ _ _ Hdue).
      * intro H. destruct (IH _ _ H) as [pd' [Hin Ht]].
        exists pd'. split; [right; exact Hin | exact Ht].
    + intro H. destruct (IH _ _ H) as [pd' [Hin Ht]].
      exists pd'. split; [right; exact Hin | exact Ht].
Qed.

Lemma loop_entries l : forall e q pd',
  In (q, pd')
     (activePlayers (snd (fst (forEach l checkAutoCashOuts_body e)))) ->
  In (q, pd') (activePlayers e) \/
  exists pd, In (q, pd) l /\ pd' = won pd.
Proof.
  induction l as [|[k pd] l IH]; intros e q pd'.
  - simpl. auto.
  - rewrite loop_step. destruct (autoCashOut_due e k pd).
    + cbn [fst snd]. intro H. destruct (IH _ _ _ H) as [H'|[pd0 [Hin Heq]]].
      * simpl in H'. apply map_set_In in H'.
        destruct H' as [H'|[-> ->]]; [left; exact H'|].
        right. exists pd. split; [left; reflexivity | reflexivity].
      * right. exists pd0. split; [right; exact Hin | exact Heq].
    + intro H. destruct (IH _ _ _ H) as [H'|[pd0 [Hin Heq]]];
        [left; exact H'|].
      right. exists pd0. split; [right; exact Hin | exact Heq].
Qed.



Lemma auto_cashOuts_broadcast p env e :
  auto_cashOuts p (tick_broadcast env e) = 0%nat.
Proof.
  unfold tick_broadcast. destruct (tick_broadcasts env e); reflexivity.
Qed.

Lemma auto_cashOuts_crash p env e :
  auto_cashOuts p (crash_events env e) = 0%nat.
Proof. unfold crash_events. destruct (startTime_truthy e); reflexivity. Qed.

Lemma checkAutoCashOuts_unfold e :
  checkAutoCashOuts e = forEach (activePlayers e) checkAutoCashOuts_body e.
Proof.
  unfold checkAutoCashOuts. cbv [bind get].
  destruct (forEach (activePlayers e) checkAutoCashOuts_body e)
    as [[u e1] l1]. reflexivity.
Qed.

(** ** A wager without threshold is never settled by the loop *)

Lemma map_set_NoDup_In k v pd m :
  NoDup (keys m) -> In (k, pd) (map_set k v m) -> pd = v.
Proof.
  induction m as [|[k' v'] m IH]; simpl; intros Hnd Hin.
  - destruct Hin as [H|[]]. congruence.
  - inversion Hnd as [|x l Hnin Hnd']; subst.
    destruct (String.eqb_spec k k') as [->|Hne].
    + destruct Hin as [H|H]; [congruence|].
      exfalso. apply Hnin. apply (in_map fst) in H. exact H.
    + destruct Hin as [H|H]; [congruence|]. apply IH; assumption.
Qed.

Lemma handle_no_threshold env i e p :
  no_threshold p e ->
  is_placeBet_for p i = false ->
  no_threshold p (snd (fst (handle env i e))) /\
  auto_cashOuts p (snd (handle env i e)) = 0%nat.
Proof.
  intros Hp Hi. handle_cases i.
  - rewrite placeBet_spec.
    destruct (negb (canPlaceBet e)); [split; [exact Hp | reflexivity]|].
    destruct (JS.truthy _ && _); [split; [exact Hp | reflexivity]|].
    split; [|reflexivity].
    intros pd Hin. simpl in Hin, Hi. apply map_set_In in Hin.
    destruct Hin as [Hin|[-> _]]; [apply Hp; exact Hin|].
    rewrite String.eqb_refl in Hi. discriminate.
  - rewrite cashOut_spec.
    destruct (negb _); [split; [exact Hp | reflexivity]|].
    destruct (map_get playerId (activePlayers e)) as [pd0|] eqn:Hg;
      [|split; [exact Hp | reflexivity]].
    destruct (set_has _ _); [split; [exact Hp | reflexivity]|].
    split; [|reflexivity].
    intros pd Hin. simpl in Hin. apply map_set_In in Hin.
    destruct Hin as [Hin|[-> ->]]; [apply Hp; exact Hin|].
    apply (Hp pd0). apply map_get_In. exact Hg.
  - split; [|reflexivity].
    intros pd Hin. simpl in Hin. apply map_delete_In in Hin.
    apply Hp. exact Hin.
  - rewrite forceCrash_spec.
    destruct (negb _); cbn [fst snd]; [split; [exact Hp | reflexivity]|].
    destruct (crashGame_spec env (Some reason) e) as (Hev & _ & _ & Hap & _).
    rewrite Hev, auto_cashOuts_crash. split; [|reflexivity].
    intros pd Hin. rewrite Hap in Hin. contradiction.
  - rewrite stop_spec. split; [exact Hp | reflexivity].
  - unfold fire_timeout. cbv [bind get].
    destruct (stateTimeout e) as [[| |]|]; split;
      solve [exact Hp | reflexivity].
  - unfold fire_interval. cbv [bind get when].
    destruct (gameLoopInterval e); [|split; [exact Hp | reflexivity]].
    destruct (state_eqb (state e) FLYING) eqn:Hst.
    + apply state_eqb_spec in Hst. rewrite (updateGame_spec env e Hst).
      destruct (tick_crashes env e); cbn [fst snd app].
      * destruct (crashGame_spec env None (tick_engine env e))
          as (Hev & _ & _ & Hap & _).
        rewrite Hev, auto_cashOuts_app, auto_cashOuts_broadcast,
          auto_cashOuts_crash.
        split; [|reflexivity].
        intros pd Hin. rewrite Hap in Hin. contradiction.
      * assert (Hp' : no_threshold p (tick_engine env e)).
        { intros pd Hin. rewrite tick_engine_activePlayers in Hin.
          apply Hp. exact Hin. }
        rewrite checkAutoCashOuts_unfold. split.
        -- intros pd Hin. apply loop_entries in Hin.
           destruct Hin as [Hin|[pd0 [Hin ->]]]; [apply Hp'; exact Hin|].
           apply (Hp' pd0). exact Hin.
        -- rewrite !auto_cashOuts_app, auto_cashOuts_broadcast. simpl.
           destruct (auto_cashOuts p
                       (snd (forEach (activePlayers (tick_engine env e))
                               checkAutoCashOuts_body (tick_engine env e))))
             eqn:Hc; [reflexivity|].
           destruct (loop_source (activePlayers (tick_engine env e))
                       (tick_engine env e) p) as [pd [Hin Ht]];
             [rewrite Hc; discriminate|].
           rewrite (Hp' pd Hin) in Ht. discriminate.
    + rewrite updateGame_idle
        by (intro H; rewrite H in Hst; discriminate).
      split; [exact Hp | reflexivity].
Qed.

Lemma run_no_threshold p ins : forall e,
  no_threshold p e ->
  Forall (fun ei => is_placeBet_for p (snd ei) = false) ins ->
  auto_cashOuts p (run_events (snd (run e ins))) = 0%nat.
Proof.
  induction ins as [|[env i] rest IH]; intros e Hp Hins.
  - reflexivity.
  - inversion Hins as [|x l Hi Hrest]; subst. simpl in Hi.
    rewrite run_cons. cbn [snd]. unfold run_events. cbn [flat_map step_events].
    fold (run_events (snd (run (snd (fst (handle env i e))) rest))).
    destruct (handle_no_threshold env i e p Hp Hi) as [Hp' Ha].
    rewrite auto_cashOuts_app, Ha, (IH _ Hp' Hrest). reflexivity.
Qed.

(** C10. A [placeBet] whose threshold is falsy (0, null, undefined, NaN,
    false) passes the threshold validation: in WAITING or STARTING it is
    accepted and stored.  The resulting wager is never due for an
    auto-cash-out whatever the multiplier, and as long as the player does
    not bet again no run of the engine emits [player_auto_cashed_out] for
    that player. *)
Theorem falsy_threshold_never_fires
    (env : Env) (playerId : string) (amount : R) (a : JS.value)
    (e : GameEngine) :
  JS.truthy a = false ->
  state e = WAITING \/ state e = STARTING ->
  NoDup (keys (activePlayers e)) ->
  let e' := snd (fst (placeBet env playerId amount a e)) in
  fst (fst (placeBet env playerId amount a e)) = true /\
  map_get playerId (activePlayers e')
  = Some (mkPlayerData amount (JS.default_null a) false (now env)) /\
  (forall e2 pd,
     JS.truthy (autoCashOut pd) = false ->
     autoCashOut_due e2 playerId pd = false) /\
  (forall ins,
     Forall (fun ei => is_placeBet_for playerId (snd ei) = false) ins ->
     auto_cashOuts playerId (run_events (snd (run e' ins))) = 0%nat).
Proof.
  intros Hfalsy Hst Hnd e'.
  assert (Hacc : fst (fst (placeBet env playerId amount a e)) = true).
  { apply placeBet_accepted_iff. split.
    - apply canPlaceBet_spec. exact Hst.
    - apply threshold_rejected_falsy. exact Hfalsy. }
  assert (He' : e' = set_stats (stats_add_bet amount (stats e))
                      (set_activePlayers
                         (map_set playerId
                            (mkPlayerData amount (JS.default_null a) false
                               (now env))
                            (activePlayers e)) e)).
  { subst e'. revert Hacc. rewrite placeBet_spec.
    destruct (negb (canPlaceBet e)); [discriminate|].
    destruct (JS.truthy _ && _); [discriminate | reflexivity]. }
  split; [exact Hacc|]. split; [|split].
  - rewrite He'. simpl. apply map_get_set_same.
  - intros e2 pd Hpd. unfold autoCashOut_due. rewrite Hpd. reflexivity.
  - intros ins Hins. apply run_no_threshold; [|exact Hins].
    intros pd Hin. rewrite He' in Hin. simpl in Hin.
    apply map_set_NoDup_In in Hin; [|exact Hnd]. subst pd. simpl.
    rewrite truthy_default_null. exact Hfalsy.
Qed.

Lemma falsy_threshold_never_fires_witness :
  let env := mkEnv 100 0 in
  let e := started_engine (mkEnv 0 0) in
  let e' := snd (fst (placeBet env "p1" 10 (JS.Number 0) e)) in
  let ins := [ (mkEnv 3000 0, timeout_fires);
               (mkEnv 6000 0, timeout_fires);
               (mkEnv 9000 0.99, interval_fires);
               (mkEnv 9100 0, call_forceCrash "admin_override") ] in
  JS.truthy (JS.Number 0) = false /\
  (state e = WAITING \/ state e = STARTING) /\
  NoDup (keys (activePlayers e)) /\
  Forall (fun ei => is_placeBet_for "p1" (snd ei) = false) ins /\
  fst (fst (placeBet env "p1" 10 (JS.Number 0) e)) = true /\
  state (fst (run e' [ (mkEnv 3000 0, timeout_fires);
                       (mkEnv 6000 0, timeout_fires) ])) = FLYING /\
  auto_cashOuts "p1" (run_events (snd (run e' ins))) = 0%nat.
Proof.
  intros env e e' ins.
  assert (H1 : state e = WAITING \/ state e = STARTING)
    by (left; reflexivity).
  assert (H2 : NoDup (keys (activePlayers e))) by constructor.
  assert (H3 : Forall (fun ei => is_placeBet_for "p1" (snd ei) = false) ins)
    by (repeat constructor).
  destruct (falsy_threshold_never_fires env "p1" 10 (JS.Number 0) e
              truthy_zero H1 H2) as (Hacc & _ & _ & Hrun).
  assert (He' : snd (fst (placeBet env "p1" 10 (JS.Number 0) e))
                = set_stats (stats_add_bet 10 (stats e))
                    (set_activePlayers
                       (map_set "p1" (mkPlayerData 10 (JS.Number 0) false 100)
                          (activePlayers e)) e)).
  { rewrite placeBet_spec. change (canPlaceBet e) with true.
    cbn [negb JS.default_null]. rewrite truthy_zero. reflexivity. }
  split; [exact truthy_zero|]. split; [exact H1|]. split; [exact H2|].
  split; [exact H3|]. split; [exact Hacc|].
  split; [unfold e'; rewrite He'; reflexivity|].
  apply Hrun. exact H3.
Defined.

(** ** Exactly-once settlement *)















Lemma crash_participants env e fm ls ps :
  In (round_settled fm ls ps) (crash_events env e) ->
  map part_playerId ps = keys (activePlayers e).
Proof.
  intro H. apply crash_events_settlement in H. injection H as _ _ ->.
  destruct (finalizeBets_loop_spec (cashedOutPlayers e) (activePlayers e))
    as [-> _].
  rewrite map_map. reflexivity.
Qed.

Lemma crash_events_has_settlement env e :
  exists fm ls ps, In (round_settled fm ls ps) (crash_events env e).
Proof.
  unfold crash_events. do 3 eexists.
  apply in_or_app. right. right. left. reflexivity.
Qed.

Lemma broadcast_quiet env e : Forall not_settlement (tick_broadcast env e).
Proof.
  unfold tick_broadcast. destruct (tick_broadcasts env e); repeat constructor.
Qed.

Lemma in_broadcast_settled env e fm ls ps :
  ~ In (round_settled fm ls ps) (tick_broadcast env e).
Proof.
  intro H. pose proof (broadcast_quiet env e) as Hq.
  rewrite Forall_forall in Hq. apply (Hq _ H).
Qed.













Lemma handle_quiet env i e :
  may_crash i = false -> Forall not_settlement (snd (handle env i e)).
Proof.
  intro Hi.
  assert (H : emits_only not_settlement (handle env i)); [|apply H].
  destruct i; try discriminate;
    unfold handle, placeBet, cashOut, removePlayer, stop, clearTimers,
      fire_timeout, run_callback, startCountdown, startGame,
      scheduleNextGame, getRandomWaitTime, startGameLoop,
      buildMultiplierPayload;
    quiet.
Qed.



(** * Further properties of the engine *)

(** ** Induction over the reachable engines *)

Lemma run_snoc ins env i e :
  fst (run e (ins ++ [(env, i)]))
  = snd (fst (handle env i (fst (run e ins)))).
Proof. rewrite run_app, run_cons. reflexivity. Qed.

Lemma reachable_ind (P : GameEngine -> Prop) :
  (forall env, P (started_engine env)) ->
  (forall env i e, reachable e -> P e -> P (snd (fst (handle env i e)))) ->
  forall e, reachable e -> P e.
Proof.
  intros Hbase Hstep e [env0 [ins ->]].
  induction ins as [|[env i] ins IH] using rev_ind.
  - apply Hbase.
  - rewrite run_snoc. apply Hstep; [|exact IH].
    exists env0, ins. reflexivity.
Qed.

Lemma reachable_step env i e :
  reachable e -> reachable (snd (fst (handle env i e))).
Proof.
  intros [env0 [ins ->]]. exists env0, (ins ++ [(env, i)]).
  symmetry. apply run_snoc.
Qed.

(** What a step leaves of the engine, input by input. *)
Lemma handle_engine env i e :
  snd (fst (handle env i e)) =
  match i with
  | call_placeBet p a v => snd (fst (placeBet env p a v e))
  | call_cashOut p => snd (fst (cashOut p e))
  | call_removePlayer p => snd (fst (removePlayer p e))
  | call_forceCrash r => snd (fst (forceCrash env r e))
  | call_stop => snd (fst (stop e))
  | timeout_fires => snd (fst (fire_timeout env e))
  | interval_fires => snd (fst (fire_interval env e))
  end.
Proof. handle_cases i; reflexivity. Qed.

Lemma handle_events env i e :
  snd (handle env i e) =
  match i with
  | call_placeBet p a v => snd (placeBet env p a v e)
  | call_cashOut p => snd (cashOut p e)
  | call_removePlayer p => snd (removePlayer p e)
  | call_forceCrash r => snd (forceCrash env r e)
  | call_stop => snd (stop e)
  | timeout_fires => snd (fire_timeout env e)
  | interval_fires => snd (fire_interval env e)
  end.
Proof. handle_cases i; reflexivity. Qed.

Lemma fire_timeout_spec env e :
  fire_timeout env e =
  match stateTimeout e with
  | None => (tt, e, [])
  | Some cb => run_callback env cb (set_stateTimeout None e)
  end.
Proof.
  unfold fire_timeout. cbv [bind get modify].
  destruct (stateTimeout e) as [cb|]; [|reflexivity].
  destruct (run_callback env cb (set_stateTimeout None e)) as [[[] e1] l1].
  reflexivity.
Qed.

Lemma fire_interval_spec env e :
  fire_interval env e =
  if gameLoopInterval e then updateGame env e else (tt, e, []).
Proof.
  unfold fire_interval. cbv [bind get when].
  destruct (gameLoopInterval e); [|reflexivity].
  destruct (updateGame env e) as [[[] e1] l1]. reflexivity.
Qed.

(** The engine a step leaves behind is one of a few shapes; a property that
    each shape keeps is kept by every step. *)
Lemma handle_engine_cases (P : GameEngine -> Prop) env i e :
  P e ->
  (forall p a v,
     canPlaceBet e = true ->
     P (set_stats (stats_add_bet a (stats e))
          (set_activePlayers
             (map_set p (mkPlayerData a (JS.default_null v) false (now env))
                (activePlayers e)) e))) ->
  (forall p pd,
     state e = FLYING -> map_get p (activePlayers e) = Some pd ->
     ~ In p (cashedOutPlayers e) ->
     P (auto_settled p pd e)) ->
  (forall p,
     P (set_cashedOutPlayers (set_delete p (cashedOutPlayers e))
          (set_activePlayers (map_delete p (activePlayers e)) e))) ->
  (forall env' trigger e0,
     state e = FLYING -> (e0 = e \/ e0 = tick_engine env e) ->
     P (snd (fst (crashGame env' trigger e0)))) ->
  P (set_state WAITING
       (set_stateTimeout None (set_gameLoopInterval false e))) ->
  (forall cb, stateTimeout e = Some cb ->
     P (snd (fst (run_callback env cb (set_stateTimeout None e))))) ->
  (state e = FLYING -> gameLoopInterval e = true ->
   tick_crashes env e = false ->
   P (snd (fst (checkAutoCashOuts (tick_engine env e))))) ->
  P (snd (fst (handle env i e))).
Proof.
  intros He Hbet Hcash Hrem Hcrash Hstop Hto Htick.
  rewrite handle_engine. destruct i.
  - rewrite placeBet_spec.
    destruct (canPlaceBet e) eqn:Hcan; simpl; [|exact He].
    destruct (JS.truthy _ && _); [exact He|]. apply Hbet. reflexivity.
  - rewrite cashOut_spec.
    destruct (state_eqb (state e) FLYING) eqn:Hst; simpl; [|exact He].
    apply state_eqb_spec in Hst.
    destruct (map_get playerId (activePlayers e)) as [pd|] eqn:Hg;
      [|exact He].
    destruct (set_has playerId (cashedOutPlayers e)) eqn:Hc; [exact He|].
    apply set_has_false in Hc. apply (Hcash _ _ Hst Hg Hc).
  - apply Hrem.
  - rewrite forceCrash_spec.
    destruct (state_eqb (state e) FLYING) eqn:Hst; simpl; [|exact He].
    apply state_eqb_spec in Hst. apply Hcrash; [exact Hst | left; reflexivity].
  - rewrite stop_spec. exact Hstop.
  - rewrite fire_timeout_spec.
    destruct (stateTimeout e) as [cb|] eqn:Hcb; [|exact He].
    apply Hto. reflexivity.
  - rewrite fire_interval_spec.
    destruct (gameLoopInterval e) eqn:Hgl; [|exact He].
    destruct (state_eqb (state e) FLYING) eqn:Hst.
    + apply state_eqb_spec in Hst. rewrite (updateGame_spec env e Hst).
      destruct (tick_crashes env e) eqn:Hc.
      * apply Hcrash; [exact Hst | right; reflexivity].
      * apply Htick; solve [assumption | reflexivity].
    + rewrite updateGame_idle by (intro H; rewrite H in Hst; discriminate).
      exact He.
Qed.

(** ** Timers and state *)

Lemma timers_agree_same e e' :
  state e' = state e ->
  stateTimeout e' = stateTimeout e ->
  gameLoopInterval e' = gameLoopInterval e ->
  timers_agree e -> timers_agree e'.
Proof.
  unfold timers_agree. intros -> -> ->. tauto.
Qed.

Lemma tick_engine_gameLoopInterval env e :
  gameLoopInterval (tick_engine env e) = gameLoopInterval e.
Proof. tick_field. Qed.

Lemma timers_agree_step env i e :
  timers_agree e -> timers_agree (snd (fst (handle env i e))).
Proof.
  intro He. apply handle_engine_cases; try exact He.
  - intros p a v _. apply (timers_agree_same e); auto.
  - intros p pd _ _ _. apply (timers_agree_same e); auto.
  - intro p. apply (timers_agree_same e); auto.
  - intros env' trigger e0 _ _.
    destruct (crashGame_spec env' trigger e0)
      as (_ & Hs & _ & _ & _ & Hto & Hgl & _).
    unfold timers_agree. rewrite Hs, Hto, Hgl.
    split; [split; discriminate | reflexivity].
  - split; [split; discriminate | right; reflexivity].
  - intros cb Hcb. destruct He as [[Hgl1 Hgl2] Hm].
    rewrite Hcb in Hm.
    assert (Hoff : gameLoopInterval e = false).
    { destruct (gameLoopInterval e); [|reflexivity].
      rewrite (Hgl1 eq_refl) in Hm. discriminate. }
    destruct cb; unfold timers_agree; simpl; rewrite ?Hoff.
    + split; [split; discriminate | reflexivity].
    + split; [split; reflexivity | reflexivity].
    + split; [split; discriminate | left; reflexivity].
  - intros Hst Hgl _. apply (timers_agree_same e); try exact He.
    + rewrite (checkAutoCashOuts_keeps state); auto. apply tick_engine_state.
    + rewrite (checkAutoCashOuts_keeps stateTimeout); auto.
      apply tick_engine_stateTimeout.
    + rewrite (checkAutoCashOuts_keeps gameLoopInterval); auto.
      apply tick_engine_gameLoopInterval.
Qed.

Lemma reachable_timers_agree e : reachable e -> timers_agree e.
Proof.
  apply reachable_ind.
  - intro env. split; [split; discriminate | left; reflexivity].
  - intros env i e0 _ H. apply timers_agree_step. exact H.
Qed.

Lemma transition_step env i e :
  timers_agree e ->
  transition_allowed i (state e) (state (snd (fst (handle env i e)))).
Proof.
  intros [Hgl Hm]. rewrite handle_engine. destruct i; simpl.
  - rewrite placeBet_spec. destruct (negb _); [reflexivity|].
    destruct (JS.truthy _ && _); reflexivity.
  - rewrite cashOut_spec. destruct (negb _); [reflexivity|].
    destruct (map_get _ _); [|reflexivity].
    destruct (set_has _ _); reflexivity.
  - reflexivity.
  - rewrite forceCrash_spec.
    destruct (state_eqb (state e) FLYING) eqn:Hst; simpl;
      [|left; reflexivity].
    apply state_eqb_spec in Hst. right. split; [exact Hst|].
    apply (crashGame_spec env (Some reason) e).
  - rewrite stop_spec. reflexivity.
  - rewrite fire_timeout_spec.
    destruct (stateTimeout e) as [cb|] eqn:Hcb; [|left; reflexivity].
    destruct (state e) eqn:Hs; try discriminate Hm;
      try (destruct Hm as [Hm|Hm]; [|discriminate Hm]);
      injection Hm as ->; simpl; intuition.
  - rewrite fire_interval_spec.
    destruct (gameLoopInterval e); [|left; reflexivity].
    destruct (state_eqb (state e) FLYING) eqn:Hst.
    + apply state_eqb_spec in Hst. rewrite (updateGame_spec env e Hst).
      destruct (tick_crashes env e); cbn [fst snd].
      * right. split; [exact Hst|].
        apply (crashGame_spec env None (tick_engine env e)).
      * left. rewrite (checkAutoCashOuts_keeps state); auto.
        apply tick_engine_state.
    + rewrite updateGame_idle by (intro H; rewrite H in Hst; discriminate).
      left. reflexivity.
Qed.

(** X1. On every engine reached from a started engine the tick interval is
    armed exactly while the state is FLYING and the pending timeout is the
    one that leaves the current state; and a step changes the state only
    along WAITING, STARTING, FLYING, CRASHED, WAITING (timers), from FLYING
    to CRASHED (tick, forced crash) or to WAITING ([stop]); bets, cash-outs
    and removals never change it. *)
Theorem state_machine_transitions (e : GameEngine) :
  reachable e ->
  timers_agree e /\
  (forall env i,
     transition_allowed i (state e) (state (snd (fst (handle env i e))))).
Proof.
  intro Hr. pose proof (reachable_timers_agree e Hr) as Ht.
  split; [exact Ht|]. intros env i. apply transition_step. exact Ht.
Qed.

Lemma flying_engine_reachable : reachable flying_engine.
Proof. exists (mkEnv 0 0). eexists. reflexivity. Qed.

Lemma state_machine_transitions_witness :
  reachable flying_engine /\
  gameLoopInterval flying_engine = true /\
  transition_allowed timeout_fires (state flying_engine)
    (state (snd (fst (handle (mkEnv 7000 0) timeout_fires flying_engine)))).
Proof.
  destruct (state_machine_transitions flying_engine flying_engine_reachable)
    as [[[_ Hgl] _] Hstep].
  split; [exact flying_engine_reachable|].
  split; [apply Hgl; reflexivity | apply Hstep].
Defined.

(** ** Multiplier and history stay in range *)

Lemma toFixed_2_range x : 1 <= x <= 250 -> 1 <= JS.toFixed 2 x <= 250.
Proof.
  intros [Hlo Hhi]. unfold JS.toFixed.
  assert (Habs : Rabs x = x) by (apply Rabs_right; lra).
  destruct (Rle_dec (10 ^ 21) (Rabs x)) as [H|_]; [rewrite Habs in H; lra|].
  destruct (Rlt_dec x 0) as [H|_]; [lra|].
  unfold JS.roundHalfUp.
  pose proof (Zfloor_bound (x * 10 ^ 2 + / 2)) as [Hb1 Hb2].
  assert (H1 : (100 <= Zfloor (x * 10 ^ 2 + / 2))%Z)
    by (apply Zfloor_lub; lra).
  assert (H2 : (Zfloor (x * 10 ^ 2 + / 2) < 25001)%Z)
    by (apply lt_IZR; lra).
  apply IZR_le in H1.
  assert (H3 : (Zfloor (x * 10 ^ 2 + / 2) <= 25000)%Z) by lia.
  apply IZR_le in H3. lra.
Qed.

Lemma calculateMultiplier_range e t :
  growth e = mkGrowth 0.2 1 250 -> 1 <= calculateMultiplier e t <= 250.
Proof.
  intro Hg. unfold calculateMultiplier. rewrite Hg. simpl.
  rewrite Rmin_Rmax_clamp by lra. apply clamp_bounds. lra.
Qed.

Lemma Forall_firstn_keeps {A : Type} (P : A -> Prop) (n : nat) (l : list A) :
  Forall P l -> Forall P (firstn n l).
Proof.
  intro H. revert n. induction H as [|x l Hx _ IH]; intros [|n]; simpl;
    constructor; auto.
Qed.

Lemma pushed_history_range cap m h :
  1 <= m <= 250 ->
  Forall (fun x => 1 <= x <= 250) h ->
  Forall (fun x => 1 <= x <= 250) (pushed_history cap m h).
Proof.
  intros Hm Hh. unfold pushed_history.
  assert (Hall : Forall (fun x => 1 <= x <= 250) (JS.toFixed 2 m :: h))
    by (constructor; [apply toFixed_2_range; exact Hm | exact Hh]).
  destruct (Nat.ltb _ _); [|exact Hall].
  rewrite removelast_firstn_length. apply Forall_firstn_keeps. exact Hall.
Qed.

Lemma pushed_history_length cap m h :
  (List.length h <= cap)%nat ->
  (List.length (pushed_history cap m h) <= cap)%nat.
Proof.
  intro H. rewrite pushed_history_firstn by exact H. apply firstn_le_length.
Qed.

Lemma numbers_agree_same e e' :
  settings e' = settings e ->
  multiplier e' = multiplier e ->
  history e' = history e ->
  numbers_agree e -> numbers_agree e'.
Proof. unfold numbers_agree. intros -> -> ->. tauto. Qed.

Lemma numbers_agree_tick env e :
  numbers_agree e -> numbers_agree (tick_engine env e).
Proof.
  intros (Hset & Hm & Hh & Hl). unfold numbers_agree.
  unfold settings in *.
  rewrite tick_engine_config, tick_engine_growth, tick_engine_history,
    tick_engine_multiplier.
  repeat split; try assumption;
    apply calculateMultiplier_range; congruence.
Qed.

Lemma numbers_agree_crash env trigger e :
  numbers_agree e -> numbers_agree (snd (fst (crashGame env trigger e))).
Proof.
  intros (Hset & Hm & Hh & Hl).
  destruct (crashGame_spec env trigger e)
    as (_ & _ & Hm' & _ & _ & _ & _ & Hcfg & Hh').
  pose proof (crashGame_keeps_settings env trigger e) as Hset'.
  assert (Hcap : historySize (config e) = 20%nat)
    by (unfold settings in Hset; injection Hset as -> _; reflexivity).
  unfold numbers_agree. rewrite Hset', Hm', Hh', Hcap.
  repeat split; try assumption; try apply Hm.
  - apply pushed_history_range; assumption.
  - apply pushed_history_length. exact Hl.
Qed.

Lemma numbers_agree_step env i e :
  numbers_agree e -> numbers_agree (snd (fst (handle env i e))).
Proof.
  intro He. apply handle_engine_cases; try exact He.
  - intros p a v _. apply (numbers_agree_same e); auto.
  - intros p pd _ _ _. apply (numbers_agree_same e); auto.
  - intro p. apply (numbers_agree_same e); auto.
  - intros env' trigger e0 _ [->| ->]; apply numbers_agree_crash;
      [exact He | apply numbers_agree_tick; exact He].
  - intros cb _. destruct He as (Hset & Hm & Hh & Hl).
    destruct cb; unfold numbers_agree; simpl;
      repeat split; try assumption; try apply Hm; lra.
  - intros _ _ _.
    apply (numbers_agree_same (tick_engine env e));
      [| | |apply numbers_agree_tick; exact He].
    + apply (checkAutoCashOuts_keeps settings); auto.
    + apply (checkAutoCashOuts_keeps multiplier); auto.
    + apply (checkAutoCashOuts_keeps history); auto.
Qed.

Lemma reachable_numbers_agree e : reachable e -> numbers_agree e.
Proof.
  apply reachable_ind.
  - intro env. unfold numbers_agree. simpl.
    repeat split; try lra; try constructor. lia.
  - intros env i e0 _ H. apply numbers_agree_step. exact H.
Qed.

Lemma handle_finals env i e :
  final_multipliers (snd (handle env i e)) = [] \/
  final_multipliers (snd (handle env i e))
  = [multiplier (snd (fst (handle env i e)))].
Proof.
  rewrite handle_events, handle_engine. destruct i.
  - left. rewrite placeBet_spec. destruct (negb _); [reflexivity|].
    destruct (JS.truthy _ && _); reflexivity.
  - left. rewrite cashOut_spec. destruct (negb _); [reflexivity|].
    destruct (map_get _ _); [|reflexivity].
    destruct (set_has _ _); reflexivity.
  - left. reflexivity.
  - rewrite forceCrash_spec.
    destruct (negb _); cbn [fst snd]; [left; reflexivity|]. right.
    destruct (crashGame_spec env (Some reason) e) as (Hev & _ & Hm & _).
    rewrite Hev, Hm. apply final_multipliers_crash.
  - left. rewrite stop_spec. reflexivity.
  - left. rewrite fire_timeout_spec.
    destruct (stateTimeout e) as [[| |]|]; reflexivity.
  - rewrite fire_interval_spec.
    destruct (gameLoopInterval e); [|left; reflexivity].
    destruct (state_eqb (state e) FLYING) eqn:Hst.
    + apply state_eqb_spec in Hst. rewrite (updateGame_spec env e Hst).
      destruct (tick_crashes env e); cbn [fst snd].
      * right.
        destruct (crashGame_spec env None (tick_engine env e))
          as (Hev & _ & Hm & _).
        rewrite Hev, Hm, final_multipliers_app, final_multipliers_broadcast.
        apply final_multipliers_crash.
      * left. rewrite !final_multipliers_app, final_multipliers_broadcast.
        rewrite (final_multipliers_quiet _ (checkAutoCashOuts_quiet _)).
        reflexivity.
    + left.
      rewrite updateGame_idle by (intro H; rewrite H in Hst; discriminate).
      reflexivity.
Qed.

(** X2. On every engine reached from a started engine the multiplier lies
    between 1 and 250, the history has at most 20 entries, each between 1
    and 250, and whenever a step emits [round_settled] the final multiplier
    it announces is the engine's multiplier after the step, between 1 and
    250 as well. *)
Theorem multiplier_and_history_in_range (e : GameEngine) :
  reachable e ->
  1 <= multiplier e <= 250 /\
  Forall (fun h => 1 <= h <= 250) (history e) /\
  (List.length (history e) <= 20)%nat /\
  (forall env i fm ls ps,
     In (round_settled fm ls ps) (snd (handle env i e)) ->
     fm = multiplier (snd (fst (handle env i e))) /\ 1 <= fm <= 250).
Proof.
  intro Hr. destruct (reachable_numbers_agree e Hr) as (_ & Hm & Hh & Hl).
  split; [exact Hm|]. split; [exact Hh|]. split; [exact Hl|].
  intros env i fm ls ps Hin.
  assert (Hfm : In fm (final_multipliers (snd (handle env i e)))).
  { unfold final_multipliers. apply in_flat_map.
    exists (round_settled fm ls ps). split; [exact Hin | left; reflexivity]. }
  destruct (reachable_numbers_agree _ (reachable_step env i e Hr))
    as (_ & Hm' & _).
  destruct (handle_finals env i e) as [H|H]; rewrite H in Hfm.
  - contradiction.
  - destruct Hfm as [<-|[]]. split; [reflexivity | exact Hm'].
Qed.

Lemma multiplier_and_history_in_range_witness :
  reachable flying_engine /\ 1 <= multiplier flying_engine <= 250.
Proof.
  split; [exact flying_engine_reachable|].
  apply (multiplier_and_history_in_range flying_engine
           flying_engine_reachable).
Defined.

(** ** Payouts *)

Lemma loop_events_shape l : forall e ev,
  In ev (snd (forEach l checkAutoCashOuts_body e)) ->
  exists q pd,
    In (q, pd) l /\
    ev = player_auto_cashed_out q (multiplier e) (bet pd * multiplier e)
           (bet pd) /\
    autoCashOut_due e q pd = true.
Proof.
  induction l as [|[k pdk] l IH]; intros e ev.
  - simpl. contradiction.
  - rewrite loop_step. destruct (autoCashOut_due e k pdk) eqn:Hdue.
    + cbn [snd]. intros [<-|Hin].
      * exists k, pdk. repeat split; [left; reflexivity | exact Hdue].
      * destruct (IH _ _ Hin) as (q & pd & Hl & Hev & Hd).
        exists q, pd. split; [right; exact Hl|]. split; [exact Hev|].
        simpl in Hd. revert Hd. unfold autoCashOut_due. simpl.
        intro Hd. apply andb_prop in Hd. destruct Hd as [Hd Hge].
        apply andb_prop in Hd. destruct Hd as [Ht Hc].
        rewrite Ht, Hge. simpl. rewrite andb_true_r.
        apply negb_true_iff. apply negb_true_iff in Hc.
        apply set_has_false. apply set_has_false in Hc.
        intro H. apply Hc. apply set_add_In. right. exact H.
    + intro Hin. destruct (IH _ _ Hin) as (q & pd & Hl & Hev & Hd).
      exists q, pd. split; [right; exact Hl|]. split; assumption.
Qed.

Lemma autoCashOut_due_threshold e q pd :
  autoCashOut_due e q pd = true ->
  exists t, JS.ToNumber (autoCashOut pd) = Some t /\ t <= multiplier e.
Proof.
  unfold autoCashOut_due. intro H.
  apply andb_prop in H. destruct H as [_ H].
  unfold JS.ge in H. destruct (JS.ToNumber (autoCashOut pd)) as [t|];
    [|discriminate].
  exists t. split; [reflexivity|].
  destruct (Rle_dec t (multiplier e)); [assumption | discriminate].
Qed.

Lemma auto_events_of_step env i e ev :
  In ev (snd (handle env i e)) ->
  is_auto_event ev = true ->
  state e = FLYING /\
  exists q pd,
    In (q, pd) (activePlayers e) /\
    ev = player_auto_cashed_out q
           (multiplier (snd (fst (handle env i e))))
           (bet pd * multiplier (snd (fst (handle env i e)))) (bet pd) /\
    JS.truthy (autoCashOut pd) = true /\
    ~ In q (cashedOutPlayers e) /\
    exists t, JS.ToNumber (autoCashOut pd) = Some t /\
              t <= multiplier (snd (fst (handle env i e))).
Proof.
  rewrite handle_events, handle_engine. destruct i.
  - rewrite placeBet_spec. destruct (negb _); [intros []|].
    destruct (JS.truthy _ && _); intros [].
  - rewrite cashOut_spec. destruct (negb _); [intros []|].
    destruct (map_get _ _); [|intros []].
    destruct (set_has _ _); intros [].
  - intros [].
  - rewrite forceCrash_spec.
    destruct (negb _); cbn [fst snd]; [intros []|].
    destruct (crashGame_spec env (Some reason) e) as (Hev & _).
    rewrite Hev. unfold crash_events.
    destruct (startTime_truthy e); simpl;
      intros H Ha; repeat (destruct H as [<-|H]; [discriminate Ha|]);
      contradiction.
  - rewrite stop_spec. intros [].
  - rewrite fire_timeout_spec.
    destruct (stateTimeout e) as [[| |]|]; simpl;
      intros H Ha; repeat (destruct H as [<-|H]; [discriminate Ha|]);
      contradiction.
  - rewrite fire_interval_spec.
    destruct (gameLoopInterval e); [|intros []].
    destruct (state_eqb (state e) FLYING) eqn:Hst.
    + apply state_eqb_spec in Hst. rewrite (updateGame_spec env e Hst).
      destruct (tick_crashes env e); cbn [fst snd].
      * destruct (crashGame_spec env None (tick_engine env e)) as (Hev & _).
        rewrite Hev. unfold crash_events, tick_broadcast.
        destruct (tick_broadcasts env e),
          (startTime_truthy (tick_engine env e)); simpl;
          intros H Ha; repeat (destruct H as [<-|H]; [discriminate Ha|]);
          contradiction.
      * intros Hin Ha. split; [exact Hst|].
        apply in_app_or in Hin. destruct Hin as [Hin|Hin].
        { unfold tick_broadcast in Hin.
          destruct (tick_broadcasts env e); simpl in Hin;
            [destruct Hin as [<-|[]]; discriminate Ha | contradiction]. }
        apply in_app_or in Hin. destruct Hin as [Hin|Hin];
          [|destruct Hin as [<-|[]]; discriminate Ha].
        rewrite checkAutoCashOuts_unfold in Hin.
        destruct (loop_events_shape _ _ _ Hin) as (q & pd & Hl & Hev & Hd).
        rewrite (checkAutoCashOuts_keeps multiplier); auto.
        rewrite tick_engine_activePlayers in Hl.
        exists q, pd. split; [exact Hl|]. split; [exact Hev|].
        destruct (autoCashOut_due_spec _ _ _ Hd) as [Ht Hc].
        rewrite tick_engine_cashedOutPlayers in Hc.
        split; [exact Ht|]. split; [exact Hc|].
        apply (autoCashOut_due_threshold _ _ _ Hd).
    + rewrite updateGame_idle by (intro H; rewrite H in Hst; discriminate).
      intros [].
Qed.

(** X3. On every engine reached from a started engine, a successful
    [cashOut] returns a multiplier between 1 and 250 and pays the stake times
    that multiplier, so never less than a non-negative stake; and every
    [player_auto_cashed_out] a step emits is for an unsettled wager of the
    engine, at the multiplier of that tick, which is at least the wager's
    threshold, and pays the stake times that multiplier. *)
Theorem payouts_in_range (e : GameEngine) :
  reachable e ->
  (forall p m w b,
     fst (fst (cashOut p e)) = cashOut_ok m w b ->
     1 <= m <= 250 /\ w = b * m /\ (0 <= b -> b <= w <= 250 * b)) /\
  (forall env i q m w b,
     In (player_auto_cashed_out q m w b) (snd (handle env i e)) ->
     1 <= m <= 250 /\ w = b * m /\
     ~ In q (cashedOutPlayers e) /\
     exists pd t,
       In (q, pd) (activePlayers e) /\ bet pd = b /\
       JS.ToNumber (autoCashOut pd) = Some t /\ t <= m /\
       (0 <= b -> b * t <= w)).
Proof.
  intro Hr. split.
  - intros p m w b. rewrite cashOut_spec.
    destruct (reachable_numbers_agree e Hr) as (_ & Hm & _).
    destruct (negb _); [discriminate|].
    destruct (map_get p (activePlayers e)) as [pd|]; [|discriminate].
    destruct (set_has _ _); [discriminate|].
    simpl. intro H. injection H as <- <- <-.
    split; [exact Hm|]. split; [reflexivity|]. intro Hb. nra.
  - intros env i q m w b Hin.
    destruct (auto_events_of_step env i e _ Hin eq_refl)
      as (_ & q' & pd & Hl & Hev & _ & Hc & t & Ht & Hle).
    injection Hev as -> -> -> ->.
    destruct (reachable_numbers_agree _ (reachable_step env i e Hr))
      as (_ & Hm & _).
    split; [exact Hm|]. split; [reflexivity|]. split; [exact Hc|].
    exists pd, t. repeat split; try assumption. intro Hb. nra.
Qed.

Lemma betting_flight_reachable : reachable betting_flight.
Proof. exists (mkEnv 0 0). eexists. reflexivity. Qed.

Lemma payouts_in_range_witness :
  reachable betting_flight /\
  fst (fst (cashOut "p1" betting_flight)) = cashOut_ok 1 (100 * 1) 100 /\
  0 <= 100 /\ 100 <= 100 * 1.
Proof.
  assert (H : fst (fst (cashOut "p1" betting_flight))
              = cashOut_ok 1 (100 * 1) 100) by reflexivity.
  split; [exact betting_flight_reachable|]. split; [exact H|].
  split; [lra|].
  destruct (payouts_in_range betting_flight betting_flight_reachable)
    as [Hc _].
  destruct (Hc "p1"%string 1 (100 * 1) 100 H) as (_ & _ & Hw).
  apply Hw. lra.
Defined.

(** ** Wagers and settled markers *)

Lemma map_delete_In_other k q pd m :
  In (q, pd) (map_delete k m) -> q <> k /\ In (q, pd) m.
Proof.
  intro H. split; [|apply (map_delete_In _ _ _ _ H)].
  apply (in_map fst) in H. apply keys_map_delete_In in H. apply H.
Qed.

Lemma loop_cashed_grows l e p :
  In p (cashedOutPlayers e) ->
  In p (cashedOutPlayers (snd (fst (forEach l checkAutoCashOuts_body e)))).
Proof.
  intro H. destruct (loop_counts l e) as (_ & _ & Hin).
  apply Hin. left. exact H.
Qed.

Lemma loop_entries_marked l : forall e q pd',
  In (q, pd')
     (activePlayers (snd (fst (forEach l checkAutoCashOuts_body e)))) ->
  In (q, pd') (activePlayers e) \/
  In q (cashedOutPlayers (snd (fst (forEach l checkAutoCashOuts_body e)))).
Proof.
  induction l as [|[k pd] l IH]; intros e q pd'.
  - simpl. auto.
  - rewrite loop_step. destruct (autoCashOut_due e k pd).
    + cbn [fst snd]. intro H. destruct (IH _ _ _ H) as [H'|H'];
        [|right; exact H'].
      simpl in H'. apply map_set_In in H'.
      destruct H' as [H'|[-> _]]; [left; exact H'|].
      right. apply loop_cashed_grows. simpl.
      apply set_add_In. left. reflexivity.
    + apply IH.
Qed.

Ltac wagers_split := split; [|split; [|split]].

Lemma wagers_agree_step env i e :
  timers_agree e -> wagers_agree e ->
  wagers_agree (snd (fst (handle env i e))).
Proof.
  intros Ht He. pose proof He as (Hnd & Hc & Hw & Hcr).
  apply handle_engine_cases; try exact He.
  - intros p a v Hcan. apply canPlaceBet_spec in Hcan.
    wagers_split; simpl.
    + apply NoDup_keys_map_set. exact Hnd.
    + intros q H. split; [|apply (Hc _ H)].
      apply keys_map_set_In. right. apply (Hc _ H).
    + intros q pd' Hin Hwon. apply map_set_In in Hin.
      destruct Hin as [Hin|[_ ->]]; [apply (Hw _ _ Hin Hwon)|].
      discriminate Hwon.
    + intro H. destruct Hcan as [H'|H']; rewrite H' in H; discriminate.
  - intros p pd Hst Hg Hnc.
    assert (Hkey : In p (keys (activePlayers e)))
      by (apply map_get_keys; congruence).
    wagers_split; simpl.
    + rewrite keys_map_set_present by exact Hkey. exact Hnd.
    + intros q H. split; [|left; exact Hst].
      rewrite keys_map_set_present by exact Hkey.
      apply set_add_In in H. destruct H as [->|H];
        [exact Hkey | apply (Hc _ H)].
    + intros q pd' Hin Hwon. apply set_add_In. apply map_set_In in Hin.
      destruct Hin as [Hin|[-> _]];
        [right; apply (Hw _ _ Hin Hwon) | left; reflexivity].
    + intro H. rewrite Hst in H. discriminate.
  - intro p. wagers_split; simpl.
    + apply NoDup_keys_map_delete. exact Hnd.
    + intros q H. apply set_delete_In in H. destruct H as [Hne H].
      split; [|apply (Hc _ H)].
      apply keys_map_delete_In. split; [exact Hne | apply (Hc _ H)].
    + intros q pd' Hin Hwon. apply map_delete_In_other in Hin.
      destruct Hin as [Hne Hin]. apply set_delete_In.
      split; [exact Hne | apply (Hw _ _ Hin Hwon)].
    + intro H. rewrite (Hcr H). reflexivity.
  - intros env' trigger e0 _ _.
    destruct (crashGame_spec env' trigger e0)
      as (_ & _ & _ & Hap & Hcp & _).
    unfold wagers_agree. rewrite Hap, Hcp.
    wagers_split; try constructor; intros; contradiction.
  - wagers_split; simpl.
    + exact Hnd.
    + intros q H. split; [apply (Hc _ H) | right; reflexivity].
    + exact Hw.
    + discriminate.
  - intros cb Hcb.
    assert (Hnf : state e <> FLYING).
    { intro H. destruct Ht as [_ Hm]. rewrite H, Hcb in Hm. discriminate. }
    assert (Hempty : forall p, ~ In p (cashedOutPlayers e)).
    { intros p H. destruct (Hc _ H) as [_ [H'|H']];
        [contradiction | congruence]. }
    assert (Hnowon : forall p pd, In (p, pd) (activePlayers e) ->
                       hasWon pd = true -> False).
    { intros p pd Hin Hwon. apply (Hempty p). apply (Hw _ _ Hin Hwon). }
    destruct cb; (wagers_split; simpl;
      [ exact Hnd
      | intros q H; exfalso; solve [contradiction | apply (Hempty _ H)]
      | intros q pd' Hin Hwon; exfalso; apply (Hnowon _ _ Hin Hwon)
      | discriminate ]).
  - intros Hst Hgl _.
    rewrite checkAutoCashOuts_unfold.
    set (e1 := tick_engine env e).
    assert (Ha1 : activePlayers e1 = activePlayers e)
      by apply tick_engine_activePlayers.
    assert (Hc1 : cashedOutPlayers e1 = cashedOutPlayers e)
      by apply tick_engine_cashedOutPlayers.
    destruct (loop_counts (activePlayers e1) e1) as (_ & _ & Hin).
    assert (Hkeys : keys (activePlayers
                      (snd (fst (forEach (activePlayers e1)
                                   checkAutoCashOuts_body e1))))
                    = keys (activePlayers e)).
    { rewrite loop_keys; [rewrite Ha1; reflexivity|].
      intros q pd H. apply (in_map fst) in H. exact H. }
    assert (Hst' : state (snd (fst (forEach (activePlayers e1)
                                      checkAutoCashOuts_body e1)))
                   = FLYING).
    { rewrite <- checkAutoCashOuts_unfold.
      rewrite (checkAutoCashOuts_keeps state); auto.
      unfold e1. rewrite tick_engine_state. exact Hst. }
    wagers_split.
    + rewrite Hkeys. exact Hnd.
    + intros q H. split; [|left; exact Hst'].
      rewrite Hkeys. apply Hin in H. destruct H as [H|H].
      * rewrite Hc1 in H. apply (Hc _ H).
      * destruct (loop_source (activePlayers e1) e1 q) as [pd [Hl _]];
          [rewrite H; discriminate|].
        rewrite Ha1 in Hl. apply (in_map fst) in Hl. exact Hl.
    + intros q pd' Hl Hwon. apply loop_entries_marked in Hl.
      destruct Hl as [Hl|Hl]; [|exact Hl].
      apply loop_cashed_grows. rewrite Hc1. rewrite Ha1 in Hl.
      apply (Hw _ _ Hl Hwon).
    + intro H. rewrite Hst' in H. discriminate.
Qed.

Lemma reachable_wagers_agree e : reachable e -> wagers_agree e.
Proof.
  apply reachable_ind.
  - intro env. wagers_split; simpl;
      [constructor | intros p [] | intros p pd [] | discriminate].
  - intros env i e0 Hr H. apply wagers_agree_step; [|exact H].
    apply reachable_timers_agree. exact Hr.
Qed.

Lemma no_member_nil {A : Type} (l : list A) :
  (forall x, ~ In x l) -> l = [].
Proof.
  destruct l as [|x l]; [reflexivity|].
  intro H. exfalso. apply (H x). left. reflexivity.
Qed.

(** X4. On every engine reached from a started engine [getActivePlayers]
    lists each player once; only players who hold a wager are marked as
    cashed out; a wager flagged [hasWon] belongs to a marked player; no
    marker exists in STARTING; and while the crash is displayed (CRASHED)
    no wager and no marker is left. *)
Theorem wagers_and_markers_consistent (e : GameEngine) :
  reachable e ->
  NoDup (getActivePlayers e) /\
  (forall p, In p (cashedOutPlayers e) -> In p (getActivePlayers e)) /\
  (forall p pd, In (p, pd) (activePlayers e) -> hasWon pd = true ->
     In p (cashedOutPlayers e)) /\
  (state e = STARTING -> cashedOutPlayers e = []) /\
  (state e = CRASHED -> activePlayers e = [] /\ cashedOutPlayers e = []).
Proof.
  intro Hr.
  destruct (reachable_wagers_agree e Hr) as (Hnd & Hc & Hw & Hcr).
  destruct (reachable_timers_agree e Hr) as [_ Hm].
  split; [exact Hnd|]. split; [intros p H; apply (Hc _ H)|].
  split; [exact Hw|]. split.
  - intro Hst. apply no_member_nil. intros p H.
    destruct (Hc _ H) as [_ [H'|H']]; rewrite Hst in *; [discriminate|].
    rewrite Hm in H'. discriminate.
  - intro Hst. split; [apply (Hcr Hst)|].
    apply no_member_nil. intros p H.
    destruct (Hc _ H) as [Hk _]. rewrite (Hcr Hst) in Hk. contradiction.
Qed.

Lemma wagers_and_markers_consistent_witness :
  reachable betting_flight /\ NoDup (getActivePlayers betting_flight).
Proof.
  split; [exact betting_flight_reachable|].
  apply (wagers_and_markers_consistent betting_flight
           betting_flight_reachable).
Defined.

(** ** Ticks *)

Lemma reachable_flying_tick env e :
  reachable e -> state e = FLYING ->
  handle env interval_fires e =
  if tick_crashes env e
  then (out_void, snd (fst (crashGame env None (tick_engine env e))),
        tick_broadcast env e ++ crash_events env (tick_engine env e))
  else (out_void, snd (fst (checkAutoCashOuts (tick_engine env e))),
        tick_broadcast env e
        ++ snd (checkAutoCashOuts (tick_engine env e))
        ++ [game_state_changed
              (snapshot_payload
                 (snapshot_of env (tick_elapsed env e)
                    (snd (fst (checkAutoCashOuts (tick_engine env e))))))]).
Proof.
  intros Hr Hst.
  destruct (reachable_timers_agree e Hr) as [[_ Hgl] _].
  rewrite (handle_interval env e (Hgl Hst)), (updateGame_spec env e Hst).
  destruct (tick_crashes env e); cbn [fst snd]; [|reflexivity].
  destruct (crashGame_spec env None (tick_engine env e)) as (Hev & _).
  rewrite Hev. reflexivity.
Qed.

Lemma reachable_tick_crashes env e :
  reachable e ->
  tick_crashes env e = true <->
  random env <
    crashChance (if startTime_truthy e then tick_elapsed env e else 0)
      (calculateMultiplier e (tick_elapsed env e))
  \/ 90 <= tick_elapsed env e.
Proof.
  intro Hr. destruct (reachable_numbers_agree e Hr) as (Hset & _).
  unfold settings in Hset. injection Hset as Hcfg _.
  unfold tick_crashes. rewrite Hcfg. simpl.
  destruct (Rlt_dec _ _) as [H1|H1];
    destruct (Rle_dec _ _) as [H2|H2]; simpl; split; auto; try lra;
    try discriminate;
    try (intros [H|H]; [contradiction | lra]).
Qed.

(** X5. A tick of a flying engine reached from a started engine ends the
    round exactly when the random draw is below the crash probability or 90
    seconds of flight have elapsed: from 90 seconds on it always crashes and
    emits [round_settled]; before that, a draw of 0.08 or more keeps the
    engine FLYING and emits no settlement. *)
Theorem tick_crash_conditions (env : Env) (e : GameEngine) :
  reachable e -> state e = FLYING ->
  let e' := snd (fst (handle env interval_fires e)) in
  let elapsed := (now env - startTime_num e) / 1000 in
  (state e' = CRASHED <->
   random env <
     crashChance (if startTime_truthy e then elapsed else 0)
       (calculateMultiplier e elapsed)
   \/ 90 <= elapsed) /\
  (state e' = CRASHED \/ state e' = FLYING) /\
  (90 <= elapsed ->
   state e' = CRASHED /\
   exists fm ls ps,
     In (round_settled fm ls ps) (snd (handle env interval_fires e))) /\
  (elapsed < 90 -> 0.08 <= random env ->
   state e' = FLYING /\
   Forall not_settlement (snd (handle env interval_fires e))).
Proof.
  intros Hr Hst e' elapsed.
  pose proof (reachable_tick_crashes env e Hr) as Hiff.
  fold elapsed in Hiff. change (tick_elapsed env e) with elapsed in Hiff.
  assert (Hcase :
    (tick_crashes env e = true /\ state e' = CRASHED /\
     exists fm ls ps,
       In (round_settled fm ls ps) (snd (handle env interval_fires e))) \/
    (tick_crashes env e = false /\ state e' = FLYING /\
     Forall not_settlement (snd (handle env interval_fires e)))).
  { subst e'. rewrite (reachable_flying_tick env e Hr Hst).
    destruct (tick_crashes env e); cbn [fst snd]; [left | right].
    - split; [reflexivity|]. split.
      + apply (crashGame_spec env None (tick_engine env e)).
      + destruct (crash_events_has_settlement env (tick_engine env e))
          as (fm & ls & ps & H).
        exists fm, ls, ps. apply in_or_app. right. exact H.
    - split; [reflexivity|]. split.
      + rewrite (checkAutoCashOuts_keeps state); auto.
        rewrite tick_engine_state. exact Hst.
      + apply Forall_app. split; [apply broadcast_quiet|].
        apply Forall_app. split; [apply checkAutoCashOuts_quiet|].
        repeat constructor. }
  split; [|split; [|split]].
  - rewrite <- Hiff.
    destruct Hcase as [(Hc & Hs & _)|(Hc & Hs & _)]; rewrite Hc, Hs;
      split; auto; discriminate.
  - destruct Hcase as [(_ & Hs & _)|(_ & Hs & _)]; auto.
  - intro Hmax.
    destruct Hcase as [(_ & Hs & Hev)|(Hc & _)]; [split; assumption|].
    assert (H : tick_crashes env e = true) by (apply Hiff; right; exact Hmax).
    congruence.
  - intros Hlt Hrand.
    destruct Hcase as [(Hc & _)|(_ & Hs & Hq)]; [|split; assumption].
    apply Hiff in Hc. destruct Hc as [Hc|Hc]; [|lra].
    match type of Hc with _ < crashChance ?a ?b =>
      pose proof (crashChance_cap a b) end. lra.
Qed.

Lemma tick_crash_conditions_witness :
  let env := mkEnv 100000 0.5 in
  reachable flying_engine /\ state flying_engine = FLYING /\
  90 <= (now env - startTime_num flying_engine) / 1000 /\
  state (snd (fst (handle env interval_fires flying_engine))) = CRASHED.
Proof.
  intro env.
  assert (H : 90 <= (now env - startTime_num flying_engine) / 1000).
  { change (startTime_num flying_engine) with 6000. simpl. lra. }
  split; [exact flying_engine_reachable|]. split; [reflexivity|].
  split; [exact H|].
  apply (tick_crash_conditions env flying_engine flying_engine_reachable
           eq_refl). exact H.
Defined.

Lemma loop_fires l : forall e p pd,
  NoDup (keys l) ->
  In (p, pd) l ->
  autoCashOut_due e p pd = true ->
  In (player_auto_cashed_out p (multiplier e) (bet pd * multiplier e)
        (bet pd))
     (snd (forEach l checkAutoCashOuts_body e)).
Proof.
  induction l as [|[k pdk] l IH]; intros e p pd Hnd Hin Hdue.
  - contradiction.
  - inversion Hnd as [|x xs Hnin Hnd']; subst.
    rewrite loop_step. destruct Hin as [Heq|Hin].
    + injection Heq as -> ->. rewrite Hdue. left. reflexivity.
    + assert (Hne : p <> k).
      { intros ->. apply Hnin. apply (in_map fst) in Hin. exact Hin. }
      destruct (autoCashOut_due e k pdk) eqn:Hk.
      * cbn [snd]. right.
        apply (IH (auto_settled k pdk e) p pd Hnd' Hin).
        revert Hdue. unfold autoCashOut_due. simpl.
        intro Hd. apply andb_prop in Hd. destruct Hd as [Hd Hge].
        apply andb_prop in Hd. destruct Hd as [Ht Hc].
        rewrite Ht, Hge. simpl. rewrite andb_true_r.
        apply negb_true_iff, set_has_false.
        apply negb_true_iff, set_has_false in Hc.
        intro H. apply set_add_In in H.
        destruct H as [H|H]; [contradiction | apply (Hc H)].
      * apply (IH e p pd Hnd' Hin Hdue).
Qed.

Lemma NoDup_keys_In_get p pd m :
  NoDup (keys m) -> In (p, pd) m -> map_get p m = Some pd.
Proof.
  induction m as [|[k v] m IH]; simpl; intros Hnd Hin; [contradiction|].
  inversion Hnd as [|x xs Hnin Hnd']; subst.
  destruct (String.eqb_spec p k) as [->|Hne].
  - destruct Hin as [H|H]; [congruence|].
    exfalso. apply Hnin. apply (in_map fst) in H. exact H.
  - destruct Hin as [H|H]; [congruence|]. apply IH; assumption.
Qed.

(** X6. In a flying engine reached from a started engine, when a tick does
    not crash, every unsettled wager whose numeric threshold is not 0 and is
    reached by the tick's multiplier is settled by that tick:
    [player_auto_cashed_out] is emitted once for the player with the tick's
    multiplier and the stake times that multiplier, the player is marked as
    cashed out, and the engine stays FLYING. *)
Theorem due_threshold_fires (env : Env) (e : GameEngine)
    (p : string) (pd : PlayerData) (t : R) :
  reachable e -> state e = FLYING ->
  state (snd (fst (handle env interval_fires e))) = FLYING ->
  map_get p (activePlayers e) = Some pd ->
  autoCashOut pd = JS.Number t -> t <> 0 ->
  ~ In p (cashedOutPlayers e) ->
  t <= calculateMultiplier e (tick_elapsed env e) ->
  let m := calculateMultiplier e (tick_elapsed env e) in
  let r := handle env interval_fires e in
  In (player_auto_cashed_out p m (bet pd * m) (bet pd)) (snd r) /\
  auto_cashOuts p (snd r) = 1%nat /\
  In p (cashedOutPlayers (snd (fst r))) /\
  state (snd (fst r)) = FLYING /\
  multiplier (snd (fst r)) = m.
Proof.
  intros Hr Hst Hfly Hg Ha Ht0 Hc Hle m r. subst r.
  assert (Hnc : tick_crashes env e = false).
  { revert Hfly. rewrite (reachable_flying_tick env e Hr Hst).
    destruct (tick_crashes env e); [|reflexivity]. cbn [fst snd].
    destruct (crashGame_spec env None (tick_engine env e)) as (_ & Hs & _).
    rewrite Hs. discriminate. }
  rewrite (reachable_flying_tick env e Hr Hst), Hnc. cbn [fst snd].
  destruct (reachable_wagers_agree e Hr) as (Hnd & _).
  set (e1 := tick_engine env e).
  assert (Ha1 : activePlayers e1 = activePlayers e)
    by apply tick_engine_activePlayers.
  assert (Hc1 : cashedOutPlayers e1 = cashedOutPlayers e)
    by apply tick_engine_cashedOutPlayers.
  assert (Hm1 : multiplier e1 = m) by apply tick_engine_multiplier.
  assert (Hdue : autoCashOut_due e1 p pd = true).
  { unfold autoCashOut_due. rewrite Ha, Hc1, Hm1. simpl.
    destruct (Req_dec_T t 0) as [H|_]; [contradiction|].
    apply set_has_false in Hc. rewrite Hc. simpl.
    destruct (Rle_dec t m) as [_|H]; [reflexivity | contradiction]. }
  assert (Hev : In (player_auto_cashed_out p m (bet pd * m) (bet pd))
                   (snd (checkAutoCashOuts e1))).
  { rewrite checkAutoCashOuts_unfold, <- Hm1.
    apply loop_fires; [rewrite Ha1; exact Hnd | | exact Hdue].
    rewrite Ha1. apply map_get_In. exact Hg. }
  destruct (loop_counts (activePlayers e1) e1) as (Hle1 & _ & Hin).
  rewrite <- checkAutoCashOuts_unfold in Hle1, Hin.
  assert (Hcount : auto_cashOuts p (snd (checkAutoCashOuts e1)) = 1%nat).
  { specialize (Hle1 p).
    assert (auto_cashOuts p (snd (checkAutoCashOuts e1)) <> 0%nat).
    { unfold auto_cashOuts. intro H0. apply length_zero_iff_nil in H0.
      assert (Hf : In (player_auto_cashed_out p m (bet pd * m) (bet pd))
                      (filter (is_auto_for p) (snd (checkAutoCashOuts e1)))).
      { apply filter_In. split; [exact Hev|]. simpl.
        apply String.eqb_refl. }
      rewrite H0 in Hf. contradiction. }
    lia. }
  split; [|split; [|split; [|split]]].
  - apply in_or_app. right. apply in_or_app. left. exact Hev.
  - rewrite !auto_cashOuts_app, auto_cashOuts_broadcast, Hcount.
    reflexivity.
  - apply Hin. right. exact Hcount.
  - rewrite (checkAutoCashOuts_keeps state); auto.
    unfold e1. rewrite tick_engine_state. exact Hst.
  - rewrite (checkAutoCashOuts_keeps multiplier); auto.
Qed.

Lemma threshold_flight_facts :
  reachable threshold_flight /\
  state threshold_flight = FLYING /\
  startTime threshold_flight = Some 6000 /\
  cashedOutPlayers threshold_flight = [] /\
  map_get "p2" (activePlayers threshold_flight)
  = Some (mkPlayerData 50 (JS.Number 1.5) false 100).
Proof.
  assert (Hr : reachable threshold_flight)
    by (exists (mkEnv 0 0); eexists; reflexivity).
  split; [exact Hr|].
  unfold threshold_flight. rewrite !fst_run_cons. cbn [run fst].
  assert (Hbet :
    snd (fst (handle (mkEnv 100 0) (call_placeBet "p2" 50 (JS.Number 1.5))
                (started_engine (mkEnv 0 0))))
    = set_stats (stats_add_bet 50 (stats (started_engine (mkEnv 0 0))))
        (set_activePlayers
           [("p2"%string, mkPlayerData 50 (JS.Number 1.5) false 100)]
           (started_engine (mkEnv 0 0)))).
  { unfold handle. rewrite bind_ret_r, placeBet_spec. cbn [fst snd].
    change (negb (canPlaceBet (started_engine (mkEnv 0 0)))) with false.
    cbn iota.
    fold (threshold_rejected (JS.default_null (JS.Number 1.5))).
    replace (threshold_rejected (JS.default_null (JS.Number 1.5)))
      with false; [reflexivity|].
    symmetry. pose proof (threshold_rejected_number 1.5) as H.
    destruct (threshold_rejected (JS.Number 1.5)) eqn:Heq;
      [|simpl; exact Heq].
    destruct H as [H _]. specialize (H eq_refl). lra. }
  rewrite Hbet. repeat split.
Qed.

Lemma exp_1_gt_2 : 2 < exp 1.
Proof. pose proof (exp_ineq1 1). lra. Qed.

Lemma due_threshold_fires_witness :
  let env := mkEnv 11000 0.99 in
  let pd := mkPlayerData 50 (JS.Number 1.5) false 100 in
  let m := calculateMultiplier threshold_flight
             (tick_elapsed env threshold_flight) in
  reachable threshold_flight /\
  state threshold_flight = FLYING /\
  state (snd (fst (handle env interval_fires threshold_flight))) = FLYING /\
  map_get "p2" (activePlayers threshold_flight) = Some pd /\
  1.5 <> 0 /\
  ~ In "p2"%string (cashedOutPlayers threshold_flight) /\
  1.5 <= m /\
  In (player_auto_cashed_out "p2" m (50 * m) 50)
     (snd (handle env interval_fires threshold_flight)).
Proof.
  intros env pd m.
  destruct threshold_flight_facts as (Hr & Hst & Hstart & Hc & Hg).
  assert (Hel : tick_elapsed env threshold_flight = 5).
  { unfold tick_elapsed, startTime_num. rewrite Hstart. simpl. lra. }
  assert (Hgr : growth threshold_flight = mkGrowth 0.2 1 250)
    by (apply reachable_growth; exact Hr).
  assert (Hm : 1.5 <= m).
  { subst m. rewrite Hel. unfold calculateMultiplier. rewrite Hgr. simpl.
    replace (0.2 * 5) with 1 by lra.
    pose proof exp_1_gt_2. pose proof exp_le_3.
    rewrite Rmax_left by lra. rewrite Rmin_left by lra. lra. }
  assert (Hnc : tick_crashes env threshold_flight = false).
  { destruct (tick_crashes env threshold_flight) eqn:Ht; [|reflexivity].
    apply (reachable_tick_crashes env _ Hr) in Ht. rewrite Hel in Ht.
    destruct Ht as [Ht|Ht]; [|lra].
    match type of Ht with _ < crashChance ?a ?b =>
      pose proof (crashChance_cap a b) end. simpl in Ht. lra. }
  assert (Hfly : state (snd (fst (handle env interval_fires
                                    threshold_flight))) = FLYING).
  { rewrite (reachable_flying_tick env _ Hr Hst), Hnc. cbn [fst snd].
    rewrite (checkAutoCashOuts_keeps state); auto.
    rewrite tick_engine_state. exact Hst. }
  assert (Hne : 1.5 <> 0) by lra.
  assert (Hnin : ~ In "p2"%string (cashedOutPlayers threshold_flight))
    by (rewrite Hc; intros []).
  repeat split; try assumption.
  apply (due_threshold_fires env threshold_flight "p2" pd 1.5
           Hr Hst Hfly Hg eq_refl Hne Hnin Hm).
Defined.

Lemma calculateMultiplier_monotone e t1 t2 :
  growth e = mkGrowth 0.2 1 250 -> t1 <= t2 ->
  calculateMultiplier e t1 <= calculateMultiplier e t2.
Proof.
  intros Hg Ht. unfold calculateMultiplier. rewrite Hg. simpl.
  rewrite !Rmin_Rmax_clamp by lra.
  apply clamp_monotone; [lra|]. apply exp_monotone. lra.
Qed.

Lemma reachable_grounded_tick env e :
  reachable e -> state e <> FLYING ->
  handle env interval_fires e = (out_void, e, []).
Proof.
  intros Hr Hst.
  destruct (reachable_timers_agree e Hr) as [[Hgl _] _].
  unfold handle. rewrite bind_ret_const, fire_interval_spec.
  destruct (gameLoopInterval e); [|reflexivity].
  exfalso. apply Hst. apply Hgl. reflexivity.
Qed.

Lemma reachable_tick_result env e :
  reachable e -> state e = FLYING ->
  let e' := snd (fst (handle env interval_fires e)) in
  multiplier e' = calculateMultiplier e (tick_elapsed env e) /\
  startTime e' = startTime e /\
  (state e' = FLYING \/ state e' = CRASHED).
Proof.
  intros Hr Hst e'. subst e'.
  rewrite (reachable_flying_tick env e Hr Hst).
  assert (Hstart : startTime (tick_engine env e) = startTime e) by tick_field.
  destruct (tick_crashes env e); cbn [fst snd].
  - destruct (crashGame_spec env None (tick_engine env e))
      as (_ & Hs & Hm & _).
    rewrite Hm, Hs, tick_engine_multiplier.
    split; [reflexivity|]. split; [|right; reflexivity].
    rewrite <- Hstart.
    assert (H : keeps startTime (crashGame env None)).
    { unfold crashGame, clearTimers, buildMultiplierPayload,
        updateAverageMultiplier, addToHistory, finalizeBets. frame. }
    apply H.
  - rewrite (checkAutoCashOuts_keeps multiplier),
      (checkAutoCashOuts_keeps startTime),
      (checkAutoCashOuts_keeps state); auto.
    rewrite tick_engine_multiplier, tick_engine_state, Hstart.
    split; [reflexivity|]. split; [reflexivity | left; exact Hst].
Qed.

(** X7. On an engine reached from a started engine, two ticks in a row
    whose clock readings do not go back never lower the multiplier: the
    multiplier after the second tick is at least the multiplier after the
    first. *)
Theorem successive_ticks_monotone (env1 env2 : Env) (e : GameEngine) :
  reachable e ->
  now env1 <= now env2 ->
  let e1 := snd (fst (handle env1 interval_fires e)) in
  let e2 := snd (fst (handle env2 interval_fires e1)) in
  multiplier e1 <= multiplier e2.
Proof.
  intros Hr Hnow e1 e2.
  assert (Hr1 : reachable e1) by (apply reachable_step; exact Hr).
  destruct (state_eqb (state e1) FLYING) eqn:Hst1.
  - apply state_eqb_spec in Hst1.
    destruct (state_eqb (state e) FLYING) eqn:Hst.
    + apply state_eqb_spec in Hst.
      destruct (reachable_tick_result env1 e Hr Hst) as (Hm1 & Hs1 & _).
      destruct (reachable_tick_result env2 e1 Hr1 Hst1) as (Hm2 & _ & _).
      fold e1 in Hm1, Hs1. fold e2 in Hm2. rewrite Hm1, Hm2.
      assert (Hg : growth e = mkGrowth 0.2 1 250)
        by (apply reachable_growth; exact Hr).
      assert (Hg1 : growth e1 = mkGrowth 0.2 1 250)
        by (apply reachable_growth; exact Hr1).
      unfold calculateMultiplier at 2. rewrite Hg1, <- Hg.
      fold (calculateMultiplier e (tick_elapsed env2 e1)).
      apply calculateMultiplier_monotone; [exact Hg|].
      unfold tick_elapsed, startTime_num. rewrite Hs1. lra.
    + assert (Hnf : state e <> FLYING)
        by (intro H; rewrite H in Hst; discriminate).
      exfalso. subst e1.
      rewrite (reachable_grounded_tick env1 e Hr Hnf) in Hst1.
      contradiction.
  - assert (Hnf : state e1 <> FLYING)
      by (intro H; rewrite H in Hst1; discriminate).
    subst e2. rewrite (reachable_grounded_tick env2 e1 Hr1 Hnf).
    simpl. lra.
Qed.

Lemma successive_ticks_monotone_witness :
  let env1 := mkEnv 7000 0.99 in
  let env2 := mkEnv 8000 0.99 in
  let e1 := snd (fst (handle env1 interval_fires flying_engine)) in
  reachable flying_engine /\ now env1 <= now env2 /\
  multiplier e1
  <= multiplier (snd (fst (handle env2 interval_fires e1))).
Proof.
  intros env1 env2 e1.
  assert (H : now env1 <= now env2) by (simpl; lra).
  split; [exact flying_engine_reachable|]. split; [exact H|].
  apply (successive_ticks_monotone env1 env2 flying_engine
           flying_engine_reachable H).
Defined.

(** ** A stopped engine *)

Lemma stopped_step env i e :
  stopped e ->
  stopped (snd (fst (handle env i e))) /\
  snd (handle env i e) = [] /\
  frozen (snd (fst (handle env i e))) = frozen e /\
  is_cashOut_ok (fst (fst (handle env i e))) = false.
Proof.
  intros (Hst & Hto & Hgl).
  destruct i; unfold handle;
    first [rewrite bind_ret_r | rewrite bind_ret_const]; cbn [fst snd].
  - rewrite placeBet_spec.
    destruct (negb (canPlaceBet e));
      [|destruct (JS.truthy _ && _)]; cbn [fst snd];
      repeat split; assumption.
  - rewrite cashOut_spec, Hst. cbn [fst snd state_eqb negb].
    repeat split; assumption.
  - rewrite removePlayer_spec. cbn [fst snd]. repeat split; assumption.
  - rewrite forceCrash_spec, Hst. cbn [fst snd state_eqb negb].
    repeat split; assumption.
  - rewrite stop_spec. cbn [fst snd]. unfold frozen. cbn. rewrite Hst.
    repeat split.
  - rewrite fire_timeout_spec, Hto. cbn [fst snd]. repeat split; assumption.
  - rewrite fire_interval_spec, Hgl. cbn [fst snd]. repeat split; assumption.
Qed.

Lemma stopped_run ins : forall e,
  stopped e ->
  stopped (fst (run e ins)) /\
  run_events (snd (run e ins)) = [] /\
  frozen (fst (run e ins)) = frozen e /\
  Forall (fun st => is_cashOut_ok (step_output st) = false) (snd (run e ins)).
Proof.
  induction ins as [|[env i] rest IH]; intros e He.
  - simpl. repeat split; [apply He.. | constructor].
  - destruct (stopped_step env i e He) as (He1 & Hev & Hfr & Hok).
    destruct (IH _ He1) as (He2 & Hev2 & Hfr2 & Hok2).
    rewrite run_cons. cbn [fst snd].
    split; [exact He2|]. split.
    + unfold run_events in *. cbn [flat_map step_events].
      rewrite Hev, Hev2. reflexivity.
    + split; [congruence|]. constructor; [exact Hok | exact Hok2].
Qed.

(** X8. Once [stop] has run the engine stays silent: whatever calls and
    timer firings follow, no event is emitted, no cash-out succeeds, and
    the state stays WAITING with the multiplier, the game counter, the
    history and the totals of games and payouts as [stop] left them. *)
Theorem stopped_engine_stays_silent
    (e : GameEngine) (ins : list (Env * Input)) :
  let e0 := snd (fst (stop e)) in
  run_events (snd (run e0 ins)) = [] /\
  state (fst (run e0 ins)) = WAITING /\
  stateTimeout (fst (run e0 ins)) = None /\
  gameLoopInterval (fst (run e0 ins)) = false /\
  multiplier (fst (run e0 ins)) = multiplier e /\
  gameId (fst (run e0 ins)) = gameId e /\
  history (fst (run e0 ins)) = history e /\
  totalGames (stats (fst (run e0 ins))) = totalGames (stats e) /\
  totalPayouts (stats (fst (run e0 ins))) = totalPayouts (stats e) /\
  Forall (fun st => is_cashOut_ok (step_output st) = false)
    (snd (run e0 ins)).
Proof.
  intro e0.
  assert (H0 : stopped e0)
    by (subst e0; rewrite stop_spec; repeat split).
  destruct (stopped_run ins e0 H0) as ((Hs & Ht & Hg) & Hev & Hfr & Hok).
  assert (Hfr0 : frozen e0 = (WAITING, multiplier e, gameId e, history e,
                              totalGames (stats e), totalPayouts (stats e)))
    by (subst e0; rewrite stop_spec; reflexivity).
  rewrite Hfr0 in Hfr. unfold frozen in Hfr.
  injection Hfr as _ Hm Hid Hh Htg Htp.
  repeat split; assumption.
Qed.

(** ** A player who leaves *)

Lemma map_get_delete_same k m : map_get k (map_delete k m) = None.
Proof.
  induction m as [|[k' v'] m IH]; simpl; [reflexivity|].
  destruct (String.eqb k k') eqn:Hk; [exact IH|].
  simpl. rewrite Hk. exact IH.
Qed.

Lemma map_get_delete_other k q m :
  k <> q -> map_get k (map_delete q m) = map_get k m.
Proof.
  intro Hne. induction m as [|[k' v'] m IH]; simpl; [reflexivity|].
  destruct (String.eqb_spec q k') as [<-|Hq]; simpl.
  - rewrite IH. destruct (String.eqb_spec k q); [contradiction|reflexivity].
  - rewrite IH. reflexivity.
Qed.

Lemma map_delete_absent k m : map_get k m = None -> map_delete k m = m.
Proof.
  induction m as [|[k' v'] m IH]; simpl; [reflexivity|].
  destruct (String.eqb k k'); [discriminate|].
  intro H. rewrite (IH H). reflexivity.
Qed.

Lemma set_delete_absent k s : ~ In k s -> set_delete k s = s.
Proof.
  induction s as [|k' s IH]; simpl; [reflexivity|].
  intro H. destruct (String.eqb_spec k k') as [->|Hne]; [tauto|].
  rewrite IH by tauto. reflexivity.
Qed.

Lemma losers_among_keys cashed m p :
  In p (map loser_playerId (losers (finalizeBets_loop cashed m))) ->
  In p (keys m).
Proof.
  induction m as [|[k v] m IH]; simpl; [tauto|].
  destruct (set_has k cashed); simpl.
  - intro H. right. apply IH. exact H.
  - intros [H|H]; [left; exact H | right; apply IH; exact H].
Qed.

(** X9. [removePlayer] forgets the player without a trace: no event is
    emitted, the player has no wager and no settled marker afterwards, every
    other player's wager and marker are untouched, the state and the
    statistics (the stake stays counted among the bets) are unchanged, a
    cash-out by the player can no longer succeed, a crash that follows lists
    the player neither among the participants nor among the losers, and
    removing the player again changes nothing. *)
Theorem removePlayer_forgets (p : string) (e : GameEngine) :
  let e' := snd (fst (removePlayer p e)) in
  snd (removePlayer p e) = [] /\
  map_get p (activePlayers e') = None /\
  ~ In p (cashedOutPlayers e') /\
  (forall q, q <> p ->
     map_get q (activePlayers e') = map_get q (activePlayers e) /\
     (In q (cashedOutPlayers e') <-> In q (cashedOutPlayers e))) /\
  state e' = state e /\
  stats e' = stats e /\
  (forall m w b, fst (fst (cashOut p e')) <> cashOut_ok m w b) /\
  (forall env trigger fm ls ps,
     In (round_settled fm ls ps) (snd (crashGame env trigger e')) ->
     ~ In p (map loser_playerId ls) /\ ~ In p (map part_playerId ps)) /\
  snd (fst (removePlayer p e')) = e'.
Proof.
  intro e'. subst e'. rewrite !removePlayer_spec. cbn [fst snd].
  set (e' := set_cashedOutPlayers _ _).
  assert (Hget : map_get p (activePlayers e') = None)
    by apply map_get_delete_same.
  assert (Hnin : ~ In p (cashedOutPlayers e'))
    by (intro H; apply set_delete_In in H; tauto).
  assert (Hkeys : ~ In p (keys (activePlayers e'))).
  { intro H. apply keys_map_delete_In in H. tauto. }
  split; [reflexivity|]. split; [exact Hget|]. split; [exact Hnin|].
  split.
  { intros q Hq. split.
    - apply map_get_delete_other. exact Hq.
    - subst e'. cbn [cashedOutPlayers set_cashedOutPlayers].
      rewrite set_delete_In. tauto. }
  split; [reflexivity|]. split; [reflexivity|]. split.
  { intros m w b. rewrite cashOut_spec, Hget.
    destruct (negb (state_eqb (state e') FLYING)); discriminate. }
  split.
  { intros env trigger fm ls ps Hin.
    destruct (crashGame_spec env trigger e') as (Hev & _).
    rewrite Hev in Hin. split.
    - apply crash_events_settlement in Hin. injection Hin as _ -> _.
      intro H. apply Hkeys. apply (losers_among_keys _ _ _ H).
    - rewrite (crash_participants env e' fm ls ps Hin). exact Hkeys. }
  rewrite (map_delete_absent p (activePlayers e') Hget),
    (set_delete_absent p (cashedOutPlayers e') Hnin).
  destruct e'; reflexivity.
Qed.

(** ** Delays between the states *)

Lemma reachable_config e :
  reachable e -> config e = mkConfig 3000 7000 3000 100 1000 90000 20.
Proof.
  intro Hr. destruct (reachable_numbers_agree e Hr) as (Hs & _).
  unfold settings in Hs. congruence.
Qed.

Lemma waitTime_whole (x : R) :
  0 <= x < 1 ->
  exists k : Z,
    IZR (Zfloor (x * (7000 - 3000 + 1))) + 3000 = IZR k /\
    (3000 <= k <= 7000)%Z.
Proof.
  intro Hx. exists (Zfloor (x * (7000 - 3000 + 1)) + 3000)%Z.
  split; [rewrite plus_IZR; reflexivity|].
  pose proof (Zfloor_bound (x * (7000 - 3000 + 1))) as [Hlo Hhi].
  assert (H0 : (0 <= Zfloor (x * (7000 - 3000 + 1)))%Z)
    by (apply Zfloor_lub; simpl; nra).
  assert (H1 : (Zfloor (x * (7000 - 3000 + 1)) < 4001)%Z)
    by (apply lt_IZR; nra).
  lia.
Qed.

Lemma handle_delays env i e :
  config e = mkConfig 3000 7000 3000 100 1000 90000 20 ->
  0 <= random env < 1 ->
  Forall delay_announced (snd (handle env i e)).
Proof.
  intros Hc Hrand.
  assert (Hq : forall j, j <> timeout_fires ->
                 emits_only delay_announced (handle env j)).
  { intros j Hj. destruct j; try congruence;
      unfold handle, placeBet, cashOut, removePlayer, forceCrash, stop,
        crashGame, clearTimers, fire_interval, updateGame, shouldCrash,
        checkAutoCashOuts, checkAutoCashOuts_body, performAutoCashOut,
        buildMultiplierPayload, updateAverageMultiplier, addToHistory,
        finalizeBets;
      quiet. }
  destruct i; try (apply Hq; discriminate).
  rewrite handle_events, fire_timeout_spec.
  destruct (stateTimeout e) as [[| |]|]; cbn [run_callback];
    [| | |constructor].
  - rewrite startCountdown_spec. cbn [snd config set_stateTimeout].
    constructor; [|constructor]. split; [reflexivity|].
    rewrite Hc. simpl. lra.
  - rewrite startGame_spec. cbn [snd]. constructor; [exact I|constructor].
  - rewrite scheduleNextGame_spec. cbn [snd config set_stateTimeout].
    constructor; [|constructor]. split; [reflexivity|].
    rewrite Hc. cbn [waitTime_min waitTime_max].
    destruct (waitTime_whole (random env) Hrand) as (k & Hk & Hrange).
    exists k. rewrite Hk. split; [reflexivity | exact Hrange].
Qed.

(** X10. With [Math.random()] in [0, 1), the wait that [getRandomWaitTime]
    draws on a reachable engine is a whole number of milliseconds between
    3000 and 7000, and every state change a step announces carries such a
    wait in seconds (WAITING) or the countdown of 3 seconds (STARTING). *)
Theorem announced_delays_in_range (env : Env) (i : Input) (e : GameEngine) :
  reachable e ->
  0 <= random env < 1 ->
  (exists k : Z,
     fst (fst (getRandomWaitTime env e)) = IZR k /\ (3000 <= k <= 7000)%Z) /\
  Forall delay_announced (snd (handle env i e)).
Proof.
  intros Hr Hrand. pose proof (reachable_config e Hr) as Hc. split.
  - unfold getRandomWaitTime. cbv [bind get ret]. cbn [fst].
    rewrite Hc. cbn [waitTime_min waitTime_max].
    apply waitTime_whole. exact Hrand.
  - apply handle_delays; assumption.
Qed.

Lemma announced_delays_in_range_witness :
  let env := mkEnv 7000 0.5 in
  reachable flying_engine /\ 0 <= random env < 1 /\
  (exists k : Z,
     fst (fst (getRandomWaitTime env flying_engine)) = IZR k /\
     (3000 <= k <= 7000)%Z) /\
  Forall delay_announced (snd (handle env timeout_fires flying_engine)).
Proof.
  intro env.
  assert (H : 0 <= random env < 1) by (simpl; lra).
  split; [exact flying_engine_reachable|]. split; [exact H|].
  apply (announced_delays_in_range env timeout_fires flying_engine
           flying_engine_reachable H).
Defined.

(** ** The books *)

Lemma sum_of_app {A : Type} (f : A -> R) (l1 l2 : list A) :
  sum_of f (l1 ++ l2) = sum_of f l1 + sum_of f l2.
Proof.
  unfold sum_of. induction l1 as [|x l1 IH]; simpl; [lra|].
  rewrite IH. lra.
Qed.

Lemma auto_win_crash env e : sum_of auto_win (crash_events env e) = 0.
Proof.
  unfold crash_events, sum_of.
  destruct (startTime_truthy e); simpl; lra.
Qed.

Lemma auto_win_broadcast env e : sum_of auto_win (tick_broadcast env e) = 0.
Proof.
  unfold tick_broadcast, sum_of.
  destruct (tick_broadcasts env e); simpl; lra.
Qed.

Lemma crashGame_books env trigger e :
  let e' := snd (fst (crashGame env trigger e)) in
  totalGames (stats e') = S (totalGames (stats e)) /\
  totalBets (stats e') = totalBets (stats e) /\
  totalPayouts (stats e') = totalPayouts (stats e) /\
  gameId e' = gameId e /\
  averageMultiplier (stats e')
  = match history e with
    | [] => averageMultiplier (stats e)
    | _ :: _ =>
        fold_left Rplus (history e) 0 / INR (List.length (history e))
    end.
Proof.
  unfold crashGame.
  destruct e as [st m stt gid h ap cp gl sto cf gr sts lpb].
  cbv [bind get when modify ret emit clearTimers
    buildMultiplierPayload updateAverageMultiplier addToHistory
    finalizeBets startTime_truthy startTime_num]; simpl.
  destruct gl, sto; simpl;
    (destruct stt as [t|]; simpl; [destruct (JS.truthy_num t); simpl|]);
    destruct h; simpl; destruct (Nat.ltb _ _); simpl;
    repeat split; reflexivity.
Qed.

Lemma loop_books l : forall e,
  let r := forEach l checkAutoCashOuts_body e in
  totalGames (stats (snd (fst r))) = totalGames (stats e) /\
  totalBets (stats (snd (fst r))) = totalBets (stats e) /\
  totalPayouts (stats (snd (fst r)))
  = totalPayouts (stats e) + sum_of auto_win (snd r).
Proof.
  induction l as [|[q pd] l IH]; intros e r; subst r.
  - unfold sum_of. simpl. repeat split; lra.
  - rewrite loop_step. destruct (autoCashOut_due e q pd); [|apply IH].
    destruct (IH (auto_settled q pd e)) as (Hg & Hb & Hp).
    cbn [fst snd]. rewrite Hg, Hb, Hp.
    unfold sum_of. simpl. repeat split; lra.
Qed.

Lemma tick_engine_stats env e : stats (tick_engine env e) = stats e.
Proof. tick_field. Qed.

Lemma tick_engine_gameId env e : gameId (tick_engine env e) = gameId e.
Proof. tick_field. Qed.

Lemma handle_books env i e :
  let o := fst (fst (handle env i e)) in
  let e' := snd (fst (handle env i e)) in
  let evs := snd (handle env i e) in
  totalGames (stats e')
  = (totalGames (stats e) + List.length (final_multipliers evs))%nat /\
  totalBets (stats e') = totalBets (stats e) + staked (mkStep i o evs) /\
  totalPayouts (stats e')
  = totalPayouts (stats e) + paid_out (mkStep i o evs).
Proof.
  unfold paid_out, staked. cbn [step_input step_output step_events].
  destruct i; unfold handle;
    first [rewrite bind_ret_r | rewrite bind_ret_const]; cbn [fst snd].
  - rewrite placeBet_spec.
    destruct (negb (canPlaceBet e));
      [|destruct (JS.truthy _ && _)]; cbn [fst snd];
      unfold sum_of; simpl; repeat split; lia || lra.
  - rewrite cashOut_spec.
    destruct (negb (state_eqb (state e) FLYING));
      [|destruct (map_get playerId (activePlayers e));
        [destruct (set_has playerId (cashedOutPlayers e))|]];
      cbn [fst snd]; unfold sum_of; simpl; repeat split; lia || lra.
  - rewrite removePlayer_spec. unfold sum_of. simpl.
    repeat split; lia || lra.
  - rewrite forceCrash_spec.
    destruct (negb (state_eqb (state e) FLYING)); cbn [fst snd].
    + unfold sum_of. simpl. repeat split; lia || lra.
    + destruct (crashGame_books env (Some reason) e) as (Hg & Hb & Hp & _).
      destruct (crashGame_spec env (Some reason) e) as (Hev & _).
      rewrite Hg, Hb, Hp, Hev, final_multipliers_crash, auto_win_crash.
      simpl. repeat split; lia || lra.
  - rewrite stop_spec. unfold sum_of. simpl. repeat split; lia || lra.
  - rewrite fire_timeout_spec.
    destruct (stateTimeout e) as [[| |]|]; unfold sum_of; simpl;
      repeat split; lia || lra.
  - rewrite fire_interval_spec.
    destruct (gameLoopInterval e);
      [|unfold sum_of; simpl; repeat split; lia || lra].
    destruct (state_eqb (state e) FLYING) eqn:Hst.
    + apply state_eqb_spec in Hst. rewrite (updateGame_spec env e Hst).
      destruct (tick_crashes env e); cbn [fst snd].
      * destruct (crashGame_books env None (tick_engine env e))
          as (Hg & Hb & Hp & _).
        destruct (crashGame_spec env None (tick_engine env e)) as (Hev & _).
        rewrite Hg, Hb, Hp, Hev, tick_engine_stats, final_multipliers_app,
          final_multipliers_broadcast, final_multipliers_crash, sum_of_app,
          auto_win_broadcast, auto_win_crash.
        simpl. repeat split; lia || lra.
      * rewrite checkAutoCashOuts_unfold.
        destruct (loop_books (activePlayers (tick_engine env e))
                    (tick_engine env e)) as (Hg & Hb & Hp).
        rewrite Hg, Hb, Hp, tick_engine_stats, !final_multipliers_app,
          final_multipliers_broadcast, !sum_of_app, auto_win_broadcast.
        rewrite <- checkAutoCashOuts_unfold.
        rewrite (final_multipliers_quiet _ (checkAutoCashOuts_quiet _)).
        unfold sum_of at 3. simpl. repeat split; lia || lra.
    + rewrite updateGame_idle by (intro H; rewrite H in Hst; discriminate).
      unfold sum_of. simpl. repeat split; lia || lra.
Qed.

Lemma run_books ins : forall e,
  totalGames (stats (fst (run e ins)))
  = (totalGames (stats e) + rounds_settled (snd (run e ins)))%nat /\
  totalBets (stats (fst (run e ins)))
  = totalBets (stats e) + sum_of staked (snd (run e ins)) /\
  totalPayouts (stats (fst (run e ins)))
  = totalPayouts (stats e) + sum_of paid_out (snd (run e ins)).
Proof.
  induction ins as [|[env i] rest IH]; intro e.
  - unfold rounds_settled, sum_of. simpl. repeat split; lia || lra.
  - rewrite run_cons. cbn [fst snd].
    destruct (IH (snd (fst (handle env i e)))) as (Hg & Hb & Hp).
    destruct (handle_books env i e) as (Hg1 & Hb1 & Hp1).
    rewrite Hg, Hb, Hp, Hg1, Hb1, Hp1.
    unfold rounds_settled, run_events, sum_of.
    cbn [flat_map map fold_right step_events].
    fold (run_events (snd (run (snd (fst (handle env i e))) rest))).
    rewrite final_multipliers_app, length_app.
    repeat split; lia || lra.
Qed.

Lemma games_agree_step env i e :
  games_agree e -> games_agree (snd (fst (handle env i e))).
Proof.
  intros [Hle Hlt]. apply handle_engine_cases;
    try (split; [exact Hle | exact Hlt]).
  - intros env' trigger e0 Hst He0.
    destruct (crashGame_books env' trigger e0) as (Hg & _ & _ & Hid & _).
    destruct (crashGame_spec env' trigger e0) as (_ & Hs & _).
    unfold games_agree. rewrite Hg, Hid, Hs.
    assert (H : (totalGames (stats e0) < gameId e0)%nat).
    { destruct He0 as [->| ->];
        [|rewrite tick_engine_stats, tick_engine_gameId]; auto. }
    split; [lia | discriminate].
  - split; [exact Hle | discriminate].
  - intros cb _. destruct cb; unfold games_agree; simpl;
      (split; [lia | try discriminate; intros _; lia]).
  - intros Hst _ _. unfold games_agree.
    rewrite (checkAutoCashOuts_keeps gameId),
      (checkAutoCashOuts_keeps state) by auto.
    rewrite checkAutoCashOuts_unfold.
    destruct (loop_books (activePlayers (tick_engine env e))
                (tick_engine env e)) as (Hg & _).
    rewrite Hg, tick_engine_stats, tick_engine_gameId. auto.
Qed.

Lemma reachable_games_agree e : reachable e -> games_agree e.
Proof.
  apply reachable_ind.
  - intro env. split; [simpl; lia | discriminate].
  - intros env i e0 _ H. apply games_agree_step. exact H.
Qed.

(** X11. The counter [totalGames] of an engine run from its start is the
    number of [round_settled] events emitted so far; the round counter
    [gameId] is never behind it and is strictly ahead while a round is in
    flight. *)
Theorem rounds_are_counted (env0 : Env) (ins : list (Env * Input)) :
  let r := run (started_engine env0) ins in
  totalGames (stats (fst r)) = rounds_settled (snd r) /\
  (rounds_settled (snd r) <= gameId (fst r))%nat /\
  (state (fst r) = FLYING -> (rounds_settled (snd r) < gameId (fst r))%nat).
Proof.
  intro r. subst r.
  destruct (run_books ins (started_engine env0)) as (Hg & _).
  assert (Hr : reachable (fst (run (started_engine env0) ins)))
    by (exists env0, ins; reflexivity).
  destruct (reachable_games_agree _ Hr) as [Hle Hlt].
  simpl in Hg. rewrite <- Hg. auto.
Qed.

(** X12. The money totals of an engine run from its start add up: the
    counter [totalBets] is the sum of the amounts of the accepted [placeBet]
    calls (a replaced or removed wager stays counted), and [totalPayouts] is
    the sum of the wins returned by successful [cashOut] calls and announced
    by [player_auto_cashed_out]. *)
Theorem money_totals_add_up (env0 : Env) (ins : list (Env * Input)) :
  let r := run (started_engine env0) ins in
  totalBets (stats (fst r)) = sum_of staked (snd r) /\
  totalPayouts (stats (fst r)) = sum_of paid_out (snd r).
Proof.
  intro r. subst r.
  destruct (run_books ins (started_engine env0)) as (_ & Hb & Hp).
  simpl in Hb, Hp. rewrite Hb, Hp. split; lra.
Qed.

(** ** The average multiplier *)

Lemma fold_left_Rplus_range (l : list R) : forall acc,
  Forall (fun h => 1 <= h <= 250) l ->
  acc + INR (List.length l) <= fold_left Rplus l acc
  <= acc + 250 * INR (List.length l).
Proof.
  induction l as [|x l IH]; intros acc Hl.
  - simpl. lra.
  - inversion Hl as [|y l' Hx Hl']; subst.
    specialize (IH (acc + x) Hl').
    change (fold_left Rplus (x :: l) acc) with (fold_left Rplus l (acc + x)).
    change (List.length (x :: l)) with (S (List.length l)).
    rewrite S_INR. lra.
Qed.

Lemma mean_range (l : list R) :
  l <> [] -> Forall (fun h => 1 <= h <= 250) l -> 1 <= mean l <= 250.
Proof.
  intros Hne Hl. unfold mean.
  pose proof (fold_left_Rplus_range l 0 Hl) as [Hlo Hhi].
  assert (Hn : 0 < INR (List.length l)).
  { destruct l; [congruence|]. apply lt_0_INR. simpl. lia. }
  split.
  - apply Rmult_le_reg_r with (INR (List.length l)); [exact Hn|].
    unfold Rdiv. rewrite Rmult_assoc, Rinv_l by lra. lra.
  - apply Rmult_le_reg_r with (INR (List.length l)); [exact Hn|].
    unfold Rdiv. rewrite Rmult_assoc, Rinv_l by lra. lra.
Qed.

Lemma crashGame_average env trigger e :
  averageMultiplier (stats (snd (fst (crashGame env trigger e))))
  = match history e with
    | [] => averageMultiplier (stats e)
    | _ :: _ => mean (history e)
    end.
Proof. apply (crashGame_books env trigger e). Qed.

Lemma loop_average l : forall e,
  averageMultiplier (stats (snd (fst (forEach l checkAutoCashOuts_body e))))
  = averageMultiplier (stats e).
Proof.
  induction l as [|[q pd] l IH]; intro e; [reflexivity|].
  rewrite loop_step. destruct (autoCashOut_due e q pd); [|apply IH].
  cbn [fst snd]. rewrite IH. reflexivity.
Qed.

Lemma average_agree_step env i e :
  numbers_agree e -> average_agree e ->
  average_agree (snd (fst (handle env i e))).
Proof.
  intros (_ & _ & Hh & _) He. apply handle_engine_cases;
    try exact He; try (intros; exact He).
  - intros env' trigger e0 _ He0. unfold average_agree.
    rewrite crashGame_average.
    assert (Hh0 : history e0 = history e)
      by (destruct He0 as [->| ->]; [|rewrite tick_engine_history]; auto).
    assert (Hs0 : stats e0 = stats e)
      by (destruct He0 as [->| ->]; [|rewrite tick_engine_stats]; auto).
    rewrite Hh0, Hs0. destruct (history e) as [|x l] eqn:Hl; [exact He|].
    right. apply mean_range; [discriminate | exact Hh].
  - intros cb _. destruct cb; exact He.
  - intros _ _ _. unfold average_agree.
    rewrite checkAutoCashOuts_unfold, loop_average, tick_engine_stats.
    exact He.
Qed.

Lemma reachable_average_agree e : reachable e -> average_agree e.
Proof.
  intro Hr. pattern e. revert e Hr. apply reachable_ind.
  - intro env. left. reflexivity.
  - intros env i e Hr H. apply average_agree_step; [|exact H].
    apply reachable_numbers_agree. exact Hr.
Qed.

(** X13. The average on display lags one round behind: when a step ends a
    round, [averageMultiplier] becomes the mean of the history as it was
    before the round's own entry is pushed, and stays as it was when that
    history is empty; on every reachable engine it is either the initial 0
    or lies between 1 and 250. *)
Theorem average_lags_one_round (env : Env) (i : Input) (e : GameEngine) :
  reachable e ->
  state e = FLYING ->
  let e' := snd (fst (handle env i e)) in
  (state e' = CRASHED ->
   averageMultiplier (stats e')
   = match history e with
     | [] => averageMultiplier (stats e)
     | _ :: _ => mean (history e)
     end) /\
  (averageMultiplier (stats e') = 0
   \/ 1 <= averageMultiplier (stats e') <= 250).
Proof.
  intros Hr Hst e'. split.
  - subst e'. apply handle_engine_cases;
      try (intro H; rewrite Hst in H; discriminate);
      try (intros; simpl in *; congruence).
    + intros env' trigger e0 _ He0 _. rewrite crashGame_average.
      destruct He0 as [->| ->];
        [|rewrite tick_engine_history, tick_engine_stats]; reflexivity.
    + intros cb Hcb.
      destruct (reachable_timers_agree e Hr) as [_ Ht].
      rewrite Hst in Ht. congruence.
    + intros _ _ _.
      rewrite (checkAutoCashOuts_keeps state), tick_engine_state by auto.
      intro H. rewrite Hst in H. discriminate.
  - apply (reachable_average_agree e').
    apply reachable_step. exact Hr.
Qed.

Lemma average_lags_one_round_witness :
  let env := mkEnv 8000 0 in
  let i := call_forceCrash "admin_override" in
  let e' := snd (fst (handle env i flying_engine)) in
  reachable flying_engine /\ state flying_engine = FLYING /\
  (state e' = CRASHED ->
   averageMultiplier (stats e')
   = match history flying_engine with
     | [] => averageMultiplier (stats flying_engine)
     | _ :: _ => mean (history flying_engine)
     end) /\
  (averageMultiplier (stats e') = 0
   \/ 1 <= averageMultiplier (stats e') <= 250).
Proof.
  intros env i e'.
  split; [exact flying_engine_reachable|].
  split; [exact flying_engine_state|].
  apply (average_lags_one_round env i flying_engine
           flying_engine_reachable flying_engine_state).
Defined.

(** ** Prediction snapshots *)

Lemma updates_app l1 l2 : updates (l1 ++ l2) = (updates l1 + updates l2)%nat.
Proof. unfold updates. rewrite filter_app, length_app. reflexivity. Qed.

Lemma updates_none evs : Forall no_update evs -> updates evs = 0%nat.
Proof.
  induction 1 as [|ev evs Hev _ IH]; [reflexivity|].
  unfold updates in *. simpl.
  destruct ev; simpl in *; try exact IH. contradiction.
Qed.

Lemma checkAutoCashOuts_no_update : emits_only no_update checkAutoCashOuts.
Proof.
  unfold checkAutoCashOuts, checkAutoCashOuts_body, performAutoCashOut.
  quiet.
Qed.

Lemma updates_broadcast env e :
  updates (tick_broadcast env e)
  = if tick_broadcasts env e then 1%nat else 0%nat.
Proof.
  unfold tick_broadcast. destruct (tick_broadcasts env e); reflexivity.
Qed.

Lemma updates_crash env e :
  updates (crash_events env e)
  = if startTime_truthy e then 1%nat else 0%nat.
Proof.
  unfold crash_events. destruct (startTime_truthy e); reflexivity.
Qed.

Lemma tick_engine_startTime env e :
  startTime (tick_engine env e) = startTime e.
Proof. tick_field. Qed.

Lemma tick_engine_lastPredictionBroadcast env e :
  tick_broadcasts env e = true ->
  _lastPredictionBroadcast (tick_engine env e) = now env.
Proof. intro H. unfold tick_engine. rewrite H. reflexivity. Qed.

(** What a tick of a flying engine emits in [multiplier_update] events. *)
Lemma reachable_tick_updates env e :
  reachable e -> state e = FLYING ->
  updates (snd (handle env interval_fires e))
  = ((if tick_broadcasts env e then 1 else 0)
     + (if state_eqb (state (snd (fst (handle env interval_fires e))))
             CRASHED
           && startTime_truthy e
        then 1 else 0))%nat.
Proof.
  intros Hr Hst. rewrite (reachable_flying_tick env e Hr Hst).
  destruct (tick_crashes env e); cbn [fst snd].
  - destruct (crashGame_spec env None (tick_engine env e)) as (_ & Hs & _).
    rewrite Hs, updates_app, updates_broadcast, updates_crash.
    unfold startTime_truthy. rewrite tick_engine_startTime. reflexivity.
  - rewrite (checkAutoCashOuts_keeps state), tick_engine_state, Hst by auto.
    rewrite !updates_app, updates_broadcast,
      (updates_none _ (checkAutoCashOuts_no_update _)).
    reflexivity.
Qed.

(** X14. Prediction snapshots are throttled: when a tick of a flying engine
    sent a [multiplier_update] at a non-zero clock reading and the round
    went on, the next tick sends the throttled snapshot exactly when at
    least 1000 milliseconds have passed since; on top of that a tick that
    ends the round always sends the final snapshot (for a flight whose
    start time is not 0). *)
Theorem prediction_updates_throttled (env1 env2 : Env) (e : GameEngine) :
  reachable e ->
  state e = FLYING ->
  let r1 := handle env1 interval_fires e in
  let r2 := handle env2 interval_fires (snd (fst r1)) in
  state (snd (fst r1)) = FLYING ->
  now env1 <> 0 ->
  updates (snd r1) = 1%nat ->
  _lastPredictionBroadcast (snd (fst r1)) = now env1 /\
  updates (snd r2)
  = ((if Rle_dec 1000 (now env2 - now env1) then 1 else 0)
     + (if state_eqb (state (snd (fst r2))) CRASHED && startTime_truthy e
        then 1 else 0))%nat.
Proof.
  intros Hr Hst r1 r2 Hst1 Hnow Hup. subst r2 r1.
  assert (Hr1 : reachable (snd (fst (handle env1 interval_fires e))))
    by (apply reachable_step; exact Hr).
  rewrite (reachable_tick_updates env1 e Hr Hst), Hst1 in Hup.
  cbn [state_eqb andb] in Hup.
  assert (Hb : tick_broadcasts env1 e = true)
    by (destruct (tick_broadcasts env1 e); [reflexivity | discriminate]).
  assert (He1 : snd (fst (handle env1 interval_fires e))
                = snd (fst (checkAutoCashOuts (tick_engine env1 e)))).
  { revert Hst1. rewrite (reachable_flying_tick env1 e Hr Hst).
    destruct (tick_crashes env1 e); cbn [fst snd]; [|reflexivity].
    destruct (crashGame_spec env1 None (tick_engine env1 e))
      as (_ & Hs & _).
    rewrite Hs. discriminate. }
  assert (Hlast : _lastPredictionBroadcast
                    (snd (fst (handle env1 interval_fires e))) = now env1).
  { rewrite He1, (checkAutoCashOuts_keeps _lastPredictionBroadcast) by auto.
    apply tick_engine_lastPredictionBroadcast. exact Hb. }
  assert (Hstart : startTime_truthy
                     (snd (fst (handle env1 interval_fires e)))
                   = startTime_truthy e).
  { unfold startTime_truthy.
    rewrite He1, (checkAutoCashOuts_keeps startTime),
      tick_engine_startTime by auto.
    reflexivity. }
  split; [exact Hlast|].
  rewrite (reachable_tick_updates env2 _ Hr1 Hst1), Hstart.
  f_equal. unfold tick_broadcasts.
  rewrite Hlast, (reachable_config _ Hr1). cbn [predictionInterval].
  unfold JS.truthy_num.
  destruct (Req_dec_T (now env1) 0) as [H0|_]; [contradiction|].
  cbn [negb orb]. destruct (Rle_dec 1000 (now env2 - now env1)); reflexivity.
Qed.

Lemma prediction_updates_throttled_witness :
  let env1 := mkEnv 7000 0.99 in
  let env2 := mkEnv 7100 0.99 in
  let r1 := handle env1 interval_fires flying_engine in
  let r2 := handle env2 interval_fires (snd (fst r1)) in
  reachable flying_engine /\ state flying_engine = FLYING /\
  state (snd (fst r1)) = FLYING /\ now env1 <> 0 /\
  updates (snd r1) = 1%nat /\
  _lastPredictionBroadcast (snd (fst r1)) = now env1 /\
  updates (snd r2)
  = ((if Rle_dec 1000 (now env2 - now env1) then 1 else 0)
     + (if state_eqb (state (snd (fst r2))) CRASHED
           && startTime_truthy flying_engine
        then 1 else 0))%nat.
Proof.
  intros env1 env2 r1 r2.
  assert (Hc : tick_crashes env1 flying_engine = false).
  { destruct (tick_crashes env1 flying_engine) eqn:Hc; [|reflexivity].
    apply (reachable_tick_crashes env1 flying_engine
             flying_engine_reachable) in Hc.
    exfalso. destruct Hc as [Hc|Hc].
    - pose proof (crashChance_cap
                    (if startTime_truthy flying_engine
                     then tick_elapsed env1 flying_engine else 0)
                    (calculateMultiplier flying_engine
                       (tick_elapsed env1 flying_engine))) as Hcap.
      change (random env1) with 0.99 in Hc. lra.
    - unfold tick_elapsed in Hc.
      change (startTime_num flying_engine) with 6000 in Hc.
      change (now env1) with 7000 in Hc. lra. }
  assert (H1 : state (snd (fst r1)) = FLYING).
  { unfold r1.
    rewrite (reachable_flying_tick env1 flying_engine
               flying_engine_reachable flying_engine_state), Hc.
    cbn [fst snd].
    rewrite (checkAutoCashOuts_keeps state), tick_engine_state by auto.
    exact flying_engine_state. }
  assert (H2 : now env1 <> 0) by (simpl; lra).
  assert (H3 : updates (snd r1) = 1%nat).
  { unfold r1.
    rewrite (reachable_tick_updates env1 flying_engine
               flying_engine_reachable flying_engine_state).
    fold r1. rewrite H1. cbn [state_eqb andb].
    unfold tick_broadcasts. simpl.
    unfold JS.truthy_num. destruct (Req_dec_T 0 0); [reflexivity|].
    exfalso. lra. }
  split; [exact flying_engine_reachable|].
  split; [exact flying_engine_state|].
  split; [exact H1|]. split; [exact H2|]. split; [exact H3|].
  apply (prediction_updates_throttled env1 env2 flying_engine
           flying_engine_reachable flying_engine_state H1 H2 H3).
Defined.

(** ** Snapshots *)

Lemma toFixed_4_near x : 1 <= x <= 250 -> Rabs (JS.toFixed 4 x - x) <= 0.00005.
Proof.
  intros [Hlo Hhi]. unfold JS.toFixed.
  assert (Habs : Rabs x = x) by (apply Rabs_right; lra).
  destruct (Rle_dec (10 ^ 21) (Rabs x)) as [H|_]; [rewrite Habs in H; lra|].
  destruct (Rlt_dec x 0) as [H|_]; [lra|].
  unfold JS.roundHalfUp.
  pose proof (Zfloor_bound (x * 10 ^ 4 + / 2)) as [Hb1 Hb2].
  apply Rabs_le. split; lra.
Qed.

Lemma toFixed_2_near x : 1 <= x <= 250 -> Rabs (JS.toFixed 2 x - x) <= 0.005.
Proof.
  intros [Hlo Hhi]. unfold JS.toFixed.
  assert (Habs : Rabs x = x) by (apply Rabs_right; lra).
  destruct (Rle_dec (10 ^ 21) (Rabs x)) as [H|_]; [rewrite Habs in H; lra|].
  destruct (Rlt_dec x 0) as [H|_]; [lra|].
  unfold JS.roundHalfUp.
  pose proof (Zfloor_bound (x * 10 ^ 2 + / 2)) as [Hb1 Hb2].
  apply Rabs_le. split; lra.
Qed.

Lemma snapshot_agrees_intro start now_ m st el g :
  g = 0.2 -> el = (now_ - start) / 1000 ->
  m = clamp (exp (0.2 * el)) 1 250 ->
  snapshot_agrees start now_ m
    (mkMultiplierPayload st (JS.toFixed 4 m) (JS.toFixed 2 m) el now_ g).
Proof.
  intros -> Hel Hm.
  assert (Hrange : 1 <= m <= 250)
    by (rewrite Hm; apply clamp_bounds; lra).
  unfold snapshot_agrees.
  cbn [p_timestamp p_time p_growthRate p_multiplier p_displayMultiplier].
  split; [reflexivity|]. split; [exact Hel|]. split; [reflexivity|].
  split; [exact Hm|]. split; [reflexivity|]. split; [reflexivity|].
  split; [apply toFixed_4_near | apply toFixed_2_near]; exact Hrange.
Qed.

Lemma calculateMultiplier_clamp e t :
  growth e = mkGrowth 0.2 1 250 ->
  calculateMultiplier e t = clamp (exp (0.2 * t)) 1 250.
Proof.
  intro Hg. unfold calculateMultiplier. rewrite Hg. simpl.
  apply Rmin_Rmax_clamp. lra.
Qed.

Lemma tick_engine_startTime_num env e :
  startTime_num (tick_engine env e) = startTime_num e.
Proof. unfold startTime_num. rewrite tick_engine_startTime. reflexivity. Qed.

Lemma checkAutoCashOuts_no_snapshot : emits_only no_snapshot checkAutoCashOuts.
Proof.
  unfold checkAutoCashOuts, checkAutoCashOuts_body, performAutoCashOut.
  quiet.
Qed.

Lemma no_snapshot_agree start now_ m evs :
  Forall no_snapshot evs -> Forall (snapshots_agree start now_ m) evs.
Proof.
  apply Forall_impl. intros ev H.
  destruct ev as [[| | |]| | |]; simpl in *; tauto.
Qed.

Lemma tick_events_agree (env : Env) (e : GameEngine) :
  reachable e ->
  state e = FLYING ->
  Forall
    (snapshots_agree (startTime_num e) (now env)
       (multiplier (snd (fst (handle env interval_fires e)))))
    (snd (handle env interval_fires e)).
Proof.
  intros Hr Hst.
  pose proof (reachable_growth e Hr) as Hg.
  destruct (reachable_tick_result env e Hr Hst) as (Hm & _ & _).
  rewrite Hm. clear Hm.
  rewrite (reachable_flying_tick env e Hr Hst).
  assert (Hrate : rate (growth e) = 0.2) by (rewrite Hg; reflexivity).
  assert (Hbc : Forall
            (snapshots_agree (startTime_num e) (now env)
               (calculateMultiplier e (tick_elapsed env e)))
            (tick_broadcast env e)).
  { unfold tick_broadcast.
    destruct (tick_broadcasts env e); [|constructor].
    constructor; [|constructor]. unfold snapshot_of.
    rewrite tick_engine_multiplier, tick_engine_growth.
    apply snapshot_agrees_intro;
      [exact Hrate | reflexivity | apply calculateMultiplier_clamp; exact Hg]. }
  destruct (tick_crashes env e); cbn [fst snd].
  - apply Forall_app. split; [exact Hbc|].
    unfold crash_events. apply Forall_app. split.
    + destruct (startTime_truthy (tick_engine env e)); [|constructor].
      constructor; [|constructor].
      rewrite tick_engine_multiplier, tick_engine_growth,
        tick_engine_startTime_num.
      apply snapshot_agrees_intro;
        [exact Hrate | reflexivity
        | apply calculateMultiplier_clamp; exact Hg].
    + repeat constructor.
  - apply Forall_app. split; [exact Hbc|].
    apply Forall_app. split.
    + apply no_snapshot_agree. apply checkAutoCashOuts_no_snapshot.
    + constructor; [|constructor]. unfold snapshot_of.
      rewrite (checkAutoCashOuts_keeps multiplier),
        (checkAutoCashOuts_keeps growth) by auto.
      rewrite tick_engine_multiplier, tick_engine_growth.
      apply snapshot_agrees_intro;
        [exact Hrate | reflexivity
        | apply calculateMultiplier_clamp; exact Hg].
Qed.

Lemma updateGame_readings_same env e :
  updateGame_readings env env env e = updateGame env e.
Proof. reflexivity. Qed.

Lemma updateGame_readings_spec env env_chance env_crash e :
  state e = FLYING ->
  updateGame_readings env env_chance env_crash e =
  if tick_crashes_readings env env_chance e
  then (tt, snd (fst (crashGame env_crash None (tick_engine env e))),
        tick_broadcast env e
        ++ snd (crashGame env_crash None (tick_engine env e)))
  else (tt, snd (fst (checkAutoCashOuts (tick_engine env e))),
        tick_broadcast env e
        ++ snd (checkAutoCashOuts (tick_engine env e))
        ++ [game_state_changed
              (snapshot_payload
                 (snapshot_of env (tick_elapsed env e)
                    (snd (fst (checkAutoCashOuts (tick_engine env e))))))]).
Proof.
  intro Hst.
  destruct e as [st m stt gid h ap cp gl sto cf gr sts lpb].
  simpl in Hst. subst st.
  unfold updateGame_readings, tick_crashes_readings, tick_broadcast,
    tick_engine, tick_broadcasts, snapshot_of, tick_elapsed.
  cbv [bind get modify ret when emit shouldCrash buildMultiplierPayload
       startTime_truthy startTime_num calculateMultiplier].
  simpl.
  destruct (negb (JS.truthy_num lpb) || _); simpl;
    destruct (Rlt_dec (random env_chance) _); simpl;
    try destruct (Rle_dec (maxGameTime cf / 1000) _); simpl;
    match goal with
    | |- context [crashGame ?a ?b ?c] =>
        destruct (crashGame a b c) as [[u e1] l1]
    | |- context [checkAutoCashOuts ?c] =>
        destruct (checkAutoCashOuts c) as [[u e1] l1]
    end; destruct u; simpl; rewrite ?app_nil_r, <- ?app_assoc; reflexivity.
Qed.

Lemma reading_agrees_flight start now_tick now_crash m st el g :
  st <> CRASHED ->
  g = 0.2 -> el = (now_tick - start) / 1000 ->
  m = clamp (exp (0.2 * el)) 1 250 ->
  reading_agrees start now_tick now_crash m
    (multiplier_update
       (mkMultiplierPayload st (JS.toFixed 4 m) (JS.toFixed 2 m) el now_tick
          g)) /\
  reading_agrees start now_tick now_crash m
    (game_state_changed
       (snapshot_payload
          (mkMultiplierPayload st (JS.toFixed 4 m) (JS.toFixed 2 m) el
             now_tick g))).
Proof.
  intros Hst -> Hel Hm.
  assert (Hrange : 1 <= m <= 250)
    by (rewrite Hm; apply clamp_bounds; lra).
  unfold reading_agrees.
  cbn [p_timestamp p_time p_growthRate p_multiplier p_displayMultiplier
       p_state].
  assert (Hstamp : match st with
                   | CRASHED =>
                       now_tick = now_crash /\
                       m <= clamp (exp (0.2 * el)) 1 250
                   | _ =>
                       now_tick = now_tick /\
                       m = clamp (exp (0.2 * el)) 1 250
                   end)
    by (destruct st; try congruence; split; solve [reflexivity | exact Hm]).
  split.
  - split; [reflexivity|]. split; [reflexivity|]. split; [reflexivity|].
    split; [apply toFixed_4_near; exact Hrange|].
    split; [apply toFixed_2_near; exact Hrange|].
    split; [exact Hel | exact Hstamp].
  - split; [reflexivity|]. split; [reflexivity|]. split; [reflexivity|].
    split; [apply toFixed_4_near; exact Hrange|].
    split; [apply toFixed_2_near; exact Hrange|].
    split; [exact Hel | exact Hstamp].
Qed.

Lemma reading_agrees_crash start now_tick now_crash m el_tick g :
  g = 0.2 -> now_tick <= now_crash ->
  el_tick = (now_tick - start) / 1000 ->
  m = clamp (exp (0.2 * el_tick)) 1 250 ->
  reading_agrees start now_tick now_crash m
    (multiplier_update
       (mkMultiplierPayload CRASHED (JS.toFixed 4 m) (JS.toFixed 2 m)
          ((now_crash - start) / 1000) now_crash g)).
Proof.
  intros -> Hnow Hel Hm.
  assert (Hrange : 1 <= m <= 250)
    by (rewrite Hm; apply clamp_bounds; lra).
  unfold reading_agrees.
  cbn [p_timestamp p_time p_growthRate p_multiplier p_displayMultiplier
       p_state].
  split; [reflexivity|]. split; [reflexivity|]. split; [reflexivity|].
  split; [apply toFixed_4_near; exact Hrange|].
  split; [apply toFixed_2_near; exact Hrange|].
  split; [reflexivity|]. split; [reflexivity|].
  rewrite Hm. apply clamp_monotone; [lra|]. apply exp_monotone.
  rewrite Hel. lra.
Qed.

Lemma no_snapshot_reading start now_tick now_crash m evs :
  Forall no_snapshot evs ->
  Forall (reading_agrees start now_tick now_crash m) evs.
Proof.
  apply Forall_impl. intros ev H.
  destruct ev as [[| | |]| | |]; simpl in *; tauto.
Qed.

(** X15. Every snapshot a tick of a flying engine sends describes the
    flight consistently, each clock reading of the tick taken on its own:
    the engine's multiplier after the tick is the clamped exponential of
    0.2 times the flight time at the reading at the top of the tick; every
    snapshot carries the growth rate 0.2, that multiplier rounded to four
    and to two decimals (at most 0.00005 and 0.005 away from it), and as
    time the flight time at its own timestamp.  A snapshot sent in flight is
    stamped with the reading at the top of the tick, so its multiplier is
    the growth formula at its time; the final snapshot of a crash is stamped
    with the later reading of [crashGame], so its multiplier is at most the
    growth formula at its time. *)
Theorem tick_snapshots_consistent
    (env env_chance env_crash : Env) (e : GameEngine) :
  reachable e ->
  state e = FLYING ->
  now env <= now env_crash ->
  let r := updateGame_readings env env_chance env_crash e in
  multiplier (snd (fst r))
  = clamp (exp (0.2 * ((now env - startTime_num e) / 1000))) 1 250 /\
  Forall
    (reading_agrees (startTime_num e) (now env) (now env_crash)
       (multiplier (snd (fst r))))
    (snd r).
Proof.
  intros Hr Hst Hnow r. subst r.
  pose proof (reachable_growth e Hr) as Hg.
  assert (Hrate : rate (growth e) = 0.2) by (rewrite Hg; reflexivity).
  assert (Hm : calculateMultiplier e (tick_elapsed env e)
               = clamp (exp (0.2 * ((now env - startTime_num e) / 1000)))
                   1 250)
    by (apply calculateMultiplier_clamp; exact Hg).
  rewrite (updateGame_readings_spec env env_chance env_crash e Hst).
  assert (Hbc : Forall
            (reading_agrees (startTime_num e) (now env) (now env_crash)
               (calculateMultiplier e (tick_elapsed env e)))
            (tick_broadcast env e)).
  { unfold tick_broadcast.
    destruct (tick_broadcasts env e); [|constructor].
    constructor; [|constructor]. unfold snapshot_of.
    rewrite tick_engine_multiplier, tick_engine_growth, tick_engine_state,
      Hst.
    apply reading_agrees_flight;
      [discriminate | exact Hrate | reflexivity | exact Hm]. }
  destruct (tick_crashes_readings env env_chance e); cbn [fst snd].
  - destruct (crashGame_spec env_crash None (tick_engine env e))
      as (Hev & _ & Hmult & _).
    rewrite Hmult, Hev, tick_engine_multiplier.
    split; [exact Hm|].
    apply Forall_app. split; [exact Hbc|].
    unfold crash_events. apply Forall_app. split.
    + destruct (startTime_truthy (tick_engine env e)); [|constructor].
      constructor; [|constructor].
      rewrite tick_engine_multiplier, tick_engine_growth,
        tick_engine_startTime_num.
      apply (reading_agrees_crash _ _ _ _ (tick_elapsed env e));
        [exact Hrate | exact Hnow | reflexivity | exact Hm].
    + repeat constructor.
  - rewrite (checkAutoCashOuts_keeps multiplier), tick_engine_multiplier
      by auto.
    split; [exact Hm|].
    apply Forall_app. split; [exact Hbc|].
    apply Forall_app. split.
    + apply no_snapshot_reading. apply checkAutoCashOuts_no_snapshot.
    + constructor; [|constructor]. unfold snapshot_of.
      rewrite (checkAutoCashOuts_keeps multiplier),
        (checkAutoCashOuts_keeps growth),
        (checkAutoCashOuts_keeps state) by auto.
      rewrite tick_engine_multiplier, tick_engine_growth, tick_engine_state,
        Hst.
      apply reading_agrees_flight;
        [discriminate | exact Hrate | reflexivity | exact Hm].
Qed.

Lemma tick_snapshots_consistent_witness :
  let env := mkEnv 7000 0 in
  let env_chance := mkEnv 7001 0 in
  let env_crash := mkEnv 7002 0 in
  let r := updateGame_readings env env_chance env_crash flying_engine in
  reachable flying_engine /\ state flying_engine = FLYING /\
  now env <= now env_crash /\
  multiplier (snd (fst r))
  = clamp (exp (0.2 * ((now env - startTime_num flying_engine) / 1000)))
      1 250 /\
  Forall
    (reading_agrees (startTime_num flying_engine) (now env) (now env_crash)
       (multiplier (snd (fst r))))
    (snd r).
Proof.
  intros env env_chance env_crash r.
  assert (H : now env <= now env_crash) by (simpl; lra).
  split; [exact flying_engine_reachable|].
  split; [exact flying_engine_state|]. split; [exact H|].
  apply (tick_snapshots_consistent env env_chance env_crash flying_engine
           flying_engine_reachable flying_engine_state H).
Defined.

(** * The client's prediction *)

Lemma handlePredictionSnapshot_cases now_ data g :
  Client.handlePredictionSnapshot now_ data g = g \/
  exists d raw rate_ t,
    data = Some d /\
    Client.gameState g = FLYING /\
    Client.data_multiplier d = JS.Number raw /\
    0 < rate_ /\
    (Client.data_growthRate d = JS.Number rate_ \/
     (forall r, Client.data_growthRate d = JS.Number r -> ~ 0 < r)) /\
    t = match Client.finite_number (Client.data_time d) with
        | Some t => t
        | None => ln (Rmax 1 raw) / rate_
        end /\
    Client.handlePredictionSnapshot now_ data g =
    Client.mkGame FLYING
      (Some (Client.mkPredictionSnapshot (Rmax 1 raw) (Rmax 0 t)
               match Client.finite_number (Client.data_timestamp d) with
               | Some ts => ts
               | None => now_
               end
               rate_
               match Client.finite_number (Client.data_displayMultiplier d)
               with
               | Some x => x
               | None => JS.toFixed 2 (Rmax 1 raw)
               end))
      (Some match Client.finite_number (Client.data_displayMultiplier d) with
            | Some x => x
            | None => JS.toFixed 2 (Rmax 1 raw)
            end)
      (Client.multiplierCap g) (Client.defaultGrowthRate g).
Proof.
  unfold Client.handlePredictionSnapshot.
  destruct data as [d|]; [|left; reflexivity].
  destruct (state_eqb (Client.gameState g) FLYING) eqn:Hst;
    cbn [negb]; [|left; reflexivity].
  apply state_eqb_spec in Hst.
  destruct (Client.finite_number (Client.data_multiplier d)) as [raw|] eqn:Hraw;
    [|left; reflexivity].
  assert (Hd : Client.data_multiplier d = JS.Number raw).
  { destruct (Client.data_multiplier d); try discriminate.
    simpl in Hraw. congruence. }
  match goal with
  | |- context [JS.truthy_num ?r] =>
      match r with
      | match Client.data_growthRate d with _ => _ end => set (rate_ := r)
      end
  end.
  destruct (Rle_dec rate_ 0) as [Hle|Hgt];
    [rewrite orb_true_r; left; reflexivity|].
  rewrite orb_false_r.
  destruct (JS.truthy_num rate_); cbn [negb]; [|left; reflexivity].
  right. exists d, raw, rate_. eexists.
  split; [reflexivity|]. split; [exact Hst|]. split; [exact Hd|].
  split; [lra|]. split.
  { subst rate_. destruct (Client.data_growthRate d) as [| | | |r];
      try (right; intros r0 H; discriminate).
    destruct (Rlt_dec 0 r) as [Hr|Hr]; [left; reflexivity|].
    right. intros r0 H. injection H as <-. exact Hr. }
  split; [reflexivity|]. rewrite Hst. reflexivity.
Qed.

Lemma handlePredictionSnapshot_sane now_ data g :
  Client.sane g -> Client.sane (Client.handlePredictionSnapshot now_ data g).
Proof.
  intro Hg.
  destruct (handlePredictionSnapshot_cases now_ data g)
    as [->|(d & raw & rate_ & t & _ & _ & _ & Hrate & _ & _ & ->)];
    [exact Hg|].
  intros s Hs. simpl in Hs. injection Hs as <-. simpl.
  split; [exact Hrate|]. split; [apply Rmax_l | apply Rmax_l].
Qed.

(** X16. The client's prediction agrees with the engine: when the client,
    in flight, is handed a [multiplier_update] exactly as a tick of the
    engine built it, then at every later clock reading its predicted
    multiplier and flight time are those the engine itself computes for
    that reading (clocks in step, cap 250 on both sides, and the tick not
    before take-off). *)
Theorem client_prediction_matches_engine
    (env : Env) (e : GameEngine) (p : MultiplierPayload)
    (received later : R) (g : Client.Game) :
  reachable e ->
  state e = FLYING ->
  startTime_num e <= now env ->
  In (multiplier_update p) (snd (handle env interval_fires e)) ->
  Client.gameState g = FLYING ->
  Client.multiplierCap g = 250 ->
  now env <= later ->
  Client.getPredictedMultiplier later
    (Client.handlePredictionSnapshot received (Some (wire p)) g)
  = Some (Client.mkPrediction
            (calculateMultiplier e ((later - startTime_num e) / 1000))
            ((later - startTime_num e) / 1000)).
Proof.
  intros Hr Hst Hstart Hin Hg Hcap Hlater.
  pose proof (tick_events_agree env e Hr Hst) as Hall.
  rewrite Forall_forall in Hall. specialize (Hall _ Hin).
  destruct Hall as (Hts & Htime & Hrate & _).
  pose proof (reachable_growth e Hr) as Hgrowth.
  unfold Client.handlePredictionSnapshot, wire.
  cbn [Client.data_multiplier Client.data_growthRate Client.data_time
       Client.data_timestamp Client.data_displayMultiplier
       Client.finite_number].
  rewrite Hg, Hrate, Hts, Htime. cbn [state_eqb negb].
  destruct (Rlt_dec 0 0.2) as [_|H]; [|exfalso; lra].
  unfold JS.truthy_num.
  destruct (Req_dec_T 0.2 0) as [H|_]; [exfalso; lra|].
  destruct (Rle_dec 0.2 0) as [H|_]; [exfalso; lra|].
  cbn [negb orb].
  unfold Client.getPredictedMultiplier.
  cbn [Client.gameState Client.predictionSnapshot Client.growthRate
       Client.time Client.timestamp Client.multiplierCap state_eqb negb].
  destruct (Rle_dec 0.2 0) as [H|_]; [exfalso; lra|].
  rewrite Hcap.
  rewrite (Rmax_right 0 ((now env - startTime_num e) / 1000)) by lra.
  rewrite (Rmax_right 0 ((later - now env) / 1000)) by lra.
  replace ((now env - startTime_num e) / 1000 + (later - now env) / 1000)
    with ((later - startTime_num e) / 1000) by lra.
  unfold calculateMultiplier. rewrite Hgrowth.
  cbn [rate minMultiplier capMultiplier].
  rewrite (Rmax_comm 1), (Rmin_comm 250). reflexivity.
Qed.

Lemma client_prediction_matches_engine_witness :
  let env := mkEnv 7000 0.99 in
  let p := snapshot_of env (tick_elapsed env flying_engine)
             (tick_engine env flying_engine) in
  let g := Client.mkGame FLYING None None Client.MULTIPLIER_CAP
             Client.DEFAULT_GROWTH_RATE in
  reachable flying_engine /\ state flying_engine = FLYING /\
  startTime_num flying_engine <= now env /\
  In (multiplier_update p) (snd (handle env interval_fires flying_engine)) /\
  Client.gameState g = FLYING /\ Client.multiplierCap g = 250 /\
  now env <= 7500 /\
  Client.getPredictedMultiplier 7500
    (Client.handlePredictionSnapshot 7020 (Some (wire p)) g)
  = Some (Client.mkPrediction
            (calculateMultiplier flying_engine
               ((7500 - startTime_num flying_engine) / 1000))
            ((7500 - startTime_num flying_engine) / 1000)).
Proof.
  intros env p g.
  assert (H1 : startTime_num flying_engine <= now env).
  { change (startTime_num flying_engine) with 6000. simpl. lra. }
  assert (H2 : In (multiplier_update p)
                 (snd (handle env interval_fires flying_engine))).
  { rewrite (reachable_flying_tick env flying_engine
               flying_engine_reachable flying_engine_state).
    assert (Hb : tick_broadcast env flying_engine = [multiplier_update p]).
    { unfold tick_broadcast.
      assert (Hbs : tick_broadcasts env flying_engine = true).
      { unfold tick_broadcasts. simpl. unfold JS.truthy_num.
        destruct (Req_dec_T 0 0); [reflexivity | exfalso; lra]. }
      rewrite Hbs. reflexivity. }
    destruct (tick_crashes env flying_engine); cbn [snd];
      apply in_or_app; left; rewrite Hb; left; reflexivity. }
  assert (H3 : now env <= 7500) by (simpl; lra).
  split; [exact flying_engine_reachable|].
  split; [exact flying_engine_state|].
  split; [exact H1|]. split; [exact H2|].
  split; [reflexivity|]. split; [reflexivity|]. split; [exact H3|].
  apply (client_prediction_matches_engine env flying_engine p 7020 7500 g
           flying_engine_reachable flying_engine_state H1 H2
           eq_refl eq_refl H3).
Defined.

Lemma ln_nonneg m : 1 <= m -> 0 <= ln m.
Proof.
  intro H. destruct (Req_dec m 1) as [->|Hne]; [rewrite ln_1; lra|].
  rewrite <- ln_1. left. apply ln_increasing; lra.
Qed.

Lemma getPredictedMultiplier_monotone (g : Client.Game) (now1 now2 : R) :
  Client.sane g -> 1 <= Client.multiplierCap g -> now1 <= now2 ->
  match Client.getPredictedMultiplier now1 g,
        Client.getPredictedMultiplier now2 g with
  | Some p1, Some p2 =>
      1 <= Client.predicted_multiplier p1 <= Client.predicted_multiplier p2 /\
      Client.predicted_multiplier p2 <= Client.multiplierCap g /\
      0 <= Client.predicted_time p1 <= Client.predicted_time p2
  | None, None =>
      Client.gameState g <> FLYING \/ Client.predictionSnapshot g = None
  | _, _ => False
  end.
Proof.
  intros Hsane Hcap Hnow. unfold Client.getPredictedMultiplier.
  destruct (state_eqb (Client.gameState g) FLYING) eqn:Hst; cbn [negb].
  2:{ left. intro H. rewrite H in Hst. discriminate. }
  destruct (Client.predictionSnapshot g) as [s|] eqn:Hs;
    [|right; reflexivity].
  destruct (Hsane s Hs) as (Hrate & Htime & _).
  destruct (Rle_dec (Client.growthRate s) 0) as [H|_]; [exfalso; lra|].
  cbn [Client.predicted_multiplier Client.predicted_time].
  set (el1 := Rmax 0 ((now1 - Client.timestamp s) / 1000)).
  set (el2 := Rmax 0 ((now2 - Client.timestamp s) / 1000)).
  assert (H0 : 0 <= el1) by apply Rmax_l.
  assert (H12 : el1 <= el2).
  { subst el1 el2. apply Rmax_case_strong; intro; [apply Rmax_l|].
    eapply Rle_trans; [|apply Rmax_r]. lra. }
  assert (Hexp : exp (Client.growthRate s * (Client.time s + el1))
                 <= exp (Client.growthRate s * (Client.time s + el2)))
    by (apply exp_monotone; nra).
  repeat split.
  - apply Rmin_glb; [exact Hcap | apply Rmax_l].
  - apply Rle_min_compat_l. apply Rle_max_compat_l. exact Hexp.
  - apply Rmin_l.
  - lra.
  - lra.
Qed.

(** X17. Whatever message the client is handed, its prediction stays well
    behaved: the snapshot it keeps has a positive growth rate, a time of at
    least 0 and a multiplier of at least 1, and as its clock advances the
    predicted multiplier never decreases and stays between 1 and the cap,
    the predicted time never decreases, and a prediction is available at
    one reading exactly when it is at the other. *)
Theorem client_prediction_monotone_bounded
    (now_ : R) (data : option Client.SnapshotData) (g : Client.Game)
    (now1 now2 : R) :
  Client.sane g ->
  1 <= Client.multiplierCap g ->
  now1 <= now2 ->
  let g' := Client.handlePredictionSnapshot now_ data g in
  Client.sane g' /\
  match Client.getPredictedMultiplier now1 g',
        Client.getPredictedMultiplier now2 g' with
  | Some p1, Some p2 =>
      1 <= Client.predicted_multiplier p1 <= Client.predicted_multiplier p2 /\
      Client.predicted_multiplier p2 <= Client.multiplierCap g /\
      0 <= Client.predicted_time p1 <= Client.predicted_time p2
  | None, None =>
      Client.gameState g' <> FLYING \/ Client.predictionSnapshot g' = None
  | _, _ => False
  end.
Proof.
  intros Hsane Hcap Hnow g'.
  assert (Hsane' : Client.sane g')
    by (apply handlePredictionSnapshot_sane; exact Hsane).
  assert (Hcap' : Client.multiplierCap g' = Client.multiplierCap g).
  { subst g'.
    destruct (handlePredictionSnapshot_cases now_ data g)
      as [->|(d & raw & rate_ & t & _ & _ & _ & _ & _ & _ & ->)];
      reflexivity. }
  split; [exact Hsane'|]. rewrite <- Hcap'.
  apply getPredictedMultiplier_monotone; [exact Hsane' | | exact Hnow].
  rewrite Hcap'. exact Hcap.
Qed.

Lemma client_prediction_monotone_bounded_witness :
  let g := Client.mkGame FLYING None None Client.MULTIPLIER_CAP
             Client.DEFAULT_GROWTH_RATE in
  let d := Client.mkSnapshotData (JS.Number 2) JS.Undefined (JS.Number 3)
             (JS.Number 1000) (JS.Number 0.2) in
  let g' := Client.handlePredictionSnapshot 1005 (Some d) g in
  Client.sane g /\ 1 <= Client.multiplierCap g /\ 1100 <= 1200 /\
  Client.sane g' /\
  match Client.getPredictedMultiplier 1100 g',
        Client.getPredictedMultiplier 1200 g' with
  | Some p1, Some p2 =>
      1 <= Client.predicted_multiplier p1 <= Client.predicted_multiplier p2 /\
      Client.predicted_multiplier p2 <= Client.multiplierCap g /\
      0 <= Client.predicted_time p1 <= Client.predicted_time p2
  | None, None =>
      Client.gameState g' <> FLYING \/ Client.predictionSnapshot g' = None
  | _, _ => False
  end.
Proof.
  intros g d g'.
  assert (H1 : Client.sane g) by (intros s Hs; discriminate).
  assert (H2 : 1 <= Client.multiplierCap g)
    by (simpl; unfold Client.MULTIPLIER_CAP; lra).
  assert (H3 : 1100 <= 1200) by lra.
  split; [exact H1|]. split; [exact H2|]. split; [exact H3|].
  apply (client_prediction_monotone_bounded 1005 (Some d) g 1100 1200
           H1 H2 H3).
Defined.

(** X18. A snapshot without a time loses nothing: the client derives the
    time as [ln m / rate], and its prediction at (or before) the snapshot's
    timestamp gives back the snapshot's multiplier [m], capped, together
    with that time. *)
Theorem client_snapshot_round_trip
    (now_ at_ m r ts : R) (d : Client.SnapshotData) (g : Client.Game) :
  Client.gameState g = FLYING ->
  Client.data_multiplier d = JS.Number m ->
  1 <= m ->
  Client.data_growthRate d = JS.Number r ->
  0 < r ->
  Client.finite_number (Client.data_time d) = None ->
  Client.data_timestamp d = JS.Number ts ->
  at_ <= ts ->
  Client.getPredictedMultiplier at_
    (Client.handlePredictionSnapshot now_ (Some d) g)
  = Some (Client.mkPrediction (Rmin (Client.multiplierCap g) m) (ln m / r)).
Proof.
  intros Hg Hm Hm1 Hr Hr0 Ht Hts Hat.
  unfold Client.handlePredictionSnapshot.
  rewrite Hg, Hm, Hr, Ht, Hts.
  cbn [state_eqb negb Client.finite_number].
  destruct (Rlt_dec 0 r) as [_|H]; [|contradiction].
  unfold JS.truthy_num.
  destruct (Req_dec_T r 0) as [H|_]; [exfalso; lra|].
  destruct (Rle_dec r 0) as [H|_]; [exfalso; lra|].
  cbn [negb orb].
  unfold Client.getPredictedMultiplier.
  cbn [Client.gameState Client.predictionSnapshot Client.growthRate
       Client.time Client.timestamp Client.multiplierCap state_eqb negb].
  destruct (Rle_dec r 0) as [H|_]; [exfalso; lra|].
  rewrite (Rmax_right 1 m) by exact Hm1.
  assert (Hln : 0 <= ln m / r).
  { apply Rmult_le_pos; [apply ln_nonneg; exact Hm1|].
    left. apply Rinv_0_lt_compat. exact Hr0. }
  rewrite (Rmax_right 0 (ln m / r)) by exact Hln.
  rewrite (Rmax_left 0 ((at_ - ts) / 1000)) by lra.
  replace (r * (ln m / r + 0)) with (ln m) by (field; lra).
  rewrite exp_ln by lra.
  rewrite (Rmax_right 1 m) by exact Hm1.
  rewrite Rplus_0_r. reflexivity.
Qed.

Lemma client_snapshot_round_trip_witness :
  let d := Client.mkSnapshotData (JS.Number 2) JS.Undefined JS.Undefined
             (JS.Number 1000) (JS.Number 0.2) in
  let g := Client.mkGame FLYING None None Client.MULTIPLIER_CAP
             Client.DEFAULT_GROWTH_RATE in
  Client.gameState g = FLYING /\
  Client.data_multiplier d = JS.Number 2 /\ 1 <= 2 /\
  Client.data_growthRate d = JS.Number 0.2 /\ 0 < 0.2 /\
  Client.finite_number (Client.data_time d) = None /\
  Client.data_timestamp d = JS.Number 1000 /\ 1000 <= 1000 /\
  Client.getPredictedMultiplier 1000
    (Client.handlePredictionSnapshot 1005 (Some d) g)
  = Some (Client.mkPrediction (Rmin (Client.multiplierCap g) 2)
            (ln 2 / 0.2)).
Proof.
  intros d g.
  assert (H1 : 1 <= 2) by lra.
  assert (H2 : 0 < 0.2) by lra.
  assert (H3 : 1000 <= 1000) by lra.
  repeat (split; [first [reflexivity | assumption]|]).
  apply (client_snapshot_round_trip 1005 1000 2 0.2 1000 d g
           eq_refl eq_refl H1 eq_refl H2 eq_refl eq_refl H3).
Defined.

(** * The player manager *)

Section IdMapFacts.

Context {V : Type}.

Lemma imap_get_set_same k (v : V) m : imap_get k (imap_set k v m) = Some v.
Proof.
  induction m as [|[k' v'] m IH]; simpl.
  - rewrite String.eqb_refl. reflexivity.
  - destruct (String.eqb k k') eqn:Hk; simpl.
    + rewrite String.eqb_refl. reflexivity.
    + rewrite Hk. exact IH.
Qed.

Lemma imap_get_set_other k q (v : V) m :
  k <> q -> imap_get k (imap_set q v m) = imap_get k m.
Proof.
  intro Hne. apply String.eqb_neq in Hne.
  induction m as [|[k' v'] m IH]; simpl.
  - rewrite Hne. reflexivity.
  - destruct (String.eqb_spec q k') as [<-|Hq]; simpl.
    + rewrite Hne. reflexivity.
    + rewrite IH. reflexivity.
Qed.

Lemma imap_get_In k (v : V) m : imap_get k m = Some v -> In (k, v) m.
Proof.
  induction m as [|[k' v'] m IH]; simpl; [discriminate|].
  destruct (String.eqb_spec k k') as [->|Hne].
  - intro H. injection H as ->. left. reflexivity.
  - intro H. right. apply IH. exact H.
Qed.

Lemma imap_In_keys k (v : V) m : In (k, v) m -> In k (imap_keys m).
Proof. intro H. apply (in_map fst) in H. exact H. Qed.

Lemma imap_In_get k (v : V) m :
  NoDup (imap_keys m) -> In (k, v) m -> imap_get k m = Some v.
Proof.
  induction m as [|[k' v'] m IH]; simpl; intros Hnd Hin; [contradiction|].
  inversion Hnd as [|x l Hnin Hnd']; subst.
  destruct Hin as [Heq|Hin].
  - injection Heq as -> ->. rewrite String.eqb_refl. reflexivity.
  - destruct (String.eqb_spec k k') as [->|Hne].
    + exfalso. apply Hnin. apply (imap_In_keys _ _ _ Hin).
    + apply IH; assumption.
Qed.

Lemma imap_keys_set_present k (v : V) m :
  imap_get k m <> None -> imap_keys (imap_set k v m) = imap_keys m.
Proof.
  induction m as [|[k' v'] m IH]; simpl; [congruence|].
  destruct (String.eqb_spec k k') as [->|Hne]; simpl; [reflexivity|].
  intro H. rewrite IH by exact H. reflexivity.
Qed.

Lemma imap_keys_set_absent k (v : V) m :
  imap_get k m = None -> imap_keys (imap_set k v m) = imap_keys m ++ [k].
Proof.
  induction m as [|[k' v'] m IH]; simpl; [reflexivity|].
  destruct (String.eqb_spec k k') as [->|Hne]; simpl; [discriminate|].
  intro H. rewrite IH by exact H. reflexivity.
Qed.

Lemma imap_get_None_keys k (m : list (string * V)) :
  imap_get k m = None -> ~ In k (imap_keys m).
Proof.
  induction m as [|[k' v'] m IH]; simpl; [tauto|].
  destruct (String.eqb_spec k k') as [->|Hne]; [discriminate|].
  intros H [Heq|Hin]; [congruence | exact (IH H Hin)].
Qed.

Lemma imap_set_NoDup k (v : V) m :
  NoDup (imap_keys m) -> NoDup (imap_keys (imap_set k v m)).
Proof.
  intro Hnd. destruct (imap_get k m) as [v0|] eqn:Hg.
  - rewrite imap_keys_set_present by congruence. exact Hnd.
  - rewrite imap_keys_set_absent by exact Hg.
    apply NoDup_app; [exact Hnd | repeat constructor; simpl; tauto|].
    intros x Hx [<-|[]]. apply (imap_get_None_keys _ _ Hg Hx).
Qed.

Lemma imap_set_length_present k (v : V) m :
  imap_get k m <> None -> List.length (imap_set k v m) = List.length m.
Proof.
  intro H. pose proof (imap_keys_set_present k v m H) as Hk.
  apply (f_equal (@List.length string)) in Hk.
  unfold imap_keys in Hk. rewrite !length_map in Hk. exact Hk.
Qed.

Lemma imap_set_length k (v : V) m :
  (List.length m <= List.length (imap_set k v m) <= S (List.length m))%nat.
Proof.
  destruct (imap_get k m) as [v0|] eqn:Hg.
  - rewrite imap_set_length_present by congruence. lia.
  - pose proof (imap_keys_set_absent k v m Hg) as Hk.
    apply (f_equal (@List.length string)) in Hk.
    unfold imap_keys in Hk. rewrite length_app, !length_map in Hk.
    simpl in Hk. lia.
Qed.

Lemma imap_set_In k q (v w : V) m :
  In (q, w) (imap_set k v m) -> (q = k /\ w = v) \/ In (q, w) m.
Proof.
  induction m as [|[k' v'] m IH]; simpl.
  - intros [H|[]]. injection H as <- <-. left. split; reflexivity.
  - destruct (String.eqb_spec k k') as [->|Hne]; simpl.
    + intros [H|H]; [injection H as <- <-; left; split; reflexivity|].
      right. right. exact H.
    + intros [H|H]; [right; left; exact H|].
      destruct (IH H) as [Hl|Hr]; [left; exact Hl | right; right; exact Hr].
Qed.

Lemma imap_delete_filter k (m : list (string * V)) :
  imap_delete k m = filter (fun kv => negb (String.eqb k (fst kv))) m.
Proof.
  induction m as [|[k' v'] m IH]; simpl; [reflexivity|].
  destruct (String.eqb k k'); simpl; rewrite IH; reflexivity.
Qed.

Lemma imap_delete_In k q (w : V) m :
  In (q, w) (imap_delete k m) <-> q <> k /\ In (q, w) m.
Proof.
  rewrite imap_delete_filter, filter_In. simpl. split.
  - intros [Hin Hne]. split; [|exact Hin].
    intros ->. rewrite String.eqb_refl in Hne. discriminate.
  - intros [Hne Hin]. split; [exact Hin|].
    destruct (String.eqb_spec k q); [congruence | reflexivity].
Qed.

Lemma imap_delete_NoDup k (m : list (string * V)) :
  NoDup (imap_keys m) -> NoDup (imap_keys (imap_delete k m)).
Proof.
  induction m as [|[k' v'] m IH]; simpl; intro Hnd; [constructor|].
  inversion Hnd as [|x l Hnin Hnd']; subst.
  destruct (String.eqb_spec k k') as [->|Hne]; simpl.
  - apply IH. exact Hnd'.
  - constructor; [|apply IH; exact Hnd'].
    intro H. apply Hnin. unfold imap_keys in *.
    apply in_map_iff in H. destruct H as [[q w] [Hq Hin]]. simpl in Hq.
    subst q. apply imap_delete_In in Hin. destruct Hin as [_ Hin].
    apply (in_map fst) in Hin. exact Hin.
Qed.

Lemma imap_delete_length k (m : list (string * V)) :
  (List.length (imap_delete k m) <= List.length m)%nat.
Proof. rewrite imap_delete_filter. apply filter_length_le. Qed.

End IdMapFacts.

(** ** What every call keeps *)

Lemma set_player_ok k p' st pm player :
  PlayerManager.manager_ok pm ->
  imap_get k (PlayerManager.players pm) = Some player ->
  PlayerManager.id p' = k ->
  PlayerManager.player_ok p' ->
  PlayerManager.peakConcurrentPlayers st
  = PlayerManager.peakConcurrentPlayers (PlayerManager.stats pm) ->
  PlayerManager.totalPlayersJoined st
  = PlayerManager.totalPlayersJoined (PlayerManager.stats pm) ->
  0 <= PlayerManager.stats_totalWinnings st ->
  PlayerManager.manager_ok
    (PlayerManager.mkManager (imap_set k p' (PlayerManager.players pm)) st).
Proof.
  intros (Hnd & Hall & Hlen & Hw) Hget Hid Hok Hpeak Hjoined Hst.
  unfold PlayerManager.manager_ok. simpl.
  split; [apply imap_set_NoDup; exact Hnd|]. split.
  - intros q w Hin. apply imap_set_In in Hin.
    destruct Hin as [[-> ->]|Hin]; [split; assumption | apply Hall; exact Hin].
  - rewrite imap_set_length_present by congruence.
    rewrite Hpeak, Hjoined. split; [exact Hlen | exact Hst].
Qed.

Lemma update_player_ok k f pm :
  PlayerManager.manager_ok pm ->
  (forall p, PlayerManager.id (f p) = PlayerManager.id p) ->
  (forall p, PlayerManager.player_ok p -> PlayerManager.player_ok (f p)) ->
  PlayerManager.manager_ok (PlayerManager.update_player k f pm).
Proof.
  intros Hpm Hid Hok. unfold PlayerManager.update_player.
  destruct (imap_get k (PlayerManager.players pm)) as [player|] eqn:Hg;
    [|exact Hpm].
  pose proof Hpm as (Hnd & Hall & Hlen & Hw).
  destruct (Hall k player (imap_get_In _ _ _ Hg)) as [Hk Hp].
  apply (set_player_ok k (f player) (PlayerManager.stats pm) pm player);
    try reflexivity; try assumption.
  - rewrite Hid. exact Hk.
  - apply Hok. exact Hp.
Qed.

Lemma credited_ok amount p :
  PlayerManager.player_ok p ->
  PlayerManager.player_ok (PlayerManager.credited amount p).
Proof.
  intros (Hs & Hb & Hsw & Hsb & Hsg). unfold PlayerManager.credited.
  destruct (Rlt_dec 0 amount) as [Hpos|Hneg];
    unfold PlayerManager.player_ok; simpl.
  - split.
    { destruct (Nat.ltb_spec (PlayerManager.longestStreak p)
                  (S (PlayerManager.currentStreak p))); lia. }
    split.
    { destruct (Rlt_dec (PlayerManager.biggestWin p) amount); lra. }
    split; [rewrite Hsw; reflexivity|]. split; assumption.
  - split; [lia|]. split; [exact Hb|]. split; [exact Hsw|].
    split; assumption.
Qed.

Lemma updatePlayerBalance_ok k amount pm :
  PlayerManager.manager_ok pm ->
  PlayerManager.manager_ok (PlayerManager.updatePlayerBalance k amount pm).
Proof.
  intro Hpm. unfold PlayerManager.updatePlayerBalance.
  destruct (imap_get k (PlayerManager.players pm)) as [player|] eqn:Hg;
    [|exact Hpm].
  pose proof Hpm as (Hnd & Hall & Hlen & Hw).
  destruct (Hall k player (imap_get_In _ _ _ Hg)) as [Hk Hp].
  apply (set_player_ok k _ _ pm player Hpm Hg); simpl.
  - unfold PlayerManager.credited.
    destruct (Rlt_dec 0 amount); exact Hk.
  - apply credited_ok. exact Hp.
  - reflexivity.
  - reflexivity.
  - pose proof (Rmax_l 0 amount). lra.
Qed.

Lemma manager_placeBet_ok k amount pm :
  PlayerManager.manager_ok pm ->
  PlayerManager.manager_ok (snd (PlayerManager.placeBet k amount pm)).
Proof.
  intro Hpm. unfold PlayerManager.placeBet.
  destruct (imap_get k (PlayerManager.players pm)) as [player|] eqn:Hg;
    [|exact Hpm].
  destruct (Rle_dec amount (PlayerManager.balance player)); [|exact Hpm].
  pose proof Hpm as (Hnd & Hall & Hlen & Hw).
  destruct (Hall k player (imap_get_In _ _ _ Hg))
    as (Hk & Hs & Hb & Hsw & Hsb & Hsg).
  apply (set_player_ok k _ _ pm player Hpm Hg); simpl;
    try reflexivity; try assumption.
  unfold PlayerManager.player_ok. simpl.
  rewrite Hsb. repeat split; assumption || lra.
Qed.

Lemma round_over_ok p :
  PlayerManager.player_ok p ->
  PlayerManager.player_ok (PlayerManager.round_over p).
Proof.
  intros (Hs & Hb & Hsw & Hsb & Hsg).
  unfold PlayerManager.player_ok. simpl.
  rewrite Hsg. repeat split; assumption || lra.
Qed.

Lemma game_reset_ok p :
  PlayerManager.player_ok p ->
  PlayerManager.player_ok (PlayerManager.game_reset p).
Proof.
  intros (Hs & Hb & Hsw & Hsb & Hsg).
  unfold PlayerManager.player_ok. simpl.
  rewrite Hsg. destruct (PlayerManager.isPlaying p);
    repeat split; assumption || lra || lia.
Qed.

Lemma manager_cashOut_ok k m pm :
  PlayerManager.manager_ok pm ->
  PlayerManager.manager_ok (snd (PlayerManager.cashOut k m pm)).
Proof.
  intro Hpm. unfold PlayerManager.cashOut.
  destruct (imap_get k (PlayerManager.players pm)) as [player|];
    [|exact Hpm].
  destruct (PlayerManager.isPlaying player); [|exact Hpm].
  simpl. apply update_player_ok.
  - apply updatePlayerBalance_ok. exact Hpm.
  - reflexivity.
  - apply round_over_ok.
Qed.

Lemma manager_removePlayer_ok k pm :
  PlayerManager.manager_ok pm ->
  PlayerManager.manager_ok (PlayerManager.removePlayer k pm).
Proof.
  intro Hpm. pose proof Hpm as (Hnd & Hall & Hlen & Hw).
  unfold PlayerManager.removePlayer.
  destruct (imap_get k (PlayerManager.players pm)); [|exact Hpm].
  unfold PlayerManager.manager_ok. simpl.
  split; [apply imap_delete_NoDup; exact Hnd|]. split.
  - intros q w Hin. apply imap_delete_In in Hin. apply Hall. apply Hin.
  - pose proof (imap_delete_length k (PlayerManager.players pm)).
    split; [lia | exact Hw].
Qed.

Lemma manager_removePlayers_ok ks : forall pm,
  PlayerManager.manager_ok pm ->
  PlayerManager.manager_ok
    (fold_left (fun m k => PlayerManager.removePlayer k m) ks pm).
Proof.
  induction ks as [|k ks IH]; intros pm Hpm; [exact Hpm|].
  simpl. apply IH. apply manager_removePlayer_ok. exact Hpm.
Qed.

Lemma manager_addPlayer_ok now_ k pm :
  PlayerManager.manager_ok pm ->
  PlayerManager.manager_ok (snd (PlayerManager.addPlayer now_ k pm)).
Proof.
  intros (Hnd & Hall & Hlen & Hw).
  unfold PlayerManager.addPlayer, PlayerManager.updatePeakPlayers,
    PlayerManager.getPlayerCount.
  cbn [snd PlayerManager.players PlayerManager.stats
       PlayerManager.set_players PlayerManager.set_stats
       PlayerManager.peakConcurrentPlayers
       PlayerManager.totalPlayersJoined PlayerManager.totalBetsPlaced
       PlayerManager.stats_totalWinnings].
  pose proof (imap_set_length k (PlayerManager.new_player now_ k)
                (PlayerManager.players pm)) as Hl.
  assert (Hents : forall q w,
            In (q, w)
              (imap_set k (PlayerManager.new_player now_ k)
                 (PlayerManager.players pm)) ->
            PlayerManager.id w = q /\ PlayerManager.player_ok w).
  { intros q w Hin. apply imap_set_In in Hin.
    destruct Hin as [[-> ->]|Hin]; [|apply Hall; exact Hin].
    split; [reflexivity|]. unfold PlayerManager.player_ok. simpl.
    repeat split; lia || lra. }
  destruct (Nat.ltb_spec
              (PlayerManager.peakConcurrentPlayers (PlayerManager.stats pm))
              (List.length
                 (imap_set k (PlayerManager.new_player now_ k)
                    (PlayerManager.players pm))));
    unfold PlayerManager.manager_ok;
    cbn [PlayerManager.players PlayerManager.stats
         PlayerManager.set_players PlayerManager.set_stats
         PlayerManager.peakConcurrentPlayers
         PlayerManager.totalPlayersJoined PlayerManager.totalBetsPlaced
         PlayerManager.stats_totalWinnings];
    (split; [apply imap_set_NoDup; exact Hnd|]);
    (split; [exact Hents|]); (split; [lia | exact Hw]).
Qed.

Lemma apply_call_ok c pm :
  PlayerManager.manager_ok pm ->
  PlayerManager.manager_ok (PlayerManager.apply_call c pm).
Proof.
  intro Hpm. destruct c; simpl.
  - apply manager_addPlayer_ok. exact Hpm.
  - apply manager_removePlayer_ok. exact Hpm.
  - apply update_player_ok; [exact Hpm | reflexivity|].
    intros p Hp. exact Hp.
  - apply updatePlayerBalance_ok. exact Hpm.
  - apply manager_placeBet_ok. exact Hpm.
  - apply manager_cashOut_ok. exact Hpm.
  - apply update_player_ok; [exact Hpm | reflexivity | apply game_reset_ok].
  - apply manager_removePlayers_ok. exact Hpm.
  - unfold PlayerManager.setPlayerBalance.
    destruct (imap_get playerId (PlayerManager.players pm)); [|exact Hpm].
    simpl. apply update_player_ok; [exact Hpm | reflexivity|].
    intros q Hq. exact Hq.
  - unfold PlayerManager.resetPlayerStats.
    destruct (imap_get playerId (PlayerManager.players pm)); [|exact Hpm].
    simpl. apply update_player_ok; [exact Hpm | reflexivity|].
    intros q _. unfold PlayerManager.player_ok. simpl.
    repeat split; lia || lra.
Qed.

Lemma apply_calls_ok cs : forall pm,
  PlayerManager.manager_ok pm ->
  PlayerManager.manager_ok (PlayerManager.apply_calls cs pm).
Proof.
  unfold PlayerManager.apply_calls.
  induction cs as [|c cs IH]; intros pm Hpm; [exact Hpm|].
  simpl. apply IH. apply apply_call_ok. exact Hpm.
Qed.

(** X19. Whatever calls are made on a fresh player manager, its books stay
    sound: one entry per player, filed under the player's own id; for every
    player the current streak never exceeds the longest, the biggest win is
    between 0 and the total winnings, and the session figures equal the
    totals; the number of players never exceeds the recorded peak, nor the
    peak the number of players ever joined. *)
Theorem manager_invariants (cs : list PlayerManager.Call) :
  let pm := PlayerManager.apply_calls cs PlayerManager.new_PlayerManager in
  NoDup (imap_keys (PlayerManager.players pm)) /\
  (forall k p, In (k, p) (PlayerManager.players pm) ->
     PlayerManager.id p = k /\
     (PlayerManager.currentStreak p <= PlayerManager.longestStreak p)%nat /\
     0 <= PlayerManager.biggestWin p <= PlayerManager.totalWinnings p /\
     PlayerManager.sessionWinnings p = PlayerManager.totalWinnings p /\
     PlayerManager.sessionBets p = PlayerManager.totalBets p /\
     PlayerManager.sessionGames p = PlayerManager.gamesPlayed p) /\
  (PlayerManager.getPlayerCount pm
   <= PlayerManager.peakConcurrentPlayers (PlayerManager.stats pm)
   <= PlayerManager.totalPlayersJoined (PlayerManager.stats pm))%nat /\
  0 <= PlayerManager.stats_totalWinnings (PlayerManager.stats pm).
Proof.
  intro pm.
  assert (H0 : PlayerManager.manager_ok PlayerManager.new_PlayerManager).
  { unfold PlayerManager.manager_ok. simpl.
    repeat split; try constructor; try lia; try lra; contradiction. }
  exact (apply_calls_ok cs _ H0).
Qed.

(** ** A stake and its payout *)

Lemma manager_cashOut_playing k m pm player :
  imap_get k (PlayerManager.players pm) = Some player ->
  PlayerManager.isPlaying player = true ->
  PlayerManager.cashOut k m pm
  = (PlayerManager.cashOut_success (PlayerManager.currentBet player * m)
       (PlayerManager.balance player + PlayerManager.currentBet player * m),
     PlayerManager.mkManager
       (imap_set k
          (PlayerManager.round_over
             (PlayerManager.credited (PlayerManager.currentBet player * m)
                player))
          (imap_set k
             (PlayerManager.credited (PlayerManager.currentBet player * m)
                player)
             (PlayerManager.players pm)))
       (PlayerManager.mkManagerStats
          (PlayerManager.totalPlayersJoined (PlayerManager.stats pm))
          (PlayerManager.peakConcurrentPlayers (PlayerManager.stats pm))
          (PlayerManager.totalBetsPlaced (PlayerManager.stats pm))
          (PlayerManager.stats_totalWinnings (PlayerManager.stats pm)
           + Rmax 0 (PlayerManager.currentBet player * m)))).
Proof.
  intros Hg Hp.
  unfold PlayerManager.cashOut, PlayerManager.updatePlayerBalance,
    PlayerManager.update_player.
  rewrite Hg, Hp. simpl. rewrite imap_get_set_same. simpl.
  f_equal. f_equal.
  unfold PlayerManager.credited.
  destruct (Rlt_dec 0 (PlayerManager.currentBet player * m)); reflexivity.
Qed.

Lemma imap_get_set_set k (v w : PlayerManager.Player) q m :
  q <> k -> imap_get q (imap_set k v (imap_set k w m)) = imap_get q m.
Proof. intro H. rewrite !imap_get_set_other by exact H. reflexivity. Qed.

(** X20. A stake and its payout in the player manager: [placeBet] is
    refused, leaving everything as it was, when the balance is below the
    amount; otherwise it takes the amount off the balance (which stays at
    least 0 for an amount of at least 0) and marks the player as playing;
    the [cashOut] that follows pays the stake times the multiplier, reports
    the new balance, and ends the game, so that a second [cashOut] is
    refused and pays nothing; no other player is touched. *)
Theorem manager_stake_and_payout
    (k : string) (a m m2 : R) (pm : PlayerManager.Manager)
    (player : PlayerManager.Player) :
  PlayerManager.getPlayer k pm = Some player ->
  let r1 := PlayerManager.placeBet k a pm in
  let r2 := PlayerManager.cashOut k m (snd r1) in
  (PlayerManager.balance player < a -> r1 = (false, pm)) /\
  (a <= PlayerManager.balance player ->
   fst r1 = true /\
   PlayerManager.getPlayer k (snd r1)
   = Some (PlayerManager.staking a player) /\
   (0 <= a -> 0 <= PlayerManager.balance (PlayerManager.staking a player)) /\
   fst r2
   = PlayerManager.cashOut_success (a * m)
       (PlayerManager.balance player - a + a * m) /\
   (exists p2,
      PlayerManager.getPlayer k (snd r2) = Some p2 /\
      PlayerManager.balance p2 = PlayerManager.balance player - a + a * m /\
      PlayerManager.isPlaying p2 = false /\
      PlayerManager.currentBet p2 = 0 /\
      PlayerManager.gamesPlayed p2 = S (PlayerManager.gamesPlayed player)) /\
   (forall q, q <> k ->
      PlayerManager.getPlayer q (snd r2) = PlayerManager.getPlayer q pm) /\
   PlayerManager.cashOut k m2 (snd r2)
   = (PlayerManager.cashOut_failure, snd r2)).
Proof.
  intros Hg r1 r2. subst r2 r1. unfold PlayerManager.getPlayer in *.
  unfold PlayerManager.placeBet. rewrite Hg.
  destruct (Rle_dec a (PlayerManager.balance player)) as [Hle|Hgt].
  2:{ split; [reflexivity | intro; exfalso; lra]. }
  split; [intro; exfalso; lra|]. intros _.
  cbn [fst snd].
  set (pm1 := PlayerManager.set_stats _ _).
  assert (Hg1 : imap_get k (PlayerManager.players pm1)
                = Some (PlayerManager.staking a player))
    by apply imap_get_set_same.
  rewrite (manager_cashOut_playing k m pm1 _ Hg1 eq_refl).
  cbn [fst snd PlayerManager.players PlayerManager.currentBet
       PlayerManager.balance PlayerManager.staking].
  split; [reflexivity|]. split; [exact Hg1|]. split; [intro; lra|].
  split; [reflexivity|]. split.
  { eexists. split; [apply imap_get_set_same|].
    unfold PlayerManager.credited.
    destruct (Rlt_dec 0 (a * m)); simpl; repeat split; lra. }
  split.
  { intros q Hq. rewrite imap_get_set_set by exact Hq.
    subst pm1. simpl. apply imap_get_set_other. exact Hq. }
  unfold PlayerManager.cashOut.
  cbn [PlayerManager.players]. rewrite imap_get_set_same.
  reflexivity.
Qed.

Lemma manager_stake_and_payout_witness :
  let pm := snd (PlayerManager.addPlayer 0 "p1"
                   PlayerManager.new_PlayerManager) in
  let player := PlayerManager.new_player 0 "p1" in
  let r1 := PlayerManager.placeBet "p1" 100 pm in
  let r2 := PlayerManager.cashOut "p1" 2 (snd r1) in
  PlayerManager.getPlayer "p1" pm = Some player /\
  (PlayerManager.balance player < 100 -> r1 = (false, pm)) /\
  (100 <= PlayerManager.balance player ->
   fst r1 = true /\
   PlayerManager.getPlayer "p1" (snd r1)
   = Some (PlayerManager.staking 100 player) /\
   (0 <= 100 ->
    0 <= PlayerManager.balance (PlayerManager.staking 100 player)) /\
   fst r2
   = PlayerManager.cashOut_success (100 * 2)
       (PlayerManager.balance player - 100 + 100 * 2) /\
   (exists p2,
      PlayerManager.getPlayer "p1" (snd r2) = Some p2 /\
      PlayerManager.balance p2
      = PlayerManager.balance player - 100 + 100 * 2 /\
      PlayerManager.isPlaying p2 = false /\
      PlayerManager.currentBet p2 = 0 /\
      PlayerManager.gamesPlayed p2 = S (PlayerManager.gamesPlayed player)) /\
   (forall q, q <> "p1"%string ->
      PlayerManager.getPlayer q (snd r2) = PlayerManager.getPlayer q pm) /\
   PlayerManager.cashOut "p1" 3 (snd r2)
   = (PlayerManager.cashOut_failure, snd r2)).
Proof.
  intros pm player r1 r2.
  assert (H : PlayerManager.getPlayer "p1" pm = Some player)
    by reflexivity.
  split; [exact H|].
  apply (manager_stake_and_payout "p1" 100 2 3 pm player H).
Defined.

(** ** Cleaning up *)

Lemma imap_delete_absent {V : Type} k (m : list (string * V)) :
  imap_get k m = None -> imap_delete k m = m.
Proof.
  induction m as [|[k' v'] m IH]; simpl; [reflexivity|].
  destruct (String.eqb k k'); [discriminate|].
  intro H. rewrite (IH H). reflexivity.
Qed.

Lemma manager_removePlayer_spec k pm :
  PlayerManager.removePlayer k pm
  = PlayerManager.mkManager (imap_delete k (PlayerManager.players pm))
      (PlayerManager.stats pm).
Proof.
  unfold PlayerManager.removePlayer.
  destruct (imap_get k (PlayerManager.players pm)) eqn:Hg; [reflexivity|].
  rewrite (imap_delete_absent k _ Hg). destruct pm; reflexivity.
Qed.

Lemma filter_twice {A : Type} (f g : A -> bool) (l : list A) :
  filter f (filter g l) = filter (fun x => g x && f x) l.
Proof.
  induction l as [|x l IH]; simpl; [reflexivity|].
  destruct (g x); simpl; [destruct (f x)|]; rewrite IH; reflexivity.
Qed.

Lemma filter_split_length {A : Type} (f : A -> bool) (l : list A) :
  (List.length (filter f l) + List.length (filter (fun x => negb (f x)) l)
   = List.length l)%nat.
Proof.
  induction l as [|x l IH]; simpl; [reflexivity|].
  destruct (f x); simpl; lia.
Qed.

Lemma removePlayers_spec ks : forall pm,
  fold_left (fun m k => PlayerManager.removePlayer k m) ks pm
  = PlayerManager.mkManager
      (filter (fun kv => negb (existsb (String.eqb (fst kv)) ks))
         (PlayerManager.players pm))
      (PlayerManager.stats pm).
Proof.
  induction ks as [|k ks IH]; intro pm.
  - destruct pm as [ps st]. simpl. f_equal.
    induction ps as [|x ps IHps]; simpl; [reflexivity|].
    rewrite <- IHps. reflexivity.
  - simpl. rewrite IH, manager_removePlayer_spec. simpl.
    rewrite imap_delete_filter, filter_twice. f_equal.
    apply filter_ext. intros [q w]. simpl.
    rewrite (String.eqb_sym q k).
    destruct (String.eqb k q); reflexivity.
Qed.

Lemma inactive_keys now_ thr (m : list (string * PlayerManager.Player)) :
  NoDup (imap_keys m) ->
  forall kv, In kv m ->
    existsb (String.eqb (fst kv)) (imap_keys (filter (inactive now_ thr) m))
    = inactive now_ thr kv.
Proof.
  intros Hnd [k v] Hin. simpl.
  destruct (inactive now_ thr (k, v)) eqn:Hi.
  - apply existsb_exists. exists k. split; [|apply String.eqb_refl].
    apply (imap_In_keys k v). apply filter_In. split; assumption.
  - destruct (existsb _ _) eqn:He; [|reflexivity].
    apply existsb_exists in He. destruct He as (q & Hq & Heq).
    apply String.eqb_eq in Heq. subst q.
    unfold imap_keys in Hq. apply in_map_iff in Hq.
    destruct Hq as ([q w] & Hk & Hw). simpl in Hk. subst q.
    apply filter_In in Hw. destruct Hw as [Hw Hiw].
    assert (w = v).
    { pose proof (imap_In_get k w m Hnd Hw) as H1.
      pose proof (imap_In_get k v m Hnd Hin) as H2. congruence. }
    subst w. congruence.
Qed.

(** X21. [cleanupInactivePlayers] removes exactly the players last seen
    before the cutoff: the players left are the others, in their order, all
    seen at the cutoff or later; the number returned is the number of
    players removed; the statistics are untouched. *)
Theorem cleanup_removes_exactly_inactive
    (now_ inactiveThreshold : R) (pm : PlayerManager.Manager) :
  NoDup (imap_keys (PlayerManager.players pm)) ->
  let r := PlayerManager.cleanupInactivePlayers now_ inactiveThreshold pm in
  PlayerManager.players (snd r)
  = filter (fun kv => negb (inactive now_ inactiveThreshold kv))
      (PlayerManager.players pm) /\
  (fst r + List.length (PlayerManager.players (snd r))
   = List.length (PlayerManager.players pm))%nat /\
  (forall k p, In (k, p) (PlayerManager.players (snd r)) ->
     now_ - inactiveThreshold <= PlayerManager.lastSeenAt p) /\
  PlayerManager.stats (snd r) = PlayerManager.stats pm.
Proof.
  intros Hnd r. subst r. unfold PlayerManager.cleanupInactivePlayers.
  cbn [fst snd]. fold (inactive now_ inactiveThreshold).
  rewrite removePlayers_spec. cbn [PlayerManager.players PlayerManager.stats].
  assert (Heq : filter
                  (fun kv =>
                     negb (existsb (String.eqb (fst kv))
                             (imap_keys
                                (filter (inactive now_ inactiveThreshold)
                                   (PlayerManager.players pm)))))
                  (PlayerManager.players pm)
                = filter (fun kv => negb (inactive now_ inactiveThreshold kv))
                    (PlayerManager.players pm)).
  { apply filter_ext_in. intros kv Hin.
    rewrite (inactive_keys now_ inactiveThreshold _ Hnd kv Hin).
    reflexivity. }
  rewrite Heq. split; [reflexivity|]. split.
  - unfold imap_keys. rewrite length_map. apply filter_split_length.
  - split; [|reflexivity].
    intros k p Hin. apply filter_In in Hin. destruct Hin as [_ Hi].
    unfold inactive in Hi. simpl in Hi.
    destruct (Rlt_dec (PlayerManager.lastSeenAt p)
                (now_ - inactiveThreshold)); [discriminate | lra].
Qed.

Lemma cleanup_removes_exactly_inactive_witness :
  let pm := snd (PlayerManager.addPlayer 0 "p1"
                   PlayerManager.new_PlayerManager) in
  let r := PlayerManager.cleanupInactivePlayers 400000 300000 pm in
  NoDup (imap_keys (PlayerManager.players pm)) /\
  PlayerManager.players (snd r)
  = filter (fun kv => negb (inactive 400000 300000 kv))
      (PlayerManager.players pm) /\
  (fst r + List.length (PlayerManager.players (snd r))
   = List.length (PlayerManager.players pm))%nat /\
  (forall k p, In (k, p) (PlayerManager.players (snd r)) ->
     400000 - 300000 <= PlayerManager.lastSeenAt p) /\
  PlayerManager.stats (snd r) = PlayerManager.stats pm.
Proof.
  intros pm r.
  assert (H : NoDup (imap_keys (PlayerManager.players pm))).
  { simpl. constructor; [simpl; tauto | constructor]. }
  split; [exact H|].
  apply (cleanup_removes_exactly_inactive 400000 300000 pm H).
Defined.

(** ** The leaderboard *)

Lemma insert_by_winnings_perm x l :
  Permutation (PlayerManager.insert_by_winnings x l) (x :: l).
Proof.
  induction l as [|y l IH]; simpl; [apply Permutation_refl|].
  destruct (Rle_dec _ _); [apply Permutation_refl|].
  eapply perm_trans; [apply perm_skip; exact IH | apply perm_swap].
Qed.

Lemma sort_by_winnings_perm l :
  Permutation (PlayerManager.sort_by_winnings l) l.
Proof.
  induction l as [|x l IH]; simpl; [constructor|].
  eapply perm_trans; [apply insert_by_winnings_perm|].
  apply perm_skip. exact IH.
Qed.

Lemma insert_by_winnings_sorted x l :
  StronglySorted by_winnings l ->
  StronglySorted by_winnings (PlayerManager.insert_by_winnings x l).
Proof.
  induction 1 as [|y l Hl IH Hy]; simpl.
  - constructor; constructor.
  - destruct (Rle_dec _ _) as [Hle|Hgt].
    + constructor; [constructor; assumption|].
      constructor; [exact Hle|].
      rewrite Forall_forall in *. intros z Hz. specialize (Hy z Hz).
      unfold by_winnings in *. lra.
    + constructor; [exact IH|].
      rewrite Forall_forall in *. intros z Hz.
      apply (Permutation_in _ (insert_by_winnings_perm x l)) in Hz.
      destruct Hz as [<-|Hz]; [unfold by_winnings; lra | apply Hy; exact Hz].
Qed.

Lemma sort_by_winnings_sorted l :
  StronglySorted by_winnings (PlayerManager.sort_by_winnings l).
Proof.
  induction l as [|x l IH]; simpl; [constructor|].
  apply insert_by_winnings_sorted. exact IH.
Qed.

Lemma StronglySorted_app_inv {A : Type} (R : A -> A -> Prop) (a b : list A) :
  StronglySorted R (a ++ b) ->
  StronglySorted R a /\ StronglySorted R b /\
  forall x y, In x a -> In y b -> R x y.
Proof.
  induction a as [|x a IH]; simpl; intro H.
  - split; [constructor|]. split; [exact H|]. intros x y [].
  - inversion H as [|x' l' Hs Hx]; subst.
    destruct (IH Hs) as (Ha & Hb & Hab).
    rewrite Forall_forall in Hx.
    split; [|split; [exact Hb|]].
    + constructor; [exact Ha|]. rewrite Forall_forall.
      intros y Hy. apply Hx. apply in_or_app. left. exact Hy.
    + intros x0 y [<-|Hx0] Hy; [|apply Hab; assumption].
      apply Hx. apply in_or_app. right. exact Hy.
Qed.

Lemma StronglySorted_map_top l :
  StronglySorted by_winnings l ->
  StronglySorted
    (fun a b =>
       PlayerManager.top_totalWinnings b <= PlayerManager.top_totalWinnings a)
    (map PlayerManager.top_entry l).
Proof.
  induction 1 as [|x l Hl IH Hx]; simpl; constructor; [exact IH|].
  rewrite Forall_forall in *. intros e He.
  apply in_map_iff in He. destruct He as (q & <- & Hq).
  apply (Hx q Hq).
Qed.

(** X22. [getTopPlayers] lists the right players in the right order: the
    entries are those of [limit] players (of all of them when there are
    fewer), from the larger total winnings to the smaller, and no player
    left out has more total winnings than a player listed. *)
Theorem top_players_ranked (limit : nat) (pm : PlayerManager.Manager) :
  exists chosen rest,
    Permutation (imap_values (PlayerManager.players pm)) (chosen ++ rest) /\
    PlayerManager.getTopPlayers limit pm
    = map PlayerManager.top_entry chosen /\
    List.length (PlayerManager.getTopPlayers limit pm)
    = Nat.min limit (PlayerManager.getPlayerCount pm) /\
    StronglySorted
      (fun a b =>
         PlayerManager.top_totalWinnings b
         <= PlayerManager.top_totalWinnings a)
      (PlayerManager.getTopPlayers limit pm) /\
    forall c r, In c chosen -> In r rest ->
      PlayerManager.totalWinnings r <= PlayerManager.totalWinnings c.
Proof.
  set (sorted := PlayerManager.sort_by_winnings
                   (imap_values (PlayerManager.players pm))).
  exists (firstn limit sorted), (skipn limit sorted).
  pose proof (sort_by_winnings_sorted
                (imap_values (PlayerManager.players pm))) as Hs.
  fold sorted in Hs. rewrite <- (firstn_skipn limit sorted) in Hs.
  destruct (StronglySorted_app_inv _ _ _ Hs) as (Ha & _ & Hab).
  split.
  { rewrite firstn_skipn. apply Permutation_sym.
    apply sort_by_winnings_perm. }
  split; [reflexivity|]. split.
  { unfold PlayerManager.getTopPlayers, PlayerManager.getPlayerCount.
    rewrite length_map, length_firstn.
    rewrite (Permutation_length
               (sort_by_winnings_perm
                  (imap_values (PlayerManager.players pm)))).
    unfold imap_values. rewrite length_map. reflexivity. }
  split.
  { unfold PlayerManager.getTopPlayers. fold sorted.
    apply StronglySorted_map_top. exact Ha. }
  intros c r Hc Hr. apply (Hab c r Hc Hr).
Qed.

Lemma findIndex_spec (f : PlayerManager.Player -> bool) l :
  match PlayerManager.findIndex f l with
  | Some i =>
      exists p, nth_error l i = Some p /\ f p = true /\
                forall q, In q (firstn i l) -> f q = false
  | None => forall q, In q l -> f q = false
  end.
Proof.
  induction l as [|x l IH]; simpl; [tauto|].
  destruct (f x) eqn:Hx.
  - exists x. split; [reflexivity|]. split; [exact Hx|]. intros q [].
  - destruct (PlayerManager.findIndex f l) as [i|].
    + destruct IH as (p & Hn & Hp & Hbefore). exists p.
      split; [exact Hn|]. split; [exact Hp|].
      intros q [<-|Hq]; [exact Hx | apply Hbefore; exact Hq].
    + intros q [<-|Hq]; [exact Hx | apply IH; exact Hq].
Qed.

Lemma filter_none {A : Type} (f : A -> bool) (l : list A) :
  (forall x, In x l -> f x = false) -> filter f l = [].
Proof.
  induction l as [|x l IH]; simpl; intro H; [reflexivity|].
  rewrite (H x (or_introl eq_refl)). apply IH.
  intros y Hy. apply H. right. exact Hy.
Qed.

Lemma nth_error_split_list {A : Type} (l : list A) i x :
  nth_error l i = Some x -> l = firstn i l ++ x :: skipn (S i) l.
Proof.
  revert i. induction l as [|y l IH]; intros [|i]; try discriminate.
  - simpl. intro H. injection H as ->. reflexivity.
  - intro H. change (y :: l = y :: (firstn i l ++ x :: skipn (S i) l)).
    f_equal. apply IH. exact H.
Qed.

Lemma filter_perm {A : Type} (f : A -> bool) (l1 l2 : list A) :
  Permutation l1 l2 -> Permutation (filter f l1) (filter f l2).
Proof.
  induction 1 as [|x l1 l2 _ IH|x y l|l1 l2 l3 _ IH1 _ IH2]; simpl.
  - constructor.
  - destruct (f x); [apply perm_skip|]; exact IH.
  - destruct (f x), (f y); try apply Permutation_refl. apply perm_swap.
  - eapply perm_trans; eassumption.
Qed.

(** X23. [getPlayerRank] ranks by total winnings: it answers null exactly
    when no player has the id; a rank [r] lies between 1 and the number of
    players, belongs to a player with that id, and fewer than [r] players
    have strictly more total winnings than that player. *)
Theorem player_rank_sound (k : string) (pm : PlayerManager.Manager) :
  match PlayerManager.getPlayerRank k pm with
  | None =>
      forall p, In p (imap_values (PlayerManager.players pm)) ->
        PlayerManager.id p <> k
  | Some r =>
      (1 <= r <= PlayerManager.getPlayerCount pm)%nat /\
      exists p,
        In p (imap_values (PlayerManager.players pm)) /\
        PlayerManager.id p = k /\
        (List.length
           (filter (more_winnings p)
              (imap_values (PlayerManager.players pm))) < r)%nat
  end.
Proof.
  unfold PlayerManager.getPlayerRank.
  set (values := imap_values (PlayerManager.players pm)).
  set (sorted := PlayerManager.sort_by_winnings values).
  pose proof (sort_by_winnings_perm values) as Hperm. fold sorted in Hperm.
  pose proof (findIndex_spec
                (fun p => String.eqb (PlayerManager.id p) k) sorted) as Hf.
  destruct (PlayerManager.findIndex _ sorted) as [i|].
  - destruct Hf as (p & Hn & Hp & _).
    apply String.eqb_eq in Hp.
    assert (Hi : (i < List.length sorted)%nat)
      by (apply nth_error_Some; congruence).
    assert (Hlen : List.length sorted = PlayerManager.getPlayerCount pm).
    { rewrite (Permutation_length Hperm). subst values.
      unfold imap_values, PlayerManager.getPlayerCount.
      apply length_map. }
    split; [lia|]. exists p.
    split; [apply (Permutation_in _ Hperm); apply (nth_error_In _ _ Hn)|].
    split; [exact Hp|].
    assert (Hcount : List.length (filter (more_winnings p) values)
                     = List.length (filter (more_winnings p) sorted)).
    { apply Permutation_length. apply Permutation_sym.
      apply filter_perm. exact Hperm. }
    rewrite Hcount. clear Hcount.
    pose proof (sort_by_winnings_sorted values) as Hs. fold sorted in Hs.
    rewrite (nth_error_split_list sorted i p Hn) in Hs |- *.
    apply StronglySorted_app_inv in Hs. destruct Hs as (_ & Hs & _).
    inversion Hs as [|x l _ Hafter]; subst.
    rewrite Forall_forall in Hafter.
    rewrite filter_app, length_app. cbn [filter].
    assert (Hself : more_winnings p p = false).
    { unfold more_winnings. destruct (Rlt_dec _ _); [lra | reflexivity]. }
    rewrite Hself.
    rewrite (filter_none (more_winnings p) (skipn (S i) sorted)).
    + pose proof (filter_length_le (more_winnings p) (firstn i sorted)).
      rewrite length_firstn in H. simpl. lia.
    + intros q Hq. specialize (Hafter q Hq).
      unfold more_winnings. unfold by_winnings in Hafter.
      destruct (Rlt_dec (PlayerManager.totalWinnings p)
                  (PlayerManager.totalWinnings q)); [lra | reflexivity].
  - intros p Hp Hid.
    assert (Hin : In p sorted)
      by (apply (Permutation_in _ (Permutation_sym Hperm)); exact Hp).
    specialize (Hf p Hin). simpl in Hf.
    rewrite Hid, String.eqb_refl in Hf. discriminate.
Qed.

(** * The server around the engine *)

Lemma isValidBet_spec v :
  Server.isValidBet v = true <->
  exists a, v = JS.Number a /\ 1 <= a <= 1000000000.
Proof.
  unfold Server.isValidBet. split.
  - destruct v as [| | | |a]; try discriminate.
    destruct (Rle_dec 1 a), (Rle_dec a 1000000000); try discriminate.
    intros _. exists a. split; [reflexivity | lra].
  - intros (a & -> & Hlo & Hhi).
    destruct (Rle_dec 1 a), (Rle_dec a 1000000000);
      try reflexivity; exfalso; lra.
Qed.

Lemma update_player_get k f pm p :
  imap_get k (PlayerManager.players pm) = Some p ->
  imap_get k (PlayerManager.players (PlayerManager.update_player k f pm))
  = Some (f p).
Proof.
  intro H. unfold PlayerManager.update_player. rewrite H. simpl.
  apply imap_get_set_same.
Qed.

Lemma update_player_get_other k q f pm :
  q <> k ->
  imap_get q (PlayerManager.players (PlayerManager.update_player k f pm))
  = imap_get q (PlayerManager.players pm).
Proof.
  intro H. unfold PlayerManager.update_player.
  destruct (imap_get k (PlayerManager.players pm)); [|reflexivity].
  simpl. apply imap_get_set_other. exact H.
Qed.

(** X24. A bet through the server's [place_bet] handler is confirmed to
    the player exactly when the amount is a number between 1 and
    1000000000, the engine is WAITING or STARTING, and the threshold passes
    the engine's test; anything else leaves engine and players as they were.
    A confirmed bet is on the engine's books with that amount; the player's
    balance is debited by it when it covers the amount and is left alone,
    the bet staying on the books, when it does not; no other player is
    touched. *)
Theorem place_bet_through_server
    (env : Env) (k : string) (data : option Server.PlaceBetData)
    (w : Server.World) :
  let r := Server.on_place_bet env k data w in
  let w' := fst r in
  (confirmed (snd r) = true <->
   exists d a,
     data = Some d /\ Server.amount d = JS.Number a /\
     1 <= a <= 1000000000 /\
     canPlaceBet (Server.gameEngine w) = true /\
     threshold_rejected (JS.default_null (Server.autoCashOut d)) = false) /\
  (confirmed (snd r) = false -> w' = w) /\
  (forall d a,
     data = Some d -> Server.amount d = JS.Number a ->
     confirmed (snd r) = true ->
     map_get k (activePlayers (Server.gameEngine w'))
     = Some (mkPlayerData a (JS.default_null (Server.autoCashOut d)) false
               (now env)) /\
     totalBets (stats (Server.gameEngine w'))
     = totalBets (stats (Server.gameEngine w)) + a /\
     (forall q, q <> k ->
        PlayerManager.getPlayer q (Server.playerManager w')
        = PlayerManager.getPlayer q (Server.playerManager w)) /\
     match PlayerManager.getPlayer k (Server.playerManager w) with
     | None => Server.playerManager w' = Server.playerManager w
     | Some p =>
         (a <= PlayerManager.balance p ->
          PlayerManager.getPlayer k (Server.playerManager w')
          = Some (Server.debited a (Server.autoCashOut d) p) /\
          PlayerManager.balance
            (Server.debited a (Server.autoCashOut d) p)
          = PlayerManager.balance p - a /\
          0 <= PlayerManager.balance
                 (Server.debited a (Server.autoCashOut d) p)) /\
         (PlayerManager.balance p < a ->
          Server.playerManager w' = Server.playerManager w)
     end).
Proof.
  intros r w'. subst w' r. unfold Server.on_place_bet.
  destruct data as [d|].
  2:{ simpl. split; [|split].
      - split; [discriminate|]. intros (d & a & H & _). discriminate.
      - reflexivity.
      - intros d a H. discriminate. }
  destruct (Server.isValidBet (Server.amount d)) eqn:Hv; cbn [negb].
  2:{ simpl. split; [|split].
      - split; [discriminate|].
        intros (d0 & a & H & Ha & Hr & _). injection H as <-.
        assert (Server.isValidBet (Server.amount d) = true)
          by (apply isValidBet_spec; exists a; split; assumption).
        congruence.
      - reflexivity.
      - intros d0 a _ _ H. discriminate. }
  apply isValidBet_spec in Hv. destruct Hv as (a & Ha & Hrange).
  destruct (canPlaceBet (Server.gameEngine w)) eqn:Hcan; cbn [negb].
  2:{ simpl. split; [|split].
      - split; [discriminate|].
        intros (d0 & a0 & _ & _ & _ & H & _). discriminate.
      - reflexivity.
      - intros d0 a0 _ _ H. discriminate. }
  rewrite Ha. cbn [Server.number_of].
  rewrite placeBet_spec, Hcan. cbn [negb].
  fold (threshold_rejected (JS.default_null (Server.autoCashOut d))).
  destruct (threshold_rejected (JS.default_null (Server.autoCashOut d)))
    eqn:Hth.
  { simpl. split; [|split].
    - split; [discriminate|].
      intros (d0 & a0 & H & _ & _ & _ & H'). injection H as <-. congruence.
    - intros _. destruct w; reflexivity.
    - intros d0 a0 _ _ H. discriminate. }
  unfold PlayerManager.getPlayer.
  destruct (imap_get k (PlayerManager.players (Server.playerManager w)))
    as [p|] eqn:Hp.
  - destruct (Rle_dec a (PlayerManager.balance p)) as [Hle|Hgt];
      cbn [fst snd confirmed existsb is_confirmation orb
           Server.gameEngine Server.playerManager].
    + split; [|split; [discriminate|]].
      * split; [|reflexivity]. intros _. exists d, a.
        repeat split; try assumption; apply Hrange.
      * intros d0 a0 Hd Ha0 _. injection Hd as <-.
        rewrite Ha in Ha0. injection Ha0 as <-.
        split; [simpl; apply map_get_set_same|].
        split; [reflexivity|]. split.
        { intros q Hq. apply update_player_get_other. exact Hq. }
        split.
        { intros _. split; [apply update_player_get; exact Hp|].
          split; [reflexivity | simpl; lra]. }
        intro. exfalso. lra.
    + split; [|split; [discriminate|]].
      * split; [|reflexivity]. intros _. exists d, a.
        repeat split; try assumption; apply Hrange.
      * intros d0 a0 Hd Ha0 _. injection Hd as <-.
        rewrite Ha in Ha0. injection Ha0 as <-.
        split; [simpl; apply map_get_set_same|].
        split; [reflexivity|]. split; [reflexivity|].
        split; [intro; exfalso; lra | reflexivity].
  - cbn [fst snd confirmed existsb is_confirmation orb
         Server.gameEngine Server.playerManager].
    split; [|split; [discriminate|]].
    + split; [|reflexivity]. intros _. exists d, a.
      repeat split; try assumption; apply Hrange.
    + intros d0 a0 Hd Ha0 _. injection Hd as <-.
      rewrite Ha in Ha0. injection Ha0 as <-.
      split; [simpl; apply map_get_set_same|].
      split; [reflexivity|]. split; reflexivity.
Qed.

Lemma crashGame_until_settled_spec env trigger e :
  let r := Server.crashGame_until_settled env trigger e in
  crashGame env trigger e
  = (tt, set_stateTimeout (Some cb_scheduleNextGame) (snd (fst r)), snd r) /\
  losers (fst (fst r))
  = losers (finalizeBets_loop (cashedOutPlayers e) (activePlayers e)) /\
  stateTimeout (snd (fst r)) = None /\
  gameLoopInterval (snd (fst r)) = false /\
  state (snd (fst r)) = CRASHED /\
  multiplier (snd (fst r)) = multiplier e /\
  gameId (snd (fst r)) = gameId e.
Proof.
  unfold Server.crashGame_until_settled, crashGame.
  destruct e as [st m stt gid h ap cp gl sto cf gr sts lpb].
  cbv [bind get when modify ret emit clearTimers
    buildMultiplierPayload updateAverageMultiplier addToHistory
    finalizeBets startTime_truthy startTime_num]; simpl.
  destruct gl, sto; simpl;
    (destruct stt as [t|]; simpl; [destruct (JS.truthy_num t); simpl|]);
    destruct h; simpl; destruct (Nat.ltb _ _); simpl;
    rewrite ?app_nil_r; repeat split; reflexivity.
Qed.

(** X25. The admin route, with the server's listeners attached to the
    engine.  With a secret configured it answers Unauthorized, touching
    nothing, exactly when no token is given or the first token given differs
    from the secret; without a secret it never does.  Past that gate it
    answers a bad request, touching nothing, when the engine is not FLYING.
    Otherwise the round is crashed, its events are emitted and the losers
    are reset, and then everything hangs on the leaderboard broadcast of the
    settlement listener: when it returns, the next round is scheduled and
    the answer carries the engine's multiplier, which is also the final
    multiplier of the state reported; when it throws, as it does with the
    player manager at hand, the route answers the server error and the
    engine is left CRASHED with no timer pending, so that no next round is
    ever scheduled. *)
Theorem admin_force_crash_gating
    (env : Env) (adminSecret : option string)
    (broadcastLeaderboard : Server.Leaderboard)
    (req : Server.Request) (w : Server.World) :
  let e := Server.gameEngine w in
  let r := Server.admin_force_crash env adminSecret broadcastLeaderboard
             req w in
  let e' := Server.gameEngine (snd (fst r)) in
  let pm' := Server.playerManager (snd (fst r)) in
  let pm1 := Server.on_round_settled
               (losers (finalizeBets_loop (cashedOutPlayers e)
                          (activePlayers e)))
               (Server.playerManager w) in
  (is_unauthorized (fst (fst r))
   = Server.given adminSecret
     && (negb (Server.given (request_token req))
         || negb (Server.same_string (request_token req) adminSecret))) /\
  (is_unauthorized (fst (fst r)) = true ->
   snd (fst r) = w /\ snd r = []) /\
  (forall err, fst (fst r) = Server.bad_request err ->
     err = "Game is not currently flying"%string /\
     state e <> FLYING /\ snd (fst r) = w /\ snd r = []) /\
  (forall m st, fst (fst r) = Server.ok m st ->
     broadcastLeaderboard pm1 = Some pm' /\
     state e = FLYING /\ m = multiplier e /\
     st = state_crashed CRASHED (gameId e) (multiplier e) /\
     state e' = CRASHED /\
     stateTimeout e' = Some cb_scheduleNextGame) /\
  (forall msg, fst (fst r) = Server.server_error msg ->
     broadcastLeaderboard pm1 = None /\ pm' = pm1 /\
     state e = FLYING /\ msg = "Failed to force crash"%string /\
     state e' = CRASHED /\
     stateTimeout e' = None /\ gameLoopInterval e' = false) /\
  (is_unauthorized (fst (fst r)) = false -> state e = FLYING ->
     snd r = crash_events env e /\
     multiplier e' = multiplier e /\
     activePlayers e' = [] /\
     (broadcastLeaderboard pm1 <> None ->
      fst (fst r)
      = Server.ok (multiplier e)
          (state_crashed CRASHED (gameId e) (multiplier e))) /\
     (broadcastLeaderboard pm1 = None ->
      fst (fst r) = Server.server_error "Failed to force crash")) /\
  (is_unauthorized
     (fst (fst (Server.admin_force_crash env adminSecret
                  Server.leaderboard_at_hand req w))) = false ->
   state e = FLYING ->
   fst (fst (Server.admin_force_crash env adminSecret
               Server.leaderboard_at_hand req w))
   = Server.server_error "Failed to force crash").
Proof.
  assert (Hmain : forall bl : Server.Leaderboard,
    let e := Server.gameEngine w in
    let r := Server.admin_force_crash env adminSecret bl req w in
    let e' := Server.gameEngine (snd (fst r)) in
    let pm' := Server.playerManager (snd (fst r)) in
    let pm1 := Server.on_round_settled
                 (losers (finalizeBets_loop (cashedOutPlayers e)
                            (activePlayers e)))
                 (Server.playerManager w) in
    (is_unauthorized (fst (fst r))
     = Server.given adminSecret
       && (negb (Server.given (request_token req))
           || negb (Server.same_string (request_token req) adminSecret))) /\
    (is_unauthorized (fst (fst r)) = true ->
     snd (fst r) = w /\ snd r = []) /\
    (forall err, fst (fst r) = Server.bad_request err ->
       err = "Game is not currently flying"%string /\
       state e <> FLYING /\ snd (fst r) = w /\ snd r = []) /\
    (forall m st, fst (fst r) = Server.ok m st ->
       bl pm1 = Some pm' /\
       state e = FLYING /\ m = multiplier e /\
       st = state_crashed CRASHED (gameId e) (multiplier e) /\
       state e' = CRASHED /\
       stateTimeout e' = Some cb_scheduleNextGame) /\
    (forall msg, fst (fst r) = Server.server_error msg ->
       bl pm1 = None /\ pm' = pm1 /\
       state e = FLYING /\ msg = "Failed to force crash"%string /\
       state e' = CRASHED /\
       stateTimeout e' = None /\ gameLoopInterval e' = false) /\
    (is_unauthorized (fst (fst r)) = false -> state e = FLYING ->
       snd r = crash_events env e /\
       multiplier e' = multiplier e /\
       activePlayers e' = [] /\
       (bl pm1 <> None ->
        fst (fst r)
        = Server.ok (multiplier e)
            (state_crashed CRASHED (gameId e) (multiplier e))) /\
       (bl pm1 = None ->
        fst (fst r) = Server.server_error "Failed to force crash"))).
  { intros bl e r e' pm' pm1. subst pm1 pm' e' r e.
    unfold Server.admin_force_crash. fold (request_token req).
    destruct (Server.given adminSecret
              && (negb (Server.given (request_token req))
                  || negb (Server.same_string (request_token req)
                             adminSecret))).
    { cbn [fst snd is_unauthorized]. split; [reflexivity|].
      split; [intros _; split; reflexivity|].
      split; [intros err H; discriminate|].
      split; [intros m st H; discriminate|].
      split; [intros msg H; discriminate | discriminate]. }
    set (reason := match Server.or_else _ _ with
                   | Some r => r
                   | None => "admin_api"%string
                   end).
    unfold Server.forceCrash_heard.
    destruct (state_eqb (state (Server.gameEngine w)) FLYING) eqn:Hst;
      cbn [negb].
    2:{ cbn [fst snd is_unauthorized]. split; [reflexivity|].
        split; [discriminate|]. split.
        - intros err H. injection H as <-. repeat split.
          intro H. rewrite H in Hst. discriminate.
        - split; [intros m st H; discriminate|].
          split; [intros msg H; discriminate|].
          intros _ H. rewrite H in Hst. discriminate. }
    apply state_eqb_spec in Hst.
    unfold Server.crashGame_heard.
    destruct (crashGame_until_settled_spec env (Some reason)
                (Server.gameEngine w))
      as (Hcrash & Hlosers & Hto & Hgl & Hs & Hm & Hid).
    destruct (crashGame_spec env (Some reason) (Server.gameEngine w))
      as (Hev & _ & _ & Hact & _).
    rewrite Hcrash in Hev, Hact. cbn [fst snd] in Hev, Hact.
    destruct (Server.crashGame_until_settled env (Some reason)
                (Server.gameEngine w)) as [[settlement e1] evs].
    cbn [fst snd] in *. rewrite Hlosers.
    destruct (bl _) as [pm2|] eqn:Hbl;
      cbn [fst snd is_unauthorized Server.gameEngine Server.playerManager
           multiplier state stateTimeout set_stateTimeout gameLoopInterval
           activePlayers].
    - split; [reflexivity|]. split; [discriminate|].
      split; [intros err H; discriminate|]. split.
      { intros m st H. injection H as <- <-.
        unfold getCurrentState.
        cbn [state set_stateTimeout gameId multiplier].
        rewrite Hs, Hid, Hm. repeat split; assumption. }
      split; [intros msg H; discriminate|].
      intros _ _. split; [exact Hev|].
      split; [exact Hm|]. split; [exact Hact|]. split; [|discriminate].
      intros _. unfold getCurrentState.
      cbn [state set_stateTimeout gameId multiplier].
      rewrite Hs, Hid, Hm. reflexivity.
    - split; [reflexivity|]. split; [discriminate|].
      split; [intros err H; discriminate|].
      split; [intros m st H; discriminate|]. split.
      { intros msg H. injection H as <-. repeat split; assumption. }
      intros _ _. split; [exact Hev|].
      split; [exact Hm|]. split; [exact Hact|].
      split; [intro H; exfalso; apply H; reflexivity|].
      intros _. reflexivity. }
  intros e r e' pm' pm1.
  destruct (Hmain broadcastLeaderboard) as (H1 & H2 & H3 & H4 & H5 & H6).
  repeat (split; [assumption|]).
  intros Hu Hf.
  destruct (Hmain Server.leaderboard_at_hand) as (_ & _ & _ & _ & _ & H7).
  destruct (H7 Hu Hf) as (_ & _ & _ & _ & H8). apply H8. reflexivity.
Qed.

(** ** Settlement as the server hears it *)

Lemma handle_settlement env i e fm ls ps :
  In (round_settled fm ls ps) (snd (handle env i e)) ->
  ls = losers (finalizeBets_loop (cashedOutPlayers e) (activePlayers e)).
Proof.
  intro Hin.
  destruct (may_crash i) eqn:Hi.
  2:{ pose proof (handle_quiet env i e Hi) as Hq.
      rewrite Forall_forall in Hq. destruct (Hq _ Hin). }
  rewrite handle_events in Hin. destruct i; try discriminate.
  - rewrite forceCrash_spec in Hin.
    destruct (negb (state_eqb (state e) FLYING)); cbn [snd] in Hin;
      [contradiction|].
    destruct (crashGame_spec env (Some reason) e) as (Hev & _).
    rewrite Hev in Hin. apply crash_events_settlement in Hin.
    injection Hin as _ -> _. reflexivity.
  - rewrite fire_interval_spec in Hin.
    destruct (gameLoopInterval e); [|contradiction].
    destruct (state_eqb (state e) FLYING) eqn:Hst.
    + apply state_eqb_spec in Hst.
      rewrite (updateGame_spec env e Hst) in Hin.
      destruct (tick_crashes env e); cbn [snd] in Hin.
      * apply in_app_or in Hin.
        destruct Hin as [Hin|Hin];
          [destruct (in_broadcast_settled env e fm ls ps Hin)|].
        destruct (crashGame_spec env None (tick_engine env e)) as (Hev & _).
        rewrite Hev in Hin. apply crash_events_settlement in Hin.
        injection Hin as _ -> _.
        rewrite tick_engine_activePlayers, tick_engine_cashedOutPlayers.
        reflexivity.
      * exfalso. apply in_app_or in Hin.
        destruct Hin as [Hin|Hin];
          [destruct (in_broadcast_settled env e fm ls ps Hin)|].
        apply in_app_or in Hin. destruct Hin as [Hin|Hin].
        -- pose proof (checkAutoCashOuts_quiet (tick_engine env e)) as Hq.
           rewrite Forall_forall in Hq. apply (Hq _ Hin).
        -- destruct Hin as [Hin|[]]. discriminate.
    + rewrite updateGame_idle in Hin
        by (intro H; rewrite H in Hst; discriminate).
      contradiction.
Qed.

Lemma losers_ids cashed m :
  map loser_playerId (losers (finalizeBets_loop cashed m))
  = keys (filter (unsettled cashed) m).
Proof.
  destruct (finalizeBets_loop_spec cashed m) as [_ ->].
  unfold keys. rewrite map_map. reflexivity.
Qed.

Lemma NoDup_keys_filter (f : string * PlayerData -> bool) m :
  NoDup (keys m) -> NoDup (keys (filter f m)).
Proof.
  induction m as [|[k v] m IH]; simpl; intro Hnd; [constructor|].
  inversion Hnd as [|x l Hnin Hnd']; subst.
  destruct (f (k, v)); simpl; [|apply IH; exact Hnd'].
  constructor; [|apply IH; exact Hnd'].
  intro H. apply Hnin. unfold keys in *.
  apply in_map_iff in H. destruct H as (x & Hx & Hin).
  apply filter_In in Hin. apply in_map_iff. exists x. tauto.
Qed.

Lemma reset_losers_get ls : forall pm k,
  NoDup (map loser_playerId ls) ->
  imap_get k (PlayerManager.players (Server.on_round_settled ls pm))
  = match imap_get k (PlayerManager.players pm) with
    | Some p =>
        Some (if existsb (String.eqb k) (map loser_playerId ls)
              then PlayerManager.game_reset p else p)
    | None => None
    end.
Proof.
  unfold Server.on_round_settled.
  induction ls as [|l ls IH]; intros pm k Hnd.
  - simpl. destruct (imap_get k (PlayerManager.players pm)); reflexivity.
  - inversion Hnd as [|x xs Hnin Hnd']; subst.
    cbn [fold_left map existsb]. rewrite (IH _ k Hnd').
    unfold PlayerManager.resetPlayerGame.
    destruct (String.eqb_spec k (loser_playerId l)) as [->|Hne].
    + assert (Hrest : existsb (String.eqb (loser_playerId l))
                        (map loser_playerId ls) = false).
      { destruct (existsb _ _) eqn:He; [|reflexivity].
        apply existsb_exists in He. destruct He as (x & Hx & Heq).
        apply String.eqb_eq in Heq. subst x. contradiction. }
      rewrite Hrest. cbn [orb].
      destruct (imap_get (loser_playerId l) (PlayerManager.players pm))
        as [p|] eqn:Hp.
      * rewrite (update_player_get _ _ _ _ Hp). reflexivity.
      * unfold PlayerManager.update_player. rewrite Hp, Hp. reflexivity.
    + rewrite update_player_get_other by exact Hne. cbn [orb].
      reflexivity.
Qed.

(** X26. When the server hears [round_settled] from a reachable engine,
    it resets the game of every loser exactly once: the losers listed are
    the players holding an unsettled wager, each listed once; in the player
    manager every loser's record is reset a single time (no longer playing,
    no current bet, one game more) and every other record is untouched. *)
Theorem losers_reset_once
    (env : Env) (i : Input) (e : GameEngine) (fm : R)
    (ls : list LoserRecord) (ps : list ParticipantRecord)
    (pm : PlayerManager.Manager) :
  reachable e ->
  In (round_settled fm ls ps) (snd (handle env i e)) ->
  NoDup (map loser_playerId ls) /\
  (forall k, In k (map loser_playerId ls) <->
     In k (getActivePlayers e) /\ ~ In k (cashedOutPlayers e)) /\
  (forall k,
     PlayerManager.getPlayer k (Server.on_round_settled ls pm)
     = match PlayerManager.getPlayer k pm with
       | Some p =>
           Some (if existsb (String.eqb k) (map loser_playerId ls)
                 then PlayerManager.game_reset p else p)
       | None => None
       end).
Proof.
  intros Hr Hin.
  pose proof (handle_settlement env i e fm ls ps Hin) as ->.
  destruct (reachable_wagers_agree e Hr) as (Hnd & _).
  rewrite losers_ids.
  assert (Hnd' : NoDup (keys (filter (unsettled (cashedOutPlayers e))
                                (activePlayers e))))
    by (apply NoDup_keys_filter; exact Hnd).
  split; [exact Hnd'|]. split.
  - intro k. unfold getActivePlayers, keys. rewrite !in_map_iff. split.
    + intros ([q pd] & Hk & Hf). simpl in Hk. subst q.
      apply filter_In in Hf. destruct Hf as [Hin' Hu].
      unfold unsettled in Hu. simpl in Hu.
      split; [exists (k, pd); split; [reflexivity | exact Hin']|].
      apply set_has_false. destruct (set_has k _); [discriminate|reflexivity].
    + intros [([q pd] & Hk & Hin') Hnc]. simpl in Hk. subst q.
      exists (k, pd). split; [reflexivity|]. apply filter_In.
      split; [exact Hin'|]. unfold unsettled. simpl.
      apply set_has_false in Hnc. rewrite Hnc. reflexivity.
  - intro k. unfold PlayerManager.getPlayer.
    rewrite <- losers_ids. apply reset_losers_get.
    rewrite losers_ids. exact Hnd'.
Qed.

Lemma losers_reset_once_witness :
  let env := mkEnv 7000 0 in
  let i := call_forceCrash "admin_override" in
  let fm := multiplier betting_flight in
  let ls := losers (finalizeBets_loop (cashedOutPlayers betting_flight)
                      (activePlayers betting_flight)) in
  let ps := participants
              (finalizeBets_loop (cashedOutPlayers betting_flight)
                 (activePlayers betting_flight)) in
  let pm := snd (PlayerManager.addPlayer 0 "p1"
                   PlayerManager.new_PlayerManager) in
  reachable betting_flight /\
  In (round_settled fm ls ps) (snd (handle env i betting_flight)) /\
  NoDup (map loser_playerId ls) /\
  (forall k, In k (map loser_playerId ls) <->
     In k (getActivePlayers betting_flight) /\
     ~ In k (cashedOutPlayers betting_flight)) /\
  (forall k,
     PlayerManager.getPlayer k (Server.on_round_settled ls pm)
     = match PlayerManager.getPlayer k pm with
       | Some p =>
           Some (if existsb (String.eqb k) (map loser_playerId ls)
                 then PlayerManager.game_reset p else p)
       | None => None
       end).
Proof.
  intros env i fm ls ps pm.
  assert (Hst : state betting_flight = FLYING) by reflexivity.
  assert (Hin : In (round_settled fm ls ps)
                  (snd (handle env i betting_flight))).
  { unfold i. rewrite (handle_forceCrash_flying env _ _ Hst). cbn [snd].
    unfold crash_events. apply in_or_app. right. right. left. reflexivity. }
  split; [exact betting_flight_reachable|]. split; [exact Hin|].
  apply (losers_reset_once env i betting_flight fm ls ps pm
           betting_flight_reachable Hin).
Defined.

(** * The bots *)

Lemma toFixed_2_floor x :
  0 <= x <= 1000000000 ->
  JS.toFixed 2 x = IZR (Zfloor (x * 10 ^ 2 + / 2)) / 10 ^ 2.
Proof.
  intros [Hlo Hhi]. unfold JS.toFixed.
  assert (Habs : Rabs x = x) by (apply Rabs_right; lra).
  destruct (Rle_dec (10 ^ 21) (Rabs x)) as [H|_]; [rewrite Habs in H; lra|].
  destruct (Rlt_dec x 0) as [H|_]; [lra|]. reflexivity.
Qed.

Lemma toFixed_2_stake x :
  1 <= x <= 1000000000 -> 1 <= JS.toFixed 2 x <= 1000000000.
Proof.
  intros [Hlo Hhi]. rewrite toFixed_2_floor by lra.
  pose proof (Zfloor_bound (x * 10 ^ 2 + / 2)) as [Hb1 Hb2].
  assert (H1 : (100 <= Zfloor (x * 10 ^ 2 + / 2))%Z)
    by (apply Zfloor_lub; lra).
  assert (H2 : (Zfloor (x * 10 ^ 2 + / 2) < 100000000001)%Z)
    by (apply lt_IZR; lra).
  apply IZR_le in H1.
  assert (H3 : (Zfloor (x * 10 ^ 2 + / 2) <= 100000000000)%Z) by lia.
  apply IZR_le in H3. lra.
Qed.

Lemma toFixed_2_threshold x : 1.01 <= x -> 1.01 <= JS.toFixed 2 x.
Proof.
  intro Hlo. unfold JS.toFixed.
  assert (Habs : Rabs x = x) by (apply Rabs_right; lra).
  destruct (Rle_dec (10 ^ 21) (Rabs x)) as [H|_]; [exact Hlo|].
  destruct (Rlt_dec x 0) as [H|_]; [lra|].
  unfold JS.roundHalfUp.
  assert (H1 : (101 <= Zfloor (x * 10 ^ 2 + / 2))%Z)
    by (apply Zfloor_lub; lra).
  apply IZR_le in H1. lra.
Qed.

Lemma draw_between random lo hi :
  0 <= random < 1 -> lo <= hi ->
  exists v,
    Bots.draw random (Bots.mkRange (Some lo) (Some hi)) = Some v /\
    lo <= v <= hi.
Proof.
  intros Hr Hle. eexists. split; [reflexivity|]. nra.
Qed.

Lemma on_place_bet_accepts env k d a w :
  Server.amount d = JS.Number a ->
  1 <= a <= 1000000000 ->
  canPlaceBet (Server.gameEngine w) = true ->
  threshold_rejected (JS.default_null (Server.autoCashOut d)) = false ->
  confirmed (snd (Server.on_place_bet env k (Some d) w)) = true.
Proof.
  intros Ha Hrange Hcan Hth. unfold Server.on_place_bet.
  assert (Hv : Server.isValidBet (Server.amount d) = true)
    by (apply isValidBet_spec; exists a; split; assumption).
  rewrite Hv, Hcan. cbn [negb].
  rewrite placeBet_spec, Hcan. cbn [negb].
  fold (threshold_rejected (JS.default_null (Server.autoCashOut d))).
  rewrite Hth.
  destruct (PlayerManager.getPlayer k (Server.playerManager w)) as [p|];
    [destruct (Rle_dec _ _)|]; reflexivity.
Qed.

Lemma toFixed_2_least x : 1 <= x -> 1 <= JS.toFixed 2 x.
Proof.
  intro Hlo. unfold JS.toFixed.
  assert (Habs : Rabs x = x) by (apply Rabs_right; lra).
  destruct (Rle_dec (10 ^ 21) (Rabs x)) as [H|_]; [exact Hlo|].
  destruct (Rlt_dec x 0) as [H|_]; [lra|].
  unfold JS.roundHalfUp.
  assert (H1 : (100 <= Zfloor (x * 10 ^ 2 + / 2))%Z)
    by (apply Zfloor_lub; lra).
  apply IZR_le in H1. lra.
Qed.

Lemma toFixed_2_above x : 1 <= x -> x - 0.005 < JS.toFixed 2 x.
Proof.
  intro Hlo. unfold JS.toFixed.
  assert (Habs : Rabs x = x) by (apply Rabs_right; lra).
  destruct (Rle_dec (10 ^ 21) (Rabs x)) as [H|_]; [lra|].
  destruct (Rlt_dec x 0) as [H|_]; [lra|].
  unfold JS.roundHalfUp.
  pose proof (Zfloor_bound (x * 10 ^ 2 + / 2)) as [Hb1 Hb2]. lra.
Qed.

Lemma isValidBet_number a :
  Server.isValidBet (JS.Number a) = true <-> 1 <= a <= 1000000000.
Proof.
  rewrite isValidBet_spec. split.
  - intros (x & Hx & Hr). injection Hx as <-. exact Hr.
  - intro Hr. exists a. split; [reflexivity | exact Hr].
Qed.

Lemma on_place_bet_invalid env k d w :
  Server.isValidBet (Server.amount d) = false ->
  Server.on_place_bet env k (Some d) w
  = (w, [Server.socket_error "Invalid bet amount"]).
Proof.
  intro Hv. unfold Server.on_place_bet. rewrite Hv. reflexivity.
Qed.

Lemma applySettings_sane settings c :
  Bots.sane c -> Bots.numeric settings ->
  Bots.sane (Bots.applySettings settings c).
Proof.
  intros (bmin & bmax & amin & amax & Hb & Hbr & Ha & Har) [Hnb Hna].
  unfold Bots.applySettings.
  destruct (Bots.not_nullish (Bots.betMin settings)
            && Bots.not_nullish (Bots.betMax settings)) eqn:Eb;
    destruct (Bots.not_nullish (Bots.autoMin settings)
              && Bots.not_nullish (Bots.autoMax settings)) eqn:Ea;
    cbn [Bots.maxBots Bots.cfg_bet Bots.cfg_auto Bots.cfg_betDelay].
  - destruct (Hnb eq_refl) as (x & y & -> & ->).
    destruct (Hna eq_refl) as (u & v & -> & ->).
    unfold Bots.sane. simpl. do 4 eexists.
    split; [reflexivity|]. split; [|split; [reflexivity|]].
    + split; [apply Rmax_l | apply Rmax_l].
    + split; [apply Rmax_l|].
      eapply Rle_trans; [|apply Rmax_l]. lra.
  - destruct (Hnb eq_refl) as (x & y & -> & ->).
    unfold Bots.sane. simpl. do 4 eexists.
    split; [reflexivity|]. split; [|split; [exact Ha|exact Har]].
    split; [apply Rmax_l | apply Rmax_l].
  - destruct (Hna eq_refl) as (u & v & -> & ->).
    unfold Bots.sane. simpl. do 4 eexists.
    split; [exact Hb|]. split; [exact Hbr|].
    split; [reflexivity|].
    split; [apply Rmax_l|].
    eapply Rle_trans; [|apply Rmax_l]. lra.
  - exists bmin, bmax, amin, amax. repeat split; assumption || lra.
Qed.

(** The form of the admin page sets no ceiling: with both stake fields at
    2000000000, every bot sends a stake above 1000000000, which the server
    turns down as an invalid amount. *)
Lemma bot_stake_above_ceiling (random1 random2 : R) :
  let settings := Bots.mkSettings (JS.Number 2000000000)
                    (JS.Number 2000000000) JS.Undefined JS.Undefined in
  let c' := Bots.applySettings settings Bots.BOT_CONFIG_DEFAULTS in
  exists a t,
    Bots.placeBet random1 random2 c' (Bots.mkBotClient true false)
    = (Some (Server.mkPlaceBetData (JS.Number a) (JS.Number t)),
       Bots.mkBotClient true true) /\
    1000000000 < a /\
    Server.isValidBet (JS.Number a) = false /\
    forall env k w,
      Server.on_place_bet env k
        (Some (Server.mkPlaceBetData (JS.Number a) (JS.Number t))) w
      = (w, [Server.socket_error "Invalid bet amount"]).
Proof.
  intros settings c'.
  assert (Hc' : Bots.cfg_bet c'
                = Bots.mkRange (Some 2000000000) (Some 2000000000)).
  { unfold c', settings, Bots.applySettings.
    cbn [Bots.betMin Bots.betMax Bots.autoMin Bots.autoMax Bots.not_nullish
         andb JS.ToNumber Bots.js_max Bots.lift2 Bots.cfg_bet].
    rewrite (Rmax_right 1 2000000000) by lra.
    rewrite (Rmax_right 2000000000 2000000000) by lra. reflexivity. }
  set (v := random1 * (2000000000 - 2000000000) + 2000000000).
  exists (JS.toFixed 2 v).
  eexists.
  assert (Hv : v = 2000000000) by (unfold v; lra).
  assert (Ha : 1000000000 < JS.toFixed 2 v).
  { pose proof (toFixed_2_above v). lra. }
  assert (Hinv : Server.isValidBet (JS.Number (JS.toFixed 2 v)) = false).
  { destruct (Server.isValidBet _) eqn:E; [|reflexivity].
    apply isValidBet_number in E. lra. }
  split.
  { unfold Bots.placeBet, Bots.randomBetAmount. rewrite Hc'.
    cbn [Bots.connected Bots.isBetPlaced negb orb]. reflexivity. }
  split; [exact Ha|]. split; [exact Hinv|].
  intros env k w. apply on_place_bet_invalid. exact Hinv.
Qed.

(** X27. What a bot bets, and when the server takes it.  Starting from a
    configuration whose stakes start at 1 and whose thresholds start at 1.01
    (the defaults do), and after settings that are numbers are applied, the
    configuration still does, and a connected bot that has not bet yet sends
    a [place_bet] whose amount, rounded to cents, is at least 1 and whose
    threshold is at least 1.01; it does not bet twice.  The server's
    validation lets the amount through exactly when it is at most
    1000000000, which it is whenever the largest stake configured is: then
    the server confirms the bet whenever the engine takes bets.  Neither
    [applySettings] nor the form sets that ceiling: an amount above
    1000000000 is turned down as an invalid bet amount, and nothing
    changes on the server. *)
Theorem bot_bets_are_taken
    (settings : Bots.Settings) (c : Bots.BotConfig) (b : Bots.BotClient)
    (random1 random2 : R) :
  Bots.sane c ->
  Bots.numeric settings ->
  0 <= random1 < 1 ->
  0 <= random2 < 1 ->
  Bots.connected b = true ->
  Bots.isBetPlaced b = false ->
  let c' := Bots.applySettings settings c in
  Bots.sane c' /\
  exists a t bmax,
    Bots.placeBet random1 random2 c' b
    = (Some (Server.mkPlaceBetData (JS.Number a) (JS.Number t)),
       Bots.mkBotClient true true) /\
    Bots.max_stake c' = Some bmax /\
    1 <= a /\
    1.01 <= t /\
    (Server.isValidBet (JS.Number a) = true <-> a <= 1000000000) /\
    (bmax <= 1000000000 -> a <= 1000000000) /\
    (forall env k w,
       a <= 1000000000 ->
       canPlaceBet (Server.gameEngine w) = true ->
       confirmed
         (snd (Server.on_place_bet env k
                 (Some (Server.mkPlaceBetData (JS.Number a) (JS.Number t)))
                 w)) = true) /\
    (forall env k w,
       1000000000 < a ->
       Server.on_place_bet env k
         (Some (Server.mkPlaceBetData (JS.Number a) (JS.Number t))) w
       = (w, [Server.socket_error "Invalid bet amount"])) /\
    fst (Bots.placeBet random1 random2 c'
           (snd (Bots.placeBet random1 random2 c' b))) = None.
Proof.
  intros Hc Hs Hr1 Hr2 Hconn Hbet c'.
  assert (Hc' : Bots.sane c') by (apply applySettings_sane; assumption).
  split; [exact Hc'|].
  destruct Hc' as (bmin & bmax & amin & amax & Hb & Hbr & Ha & Har).
  destruct (draw_between random1 bmin bmax Hr1 (proj2 Hbr))
    as (v1 & Hv1 & Hv1r).
  destruct (draw_between random2 amin amax Hr2 (proj2 Har))
    as (v2 & Hv2 & Hv2r).
  exists (JS.toFixed 2 v1), (JS.toFixed 2 v2), bmax.
  assert (Hleast : 1 <= JS.toFixed 2 v1) by (apply toFixed_2_least; lra).
  assert (Hthr : 1.01 <= JS.toFixed 2 v2)
    by (apply toFixed_2_threshold; lra).
  split.
  { unfold Bots.placeBet, Bots.randomBetAmount, Bots.randomAutoCashOut.
    rewrite Hconn, Hbet, Hb, Ha, Hv1, Hv2. reflexivity. }
  split; [unfold Bots.max_stake; rewrite Hb; reflexivity|].
  split; [exact Hleast|]. split; [exact Hthr|]. split.
  { rewrite isValidBet_number. split; [intro H; apply H|].
    intro H. split; assumption. }
  split.
  { intro Hmax. apply toFixed_2_stake. lra. }
  split.
  { intros env k w Hle Hcan.
    apply (on_place_bet_accepts env k _ (JS.toFixed 2 v1));
      [reflexivity | split; assumption | exact Hcan|].
    cbn [Server.autoCashOut JS.default_null].
    destruct (threshold_rejected (JS.Number (JS.toFixed 2 v2))) eqn:Hrej;
      [|reflexivity].
    apply threshold_rejected_number in Hrej. exfalso. lra. }
  split.
  { intros env k w Hgt. apply on_place_bet_invalid.
    cbn [Server.amount].
    destruct (Server.isValidBet _) eqn:E; [|reflexivity].
    apply isValidBet_number in E. lra. }
  unfold Bots.placeBet. rewrite Hconn, Hbet. cbn [negb orb snd fst].
  reflexivity.
Qed.

Lemma bot_bets_are_taken_witness :
  let settings := Bots.mkSettings (JS.Number 5) (JS.Number 20)
                    JS.Undefined JS.Undefined in
  let c := Bots.BOT_CONFIG_DEFAULTS in
  let b := Bots.mkBotClient true false in
  let c' := Bots.applySettings settings c in
  Bots.sane c /\ Bots.numeric settings /\
  0 <= 0.5 < 1 /\ 0 <= 0.25 < 1 /\
  Bots.connected b = true /\ Bots.isBetPlaced b = false /\
  Bots.sane c' /\
  exists a t bmax,
    Bots.placeBet 0.5 0.25 c' b
    = (Some (Server.mkPlaceBetData (JS.Number a) (JS.Number t)),
       Bots.mkBotClient true true) /\
    Bots.max_stake c' = Some bmax /\
    1 <= a /\
    1.01 <= t /\
    (Server.isValidBet (JS.Number a) = true <-> a <= 1000000000) /\
    (bmax <= 1000000000 -> a <= 1000000000) /\
    (forall env k w,
       a <= 1000000000 ->
       canPlaceBet (Server.gameEngine w) = true ->
       confirmed
         (snd (Server.on_place_bet env k
                 (Some (Server.mkPlaceBetData (JS.Number a) (JS.Number t)))
                 w)) = true) /\
    (forall env k w,
       1000000000 < a ->
       Server.on_place_bet env k
         (Some (Server.mkPlaceBetData (JS.Number a) (JS.Number t))) w
       = (w, [Server.socket_error "Invalid bet amount"])) /\
    fst (Bots.placeBet 0.5 0.25 c'
           (snd (Bots.placeBet 0.5 0.25 c' b))) = None.
Proof.
  intros settings c b c'.
  assert (H1 : Bots.sane c).
  { exists 10, 50, 1.8, 3.5. simpl. repeat split; lra. }
  assert (H2 : Bots.numeric settings).
  { split.
    - intros _. exists 5, 20. simpl. split; reflexivity.
    - simpl. discriminate. }
  assert (H3 : 0 <= 0.5 < 1) by lra.
  assert (H4 : 0 <= 0.25 < 1) by lra.
  split; [exact H1|]. split; [exact H2|]. split; [exact H3|].
  split; [exact H4|]. split; [reflexivity|]. split; [reflexivity|].
  apply (bot_bets_are_taken settings c b 0.5 0.25 H1 H2 H3 H4
           eq_refl eq_refl).
Defined.

(** * The terms of a wager *)

Lemma same_terms_refl pd : same_terms pd pd.
Proof. repeat split; auto. Qed.

Lemma same_terms_won pd : same_terms pd (won pd).
Proof. repeat split; auto. Qed.

Lemma loop_terms e p pd :
  NoDup (keys (activePlayers e)) ->
  map_get p (activePlayers e) = Some pd ->
  exists pd',
    map_get p
      (activePlayers
         (snd (fst (forEach (activePlayers e) checkAutoCashOuts_body e))))
    = Some pd' /\
    same_terms pd pd'.
Proof.
  intros Hnd Hg.
  set (e' := snd (fst (forEach (activePlayers e) checkAutoCashOuts_body e))).
  assert (Hkeys : keys (activePlayers e') = keys (activePlayers e)).
  { apply loop_keys. intros q pdq Hin. apply (in_map fst) in Hin. exact Hin. }
  assert (Hin : In p (keys (activePlayers e')))
    by (rewrite Hkeys; apply map_get_keys; congruence).
  apply map_get_keys in Hin.
  destruct (map_get p (activePlayers e')) as [pd'|] eqn:Hg'; [|congruence].
  exists pd'. split; [reflexivity|].
  pose proof (map_get_In _ _ _ Hg) as Hpd.
  destruct (loop_entries _ _ _ _ (map_get_In _ _ _ Hg'))
    as [H|(pd0 & H0 & ->)].
  - rewrite (NoDup_keys_In_get p pd' _ Hnd H) in Hg.
    injection Hg as ->. apply same_terms_refl.
  - rewrite (NoDup_keys_In_get p pd0 _ Hnd H0) in Hg.
    injection Hg as ->. apply same_terms_won.
Qed.

(** X28. The terms of a wager are fixed once it is placed: on a reachable
    engine, whatever the step, as long as it is neither the player leaving
    nor the player betting again and it does not settle the round, the
    player's wager is still there afterwards with the same stake, the same
    threshold and the same time of placing, and stays won if it had won. *)
Theorem wager_terms_are_fixed
    (env : Env) (i : Input) (e : GameEngine) (p : string) (pd : PlayerData) :
  reachable e ->
  map_get p (activePlayers e) = Some pd ->
  i <> call_removePlayer p ->
  is_placeBet_for p i = false ->
  Forall not_settlement (snd (handle env i e)) ->
  exists pd',
    map_get p (activePlayers (snd (fst (handle env i e)))) = Some pd' /\
    same_terms pd pd'.
Proof.
  intros Hr Hg Hrem Hbet Hquiet.
  assert (Hsame : exists pd',
            map_get p (activePlayers e) = Some pd' /\ same_terms pd pd')
    by (exists pd; split; [exact Hg | apply same_terms_refl]).
  destruct (reachable_wagers_agree e Hr) as (Hnd & _).
  rewrite handle_events in Hquiet. rewrite handle_engine.
  destruct i.
  - simpl in Hbet. apply String.eqb_neq in Hbet.
    rewrite placeBet_spec.
    destruct (negb (canPlaceBet e)); [exact Hsame|].
    destruct (JS.truthy _ && _); [exact Hsame|].
    cbn [fst snd]. simpl. rewrite map_get_set_other by exact Hbet.
    exact Hsame.
  - rewrite cashOut_spec.
    destruct (negb (state_eqb (state e) FLYING)); [exact Hsame|].
    destruct (map_get playerId (activePlayers e)) as [pdq|] eqn:Hq;
      [|exact Hsame].
    destruct (set_has playerId (cashedOutPlayers e)); [exact Hsame|].
    cbn [fst snd]. simpl.
    destruct (string_dec p playerId) as [->|Hne].
    + rewrite map_get_set_same. rewrite Hg in Hq. injection Hq as <-.
      exists (won pd). split; [reflexivity | apply same_terms_won].
    + rewrite map_get_set_other by exact Hne. exact Hsame.
  - rewrite removePlayer_spec. cbn [fst snd]. simpl.
    rewrite map_get_delete_other; [exact Hsame|].
    intros ->. apply Hrem. reflexivity.
  - rewrite forceCrash_spec in *.
    destruct (negb (state_eqb (state e) FLYING)); [exact Hsame|].
    exfalso. cbn [snd] in Hquiet.
    destruct (crashGame_spec env (Some reason) e) as (Hev & _).
    rewrite Hev in Hquiet.
    destruct (crash_events_has_settlement env e) as (fm & ls & ps & Hin).
    rewrite Forall_forall in Hquiet. apply (Hquiet _ Hin).
  - rewrite stop_spec. exact Hsame.
  - rewrite fire_timeout_spec.
    destruct (stateTimeout e) as [[| |]|]; exact Hsame.
  - rewrite fire_interval_spec in *.
    destruct (gameLoopInterval e); [|exact Hsame].
    destruct (state_eqb (state e) FLYING) eqn:Hst.
    + apply state_eqb_spec in Hst.
      rewrite (updateGame_spec env e Hst) in *.
      destruct (tick_crashes env e); cbn [fst snd] in *.
      * exfalso.
        destruct (crashGame_spec env None (tick_engine env e)) as (Hev & _).
        rewrite Hev in Hquiet.
        destruct (crash_events_has_settlement env (tick_engine env e))
          as (fm & ls & ps & Hin).
        rewrite Forall_forall in Hquiet.
        apply (Hquiet (round_settled fm ls ps)).
        apply in_or_app. right. exact Hin.
      * rewrite checkAutoCashOuts_unfold.
        apply loop_terms; rewrite tick_engine_activePlayers; assumption.
    + rewrite updateGame_idle
        by (intro H; rewrite H in Hst; discriminate).
      exact Hsame.
Qed.

Lemma wager_terms_are_fixed_witness :
  let env := mkEnv 7000 0 in
  let i := call_cashOut "p1" in
  let pd := mkPlayerData 100 JS.Null false 100 in
  reachable betting_flight /\
  map_get "p1" (activePlayers betting_flight) = Some pd /\
  i <> call_removePlayer "p1" /\
  is_placeBet_for "p1" i = false /\
  Forall not_settlement (snd (handle env i betting_flight)) /\
  exists pd',
    map_get "p1"
      (activePlayers (snd (fst (handle env i betting_flight)))) = Some pd' /\
    same_terms pd pd'.
Proof.
  intros env i pd.
  assert (H1 : map_get "p1" (activePlayers betting_flight) = Some pd)
    by reflexivity.
  assert (H2 : i <> call_removePlayer "p1") by discriminate.
  assert (H3 : is_placeBet_for "p1" i = false) by reflexivity.
  assert (H4 : Forall not_settlement (snd (handle env i betting_flight)))
    by (apply handle_quiet; reflexivity).
  split; [exact betting_flight_reachable|]. split; [exact H1|].
  split; [exact H2|]. split; [exact H3|]. split; [exact H4|].
  apply (wager_terms_are_fixed env i betting_flight "p1" pd
           betting_flight_reachable H1 H2 H3 H4).
Defined.

(** * What a connecting player is told *)

Lemma crashed_agree_same e e' :
  state e' = state e -> multiplier e' = multiplier e ->
  history e' = history e -> crashed_agree e -> crashed_agree e'.
Proof. unfold crashed_agree. intros -> -> ->. tauto. Qed.

Lemma crashed_agree_step env i e :
  numbers_agree e -> crashed_agree e ->
  crashed_agree (snd (fst (handle env i e))).
Proof.
  intros (Hset & _ & _ & Hlen) He. apply handle_engine_cases; try exact He.
  - intros p a v _. apply (crashed_agree_same e); auto.
  - intros p pd _ _ _. apply (crashed_agree_same e); auto.
  - intro p. apply (crashed_agree_same e); auto.
  - intros env' trigger e0 _ He0 _.
    destruct (crashGame_spec env' trigger e0)
      as (_ & _ & Hm & _ & _ & _ & _ & _ & Hh).
    rewrite Hh, Hm.
    assert (Hcfg : config e0 = config e)
      by (destruct He0 as [->| ->]; [|rewrite tick_engine_config]; auto).
    assert (Hh0 : history e0 = history e)
      by (destruct He0 as [->| ->]; [|rewrite tick_engine_history]; auto).
    assert (Hcap : historySize (config e) = 20%nat)
      by (unfold settings in Hset; injection Hset as -> _; reflexivity).
    rewrite Hcfg, Hh0, Hcap, pushed_history_firstn by exact Hlen.
    reflexivity.
  - intro H. discriminate.
  - intros cb _. destruct cb; intro H; discriminate.
  - intros Hst _ _. unfold crashed_agree.
    rewrite (checkAutoCashOuts_keeps state), tick_engine_state, Hst by auto.
    discriminate.
Qed.

Lemma reachable_crashed_agree e : reachable e -> crashed_agree e.
Proof.
  intro Hr. pattern e. revert e Hr. apply reachable_ind.
  - intro env. intro H. discriminate.
  - intros env i e Hr H. apply crashed_agree_step; [|exact H].
    apply reachable_numbers_agree. exact Hr.
Qed.

(** X29. What a connecting player is told fits the engine: in WAITING and
    STARTING the state and the round counter only; in flight also the
    multiplier, between 1 and 250, and the flight time in seconds (for a
    take-off at a non-zero clock reading); while the crash is displayed the
    final multiplier, between 1 and 250, whose rounding to cents is the
    newest entry of the history sent along. *)
Theorem connecting_player_is_told (env : Env) (e : GameEngine) :
  reachable e ->
  match state e with
  | WAITING | STARTING =>
      getCurrentState env e = state_base (state e) (gameId e)
  | FLYING =>
      exists m t,
        getCurrentState env e = state_flying FLYING (gameId e) m t /\
        m = multiplier e /\ 1 <= m <= 250 /\
        (startTime_truthy e = true -> t = (now env - startTime_num e) / 1000)
  | CRASHED =>
      exists m,
        getCurrentState env e = state_crashed CRASHED (gameId e) m /\
        1 <= m <= 250 /\
        hd_error (getHistory e) = Some (JS.toFixed 2 m)
  end.
Proof.
  intro Hr.
  destruct (reachable_numbers_agree e Hr) as (_ & Hm & _ & _).
  pose proof (reachable_crashed_agree e Hr) as Hc.
  unfold getCurrentState, getHistory.
  destruct (state e) eqn:Hst; try reflexivity.
  - eexists. eexists. split; [reflexivity|]. split; [reflexivity|].
    split; [exact Hm|]. intros ->. reflexivity.
  - eexists. split; [reflexivity|]. split; [exact Hm|].
    apply Hc. exact Hst.
Qed.

Lemma connecting_player_is_told_witness :
  let env := mkEnv 7000 0 in
  reachable flying_engine /\
  match state flying_engine with
  | WAITING | STARTING =>
      getCurrentState env flying_engine
      = state_base (state flying_engine) (gameId flying_engine)
  | FLYING =>
      exists m t,
        getCurrentState env flying_engine
        = state_flying FLYING (gameId flying_engine) m t /\
        m = multiplier flying_engine /\ 1 <= m <= 250 /\
        (startTime_truthy flying_engine = true ->
         t = (now env - startTime_num flying_engine) / 1000)
  | CRASHED =>
      exists m,
        getCurrentState env flying_engine
        = state_crashed CRASHED (gameId flying_engine) m /\
        1 <= m <= 250 /\
        hd_error (getHistory flying_engine) = Some (JS.toFixed 2 m)
  end.
Proof.
  intro env. split; [exact flying_engine_reachable|].
  apply (connecting_player_is_told env flying_engine
           flying_engine_reachable).
Defined.

(** * Take-off *)

(** X30. Take-off is clean: when a step takes an engine from another
    state into FLYING, the round counter goes up by one, the multiplier is
    1, the start time is the clock reading, nobody is marked settled and
    every wager placed before is still there, so that a cash-out at that
    very moment succeeds and returns exactly the stake. *)
Theorem cash_out_at_take_off
    (env : Env) (i : Input) (e : GameEngine) (p : string) (pd : PlayerData) :
  state e <> FLYING ->
  state (snd (fst (handle env i e))) = FLYING ->
  map_get p (activePlayers e) = Some pd ->
  let e' := snd (fst (handle env i e)) in
  gameId e' = S (gameId e) /\
  multiplier e' = 1 /\
  startTime e' = Some (now env) /\
  cashedOutPlayers e' = [] /\
  activePlayers e' = activePlayers e /\
  fst (fst (cashOut p e')) = cashOut_ok 1 (bet pd * 1) (bet pd).
Proof.
  intros Hst Hfly Hg e'. subst e'. revert Hfly.
  rewrite handle_engine. destruct i.
  - rewrite placeBet_spec.
    destruct (negb (canPlaceBet e)); [intro; contradiction|].
    destruct (JS.truthy _ && _); intro; contradiction.
  - rewrite cashOut_spec.
    destruct (negb (state_eqb (state e) FLYING)); [intro; contradiction|].
    destruct (map_get playerId (activePlayers e)); [|intro; contradiction].
    destruct (set_has playerId (cashedOutPlayers e)); intro; contradiction.
  - rewrite removePlayer_spec. intro. contradiction.
  - rewrite forceCrash_spec.
    destruct (state_eqb (state e) FLYING) eqn:Hs; cbn [negb fst snd].
    + apply state_eqb_spec in Hs. contradiction.
    + intro. contradiction.
  - rewrite stop_spec. discriminate.
  - rewrite fire_timeout_spec.
    destruct (stateTimeout e) as [[| |]|]; cbn [run_callback];
      try discriminate; [|intro; contradiction].
    rewrite startGame_spec. cbn [fst snd]. intros _.
    split; [reflexivity|]. split; [reflexivity|]. split; [reflexivity|].
    split; [reflexivity|]. split; [reflexivity|].
    rewrite cashOut_spec. simpl. rewrite Hg. reflexivity.
  - rewrite fire_interval_spec.
    destruct (gameLoopInterval e); [|intro; contradiction].
    rewrite updateGame_idle by exact Hst. intro. contradiction.
Qed.

Lemma cash_out_at_take_off_witness :
  let env := mkEnv 6000 0 in
  let e := betting_countdown in
  let pd := mkPlayerData 100 JS.Null false 100 in
  let e' := snd (fst (handle env timeout_fires e)) in
  state e <> FLYING /\ state e' = FLYING /\
  map_get "p1" (activePlayers e) = Some pd /\
  gameId e' = S (gameId e) /\
  multiplier e' = 1 /\
  startTime e' = Some (now env) /\
  cashedOutPlayers e' = [] /\
  activePlayers e' = activePlayers e /\
  fst (fst (cashOut "p1" e')) = cashOut_ok 1 (bet pd * 1) (bet pd).
Proof.
  intros env e pd e'.
  assert (H2 : state e <> FLYING) by discriminate.
  assert (H3 : state e' = FLYING) by reflexivity.
  assert (H4 : map_get "p1" (activePlayers e) = Some pd) by reflexivity.
  split; [exact H2|]. split; [exact H3|]. split; [exact H4|].
  apply (cash_out_at_take_off env timeout_fires e "p1" pd H2 H3 H4).
Defined.
